(** * my-mega-memory: the normalisation and persistence pipeline

    A shallow embedding of the TypeScript sources of my-mega-memory:
    the canonical message model ([types.ts]), the tool-call correlator of
    the Claude and Codex parsers, the project identifier
    ([generateProjectUuid]), the epoch conversion ([toDateTimeString]),
    the search repository and the session importer with its two stores.

    JavaScript strings are modelled as byte strings ([string]): the text in
    its UTF-8 encoding.  Optional properties ([x?: T]) are [option T];
    [undefined] is [None]. *)

From Stdlib Require Import ZArith List String Ascii Bool Lia Permutation.
From Stdlib Require QArith Qround.
From stdpp Require Import gmap strings pretty sorting.
Import ListNotations.

Local Open Scope string_scope.
Local Open Scope list_scope.

(** ** JavaScript strings *)

Module Js.

(** The double quote and the backslash, by character code. *)
Definition dquote : ascii := "034"%char.
Definition backslash : ascii := "092"%char.

(** Truthiness of a string: only the empty string is falsy. *)
Definition truthyS (s : string) : bool :=
  match s with EmptyString => false | String _ _ => true end.

(** Truthiness of an optional string: [undefined] and the empty string are
    falsy. *)
Definition truthy (o : option string) : bool :=
  match o with Some s => truthyS s | None => false end.

(** Strict equality [===] on optional strings: [undefined === undefined]
    holds. *)
Definition strictEq (a b : option string) : bool :=
  match a, b with
  | Some x, Some y => String.eqb x y
  | None, None => true
  | _, _ => false
  end.

(** [a || b] on an optional string with a string fallback. *)
Definition orElse (a : option string) (b : string) : string :=
  match a with
  | Some s => if truthyS s then s else b
  | None => b
  end.

Fixpoint concat (l : list string) : string :=
  match l with
  | [] => EmptyString
  | s :: r => s ++ concat r
  end.

(** [Array.prototype.join]. *)
Fixpoint join (sep : string) (l : list string) : string :=
  match l with
  | [] => EmptyString
  | [s] => s
  | s :: r => s ++ sep ++ join sep r
  end.

(** [String.prototype.substring(a, b)] for [0 <= a <= b]; positions past
    the end are clamped to the length. *)
Fixpoint drop (n : nat) (s : string) : string :=
  match n, s with
  | O, _ => s
  | S _, EmptyString => EmptyString
  | S k, String _ r => drop k r
  end.

Fixpoint take (n : nat) (s : string) : string :=
  match n, s with
  | O, _ => EmptyString
  | S _, EmptyString => EmptyString
  | S k, String c r => String c (take k r)
  end.

Definition substring (a b : nat) (s : string) : string :=
  take (b - a) (drop a s).

(** Lower case for text of ASCII characters: the letters A to Z become a
    to z. *)
Definition lowerChar (c : ascii) : ascii :=
  let n := nat_of_ascii c in
  if (65 <=? n)%nat && (n <=? 90)%nat then ascii_of_nat (n + 32) else c.

Fixpoint lowerAscii (s : string) : string :=
  match s with
  | EmptyString => EmptyString
  | String c r => String (lowerChar c) (lowerAscii r)
  end.

(** The text has ASCII characters only: every byte is below 128. *)
Fixpoint isAscii (s : string) : bool :=
  match s with
  | EmptyString => true
  | String c r => (nat_of_ascii c <? 128)%nat && isAscii r
  end.

(** [String.prototype.toLowerCase].  The case mapping of the characters
    outside ASCII is the engine's table of the Unicode standard, which is
    not written out here: [toLowerCase] is any function that agrees with
    [lowerAscii] on text of ASCII characters. *)
Class Unicode : Type := {
  toLowerCase : string -> string;
  toLowerCase_ascii : forall s, isAscii s = true -> toLowerCase s = lowerAscii s
}.

(** [s.replace(/c/g, d)] for a single character [c]. *)
Fixpoint replaceAllChar (c : ascii) (d : string) (s : string) : string :=
  match s with
  | EmptyString => EmptyString
  | String x r =>
      (if Ascii.eqb x c then d else String x EmptyString)
        ++ replaceAllChar c d r
  end.

(** [s.replace(/c$/, '')]: drops one [c] at the very end of the input. *)
Fixpoint stripTrailingChar (c : ascii) (s : string) : string :=
  match s with
  | EmptyString => EmptyString
  | String x EmptyString => if Ascii.eqb x c then EmptyString else s
  | String x r => String x (stripTrailingChar c r)
  end.

(** The characters of a text, each as the bytes of its UTF-8 encoding: a
    byte of the form 10xxxxxx continues the character before it, every
    other byte starts one. *)
Definition isContinuation (c : ascii) : bool :=
  let n := nat_of_ascii c in (128 <=? n)%nat && (n <? 192)%nat.

Definition startsContinued (t : string) : bool :=
  match t with
  | String c _ => isContinuation c
  | EmptyString => false
  end.

Fixpoint chars (s : string) : list string :=
  match s with
  | EmptyString => []
  | String c r =>
      match chars r with
      | t :: l => if startsContinued t then String c t :: l
                  else String c EmptyString :: t :: l
      | [] => [String c EmptyString]
      end
  end.

(** The text made of a list of characters. *)
Fixpoint joinChars (l : list string) : string :=
  match l with
  | [] => EmptyString
  | t :: r => t ++ joinChars r
  end.

Definition utf8 (bytes : list nat) : string :=
  string_of_list_ascii (List.map ascii_of_nat bytes).

(** The white space of [\s] and of [trim], in UTF-8: TAB, LF, VT, FF, CR,
    SP, U+00A0, U+1680, U+2000 to U+200A, U+2028, U+2029, U+202F, U+205F,
    U+3000 and U+FEFF. *)
Definition whiteSpace : list string :=
  List.map utf8
    [[9]; [10]; [11]; [12]; [13]; [32]; [194; 160]; [225; 154; 128];
     [226; 128; 128]; [226; 128; 129]; [226; 128; 130]; [226; 128; 131];
     [226; 128; 132]; [226; 128; 133]; [226; 128; 134]; [226; 128; 135];
     [226; 128; 136]; [226; 128; 137]; [226; 128; 138];
     [226; 128; 168]; [226; 128; 169]; [226; 128; 175]; [226; 129; 159];
     [227; 128; 128]; [239; 187; 191]]%nat.

Definition isWhiteSpace (ch : string) : bool := existsb (String.eqb ch) whiteSpace.

(** [String.prototype.trim], on the characters. *)
Fixpoint trimStart (l : list string) : list string :=
  match l with
  | ch :: r => if isWhiteSpace ch then trimStart r else l
  | [] => []
  end.

Fixpoint trimEnd (l : list string) : list string :=
  match l with
  | [] => []
  | ch :: r =>
      match trimEnd r with
      | [] => if isWhiteSpace ch then [] else [ch]
      | r' => ch :: r'
      end
  end.

Definition trim (s : string) : string := joinChars (trimEnd (trimStart (chars s))).

Definition hexDigit (n : nat) : ascii :=
  match n with
  | 0 => "0" | 1 => "1" | 2 => "2" | 3 => "3" | 4 => "4" | 5 => "5"
  | 6 => "6" | 7 => "7" | 8 => "8" | 9 => "9" | 10 => "a" | 11 => "b"
  | 12 => "c" | 13 => "d" | 14 => "e" | _ => "f"
  end%char.

End Js.

(** ** The canonical model ([types.ts]) *)

Inductive MessageContent : Type :=
| text (text : string)
| code (code : string) (language : option string)
| markdown (markdown : string)
| json (json : string)
| diff (oldText newText : string) (filePath : option string)
| html (html : string).

Record ToolResult : Type := mkToolResult {
  output : string;
  isError : bool;
  toolCallId : option string
}.

Inductive InfoStyle : Type := style_default | style_error.

Inductive ParsedMessage : Type :=
| user (timestamp : string) (content : list MessageContent)
| assistant_text (timestamp : string) (content : list MessageContent)
| assistant_thinking (timestamp : string) (thinking : string)
| tool_use (timestamp : string) (toolName : string)
           (toolCallId : option string) (input : list (string * string))
           (results : list ToolResult)
| tool_result (timestamp : string) (toolName : option string)
              (toolCallId : option string) (output : list MessageContent)
              (isError : bool)
| info (timestamp : string) (title : string) (subtitle : option string)
       (content : option MessageContent) (style : InfoStyle).

(** ** [JSON.stringify] on content blocks

    Properties are written in the order of their declaration in [types.ts],
    [type] first, which is the order every object literal of the
    repository uses; a property that is [undefined] is left out. *)

Module Json.

Definition escapeChar (c : ascii) : string :=
  let n := nat_of_ascii c in
  if Ascii.eqb c Js.dquote then String Js.backslash (String Js.dquote EmptyString)
  else if Ascii.eqb c Js.backslash then String Js.backslash (String Js.backslash EmptyString)
  else if (n =? 8)%nat then String Js.backslash "b"
  else if (n =? 9)%nat then String Js.backslash "t"
  else if (n =? 10)%nat then String Js.backslash "n"
  else if (n =? 12)%nat then String Js.backslash "f"
  else if (n =? 13)%nat then String Js.backslash "r"
  else if (n <? 32)%nat then
    String Js.backslash
      ("u00" ++ String (Js.hexDigit (n / 16)) (String (Js.hexDigit (n mod 16)) EmptyString))
  else String c EmptyString.

Fixpoint escape (s : string) : string :=
  match s with
  | EmptyString => EmptyString
  | String c r => escapeChar c ++ escape r
  end.

Definition quote (s : string) : string :=
  String Js.dquote (escape s ++ String Js.dquote EmptyString).

Definition prop (k v : string) : string := quote k ++ ":" ++ quote v.

Definition optProp (k : string) (v : option string) : list string :=
  match v with Some s => [prop k s] | None => [] end.

Definition object (props : list string) : string :=
  "{" ++ Js.join "," props ++ "}".

Definition stringifyContent (c : MessageContent) : string :=
  match c with
  | text t => object [prop "type" "text"; prop "text" t]
  | code c l => object ([prop "type" "code"; prop "code" c] ++ optProp "language" l)
  | markdown m => object [prop "type" "markdown"; prop "markdown" m]
  | json j => object [prop "type" "json"; prop "json" j]
  | diff o n p =>
      object ([prop "type" "diff"; prop "oldText" o; prop "newText" n]
                ++ optProp "filePath" p)
  | html h => object [prop "type" "html"; prop "html" h]
  end.

Definition stringify (l : list MessageContent) : string :=
  "[" ++ Js.join "," (List.map stringifyContent l) ++ "]".

End Json.

(** ** The tool-call correlator

    [ClaudeSessionParser.connectToolResultsToToolUse] and
    [CodexSessionParser.connectToolOutputsToToolCalls] have the same body;
    both are written out. *)

Module Correlator.

(** The [results.map(r => ...)] callback: a [tool_result] reduced to a
    [ToolResult].  The map only ever holds [tool_result] messages (see
    [CorrelatorFacts.index_lookup]); the last branch is what the cast leaves
    for any other message: no [output] and no [isError]. *)
Definition toToolResult (r : ParsedMessage) : ToolResult :=
  match r with
  | tool_result _ _ callId out isErr =>
      {| output := match out with
                   | code c _ :: _ => c
                   | _ => Json.stringify out
                   end;
         isError := isErr || false;
         toolCallId := callId |}
  | tool_use _ _ callId _ _ =>
      {| output := EmptyString; isError := false; toolCallId := callId |}
  | _ => {| output := EmptyString; isError := false; toolCallId := None |}
  end.

(** First loop: [toolResultsByCallId]. *)
Definition indexStep (m : gmap string (list ParsedMessage)) (msg : ParsedMessage)
  : gmap string (list ParsedMessage) :=
  match msg with
  | tool_result _ _ (Some callId) _ _ =>
      if Js.truthyS callId
      then <[callId := default [] (m !! callId) ++ [msg]]> m
      else m
  | _ => m
  end.

Definition indexToolResults (rawMessages : list ParsedMessage)
  : gmap string (list ParsedMessage) :=
  fold_left indexStep rawMessages ∅.

(** [rawMessages.some(m => m.type === 'tool_use' && m.toolCallId === callId)]. *)
Definition isToolUseWith (callId : option string) (m : ParsedMessage) : bool :=
  match m with
  | tool_use _ _ c _ _ => Js.strictEq c callId
  | _ => false
  end.

Definition hasMatchingToolUse (rawMessages : list ParsedMessage)
           (callId : option string) : bool :=
  existsb (isToolUseWith callId) rawMessages.

(** Membership in [connectedCallIds]. *)
Definition connected (s : gset string) (callId : option string) : bool :=
  match callId with
  | Some c => bool_decide (c ∈ s)
  | None => false
  end.

(** One iteration of the second loop, on the pair
    [(connectedCallIds, result)]. *)
Definition connectStep (rawMessages : list ParsedMessage)
           (toolResultsByCallId : gmap string (list ParsedMessage))
           (st : gset string * list ParsedMessage) (msg : ParsedMessage)
  : gset string * list ParsedMessage :=
  let '(connectedCallIds, result) := st in
  match msg with
  | tool_use ts name callId inp res =>
      match callId with
      | Some c =>
          if Js.truthyS c then
            match toolResultsByCallId !! c with
            | Some results =>
                ({[c]} ∪ connectedCallIds,
                 result ++ [tool_use ts name callId inp (List.map toToolResult results)])
            | None => (connectedCallIds, result ++ [msg])
            end
          else (connectedCallIds, result ++ [msg])
      | None => (connectedCallIds, result ++ [msg])
      end
  | tool_result _ _ callId _ _ =>
      if negb (Js.truthy callId) || negb (connected connectedCallIds callId) then
        if negb (hasMatchingToolUse rawMessages callId)
        then (connectedCallIds, result ++ [msg])
        else st
      else st
  | _ => (connectedCallIds, result ++ [msg])
  end.

Definition connect (rawMessages : list ParsedMessage) : list ParsedMessage :=
  snd (fold_left (connectStep rawMessages (indexToolResults rawMessages))
                 rawMessages (∅, [])).

(** The identifier a tool message carries. *)
Definition callIdOf (m : ParsedMessage) : option string :=
  match m with
  | tool_use _ _ c _ _ => c
  | tool_result _ _ c _ _ => c
  | _ => None
  end.

Definition carries (c : string) (m : ParsedMessage) : bool :=
  Js.strictEq (callIdOf m) (Some c).

Definition isResultWith (c : string) (m : ParsedMessage) : bool :=
  match m with
  | tool_result _ _ (Some c') _ _ => String.eqb c' c
  | _ => false
  end.

(** What one message contributes to the output, given the whole input and
    the index of its results: the second loop without its set. *)
Definition emit (rawMessages : list ParsedMessage)
           (toolResultsByCallId : gmap string (list ParsedMessage))
           (msg : ParsedMessage) : list ParsedMessage :=
  match msg with
  | tool_use ts name (Some c) inp res =>
      if Js.truthyS c then
        match toolResultsByCallId !! c with
        | Some results => [tool_use ts name (Some c) inp (List.map toToolResult results)]
        | None => [msg]
        end
      else [msg]
  | tool_result _ _ callId _ _ =>
      if hasMatchingToolUse rawMessages callId then [] else [msg]
  | _ => [msg]
  end.

End Correlator.

Module Claude.
Definition connectToolResultsToToolUse (rawMessages : list ParsedMessage)
  : list ParsedMessage :=
  let toolResultsByCallId :=
    fold_left Correlator.indexStep rawMessages ∅ in
  snd (fold_left (Correlator.connectStep rawMessages toolResultsByCallId)
                 rawMessages (∅, [])).
End Claude.

Module Codex.
Definition connectToolOutputsToToolCalls (rawMessages : list ParsedMessage)
  : list ParsedMessage :=
  let toolResultsByCallId :=
    fold_left Correlator.indexStep rawMessages ∅ in
  snd (fold_left (Correlator.connectStep rawMessages toolResultsByCallId)
                 rawMessages (∅, [])).
End Codex.

(** ** SHA-1 (FIPS 180-4), the digest behind [createHash('sha1')] *)

Module Sha1.

Local Open Scope Z_scope.

Definition add32 (a b : Z) : Z := (a + b) mod 2 ^ 32.

Definition rotl (n x : Z) : Z :=
  Z.lor (Z.shiftl x n mod 2 ^ 32) (Z.shiftr x (32 - n)).

Definition not32 (x : Z) : Z := Z.lxor x 4294967295.

Definition bytesOfString (s : string) : list Z :=
  List.map (fun c => Z.of_nat (nat_of_ascii c)) (list_ascii_of_string s).

(** The bit length as eight big-endian bytes. *)
Definition lengthBytes (bits : Z) : list Z :=
  List.map (fun i => Z.shiftr bits (8 * i) mod 256) [7; 6; 5; 4; 3; 2; 1; 0].

(** Padding: a [0x80] byte, zero bytes up to 56 modulo 64, the bit length. *)
Definition pad (msg : list Z) : list Z :=
  let len := Z.of_nat (length msg) in
  msg ++ [128] ++ repeat 0 (Z.to_nat ((55 - len) mod 64)) ++ lengthBytes (8 * len).

Fixpoint wordsOf (bytes : list Z) : list Z :=
  match bytes with
  | a :: b :: c :: d :: r =>
      (((a * 256 + b) * 256 + c) * 256 + d) :: wordsOf r
  | _ => []
  end.

Fixpoint chunks (fuel : nat) (words : list Z) : list (list Z) :=
  match fuel with
  | O => []
  | S k =>
      match words with
      | [] => []
      | _ => firstn 16 words :: chunks k (skipn 16 words)
      end
  end.

Definition State : Type := (Z * Z * Z * Z * Z)%type.

Definition roundFK (t : nat) (b c d : Z) : Z * Z :=
  if (t <? 20)%nat then (Z.lor (Z.land b c) (Z.land (not32 b) d), 1518500249)
  else if (t <? 40)%nat then (Z.lxor (Z.lxor b c) d, 1859775393)
  else if (t <? 60)%nat then
    (Z.lor (Z.lor (Z.land b c) (Z.land b d)) (Z.land c d), 2400959708)
  else (Z.lxor (Z.lxor b c) d, 3395469782).

(** The eighty rounds over a sliding window of sixteen schedule words:
    the head is [w t], and [w (t+16)] is appended. *)
Fixpoint rounds (n : nat) (t : nat) (w : list Z) (s : State) : State :=
  match n with
  | O => s
  | S k =>
      let '(a, b, c, d, e) := s in
      let wt := nth 0 w 0 in
      let '(f, kt) := roundFK t b c d in
      let temp := add32 (add32 (add32 (add32 (rotl 5 a) f) e) kt) wt in
      let next :=
        rotl 1 (Z.lxor (Z.lxor (Z.lxor (nth 13 w 0) (nth 8 w 0)) (nth 2 w 0)) (nth 0 w 0)) in
      rounds k (S t) (tl w ++ [next]) (temp, a, rotl 30 b, c, d)
  end.

Definition compress (h : State) (block : list Z) : State :=
  let '(h0, h1, h2, h3, h4) := h in
  let '(a, b, c, d, e) := rounds 80 0 block h in
  (add32 h0 a, add32 h1 b, add32 h2 c, add32 h3 d, add32 h4 e).

Definition initial : State :=
  (1732584193, 4023233417, 2562383102, 271733878, 3285377520).

Definition wordBytes (w : Z) : list Z :=
  [Z.shiftr w 24 mod 256; Z.shiftr w 16 mod 256; Z.shiftr w 8 mod 256; w mod 256].

Definition digest (msg : list Z) : list Z :=
  let words := wordsOf (pad msg) in
  let '(h0, h1, h2, h3, h4) :=
    fold_left compress (chunks (length words) words) initial in
  wordBytes h0 ++ wordBytes h1 ++ wordBytes h2 ++ wordBytes h3 ++ wordBytes h4.

End Sha1.

(** ** [generateProjectUuid] ([utils/uuid.ts]) *)

Module Uuid.

Local Open Scope Z_scope.

Definition PROJECT_NAMESPACE : string := "6ba7b810-9dad-11d1-80b4-00c04fd430c8".

(** [Buffer.prototype.toString('hex')]. *)
Definition hexByte (b : Z) : string :=
  String (Js.hexDigit (Z.to_nat (b / 16)))
         (String (Js.hexDigit (Z.to_nat (b mod 16))) EmptyString).

Fixpoint hex (bytes : list Z) : string :=
  match bytes with
  | [] => EmptyString
  | b :: r => hexByte b ++ hex r
  end.

Section Identifier.
Context {unicode : Js.Unicode}.

(** The three [replace]/[toLowerCase] steps on the raw path. *)
Definition normalizePath (projectPath : string) : string :=
  Js.toLowerCase
    (Js.stripTrailingChar "/"%char
       (Js.replaceAllChar Js.backslash "/" projectPath)).

Definition generateProjectUuid (projectPath : string) : string :=
  let normalizedPath := normalizePath projectPath in
  (* hash.update(PROJECT_NAMESPACE); hash.update(normalizedPath) *)
  let digest :=
    Sha1.digest (Sha1.bytesOfString PROJECT_NAMESPACE
                   ++ Sha1.bytesOfString normalizedPath) in
  let digest := <[6%nat := Z.lor (Z.land (nth 6 digest 0) 15) 80]> digest in
  let digest := <[8%nat := Z.lor (Z.land (nth 8 digest 0) 63) 128]> digest in
  let hex := hex digest in
  Js.join "-"
    [Js.substring 0 8 hex; Js.substring 8 12 hex; Js.substring 12 16 hex;
     Js.substring 16 20 hex; Js.substring 20 32 hex].

End Identifier.

(** The shape of an RFC 4122 version-5 identifier: five groups of
    lowercase hexadecimal digits of lengths 8, 4, 4, 4 and 12 joined by
    hyphens, the third starting with 5 and the fourth with 8, 9, a or b. *)
Definition isLowerHex (c : ascii) : bool :=
  let n := nat_of_ascii c in
  ((48 <=? n)%nat && (n <=? 57)%nat) || ((97 <=? n)%nat && (n <=? 102)%nat).

Fixpoint allLowerHex (s : string) : bool :=
  match s with
  | EmptyString => true
  | String c r => isLowerHex c && allLowerHex r
  end.

Definition startsWithOneOf (cs : list ascii) (s : string) : bool :=
  match s with
  | String c _ => existsb (Ascii.eqb c) cs
  | EmptyString => false
  end.

Definition hexGroup (n : nat) (g : string) : Prop :=
  String.length g = n /\ allLowerHex g = true.

Definition isUuidV5 (u : string) : Prop :=
  exists g1 g2 g3 g4 g5 : string,
    u = Js.join "-" [g1; g2; g3; g4; g5]
    /\ hexGroup 8 g1 /\ hexGroup 4 g2 /\ hexGroup 4 g3 /\ hexGroup 4 g4 /\ hexGroup 12 g5
    /\ startsWithOneOf ["5"%char] g3 = true
    /\ startsWithOneOf ["8"%char; "9"%char; "a"%char; "b"%char] g4 = true.

End Uuid.

(** ** [toDateTimeString] ([utils/time.ts])

    A timestamp is an integer number ([Z]); [Date.prototype.toISOString]
    is written out after ECMA-262: a time value beyond 8.64e15 ms in either
    direction is an invalid date, and [toISOString] throws a [RangeError]
    on it ([None]). *)

Module Time.

Local Open Scope Z_scope.

Definition msPerDay : Z := 86400000.
Definition maxTimeValue : Z := 8640000000000000.

(** Year, month and day of a day number counted from 1970-01-01. *)
Definition civilFromDays (days : Z) : Z * Z * Z :=
  let z := days + 719468 in
  let era := z / 146097 in
  let doe := z - era * 146097 in
  let yoe := (doe - doe / 1460 + doe / 36524 - doe / 146096) / 365 in
  let doy := doe - (365 * yoe + yoe / 4 - yoe / 100) in
  let mp := (5 * doy + 2) / 153 in
  let d := doy - (153 * mp + 2) / 5 + 1 in
  let m := if mp <? 10 then mp + 3 else mp - 9 in
  let y := yoe + era * 400 in
  (if m <=? 2 then y + 1 else y, m, d).

Definition digitChar (d : Z) : ascii := ascii_of_nat (48 + Z.to_nat d).

(** The last [width] decimal digits of [n], zero-padded. *)
Fixpoint digits (width : nat) (n : Z) : string :=
  match width with
  | O => EmptyString
  | S k => (digits k (n / 10) ++ String (digitChar (n mod 10)) EmptyString)%string
  end.

Definition yearString (y : Z) : string :=
  if (0 <=? y) && (y <=? 9999) then digits 4 y
  else String.append (if y <? 0 then "-" else "+") (digits 6 (Z.abs y)).

Definition toISOString (ms : Z) : option string :=
  if Z.abs ms >? maxTimeValue then None
  else
    let '(y, m, d) := civilFromDays (ms / msPerDay) in
    let t := ms mod msPerDay in
    Some (yearString y ++ "-" ++ digits 2 m ++ "-" ++ digits 2 d ++ "T"
            ++ digits 2 (t / 3600000) ++ ":" ++ digits 2 (t / 60000 mod 60) ++ ":"
            ++ digits 2 (t / 1000 mod 60) ++ "." ++ digits 3 (t mod 1000) ++ "Z")%string.

Definition toDateTimeString (timestamp : Z) : option string :=
  let ms := if timestamp >? 1000000000000 then timestamp else timestamp * 1000 in
  toISOString ms.

End Time.

(** ** Exceptions

    What a call returns: a value, or the exception it throws. *)

Module Exceptions.

Inductive Exn : Type :=
| SqliteError (message : string)
| TypeError (message : string)
| RangeError (message : string)
| Error (message : string).

Inductive Result (A : Type) : Type :=
| Ok (a : A)
| Throw (e : Exn).
Arguments Ok {A} a.
Arguments Throw {A} e.

End Exceptions.

(** ** [SearchRepository]

    The FTS5 engine is outside the repository: what a row [MATCH]es and how
    [ORDER BY bm25(...), timestamp DESC] ranks the matching rows are the
    two operations of [Fts5]; ranking only reorders rows.  A result row is
    modelled by the table row it comes from ([highlight] and the score are
    computed per row). *)

Module Search.

Import Exceptions.
Local Open Scope Z_scope.

Record SearchEntry : Type := mkSearchEntry {
  content : string;
  sessionId : string;
  projectId : string;
  cardType : string;
  sessionTitle : string;
  projectName : string;
  timestamp : string
}.

Class Fts5 : Type := {
  fts5_match : string -> SearchEntry -> bool;
  fts5_rank : string -> list SearchEntry -> list SearchEntry;
  fts5_rank_perm : forall q l, Permutation (fts5_rank q l) l
}.

Definition MAX_LIMIT : Z := 100.

Definition escapeFts5Value (value : string) : string :=
  Js.replaceAllChar Js.dquote (String Js.dquote (String Js.dquote EmptyString)) value.

Definition escapeFts5Query (query : string) : string :=
  let trimmed := Js.trim query in
  if negb (Js.truthyS trimmed) then String Js.dquote (String Js.dquote EmptyString)
  else String Js.dquote (escapeFts5Value trimmed ++ String Js.dquote EmptyString)%string.

(** SQLite's [LIMIT n]: the first [n] rows, and every row when [n] is
    negative ("If the LIMIT expression evaluates to a negative value, then
    there is no upper bound on the number of rows returned"). *)
Definition sqlLimit {A : Type} (n : Z) (rows : list A) : list A :=
  if n <? 0 then rows else firstn (Z.to_nat n) rows.

(** The default parameter [limit = 50]; a limit is an integer. *)
Definition limitOrDefault (limit : option Z) : Z :=
  match limit with Some l => l | None => 50 end.

(** The number bound to [LIMIT ?].  SQLite wants a 64-bit integer there:
    a number at or below -2^63 is a REAL that converts to none, and the
    statement fails. *)
Definition bindLimit (safeLimit : Z) : Result Z :=
  if safeLimit <=? -9223372036854775808
  then Throw (SqliteError "datatype mismatch")
  else Ok safeLimit.

Section Repository.
Context {engine : Fts5}.

Definition search (table : list SearchEntry) (query : string) (limit : option Z)
  : Result (list SearchEntry) :=
  let safeLimit := Z.min (limitOrDefault limit) MAX_LIMIT in
  let ftsQuery := escapeFts5Query query in
  match bindLimit safeLimit with
  | Ok n => Ok (sqlLimit n (fts5_rank ftsQuery (List.filter (fts5_match ftsQuery) table)))
  | Throw e => Throw e
  end.

Definition searchByProject (table : list SearchEntry) (projectName' query : string)
           (limit : option Z) : Result (list SearchEntry) :=
  let safeLimit := Z.min (limitOrDefault limit) MAX_LIMIT in
  let ftsQuery := escapeFts5Query query in
  match bindLimit safeLimit with
  | Ok n =>
      Ok (sqlLimit n
            (fts5_rank ftsQuery
               (List.filter
                  (fun r => fts5_match ftsQuery r && String.eqb (projectName r) projectName')
                  table)))
  | Throw e => Throw e
  end.

End Repository.

(** An engine for examples: a row matches when the phrase between the
    quotes occurs in its [content] column, and rows keep the table order. *)
Fixpoint isPrefix (p s : string) : bool :=
  match p, s with
  | EmptyString, _ => true
  | String a p', String b s' => Ascii.eqb a b && isPrefix p' s'
  | String _ _, EmptyString => false
  end.

Fixpoint includes (p s : string) : bool :=
  isPrefix p s || match s with String _ r => includes p r | EmptyString => false end.

Definition phraseOf (ftsQuery : string) : string :=
  Js.substring 1 (String.length ftsQuery - 1) ftsQuery.

#[local] Instance plainEngine : Fts5 := {|
  fts5_match := fun q r => Js.truthyS (phraseOf q) && includes (phraseOf q) (content r);
  fts5_rank := fun _ l => l;
  fts5_rank_perm := fun _ l => Permutation_refl l
|}.

(** Rows of the repository's test suite: [n] entries whose content holds
    the phrase "findme". *)
Definition findme (n : nat) : list SearchEntry :=
  repeat (mkSearchEntry "findme item" "session-1" "project-1" "assistant"
                        "Test Session" "test-project" "2025-01-01T00:00:00Z") n.

End Search.

(** ** The callers of the search repository

    The two places that call [search] and [searchByProject]: the route
    [GET /search] ([controller/searchController.ts]) and the tool
    [search_sessions] of the MCP server ([controller/sessionController.ts]).
    Of each, the part that chooses the method and the limit. *)

Module SearchController.

Import Exceptions Search.

Section Route.
Context {engine : Fts5}.

(** [results], for a query that is not empty: the project selected, if
    any, decides the method, and no limit is passed. *)
Definition results (table : list SearchEntry) (selectedProject : option string)
           (query : string) : Result (list SearchEntry) :=
  match selectedProject with
  | Some name => searchByProject table name query None
  | None => search table query None
  end.

End Route.

End SearchController.

Module SessionController.

Import Exceptions Search.
Local Open Scope Z_scope.

Definition MAX_SEARCH_LIMIT : Z := 100.
Definition DEFAULT_SEARCH_LIMIT : Z := 50.

(** [Number(value)]: a finite number, or one of [NaN], [Infinity] and
    [-Infinity]. *)
Inductive Number : Type :=
| finite (q : QArith_base.Q)
| notFinite.

Definition clampInt (value : Number) (min max fallback : Z) : Z :=
  match value with
  | notFinite => fallback
  | finite num => Z.min max (Z.max min (Qround.Qfloor num))
  end.

(** The limit [search_sessions] passes on, from [args.limit] and
    [args.offset]. *)
Definition safeLimit (limitArg offsetArg : Number) : Z :=
  let limit := clampInt limitArg 1 MAX_SEARCH_LIMIT DEFAULT_SEARCH_LIMIT in
  let offset := clampInt offsetArg 0 MAX_SEARCH_LIMIT 0 in
  Z.min (limit + offset) MAX_SEARCH_LIMIT.

Section Tool.
Context {engine : Fts5}.


End Tool.

End SessionController.

(** ** Entities and rows ([types.ts], [database.ts]) *)

Inductive SessionProvider : Type :=
| CLAUDE_CODE | OPENCODE | CODEX | AMP | JUNIE | KILO_CODE | GEMINI | DROID.

Definition providerValue (p : SessionProvider) : string :=
  match p with
  | CLAUDE_CODE => "claude_code" | OPENCODE => "opencode" | CODEX => "codex"
  | AMP => "amp" | JUNIE => "junie" | KILO_CODE => "kilocode"
  | GEMINI => "gemini" | DROID => "droid"
  end.

Module SessionMetadata.
Record t : Type := mk {
  version : option string;
  gitBranch : option string;
  cwd : option string;
  models : list (string * Z);
  created : option string;
  modified : option string;
  messageCount : Z
}.
End SessionMetadata.

Module SessionDetail.
Record t : Type := mk {
  sessionId : string;
  title : string;
  messages : list ParsedMessage;
  metadata : option SessionMetadata.t
}.
End SessionDetail.

Module SessionWithProject.
Record t : Type := mk {
  session : SessionDetail.t;
  provider : SessionProvider;
  projectPath : string;
  projectName : string;
  title : option string;
  created : string;
  updated : string
}.
End SessionWithProject.

(** An adapter, by what [getSessions()] resolves to.  A scan that rejects
    (the file system can fail under [listSessionFiles]) is not modelled:
    [importAll] awaits it outside any [try], so such a run ends at that
    adapter, before the first write to a store. *)
Module SessionAdapter.
Record t : Type := mk {
  provider : SessionProvider;
  label : string;
  getSessions : list SessionWithProject.t
}.
End SessionAdapter.

Module RenderableMessage.
Record t : Type := mk {
  sessionId : Z;
  sequence : Z;
  cardType : string;
  title : string;
  subtitle : option string;
  content : list MessageContent;
  timestamp : string;
  canExpand : bool;
  isError : bool;
  createdAt : string
}.
End RenderableMessage.

Module Session.
Record t : Type := mk {
  projectId : Z;
  sessionId : string;
  title : string;
  provider : SessionProvider;
  version : option string;
  gitBranch : option string;
  cwd : option string;
  modelsJson : option string;
  created : option string;
  modified : option string;
  messageCount : Z;
  createdAt : string;
  updatedAt : string
}.
End Session.

Module Project.
Record t : Type := mk {
  projectUuid : string;
  name : string;
  path : option string;
  createdAt : string;
  updatedAt : string
}.
End Project.

(** The rows of the three tables of [sessions.db], column by column. *)
Module ProjectRow.
Record t : Type := mk {
  id : Z;
  project_uuid : string;
  name : string;
  path : option string;
  created_at : string;
  updated_at : string
}.
End ProjectRow.

Module SessionRow.
Record t : Type := mk {
  id : Z;
  project_id : Z;
  session_id : string;
  title : string;
  provider : string;
  version : option string;
  git_branch : option string;
  cwd : option string;
  models_json : option string;
  created : option string;
  modified : option string;
  message_count : Z;
  created_at : string;
  updated_at : string
}.
End SessionRow.

Module MessageRow.
Record t : Type := mk {
  id : Z;
  session_id : Z;
  sequence : Z;
  card_type : string;
  title : string;
  subtitle : option string;
  content_json : string;
  timestamp : string;
  can_expand : Z;
  is_error : Z;
  created_at : string
}.
End MessageRow.

(** ** The SQLite stores

    A table is its rows in rowid order and the [sqlite_sequence] counter of
    its [AUTOINCREMENT] key.  A connection holds the last committed
    content ([durable]), the content its statements see ([live]), whether a
    transaction is open, and a fault schedule: one entry is consumed by each
    call into the connection, and [true] makes that call throw without
    effect.

    The [UNIQUE] keys are what the upserts resolve their conflicts on.  The
    [FOREIGN KEY] clauses are not checked: a session row is written under
    the project id it is given.  [importAll] and [importSingleSession]
    upsert the project row and pass its id on, so the key holds on every
    call they make of [importSession], which is private: the statements
    about [importSession] are about these calls, on stores that hold the
    row of the project id ([hasProject]). *)

Module Db.

Export Exceptions.
Local Open Scope Z_scope.

Record Table (R : Type) : Type := mkTable {
  rows : list R;
  autoinc : Z
}.
Arguments mkTable {R} rows autoinc.
Arguments rows {R} t.
Arguments autoinc {R} t.

Record Tables : Type := mkTables {
  projects : Table ProjectRow.t;
  sessions : Table SessionRow.t;
  messages : Table MessageRow.t
}.

Record Sqlite (T : Type) : Type := mkSqlite {
  durable : T;
  live : T;
  inTransaction : bool;
  faults : list bool
}.
Arguments mkSqlite {T} durable live inTransaction faults.
Arguments durable {T} s.
Arguments live {T} s.
Arguments inTransaction {T} s.
Arguments faults {T} s.

(** The next fault decision, and the connection without it. *)
Definition tick {T : Type} (d : Sqlite T) : bool * Sqlite T :=
  match faults d with
  | [] => (false, d)
  | b :: fs => (b, mkSqlite (durable d) (live d) (inTransaction d) fs)
  end.

Definition injected : Exn := SqliteError "SQLITE_ERROR".

(** One statement: outside a transaction it is committed at once. *)
Definition exec {T A : Type} (stmt : T -> A * T) (d : Sqlite T) : Result A * Sqlite T :=
  let '(fail, d) := tick d in
  if fail then (Throw injected, d)
  else
    let '(a, t) := stmt (live d) in
    (Ok a, mkSqlite (if inTransaction d then durable d else t) t
                    (inTransaction d) (faults d)).

Definition beginTransaction {T : Type} (d : Sqlite T) : Result unit * Sqlite T :=
  let '(fail, d) := tick d in
  if fail then (Throw injected, d)
  else if inTransaction d
  then (Throw (SqliteError "cannot start a transaction within a transaction"), d)
  else (Ok tt, mkSqlite (durable d) (live d) true (faults d)).

Definition commitTransaction {T : Type} (d : Sqlite T) : Result unit * Sqlite T :=
  let '(fail, d) := tick d in
  if fail then (Throw injected, d)
  else if inTransaction d
  then (Ok tt, mkSqlite (live d) (live d) false (faults d))
  else (Throw (SqliteError "cannot commit - no transaction is active"), d).

Definition rollbackTransaction {T : Type} (d : Sqlite T) : Result unit * Sqlite T :=
  let '(fail, d) := tick d in
  if fail then (Throw injected, d)
  else if inTransaction d
  then (Ok tt, mkSqlite (durable d) (durable d) false (faults d))
  else (Throw (SqliteError "cannot rollback - no transaction is active"), d).

(** The key of a new row: one more than every key the table has had. *)
Definition nextId {R : Type} (id : R -> Z) (t : Table R) : Z :=
  1 + fold_right Z.max (autoinc t) (List.map id (rows t)).

(** [INSERT ... ON CONFLICT(key) DO UPDATE SET ... RETURNING id] on a
    table whose id is [INTEGER PRIMARY KEY AUTOINCREMENT].  The insert
    draws a new id first and records it in [sqlite_sequence] ([autoinc])
    whether or not it is used: the row with the key is overwritten where
    it stands by [update] and keeps its id; without one, [fresh] is
    appended under the new id. *)
Definition upsert {R : Type} (id : R -> Z) (conflict : R -> bool)
           (update : R -> R) (fresh : Z -> R) (t : Table R) : Z * Table R :=
  let i := nextId id t in
  match List.find conflict (rows t) with
  | Some r =>
      (id r, mkTable (List.map (fun r => if conflict r then update r else r) (rows t)) i)
  | None =>
      (i, mkTable (rows t ++ [fresh i]) i)
  end.

(** [x || null] on an optional column. *)
Definition orNull (o : option string) : option string :=
  match o with
  | Some s => if Js.truthyS s then Some s else None
  | None => None
  end.

Definition flag (b : bool) : Z := if b then 1 else 0.

(** The new row and the [DO UPDATE SET] of [ProjectRepository.upsert]. *)
Definition projectRow (i : Z) (project : Project.t) : ProjectRow.t :=
  ProjectRow.mk i (Project.projectUuid project) (Project.name project)
    (orNull (Project.path project)) (Project.createdAt project) (Project.updatedAt project).

Definition overwriteProject (project : Project.t) (r : ProjectRow.t) : ProjectRow.t :=
  ProjectRow.mk (ProjectRow.id r) (ProjectRow.project_uuid r) (Project.name project)
    (orNull (Project.path project)) (ProjectRow.created_at r) (Project.updatedAt project).

Definition projectKey (projectUuid : string) (r : ProjectRow.t) : bool :=
  String.eqb (ProjectRow.project_uuid r) projectUuid.

(** [ProjectRepository.upsert]. *)
Definition projects_upsert (project : Project.t) (t : Tables) : Z * Tables :=
  let '(i, p) :=
    upsert ProjectRow.id (projectKey (Project.projectUuid project))
      (overwriteProject project) (fun i => projectRow i project) (projects t) in
  (i, mkTables p (sessions t) (messages t)).

Definition sessionKey (projectId : Z) (sessionId : string) (r : SessionRow.t) : bool :=
  (SessionRow.project_id r =? projectId) && String.eqb (SessionRow.session_id r) sessionId.

(** The new row and the [DO UPDATE SET] of [SessionRepository.upsert]. *)
Definition sessionRow (i : Z) (session : Session.t) : SessionRow.t :=
  SessionRow.mk i (Session.projectId session) (Session.sessionId session)
    (Session.title session) (providerValue (Session.provider session))
    (orNull (Session.version session)) (orNull (Session.gitBranch session))
    (orNull (Session.cwd session)) (orNull (Session.modelsJson session))
    (orNull (Session.created session)) (orNull (Session.modified session))
    (Session.messageCount session) (Session.createdAt session)
    (Session.updatedAt session).

Definition overwriteSession (session : Session.t) (r : SessionRow.t) : SessionRow.t :=
  SessionRow.mk (SessionRow.id r) (SessionRow.project_id r) (SessionRow.session_id r)
    (Session.title session) (providerValue (Session.provider session))
    (orNull (Session.version session)) (orNull (Session.gitBranch session))
    (orNull (Session.cwd session)) (orNull (Session.modelsJson session))
    (orNull (Session.created session)) (orNull (Session.modified session))
    (Session.messageCount session) (SessionRow.created_at r)
    (Session.updatedAt session).

(** [SessionRepository.upsert], on a store that holds the row of
    [projectId]. *)
Definition sessions_upsert (session : Session.t) (t : Tables) : Z * Tables :=
  let '(i, s) :=
    upsert SessionRow.id
      (sessionKey (Session.projectId session) (Session.sessionId session))
      (overwriteSession session) (fun i => sessionRow i session) (sessions t) in
  (i, mkTables (projects t) s (messages t)).

(** [SessionRepository.getByProjectAndSessionId]. *)
Definition sessions_getByProjectAndSessionId (projectId : Z) (sessionId : string)
           (t : Tables) : option SessionRow.t * Tables :=
  (List.find (sessionKey projectId sessionId) (rows (sessions t)), t).

Definition messageKey (sessionId sequence : Z) (r : MessageRow.t) : bool :=
  (MessageRow.session_id r =? sessionId) && (MessageRow.sequence r =? sequence).

(** The columns [MessageRepository.upsert] binds, under row id [i]. *)
Definition messageRow (i : Z) (message : RenderableMessage.t) : MessageRow.t :=
  MessageRow.mk i (RenderableMessage.sessionId message)
    (RenderableMessage.sequence message) (RenderableMessage.cardType message)
    (RenderableMessage.title message) (orNull (RenderableMessage.subtitle message))
    (Json.stringify (RenderableMessage.content message))
    (RenderableMessage.timestamp message)
    (flag (RenderableMessage.canExpand message))
    (flag (RenderableMessage.isError message))
    (RenderableMessage.createdAt message).

(** The [DO UPDATE SET] of [MessageRepository.upsert]: every column but
    [id], [session_id] and [sequence] is overwritten. *)
Definition overwriteRow (message : RenderableMessage.t) (r : MessageRow.t) : MessageRow.t :=
  let n := messageRow (MessageRow.id r) message in
  MessageRow.mk (MessageRow.id r) (MessageRow.session_id r) (MessageRow.sequence r)
    (MessageRow.card_type n) (MessageRow.title n) (MessageRow.subtitle n)
    (MessageRow.content_json n) (MessageRow.timestamp n)
    (MessageRow.can_expand n) (MessageRow.is_error n) (MessageRow.created_at n).

(** [MessageRepository.upsert]. *)
Definition messages_upsert (message : RenderableMessage.t) (t : Tables) : Z * Tables :=
  let '(i, m) :=
    upsert MessageRow.id
      (messageKey (RenderableMessage.sessionId message) (RenderableMessage.sequence message))
      (overwriteRow message)
      (fun i => messageRow i message)
      (messages t) in
  (i, mkTables (projects t) (sessions t) m).

(** [MessageRepository.deleteBySessionIdAndMinSequence]:
    [DELETE FROM messages WHERE session_id = ? AND sequence > ?]. *)
Definition messages_deleteBySessionIdAndMinSequence (sessionId minSequence : Z)
           (t : Tables) : unit * Tables :=
  (tt, mkTables (projects t) (sessions t)
         (mkTable
            (List.filter
               (fun r => negb ((MessageRow.session_id r =? sessionId)
                               && (MessageRow.sequence r >? minSequence)))
               (rows (messages t)))
            (autoinc (messages t)))).

Definition getCount {R : Type} (table : Tables -> Table R) (t : Tables) : Z * Tables :=
  (Z.of_nat (length (rows (table t))), t).

(** [SearchRepository.insert], [deleteBySessionId] and [getCount] on the
    rows of [search_messages]. *)
Definition search_insert (entry : Search.SearchEntry) (t : list Search.SearchEntry)
  : unit * list Search.SearchEntry :=
  (tt, t ++ [entry]).

Definition search_deleteBySessionId (sessionId : string) (t : list Search.SearchEntry)
  : unit * list Search.SearchEntry :=
  (tt, List.filter (fun r => negb (String.eqb (Search.sessionId r) sessionId)) t).

Definition search_getCount (t : list Search.SearchEntry) : Z * list Search.SearchEntry :=
  (Z.of_nat (length t), t).

End Db.

(** ** [SessionImporter] ([adapters/importer.ts])

    The importer runs against a world: the primary connection, the search
    connection and the console.  A method is a function from the world to
    a result (a value, or the exception thrown) and the world it leaves. *)

Module Importer.

Import Db.
Local Open Scope Z_scope.

(** Helpers whose results the store protocol only passes on:
    [ToolInputFormatter.convertToMessageContent] after
    [formatInputWithPathStripping], [ContentCleaner.extractText], and
    [new Date(s).getTime()] ([None] for [NaN]). *)
Class Helpers : Type := {
  formatToolInput : list (string * string) -> string -> option string -> list MessageContent;
  extractText : list MessageContent -> string;
  dateGetTime : string -> option Z
}.

Inductive ConsoleLine : Type :=
| log (line : string)
| error (line : string) (e : Exn).

Record World : Type := mkWorld {
  db : Sqlite Tables;
  searchDb : Sqlite (list Search.SearchEntry);
  console : list ConsoleLine
}.

Definition M (A : Type) : Type := World -> Result A * World.

#[export] Instance M_ret : MRet M := fun A a w => (Ok a, w).

#[export] Instance M_bind : MBind M := fun A B f m w =>
  match m w with
  | (Ok a, w') => f a w'
  | (Throw e, w') => (Throw e, w')
  end.

Definition throw {A : Type} (e : Exn) : M A := fun w => (Throw e, w).

(** [try { body } catch (e) { handler }]. *)
Definition tryCatch {A : Type} (body : M A) (handler : Exn -> M A) : M A :=
  fun w =>
    match body w with
    | (Ok a, w') => (Ok a, w')
    | (Throw e, w') => handler e w'
    end.

Definition onDb {A : Type} (f : Sqlite Tables -> Result A * Sqlite Tables) : M A :=
  fun w => let '(r, d) := f (db w) in (r, mkWorld d (searchDb w) (console w)).

Definition onSearchDb {A : Type}
           (f : Sqlite (list Search.SearchEntry) -> Result A * Sqlite (list Search.SearchEntry))
  : M A :=
  fun w => let '(r, d) := f (searchDb w) in (r, mkWorld (db w) d (console w)).

Definition console_log (line : string) : M unit :=
  fun w => (Ok tt, mkWorld (db w) (searchDb w) (console w ++ [log line])).

Definition console_error (line : string) (e : Exn) : M unit :=
  fun w => (Ok tt, mkWorld (db w) (searchDb w) (console w ++ [error line e])).

Definition nl : string := String "010"%char EmptyString.

Definition rule : string := "=================================".

(** A number in a template literal. *)
Definition num (n : Z) : string := pretty n.

Definition len {A : Type} (l : list A) : Z := Z.of_nat (length l).

(** [JSON.stringify(metadata.models)]: an array of [[name, count]] pairs. *)
Definition stringifyModels (models : list (string * Z)) : string :=
  ("[" ++ Js.join ","
     (List.map (fun '(name, count) => "[" ++ Json.quote name ++ "," ++ num count ++ "]")
               models)
   ++ "]")%string.

Section WithHelpers.
Context {unicode : Js.Unicode} {helpers : Helpers}.

(** [convertToMessage]; the [default] branch of the [switch] is not
    reached by a [ParsedMessage]. *)
Definition convertToMessage (msg : ParsedMessage) (sessionId : Z) (now : string)
           (sequence : Z) (cwd : option string) : RenderableMessage.t :=
  match msg with
  | user ts content =>
      RenderableMessage.mk sessionId sequence "user" "user" None content ts true false now
  | assistant_text ts content =>
      RenderableMessage.mk sessionId sequence "assistant" "text" None content ts true false now
  | assistant_thinking ts thinking =>
      RenderableMessage.mk sessionId sequence "thinking" "thinking" None [text thinking]
        ts true false now
  | tool_use ts toolName _ input _ =>
      RenderableMessage.mk sessionId sequence "tool-use" "tool_use" (Some toolName)
        (formatToolInput input toolName cwd) ts true false now
  | tool_result ts _ toolCallId output isError =>
      RenderableMessage.mk sessionId sequence "tool-result" "tool_result"
        (option_map (Js.substring 0 24) toolCallId) output ts true isError now
  | info ts title subtitle content style =>
      let isErrorStyle := match style with style_error => true | style_default => false end in
      let contentList :=
        match content with
        | Some c => [c]
        | None => [text ("[" ++ title ++ "]")%string]
        end in
      RenderableMessage.mk sessionId sequence (if isErrorStyle then "error" else "info")
        title subtitle contentList ts true isErrorStyle now
  end.

Definition MSG_BATCH_SIZE : Z := 50.
Definition SEARCH_BATCH_SIZE : Z := 50.

(** The [forEach] over [sessionDetail.messages], from position [index];
    [acc] holds [renderableMessages] and [lastSequence]. *)
Fixpoint upsertMessages (sessionId : Z) (createdAt : string) (cwd : option string)
         (msgs : list ParsedMessage) (index : Z)
         (acc : list RenderableMessage.t * Z) : M (list RenderableMessage.t * Z) :=
  match msgs with
  | [] => mret acc
  | message :: rest =>
      let messageData := convertToMessage message sessionId createdAt index cwd in
      _ ← onDb (exec (messages_upsert messageData));
      let acc := (fst acc ++ [messageData], index) in
      _ ← (if (index + 1) mod MSG_BATCH_SIZE =? 0
           then _ ← onDb commitTransaction; onDb beginTransaction
           else mret tt);
      upsertMessages sessionId createdAt cwd rest (index + 1) acc
  end.

(** The [forEach] over [renderableMessages] of the search phase. *)
Fixpoint indexMessages (sessionId projectUuid title projectName : string)
         (msgs : list RenderableMessage.t) (i : Z) : M unit :=
  match msgs with
  | [] => mret tt
  | msg :: rest =>
      let text := extractText (RenderableMessage.content msg) in
      _ ← (if Js.truthyS text
           then onSearchDb (exec (search_insert
                  (Search.mkSearchEntry text sessionId projectUuid
                     (RenderableMessage.cardType msg) title projectName
                     (RenderableMessage.timestamp msg))))
           else mret tt);
      _ ← (if (i + 1) mod SEARCH_BATCH_SIZE =? 0
           then _ ← onSearchDb commitTransaction; onSearchDb beginTransaction
           else mret tt);
      indexMessages sessionId projectUuid title projectName rest (i + 1)
  end.

Definition metadataField {A : Type} (f : SessionMetadata.t -> option A)
           (sessionDetail : SessionDetail.t) : option A :=
  match SessionDetail.metadata sessionDetail with
  | Some md => f md
  | None => None
  end.

(** The search phase of [importSession]: the inner [try]/[catch]. *)
Definition indexSession (sessionWithProject : SessionWithProject.t) (projectUuid title : string)
           (renderableMessages : list RenderableMessage.t) : M unit :=
  let sessionDetail := SessionWithProject.session sessionWithProject in
  tryCatch
    (_ ← onSearchDb (exec (search_deleteBySessionId (SessionDetail.sessionId sessionDetail)));
     _ ← onSearchDb beginTransaction;
     _ ← indexMessages (SessionDetail.sessionId sessionDetail) projectUuid title
           (SessionWithProject.projectName sessionWithProject) renderableMessages 0;
     onSearchDb commitTransaction)
    (fun e =>
       _ ← console_error
             ("Error indexing search for session "
                ++ SessionDetail.sessionId sessionDetail ++ ":")%string e;
       tryCatch (onSearchDb rollbackTransaction)
                (fun rollbackErr =>
                   console_error "Error rolling back search transaction:" rollbackErr)).

(** [title] and [sessionData] of [importSession]. *)
Definition titleOf (sessionWithProject : SessionWithProject.t) : string :=
  Js.orElse (SessionWithProject.title sessionWithProject)
            (SessionDetail.title (SessionWithProject.session sessionWithProject)).

Definition sessionDataOf (sessionWithProject : SessionWithProject.t) (projectId : Z)
  : Session.t :=
  let sessionDetail := SessionWithProject.session sessionWithProject in
  Session.mk projectId (SessionDetail.sessionId sessionDetail) (titleOf sessionWithProject)
    (SessionWithProject.provider sessionWithProject)
    (metadataField SessionMetadata.version sessionDetail)
    (metadataField SessionMetadata.gitBranch sessionDetail)
    (metadataField SessionMetadata.cwd sessionDetail)
    (option_map (fun md => stringifyModels (SessionMetadata.models md))
                (SessionDetail.metadata sessionDetail))
    (metadataField SessionMetadata.created sessionDetail)
    (metadataField SessionMetadata.modified sessionDetail)
    (len (SessionDetail.messages sessionDetail))
    (SessionWithProject.created sessionWithProject)
    (SessionWithProject.updated sessionWithProject).

Definition importSession (sessionWithProject : SessionWithProject.t) (projectId : Z)
           (projectUuid : string) : M unit :=
  let sessionDetail := SessionWithProject.session sessionWithProject in
  let createdAt := SessionWithProject.created sessionWithProject in
  let title := titleOf sessionWithProject in
  _ ← onDb beginTransaction;
  tryCatch
    (existingSession ← onDb (exec (sessions_getByProjectAndSessionId projectId
                                     (SessionDetail.sessionId sessionDetail)));
     let sessionData := sessionDataOf sessionWithProject projectId in
     sessionId ← onDb (exec (sessions_upsert sessionData));
     '(renderableMessages, lastSequence) ←
       upsertMessages sessionId createdAt (metadataField SessionMetadata.cwd sessionDetail)
         (SessionDetail.messages sessionDetail) 0 ([], -1);
     _ ← (if lastSequence >=? 0
          then onDb (exec (messages_deleteBySessionIdAndMinSequence sessionId lastSequence))
          else mret tt);
     _ ← onDb commitTransaction;
     indexSession sessionWithProject projectUuid title renderableMessages)
    (fun e => _ ← onDb rollbackTransaction; throw e).

(** *** What a fault-free import leaves in the tables

    The statements of [importSession] in order, without the connection:
    the session upsert, the message upserts by position, and the delete
    of the rows past the last position when there is one. *)
Fixpoint upsertAll (sessionId : Z) (createdAt : string) (cwd : option string)
         (msgs : list ParsedMessage) (index : Z) (t : Tables) : Tables :=
  match msgs with
  | [] => t
  | message :: rest =>
      upsertAll sessionId createdAt cwd rest (index + 1)
        (snd (messages_upsert (convertToMessage message sessionId createdAt index cwd) t))
  end.

Fixpoint convertAll (sessionId : Z) (createdAt : string) (cwd : option string)
         (msgs : list ParsedMessage) (index : Z) : list RenderableMessage.t :=
  match msgs with
  | [] => []
  | message :: rest =>
      convertToMessage message sessionId createdAt index cwd
        :: convertAll sessionId createdAt cwd rest (index + 1)
  end.

Definition importTables (sessionWithProject : SessionWithProject.t) (projectId : Z)
           (t : Tables) : Tables :=
  let sessionDetail := SessionWithProject.session sessionWithProject in
  let msgs := SessionDetail.messages sessionDetail in
  let '(sessionId, t1) := sessions_upsert (sessionDataOf sessionWithProject projectId) t in
  let t2 := upsertAll sessionId (SessionWithProject.created sessionWithProject)
              (metadataField SessionMetadata.cwd sessionDetail) msgs 0 t1 in
  match msgs with
  | [] => t2
  | _ => snd (messages_deleteBySessionIdAndMinSequence sessionId (len msgs - 1) t2)
  end.

(** The row id of the session a session-with-project is stored under. *)
Definition sessionRowId (sessionWithProject : SessionWithProject.t) (projectId : Z)
           (t : Tables) : option Z :=
  option_map SessionRow.id
    (List.find (sessionKey projectId
                  (SessionDetail.sessionId (SessionWithProject.session sessionWithProject)))
               (rows (sessions t))).

(** The message rows of one session. *)
Definition rowsOf (sessionId : Z) (t : Tables) : list MessageRow.t :=
  List.filter (fun r => MessageRow.session_id r =? sessionId) (rows (messages t)).

(** The message at a position, converted for session [sessionId]. *)
Definition converted (sessionWithProject : SessionWithProject.t) (sessionId : Z)
           (sequence : Z) : option RenderableMessage.t :=
  let sessionDetail := SessionWithProject.session sessionWithProject in
  if sequence <? 0 then None
  else option_map
         (fun m => convertToMessage m sessionId (SessionWithProject.created sessionWithProject)
                     sequence (metadataField SessionMetadata.cwd sessionDetail))
         (nth_error (SessionDetail.messages sessionDetail) (Z.to_nat sequence)).

(** Truncation on re-import of session [sessionId] with [M] messages:
    [after] is [before] without the rows of the session at positions [M]
    and beyond, every remaining row of the session overwritten where it
    stands (same id, same key) by the message now at its position, and
    every other row as it was. *)
Definition truncatedTo (sessionWithProject : SessionWithProject.t) (sessionId M : Z)
           (before after : list MessageRow.t) : Prop :=
  after =
  List.map
    (fun r =>
       if MessageRow.session_id r =? sessionId then
         match converted sessionWithProject sessionId (MessageRow.sequence r) with
         | Some m => overwriteRow m r
         | None => r
         end
       else r)
    (List.filter
       (fun r => negb ((MessageRow.session_id r =? sessionId) && (MessageRow.sequence r >=? M)))
       before).

(** What the tables hold: their rows, without the counters of
    [sqlite_sequence]. *)
Definition contents (t : Tables)
  : list ProjectRow.t * list SessionRow.t * list MessageRow.t :=
  (rows (projects t), rows (sessions t), rows (messages t)).

(** The projects table has a row under [projectId]: a session insert
    with this [project_id] does not violate its FOREIGN KEY. *)
Definition hasProject (projectId : Z) (t : Tables) : Prop :=
  exists p, In p (rows (projects t)) /\ ProjectRow.id p = projectId.

(** The unique keys of the schema hold in the tables. *)
Definition uniqueKeys (t : Tables) : Prop :=
  NoDup (List.map (fun r => (MessageRow.session_id r, MessageRow.sequence r))
                  (rows (messages t)))
  /\ NoDup (List.map (fun r => (SessionRow.project_id r, SessionRow.session_id r))
                     (rows (sessions t))).

(** An idle connection: no fault scheduled and no transaction open. *)
Definition idle {T : Type} (d : Sqlite T) : Prop :=
  faults d = [] /\ inTransaction d = false.

(** A connection whose last transaction is committed: idle, with nothing
    uncommitted. *)
Definition committed {T : Type} (d : Sqlite T) (t : T) : Prop :=
  d = mkSqlite t t false [].

(** Outside a transaction nothing is uncommitted. *)
Definition consistent {T : Type} (d : Sqlite T) : Prop :=
  inTransaction d = false -> live d = durable d.

(** [groupSessionsByProject] builds a plain object.  Its own properties are
    kept in insertion order; reading [grouped[name]] for a name that
    [Object.prototype] defines finds that inherited value, which has no
    [push]. *)
Definition prototypeKeys : list string :=
  ["constructor"; "__proto__"; "hasOwnProperty"; "isPrototypeOf";
   "propertyIsEnumerable"; "toString"; "valueOf"; "toLocaleString";
   "__defineGetter__"; "__defineSetter__"; "__lookupGetter__"; "__lookupSetter__"].

Definition isPrototypeKey (k : string) : bool :=
  existsb (String.eqb k) prototypeKeys.

Definition Grouped : Type := list (string * list SessionWithProject.t).

Definition hasOwn (grouped : Grouped) (k : string) : bool :=
  existsb (fun e => String.eqb (fst e) k) grouped.

Definition pushTo (grouped : Grouped) (k : string) (s : SessionWithProject.t) : Grouped :=
  List.map (fun e => if String.eqb (fst e) k then (fst e, snd e ++ [s]) else e) grouped.

Fixpoint groupInto (grouped : Grouped) (sessions : list SessionWithProject.t)
  : Result Grouped :=
  match sessions with
  | [] => Ok grouped
  | session :: rest =>
      let projectName := SessionWithProject.projectName session in
      if hasOwn grouped projectName
      then groupInto (pushTo grouped projectName session) rest
      else if isPrototypeKey projectName
      then Throw (TypeError "grouped[projectName].push is not a function")
      else groupInto (grouped ++ [(projectName, [session])]) rest
  end.

Definition groupSessionsByProject (sessions : list SessionWithProject.t) : Result Grouped :=
  groupInto [] sessions.

(** [Object.entries]: the array-index keys in ascending order, then the
    other keys in insertion order. *)
Definition isDigit (c : ascii) : bool :=
  let n := nat_of_ascii c in (48 <=? n)%nat && (n <=? 57)%nat.

Fixpoint digitsValue (s : string) (acc : Z) : option Z :=
  match s with
  | EmptyString => Some acc
  | String c r =>
      if isDigit c then digitsValue r (acc * 10 + Z.of_nat (nat_of_ascii c - 48)) else None
  end.

Definition arrayIndex (k : string) : option Z :=
  match k with
  | EmptyString => None
  | String c r =>
      if Ascii.eqb c "0"%char
      then match r with EmptyString => Some 0 | _ => None end
      else match digitsValue k 0 with
           | Some n => if n <? 4294967295 then Some n else None
           | None => None
           end
  end.

Fixpoint insertByIndex {V : Type} (n : Z) (e : string * V) (l : list (Z * (string * V)))
  : list (Z * (string * V)) :=
  match l with
  | [] => [(n, e)]
  | (m, e') :: r => if n <? m then (n, e) :: l else (m, e') :: insertByIndex n e r
  end.

Fixpoint indexed {V : Type} (o : list (string * V)) : list (Z * (string * V)) :=
  match o with
  | [] => []
  | e :: r =>
      match arrayIndex (fst e) with
      | Some n => insertByIndex n e (indexed r)
      | None => indexed r
      end
  end.

Definition isNamed {V : Type} (e : string * V) : bool :=
  match arrayIndex (fst e) with Some _ => false | None => true end.

Definition entries {V : Type} (o : list (string * V)) : list (string * V) :=
  List.map snd (indexed o) ++ List.filter isNamed o.

(** [Math.min(...xs)] and [Math.max(...xs)] over time values; [None] is
    [NaN], and also stands for the infinite result on no argument, which
    [toDateTimeString] rejects the same way. *)
Fixpoint extremum (pick : Z -> Z -> Z) (xs : list (option Z)) : option Z :=
  match xs with
  | [] => None
  | [x] => x
  | x :: r =>
      match x, extremum pick r with
      | Some a, Some b => Some (pick a b)
      | _, _ => None
      end
  end.

Definition toDateTimeString (timestamp : option Z) : M string :=
  match timestamp with
  | Some t =>
      match Time.toDateTimeString t with
      | Some s => mret s
      | None => throw (RangeError "Invalid time value")
      end
  | None => throw (RangeError "Invalid time value")
  end.

Definition liftResult {A : Type} (r : Result A) : M A := fun w => (r, w).

(** The first loop of [importAll]: every adapter is scanned, and every
    scan resolves (see [SessionAdapter]). *)
Fixpoint scanAdapters (adapters : list SessionAdapter.t)
         (allSessions : list SessionWithProject.t) : M (list SessionWithProject.t) :=
  match adapters with
  | [] => mret allSessions
  | adapter :: rest =>
      _ ← console_log ("Scanning " ++ SessionAdapter.label adapter ++ " sessions...")%string;
      let sessions := SessionAdapter.getSessions adapter in
      _ ← console_log ("Found " ++ num (len sessions) ++ " "
                         ++ SessionAdapter.label adapter ++ " sessions")%string;
      scanAdapters rest (allSessions ++ sessions)
  end.

(** [allSessions.filter(...)] with its log lines. *)
Fixpoint filterValid (allSessions : list SessionWithProject.t)
  : M (list SessionWithProject.t) :=
  match allSessions with
  | [] => mret []
  | s :: rest =>
      if negb (Js.truthyS (SessionWithProject.projectName s)) then
        _ ← console_log ("Skipping session "
                           ++ SessionDetail.sessionId (SessionWithProject.session s)
                           ++ ": no valid project name")%string;
        filterValid rest
      else
        valid ← filterValid rest;
        mret (s :: valid)
  end.

(** The inner loop of [importAll] over the sessions of one project; the
    pair is [(importedCount, errorCount)]. *)
Fixpoint importSessions (sessions : list SessionWithProject.t) (projectId : Z)
         (projectUuid : string) (counts : Z * Z) : M (Z * Z) :=
  match sessions with
  | [] => mret counts
  | sessionWithProject :: rest =>
      let projectPath := SessionWithProject.projectPath sessionWithProject in
      let sid := SessionDetail.sessionId (SessionWithProject.session sessionWithProject) in
      if negb (Js.truthyS projectPath) || String.eqb projectPath "unknown" then
        _ ← console_log ("  Skipping session " ++ sid ++ ": no valid project path")%string;
        importSessions rest projectId projectUuid counts
      else
        counts ← tryCatch
          (_ ← importSession sessionWithProject projectId projectUuid;
           mret (fst counts + 1, snd counts))
          (fun e =>
             _ ← console_error ("Error importing session " ++ sid ++ ":")%string e;
             mret (fst counts, snd counts + 1));
        importSessions rest projectId projectUuid counts
  end.

(** The outer loop of [importAll] over [Object.entries(sessionsByProject)]. *)
Fixpoint importProjects (groups : list (string * list SessionWithProject.t))
         (counts : Z * Z) : M (Z * Z) :=
  match groups with
  | [] => mret counts
  | (projectName, sessions) :: rest =>
      _ ← console_log ("Importing project: " ++ projectName ++ " ("
                         ++ num (len sessions) ++ " sessions)")%string;
      let projectPath := option_map SessionWithProject.projectPath (head sessions) in
      projectCreatedAt ← toDateTimeString
        (extremum Z.min (List.map (fun s => dateGetTime (SessionWithProject.created s)) sessions));
      projectUpdatedAt ← toDateTimeString
        (extremum Z.max (List.map (fun s => dateGetTime (SessionWithProject.updated s)) sessions));
      let projectUuid := Uuid.generateProjectUuid (Js.orElse projectPath projectName) in
      projectId ← onDb (exec (projects_upsert
        (Project.mk projectUuid projectName projectPath projectCreatedAt projectUpdatedAt)));
      counts ← importSessions sessions projectId projectUuid counts;
      importProjects rest counts
  end.

Definition importAll (adapters : list SessionAdapter.t) : M unit :=
  _ ← console_log ("Starting import from all providers..." ++ nl)%string;
  allSessions ← scanAdapters adapters [];
  _ ← console_log (nl ++ rule)%string;
  _ ← console_log ("Total sessions found: " ++ num (len allSessions))%string;
  _ ← console_log (rule ++ nl)%string;
  validSessions ← filterValid allSessions;
  sessionsByProject ← liftResult (groupSessionsByProject validSessions);
  _ ← console_log ("Projects detected: " ++ num (len sessionsByProject) ++ nl)%string;
  '(importedCount, errorCount) ← importProjects (entries sessionsByProject) (0, 0);
  _ ← console_log (nl ++ rule)%string;
  _ ← console_log "Import complete!";
  _ ← console_log ("Successfully imported: " ++ num importedCount ++ " sessions")%string;
  _ ← (if errorCount >? 0
       then console_log ("Errors: " ++ num errorCount ++ " sessions")%string
       else mret tt);
  _ ← console_log (rule ++ nl)%string;
  _ ← console_log "Database stats:";
  projectCount ← onDb (exec (getCount projects));
  _ ← console_log ("  Projects: " ++ num projectCount)%string;
  sessionCount ← onDb (exec (getCount sessions));
  _ ← console_log ("  Sessions: " ++ num sessionCount)%string;
  messageCount ← onDb (exec (getCount messages));
  _ ← console_log ("  Messages: " ++ num messageCount)%string;
  searchCount ← onSearchDb (exec search_getCount);
  console_log ("  Search entries: " ++ num searchCount)%string.

(** *** Vocabulary for the properties of [importAll] *)

(** The two tests a session passes to be imported: a project name, and a
    project path other than the placeholder. *)
Definition hasName (s : SessionWithProject.t) : bool :=
  Js.truthyS (SessionWithProject.projectName s).

Definition hasPath (s : SessionWithProject.t) : bool :=
  Js.truthyS (SessionWithProject.projectPath s)
  && negb (String.eqb (SessionWithProject.projectPath s) "unknown").

Definition resolvable (s : SessionWithProject.t) : bool := hasName s && hasPath s.

(** The time values [toDateTimeString] converts without a [RangeError]. *)
Definition timeOk (t : Z) : Prop := -8640000000000 <= t <= 8640000000000000.

Definition validTimes (s : SessionWithProject.t) : Prop :=
  exists c u,
    dateGetTime (SessionWithProject.created s) = Some c /\ timeOk c
    /\ dateGetTime (SessionWithProject.updated s) = Some u /\ timeOk u.

(** The lines [importAll] logs after its loops, for the counts it kept and
    the world it leaves. *)
Definition summary (importedCount errorCount : Z) (w : World) : list ConsoleLine :=
  [log (nl ++ rule)%string; log "Import complete!";
   log ("Successfully imported: " ++ num importedCount ++ " sessions")%string]
  ++ (if errorCount >? 0
      then [log ("Errors: " ++ num errorCount ++ " sessions")%string]
      else [])
  ++ [log (rule ++ nl)%string; log "Database stats:";
      log ("  Projects: " ++ num (len (rows (projects (live (db w))))))%string;
      log ("  Sessions: " ++ num (len (rows (sessions (live (db w))))))%string;
      log ("  Messages: " ++ num (len (rows (messages (live (db w))))))%string;
      log ("  Search entries: " ++ num (len (live (searchDb w))))%string].

(** [importSingleSession]. *)
Definition importSingleSession (sessionWithProject : SessionWithProject.t) : M unit :=
  let sid := SessionDetail.sessionId (SessionWithProject.session sessionWithProject) in
  let projectPath := SessionWithProject.projectPath sessionWithProject in
  if negb (Js.truthyS (SessionWithProject.projectName sessionWithProject))
  then throw (Error ("Session " ++ sid ++ ": no valid project name")%string)
  else if negb (Js.truthyS projectPath) || String.eqb projectPath "unknown"
  then throw (Error ("Session " ++ sid ++ ": no valid project path")%string)
  else
    let projectUuid :=
      Uuid.generateProjectUuid
        (Js.orElse (Some projectPath) (SessionWithProject.projectName sessionWithProject)) in
    projectId ← onDb (exec (projects_upsert
      (Project.mk projectUuid (SessionWithProject.projectName sessionWithProject)
         (Some projectPath) (SessionWithProject.created sessionWithProject)
         (SessionWithProject.updated sessionWithProject))));
    importSession sessionWithProject projectId projectUuid.

(** *** Vocabulary for the proofs *)

(** The row an upsert leaves where a row stood. *)
Definition applyTo {R : Type} (conflict : R -> bool) (update : R -> R) (r : R) : R :=
  if conflict r then update r else r.

(** Computations that leave the primary connection alone. *)
Definition keepsDb {A : Type} (m : M A) : Prop :=
  forall w, db (snd (m w)) = db w.

Definition keyOf (m : RenderableMessage.t) : MessageRow.t -> bool :=
  messageKey (RenderableMessage.sessionId m) (RenderableMessage.sequence m).

(** A message is stored when a row has its key and every such row holds
    its columns. *)
Definition stored (m : RenderableMessage.t) (t : Tables) : Prop :=
  existsb (keyOf m) (rows (messages t)) = true
  /\ forall r, In r (rows (messages t)) -> keyOf m r = true -> overwriteRow m r = r.

Definition deleteAfter (sid last : Z) (t : Tables) : Tables :=
  snd (messages_deleteBySessionIdAndMinSequence sid last t).

Definition messageKeys (t : Tables) : list (Z * Z) :=
  List.map (fun r => (MessageRow.session_id r, MessageRow.sequence r)) (rows (messages t)).

Definition sessionKeys (t : Tables) : list (Z * string) :=
  List.map (fun r => (SessionRow.project_id r, SessionRow.session_id r)) (rows (sessions t)).

(** The message of [msgs] that position [s] holds when the list starts
    at position [index]. *)
Definition pick (msgs : list ParsedMessage) (index s : Z) : option ParsedMessage :=
  if s <? index then None else nth_error msgs (Z.to_nat (s - index)).

(** A row after the upserts of [msgs]: overwritten where a message has its
    key. *)
Definition reconvert (sid : Z) (ca : string) (cwd : option string)
           (msgs : list ParsedMessage) (index : Z) (r : MessageRow.t) : MessageRow.t :=
  if MessageRow.session_id r =? sid then
    match pick msgs index (MessageRow.sequence r) with
    | Some msg => overwriteRow (convertToMessage msg sid ca (MessageRow.sequence r) cwd) r
    | None => r
    end
  else r.

(** The invariant of [groupSessionsByProject]: one entry per name, none
    empty. *)
Definition groupsOk (g : Grouped) : Prop :=
  NoDup (List.map fst g) /\ Forall (fun e => snd e <> []) g.

(** A search connection with no fault scheduled, and the computations
    that keep it so. *)
Definition quiet (w : World) : Prop := faults (searchDb w) = [].

Definition keepsQuiet {A : Type} (m : M A) : Prop := forall w, quiet w -> quiet (snd (m w)).

Definition keepsNoFaults {T A : Type} (f : Sqlite T -> Result A * Sqlite T) : Prop :=
  forall d, faults d = [] -> faults (snd (f d)) = [].

(** Every session key and every project of [t] is still in [t']. *)
Definition extends (t t' : Tables) : Prop :=
  (forall r, In r (rows (sessions t)) ->
             exists r', In r' (rows (sessions t'))
                        /\ SessionRow.project_id r' = SessionRow.project_id r
                        /\ SessionRow.session_id r' = SessionRow.session_id r)
  /\ (forall p, In p (rows (projects t)) ->
                exists p', In p' (rows (projects t'))
                           /\ ProjectRow.id p' = ProjectRow.id p
                           /\ ProjectRow.project_uuid p' = ProjectRow.project_uuid p).

(** A group [importProjects] gets through: not empty, with valid dates. *)
Definition groupOk (e : string * list SessionWithProject.t) : Prop :=
  snd e <> [] /\ forall s, In s (snd e) -> validTimes s.

(** *** Vocabulary for further properties *)

(** The sessions of one project name. *)
Definition named (name : string) (s : SessionWithProject.t) : bool :=
  String.eqb (SessionWithProject.projectName s) name.

(** The groups built from the sessions [seen]: one entry per name, each
    holding the sessions of that name in the order seen. *)
Definition groupsOf (seen : list SessionWithProject.t) (g : Grouped) : Prop :=
  NoDup (List.map fst g)
  /\ (forall e, In e g -> snd e = List.filter (named (fst e)) seen /\ snd e <> [])
  /\ (forall s, In s seen -> hasOwn g (SessionWithProject.projectName s) = true).

(** No own key of the object shadows a property of [Object.prototype]. *)
Definition ownSafe (g : Grouped) : Prop :=
  forall k, hasOwn g k = true -> isPrototypeKey k = false.

(** [w'] is [w] some statements further into its open transaction:
    nothing new is durable, and the search connection and the console are
    as they were. *)
Definition inTx (w w' : World) : Prop :=
  durable (db w') = durable (db w) /\ inTransaction (db w') = true
  /\ searchDb w' = searchDb w /\ console w' = console w.

(** A computation that stays inside the open transaction, and leaves the
    tables [Q] describes when it returns. *)
Definition txStep {A : Type} (m : M A) (Q : A -> Tables -> Tables -> Prop) : Prop :=
  forall w, inTransaction (db w) = true ->
            match m w with
            | (Ok a, w') => inTx w w' /\ Q a (live (db w)) (live (db w'))
            | (Throw _, w') => inTx w w'
            end.

(** The search row of a stored message, and the rows [importSession]
    inserts for a list of them: one per message whose extracted text is
    not empty. *)
Definition searchEntryOf (swp : SessionWithProject.t) (projectUuid : string)
           (msg : RenderableMessage.t) : Search.SearchEntry :=
  Search.mkSearchEntry (extractText (RenderableMessage.content msg))
    (SessionDetail.sessionId (SessionWithProject.session swp)) projectUuid
    (RenderableMessage.cardType msg) (titleOf swp)
    (SessionWithProject.projectName swp) (RenderableMessage.timestamp msg).

Definition searchEntries (swp : SessionWithProject.t) (projectUuid : string)
           (msgs : list RenderableMessage.t) : list Search.SearchEntry :=
  List.map (searchEntryOf swp projectUuid)
    (List.filter (fun m => Js.truthyS (extractText (RenderableMessage.content m))) msgs).

(** The messages [importSession] hands to its search phase. *)
Definition renderableMessagesOf (swp : SessionWithProject.t) (projectId : Z) (t : Tables)
  : list RenderableMessage.t :=
  convertAll (fst (sessions_upsert (sessionDataOf swp projectId) t))
    (SessionWithProject.created swp)
    (metadataField SessionMetadata.cwd (SessionWithProject.session swp))
    (SessionDetail.messages (SessionWithProject.session swp)) 0.

Definition otherSessions (swp : SessionWithProject.t) (t : list Search.SearchEntry)
  : list Search.SearchEntry :=
  snd (search_deleteBySessionId (SessionDetail.sessionId (SessionWithProject.session swp)) t).

(** No message row has a negative sequence. *)
Definition nonNegative (t : Tables) : Prop :=
  forall r, In r (rows (messages t)) -> 0 <= MessageRow.sequence r.

(** The project [importSingleSession] writes for a session. *)
Definition projectOf (s : SessionWithProject.t) : Project.t :=
  Project.mk (Uuid.generateProjectUuid (SessionWithProject.projectPath s))
    (SessionWithProject.projectName s) (Some (SessionWithProject.projectPath s))
    (SessionWithProject.created s) (SessionWithProject.updated s).

(** *** Vocabulary for running [importAll] again *)

(** The primary keys of the sessions table are distinct. *)
Definition uniqueIds (t : Tables) : Prop :=
  NoDup (List.map SessionRow.id (rows (sessions t))).

(** The tables hold a session as its import leaves it: its row, every
    message at its position, and no row of the session past the last. *)
Definition settled (s : SessionWithProject.t) (projectId : Z) (t : Tables) : Prop :=
  let sd := sessionDataOf s projectId in
  let sid := fst (sessions_upsert sd t) in
  let msgs := SessionDetail.messages (SessionWithProject.session s) in
  rows (sessions (snd (sessions_upsert sd t))) = rows (sessions t)
  /\ (forall j msg,
         nth_error msgs j = Some msg ->
         stored (convertToMessage msg sid (SessionWithProject.created s) (Z.of_nat j)
                   (metadataField SessionMetadata.cwd (SessionWithProject.session s))) t)
  /\ (msgs <> [] ->
      rows (messages (deleteAfter sid (len msgs - 1) t)) = rows (messages t)).

(** The tables after the inner loop of [importAll] without faults. *)
Fixpoint sessionsTables (sessions : list SessionWithProject.t) (projectId : Z)
         (t : Tables) : Tables :=
  match sessions with
  | [] => t
  | s :: rest =>
      sessionsTables rest projectId (if hasPath s then importTables s projectId t else t)
  end.

(** One turn of the outer loop: the project upsert, then its sessions. *)
Definition projectTables (job : Project.t * list SessionWithProject.t) (t : Tables) : Tables :=
  sessionsTables (snd job) (fst (projects_upsert (fst job) t))
                 (snd (projects_upsert (fst job) t)).

Definition projectsTables (jobs : list (Project.t * list SessionWithProject.t))
           (t : Tables) : Tables :=
  fold_left (fun t job => projectTables job t) jobs t.

Definition sessionIdOf (s : SessionWithProject.t) : string :=
  SessionDetail.sessionId (SessionWithProject.session s).

(** The identifiers of the sessions a turn imports. *)
Definition imported (sessions : list SessionWithProject.t) : list string :=
  List.map sessionIdOf (List.filter hasPath sessions).

(** The tables hold a project and its sessions as their import leaves
    them. *)
Definition projectSettled (job : Project.t * list SessionWithProject.t) (t : Tables) : Prop :=
  exists pid,
    fst (projects_upsert (fst job) t) = pid
    /\ rows (projects (snd (projects_upsert (fst job) t))) = rows (projects t)
    /\ forall s, In s (snd job) -> hasPath s = true -> settled s pid t.

(** The identifier [importAll] gives the project of a group. *)
Definition groupUuid (e : string * list SessionWithProject.t) : string :=
  Uuid.generateProjectUuid
    (Js.orElse (option_map SessionWithProject.projectPath (head (snd e))) (fst e)).

(** [toDateTimeString] without the exception. *)
Definition dateTimeOf (timestamp : option Z) : option string :=
  match timestamp with
  | Some t => Time.toDateTimeString t
  | None => None
  end.

(** The project [importAll] upserts for a group, when its dates convert. *)
Definition groupProject (e : string * list SessionWithProject.t) : option Project.t :=
  match dateTimeOf (extremum Z.min
                      (List.map (fun s => dateGetTime (SessionWithProject.created s)) (snd e))),
        dateTimeOf (extremum Z.max
                      (List.map (fun s => dateGetTime (SessionWithProject.updated s)) (snd e)))
  with
  | Some projectCreatedAt, Some projectUpdatedAt =>
      Some (Project.mk (groupUuid e) (fst e)
              (option_map SessionWithProject.projectPath (head (snd e)))
              projectCreatedAt projectUpdatedAt)
  | _, _ => None
  end.

(** A group with the project of its turn. *)
Definition turnOf (e : string * list SessionWithProject.t)
           (job : Project.t * list SessionWithProject.t) : Prop :=
  groupProject e = Some (fst job) /\ snd job = snd e.

(** *** Vocabulary for a run of [importAll] *)

(** The session is filed under the project: the store has the project's
    row and, under its id, a row with the session's identifier. *)
Definition filed (projectUuid : string) (s : SessionWithProject.t) (t : Tables) : Prop :=
  exists p r,
    In p (rows (projects t)) /\ ProjectRow.project_uuid p = projectUuid
    /\ In r (rows (sessions t)) /\ SessionRow.project_id r = ProjectRow.id p
    /\ SessionRow.session_id r = sessionIdOf s.

(** The store holds the session whole: the project's row with the columns
    its upsert writes, under its id the session's row with the columns of
    the session, under the id of that row every message at its position
    with its columns and, when the session has messages, no row past the
    last. *)
Definition held (project : Project.t) (s : SessionWithProject.t) (t : Tables) : Prop :=
  let msgs := SessionDetail.messages (SessionWithProject.session s) in
  exists p r,
    In p (rows (projects t))
    /\ ProjectRow.project_uuid p = Project.projectUuid project
    /\ overwriteProject project p = p
    /\ In r (rows (sessions t))
    /\ SessionRow.project_id r = ProjectRow.id p
    /\ SessionRow.session_id r = sessionIdOf s
    /\ overwriteSession (sessionDataOf s (ProjectRow.id p)) r = r
    /\ (forall j msg,
           nth_error msgs j = Some msg ->
           stored (convertToMessage msg (SessionRow.id r) (SessionWithProject.created s)
                     (Z.of_nat j)
                     (metadataField SessionMetadata.cwd (SessionWithProject.session s))) t)
    /\ (msgs <> [] ->
        forall m, In m (rows (messages t)) -> MessageRow.session_id m = SessionRow.id r ->
                  MessageRow.sequence m <= len msgs - 1).

(** The lines of the first loop for one adapter. *)
Definition scanLines (adapter : SessionAdapter.t) : list ConsoleLine :=
  [log ("Scanning " ++ SessionAdapter.label adapter ++ " sessions...")%string;
   log ("Found " ++ num (len (SessionAdapter.getSessions adapter)) ++ " "
          ++ SessionAdapter.label adapter ++ " sessions")%string].

(** One line for each session without a project name. *)
Definition namelessLines (allSessions : list SessionWithProject.t) : list ConsoleLine :=
  flat_map (fun s => if hasName s then []
                     else [log ("Skipping session " ++ sessionIdOf s
                                  ++ ": no valid project name")%string])
           allSessions.

(** One line for each session of a group without a project path. *)
Definition pathlessLines (sessions : list SessionWithProject.t) : list ConsoleLine :=
  flat_map (fun s => if hasPath s then []
                     else [log ("  Skipping session " ++ sessionIdOf s
                                  ++ ": no valid project path")%string])
           sessions.

(** The lines of one turn of the outer loop when no import fails. *)
Definition projectLines (e : string * list SessionWithProject.t) : list ConsoleLine :=
  log ("Importing project: " ++ fst e ++ " (" ++ num (len (snd e)) ++ " sessions)")%string
  :: pathlessLines (snd e).

(** What [importAll] logs before its summary when no import fails. *)
Definition report (adapters : list SessionAdapter.t) (grouped : Grouped) : list ConsoleLine :=
  let allSessions := flat_map SessionAdapter.getSessions adapters in
  [log ("Starting import from all providers..." ++ nl)%string]
  ++ flat_map scanLines adapters
  ++ [log (nl ++ rule)%string;
      log ("Total sessions found: " ++ num (len allSessions))%string;
      log (rule ++ nl)%string]
  ++ namelessLines allSessions
  ++ [log ("Projects detected: " ++ num (len grouped) ++ nl)%string]
  ++ flat_map projectLines (entries grouped).

(** *** Vocabulary for imports of several batches *)

(** The tables once the session and its first [n] messages are upserted. *)
Definition batchTables (sessionWithProject : SessionWithProject.t) (projectId : Z)
           (n : nat) (t : Tables) : Tables :=
  let sessionDetail := SessionWithProject.session sessionWithProject in
  let '(sessionId, t1) := sessions_upsert (sessionDataOf sessionWithProject projectId) t in
  upsertAll sessionId (SessionWithProject.created sessionWithProject)
    (metadataField SessionMetadata.cwd sessionDetail)
    (firstn n (SessionDetail.messages sessionDetail)) 0 t1.

(** What a failed import can leave durable: the tables [D] it found, or
    the session with a whole number of batches of [msgs]. *)
Definition wholeBatches (sid : Z) (ca : string) (cwd : option string)
           (msgs : list ParsedMessage) (D t1 : Tables) (d : Tables) : Prop :=
  d = D
  \/ exists k : nat,
       (0 < k)%nat /\ (50 * k <= length msgs)%nat
       /\ d = upsertAll sid ca cwd (firstn (50 * k) msgs) 0 t1.

(** *** Vocabulary for the search index after [importAll] *)

(** The search rows after the import of one session: the rows of the
    other sessions, then the rows of its messages.  The row id of the
    session does not show in them. *)
Definition sessionIndex (s : SessionWithProject.t) (projectUuid : string)
           (t : list Search.SearchEntry) : list Search.SearchEntry :=
  otherSessions s t
  ++ searchEntries s projectUuid
       (convertAll 0 (SessionWithProject.created s)
          (metadataField SessionMetadata.cwd (SessionWithProject.session s))
          (SessionDetail.messages (SessionWithProject.session s)) 0).

(** The search rows after the loops of [importAll] without faults. *)
Fixpoint sessionsIndex (sessions : list SessionWithProject.t) (projectUuid : string)
         (t : list Search.SearchEntry) : list Search.SearchEntry :=
  match sessions with
  | [] => t
  | s :: rest =>
      sessionsIndex rest projectUuid (if hasPath s then sessionIndex s projectUuid t else t)
  end.

Fixpoint projectsIndex (groups : list (string * list SessionWithProject.t))
         (t : list Search.SearchEntry) : list Search.SearchEntry :=
  match groups with
  | [] => t
  | e :: rest => projectsIndex rest (sessionsIndex (snd e) (groupUuid e) t)
  end.

(** The rows of the sessions whose identifier is not in [ids]. *)
Definition withoutSessions (ids : list string) (t : list Search.SearchEntry)
  : list Search.SearchEntry :=
  List.filter (fun r => negb (existsb (String.eqb (Search.sessionId r)) ids)) t.

(** The rows the loops insert, in the order of the sessions. *)
Definition sessionsEntries (sessions : list SessionWithProject.t) (projectUuid : string)
  : list Search.SearchEntry :=
  flat_map (fun s => sessionIndex s projectUuid []) (List.filter hasPath sessions).

Definition projectsEntries (groups : list (string * list SessionWithProject.t))
  : list Search.SearchEntry :=
  flat_map (fun e => sessionsEntries (snd e) (groupUuid e)) groups.

End WithHelpers.

End Importer.

(** ** Reading back ([MessageRepository.getBySessionId]) *)

Module Queries.

Import Db.
Local Open Scope Z_scope.

(** [MessageRepository.getBySessionId], before [mapRowToMessage]:
    [SELECT * FROM messages WHERE session_id = ? ORDER BY sequence ASC]. *)
Definition bySequence (r r' : MessageRow.t) : Prop :=
  MessageRow.sequence r <= MessageRow.sequence r'.

#[export] Instance bySequence_dec r r' : Decision (bySequence r r').
Proof. unfold bySequence. apply _. Defined.

Definition messages_getBySessionId (sessionId : Z) (t : Tables) : list MessageRow.t :=
  merge_sort bySequence
    (List.filter (fun r => MessageRow.session_id r =? sessionId) (rows (messages t))).

(** The positions [0 .. n-1]. *)
Definition positions (n : nat) : list Z := List.map Z.of_nat (seq 0 n).

End Queries.

(** ** The correlation, said without the loops *)

Module Correlation.

Import Correlator.

(** What a message becomes, read off the input alone: a [tool_use] with a
    non-empty identifier gets the results that carry it, in input order,
    when there are any; a [tool_result] goes when a [tool_use] has a
    strictly equal identifier; every other message stays. *)
Definition correlated (rawMessages : list ParsedMessage) (msg : ParsedMessage)
  : list ParsedMessage :=
  match msg with
  | tool_use ts name (Some c) inp res =>
      if Js.truthyS c then
        match List.filter (isResultWith c) rawMessages with
        | [] => [msg]
        | results => [tool_use ts name (Some c) inp (List.map toToolResult results)]
        end
      else [msg]
  | tool_result _ _ callId _ _ =>
      if hasMatchingToolUse rawMessages callId then [] else [msg]
  | _ => [msg]
  end.

End Correlation.

(** ** [ContentCleaner] ([utils/contentCleaner.ts]) *)

Module ContentCleaner.

Local Open Scope string_scope.

(** The character class of the [json] case: braces, brackets, the double
    quote, the comma and the colon. *)
Definition isStructural (c : ascii) : bool :=
  existsb (Ascii.eqb c) ["{"; "}"; "["; "]"; Js.dquote; ","; ":"]%char.

(** The [replace] of the [json] case: each of them becomes a space. *)
Fixpoint stripStructural (s : string) : string :=
  match s with
  | EmptyString => EmptyString
  | String c r => String (if isStructural c then " "%char else c) (stripStructural r)
  end.

Fixpoint hasGt (s : string) : bool :=
  match s with
  | EmptyString => false
  | String c r => Ascii.eqb c ">" || hasGt r
  end.

(** [s.replace(/<[^>]*>/g, ' ')]: a [<] starts a match when a [>] follows
    somewhere; the match runs to the first [>] and is replaced by one
    space; [inTag] tells that the scan is inside a match. *)
Fixpoint stripTagsFrom (inTag : bool) (s : string) : string :=
  match s with
  | EmptyString => EmptyString
  | String c r =>
      if inTag then
        if Ascii.eqb c ">" then String " " (stripTagsFrom false r) else stripTagsFrom true r
      else if Ascii.eqb c "<" && hasGt r then stripTagsFrom true r
      else String c (stripTagsFrom false r)
  end.

Definition stripTags (s : string) : string := stripTagsFrom false s.

(** [s.replace(/\s+/g, ' ')], on the characters; [inRun] tells that the
    character before was white space. *)
Fixpoint collapseFrom (inRun : bool) (l : list string) : list string :=
  match l with
  | [] => []
  | ch :: r =>
      if Js.isWhiteSpace ch
      then if inRun then collapseFrom true r else " " :: collapseFrom true r
      else ch :: collapseFrom false r
  end.

Definition collapseWhiteSpace (s : string) : string :=
  Js.joinChars (collapseFrom false (Js.chars s)).

Definition normalizeWhitespace (text : string) : string :=
  Js.trim (collapseWhiteSpace text).

(** The characters [normalizeWhitespace] leaves. *)
Definition normalized (s : string) : list string :=
  Js.trimEnd (Js.trimStart (collapseFrom false (Js.chars s))).

(** What one block pushes on [parts]. *)
Definition partsOf (block : MessageContent) : list string :=
  match block with
  | text t => [t]
  | code c _ => [c]
  | markdown m => [m]
  | json j => [stripStructural j]
  | diff oldText newText _ =>
      (if Js.truthyS oldText then [oldText] else [])
      ++ (if Js.truthyS newText then [newText] else [])
  | html h => [stripTags h]
  end.

Definition extractText (content : list MessageContent) : string :=
  normalizeWhitespace (Js.join " " (flat_map partsOf content)).

End ContentCleaner.

(** ** [extractProjectName] ([utils/project.ts]) *)

Module ProjectPath.

Local Open Scope string_scope.

Definition isSeparator (c : ascii) : bool :=
  Ascii.eqb c "/" || Ascii.eqb c Js.backslash.

(** [s.split(/[/\\]/)]; [current] is the part being read. *)
Fixpoint splitFrom (current : string) (s : string) : list string :=
  match s with
  | EmptyString => [current]
  | String c r =>
      if isSeparator c then current :: splitFrom EmptyString r
      else splitFrom (current ++ String c EmptyString) r
  end.

Definition split (s : string) : list string := splitFrom EmptyString s.

(** The class [[a-zA-Z0-9_-]]. *)
Definition isNameChar (c : ascii) : bool :=
  let n := nat_of_ascii c in
  ((97 <=? n) && (n <=? 122) || (65 <=? n) && (n <=? 90) || (48 <=? n) && (n <=? 57)
   || (n =? 95) || (n =? 45))%nat.

(** [s.replace(/[^a-zA-Z0-9_-]/g, '-')]. *)
Fixpoint dashOthers (s : string) : string :=
  match s with
  | EmptyString => EmptyString
  | String c r => String (if isNameChar c then c else "-"%char) (dashOthers r)
  end.

(** [s.replace(/-+/g, '-')]. *)
Fixpoint collapseDashes (s : string) : string :=
  match s with
  | EmptyString => EmptyString
  | String c r =>
      if Ascii.eqb c "-"
      then match r with
           | String c' _ => if Ascii.eqb c' "-" then collapseDashes r
                            else String c (collapseDashes r)
           | EmptyString => String c EmptyString
           end
      else String c (collapseDashes r)
  end.

(** [s.replace(/^-|-$/g, '')]: one dash at the start and one at the end. *)
Definition stripLeadingDash (s : string) : string :=
  match s with
  | String c r => if Ascii.eqb c "-" then r else s
  | EmptyString => EmptyString
  end.

Definition trimDashes (s : string) : string :=
  Js.stripTrailingChar "-" (stripLeadingDash s).

Section Name.
Context {unicode : Js.Unicode}.

Definition extractProjectName (projectPath : string) : option string :=
  if negb (Js.truthyS projectPath) || String.eqb projectPath "unknown"
     || String.eqb projectPath "null" || String.eqb projectPath "undefined"
  then None
  else
    let parts := List.filter Js.truthyS (split projectPath) in
    match last parts with
    | None => None
    | Some lastPart =>
        if negb (Js.truthyS lastPart) then None
        else
          let cleaned :=
            Js.toLowerCase (trimDashes (collapseDashes (dashOthers lastPart))) in
          if Js.truthyS cleaned then Some cleaned else None
    end.

End Name.

End ProjectPath.

(** ** [ClaudeSessionFinder]: directory names *)

Module ClaudeFinder.

Local Open Scope string_scope.

(** [projectPath.replace(/\//g, '-').replace(/:/g, '')]. *)
Definition projectPathToClaudeDir (projectPath : string) : string :=
  Js.replaceAllChar ":" EmptyString (Js.replaceAllChar "/" "-" projectPath).

(** [dirName.replace(/-/g, '/')]. *)
Definition claudeDirToProjectName (dirName : string) : string :=
  Js.replaceAllChar "-" "/" dirName.

End ClaudeFinder.

(** ** Vocabulary for strings *)

Module Text.

Local Open Scope string_scope.

(** Every occurrence of a character of the class [sep] in [s] stands
    between two others: it is not the first character, and the character
    after it exists and is not of the class. *)
Definition between (sep : ascii -> bool) (s : string) : Prop :=
  forall a c b,
    s = a ++ String c b -> sep c = true ->
    a <> EmptyString /\ exists c' b', b = String c' b' /\ sep c' = false.

(** Every character of [s] is of the class [P]. *)
Definition allChars (P : ascii -> bool) (s : string) : Prop :=
  forall a c b, s = a ++ String c b -> P c = true.

Fixpoint contains (c : ascii) (s : string) : bool :=
  match s with
  | EmptyString => false
  | String x r => Ascii.eqb x c || contains c r
  end.

Definition isDash (c : ascii) : bool := Ascii.eqb c "-".

(** The class [[a-z0-9_-]]. *)
Definition isSlugChar (c : ascii) : bool :=
  let n := nat_of_ascii c in
  ((97 <=? n) && (n <=? 122) || (48 <=? n) && (n <=? 57) || (n =? 95) || (n =? 45))%nat.

(** Every white-space character of [s] is a space that stands between two
    characters that are no white space. *)
Definition spaced (s : string) : Prop :=
  forall a ch b,
    Js.chars s = (a ++ ch :: b)%list -> Js.isWhiteSpace ch = true ->
    ch = " " /\ a <> [] /\ exists ch' b', b = ch' :: b' /\ Js.isWhiteSpace ch' = false.

(** Recognisers on the characters, for white space: a white-space
    character is a space and follows none; [looseChars] allows one at
    either end, [separatedChars] does not; [after] tells that the
    character before was white space. *)
Fixpoint looseChars (after : bool) (l : list string) : bool :=
  match l with
  | [] => true
  | ch :: r =>
      if Js.isWhiteSpace ch then negb after && String.eqb ch " " && looseChars true r
      else looseChars false r
  end.

Fixpoint separatedChars (after : bool) (l : list string) : bool :=
  match l with
  | [] => negb after
  | ch :: r =>
      if Js.isWhiteSpace ch then negb after && String.eqb ch " " && separatedChars true r
      else separatedChars false r
  end.

(** A character is one byte and the bytes that continue it. *)
Definition continued (t : string) : bool :=
  match t with
  | String _ r => forallb Js.isContinuation (list_ascii_of_string r)
  | EmptyString => false
  end.

Definition starts (t : string) : bool := continued t && negb (Js.startsContinued t).

(** A list of characters as [Js.chars] gives them: only the first may
    start with a byte that continues a character. *)
Definition wellFormed (l : list string) : Prop :=
  match l with
  | [] => True
  | t :: r => continued t = true /\ Forall (fun t => starts t = true) r
  end.

Definition strict (l : list string) : Prop := Forall (fun t => starts t = true) l.

(** Recognisers: [loose] allows a class character at either end,
    [separated] does not; [after] tells that the character before was of
    the class. *)
Fixpoint loose (sep : ascii -> bool) (after : bool) (s : string) : bool :=
  match s with
  | EmptyString => true
  | String c r => if sep c then negb after && loose sep true r else loose sep false r
  end.

Fixpoint separated (sep : ascii -> bool) (after : bool) (s : string) : bool :=
  match s with
  | EmptyString => negb after
  | String c r => if sep c then negb after && separated sep true r else separated sep false r
  end.

Fixpoint every (P : ascii -> bool) (s : string) : bool :=
  match s with
  | EmptyString => true
  | String c r => P c && every P r
  end.

End Text.

(** ** [DiffBuilder] ([utils/diff.ts]) *)

Module DiffBuilder.

Local Open Scope string_scope.

Definition apostrophe : ascii := "039"%char.

(** [escapeHtml]: the five replacements, the ampersand first. *)
Definition escapeHtml (text : string) : string :=
  Js.replaceAllChar apostrophe "&#039;"
    (Js.replaceAllChar Js.dquote "&quot;"
       (Js.replaceAllChar ">" "&gt;"
          (Js.replaceAllChar "<" "&lt;"
             (Js.replaceAllChar "&" "&amp;" text)))).

(** [s.replace(/^\//, '')]. *)
Definition stripLeadingSlash (s : string) : string :=
  match s with
  | String c r => if Ascii.eqb c "/" then r else s
  | EmptyString => EmptyString
  end.

(** [stripWorkingDirectory]; [None] is an omitted [workingDir]. *)
Definition stripWorkingDirectory (filePath : string) (workingDir : option string) : string :=
  match workingDir with
  | None => filePath
  | Some workingDir =>
      if negb (Js.truthyS workingDir) then filePath
      else
        let normalizedWorkingDir := Js.stripTrailingChar "/" workingDir in
        if Search.isPrefix normalizedWorkingDir filePath
        then stripLeadingSlash (Js.drop (String.length normalizedWorkingDir) filePath)
        else filePath
  end.

End DiffBuilder.

(** ** Sample data

    An instance of the helpers and the sessions of the specification's
    scenarios, for running the model. *)

Module Examples.

Import Db Importer.
Local Open Scope Z_scope.

(** The sample data is text of ASCII characters: lower case is
    [lowerAscii]. *)
#[export] Instance asciiText : Js.Unicode := {|
  Js.toLowerCase := Js.lowerAscii;
  Js.toLowerCase_ascii := fun s _ => eq_refl
|}.

Definition blockText (c : MessageContent) : list string :=
  match c with
  | text t => [t]
  | code c _ => [c]
  | markdown m => [m]
  | json j => [j]
  | diff o n _ => [o; n]
  | html h => [h]
  end.

Definition digitAt (s : string) (i : nat) : option Z :=
  match String.get i s with
  | Some c => if isDigit c then Some (Z.of_nat (nat_of_ascii c - 48)) else None
  | None => None
  end.

Fixpoint numberAt (s : string) (i n : nat) (acc : Z) : option Z :=
  match n with
  | O => Some acc
  | S k =>
      match digitAt s i with
      | Some d => numberAt s (S i) k (acc * 10 + d)
      | None => None
      end
  end.

Definition daysFromCivil (y m d : Z) : Z :=
  let y := if m <=? 2 then y - 1 else y in
  let era := y / 400 in
  let yoe := y - era * 400 in
  let doy := (153 * (if m >? 2 then m - 3 else m + 9) + 2) / 5 + d - 1 in
  let doe := yoe * 365 + yoe / 4 - yoe / 100 + doy in
  era * 146097 + doe - 719468.

(** The time value of a date written as [toISOString] writes it
    (YYYY-MM-DDTHH:mm:ss.sssZ); any other string is an invalid date. *)
Definition isoTime (s : string) : option Z :=
  match numberAt s 0 4 0, numberAt s 5 2 0, numberAt s 8 2 0,
        numberAt s 11 2 0, numberAt s 14 2 0, numberAt s 17 2 0, numberAt s 20 3 0 with
  | Some y, Some mo, Some d, Some h, Some mi, Some se, Some ms =>
      if (String.length s =? 24)%nat
      then Some (((daysFromCivil y mo d * 24 + h) * 60 + mi) * 60000 + se * 1000 + ms)
      else None
  | _, _, _, _, _, _, _ => None
  end.

#[export] Instance helpers : Helpers := {|
  formatToolInput := fun input _ _ =>
    flat_map (fun kv => [text (fst kv); code (snd kv) None]) input;
  extractText := fun content => Js.join " " (flat_map blockText content);
  dateGetTime := isoTime
|}.

Definition emptyTables : Tables :=
  mkTables (mkTable [] 0) (mkTable [] 0) (mkTable [] 0).

Definition emptyWorld : World :=
  mkWorld (mkSqlite emptyTables emptyTables false []) (mkSqlite [] [] false []) [].

Definition stamp : string := "2025-01-01T00:00:00.000Z".

Definition sessionOf (msgs : list ParsedMessage) : SessionWithProject.t :=
  SessionWithProject.mk
    (SessionDetail.mk "s1" "fix bug" msgs None)
    CLAUDE_CODE "/home/user/proj" "proj" None stamp stamp.

(** The two-message session of the specification and its shorter
    versions. *)
Definition twoMessages : SessionWithProject.t :=
  sessionOf [user stamp [text "fix bug"]; assistant_text stamp [text "done"]].

Definition oneMessage : SessionWithProject.t :=
  sessionOf [user stamp [text "fix bug"]].

Definition noMessages : SessionWithProject.t := sessionOf [].

(** A world whose search connection fails on its [n]-th call from now. *)
Definition searchFailsAt (n : nat) (w : World) : World :=
  mkWorld (db w)
          (mkSqlite (durable (searchDb w)) (live (searchDb w))
                    (inTransaction (searchDb w)) (repeat false n ++ [true]))
          (console w).

(** A world whose primary connection fails on its [n]-th call from now. *)
Definition primaryFailsAt (n : nat) (w : World) : World :=
  mkWorld (mkSqlite (durable (db w)) (live (db w)) (inTransaction (db w))
                    (repeat false n ++ [true]))
          (searchDb w) (console w).

Definition run {A : Type} (m : M A) (w : World) : World := snd (m w).

(** A store that holds the project of the sample sessions, under id 1,
    and nothing else. *)
Definition projectStore : Tables :=
  snd (projects_upsert (projectOf (sessionOf [])) emptyTables).

Definition projectWorld : World :=
  mkWorld (mkSqlite projectStore projectStore false []) (mkSqlite [] [] false []) [].

Definition messageRows (w : World) : list MessageRow.t := rows (messages (live (db w))).

(** The project identifier of the sample sessions. *)
Definition projectUuid : string := Uuid.generateProjectUuid "/home/user/proj".

Definition claude (sessions : list SessionWithProject.t) : SessionAdapter.t :=
  SessionAdapter.mk CLAUDE_CODE "Claude Code" sessions.

(** A session whose project path is the placeholder. *)
Definition unknownPath : SessionWithProject.t :=
  SessionWithProject.mk
    (SessionDetail.mk "s2" "no path" [user stamp [text "hello"]] None)
    CLAUDE_CODE "unknown" "proj" None stamp stamp.

(** A session of a project whose directory is called [constructor]. *)
Definition constructorSession : SessionWithProject.t :=
  SessionWithProject.mk
    (SessionDetail.mk "s3" "hello" [user stamp [text "hello"]] None)
    CLAUDE_CODE "/home/user/constructor" "constructor" None stamp stamp.

(** A session of a second project. *)
Definition otherProject : SessionWithProject.t :=
  SessionWithProject.mk
    (SessionDetail.mk "s4" "add tests" [user stamp [text "add tests"]] None)
    CODEX "/home/user/other" "other" None stamp stamp.

(** A session of fifty-one messages: one batch and one message more. *)
Definition fiftyOne : SessionWithProject.t :=
  sessionOf (repeat (user stamp [text "fix bug"]) 51).

End Examples.

(** * Properties *)

(** ** The correlator *)

Module CorrelatorFacts.

Import Correlator.

Lemma strictEq_refl o : Js.strictEq o o = true.
Proof. destruct o as [x|]; simpl; [apply String.eqb_refl | reflexivity]. Qed.

Lemma strictEq_eq a b : Js.strictEq a b = true <-> a = b.
Proof.
  destruct a as [x|], b as [y|]; simpl; split; intros H; try congruence.
  - apply String.eqb_eq in H. congruence.
  - injection H as ->. apply String.eqb_refl.
Qed.

Lemma hasMatching_in raw ts name c inp res :
  In (tool_use ts name c inp res) raw -> hasMatchingToolUse raw c = true.
Proof.
  intros Hin. unfold hasMatchingToolUse. apply existsb_exists.
  eexists. split; [exact Hin|]. simpl. apply strictEq_refl.
Qed.

(** The set of the second loop only ever holds identifiers of [tool_use]
    messages of the input, so consulting it changes nothing. *)
Lemma connect_fold raw idx l :
  forall (s : gset string) acc,
    (forall m, In m l -> In m raw) ->
    (forall c, c ∈ s -> hasMatchingToolUse raw (Some c) = true) ->
    snd (fold_left (connectStep raw idx) l (s, acc)) = acc ++ flat_map (emit raw idx) l.
Proof.
  induction l as [|msg l IH]; intros s acc Hsub Hs; simpl.
  - now rewrite app_nil_r.
  - assert (Hin : In msg raw) by (apply Hsub; now left).
    assert (Hsub' : forall m, In m l -> In m raw) by (intros m Hm; apply Hsub; now right).
    destruct msg as [ts c|ts c|ts th|ts name cid inp res|ts name cid out err|ts ti su co st];
      simpl; try (rewrite IH by assumption; now rewrite <- app_assoc).
    + destruct cid as [c|]; [|rewrite IH by assumption; now rewrite <- app_assoc].
      destruct (Js.truthyS c); [|rewrite IH by assumption; now rewrite <- app_assoc].
      destruct (idx !! c) as [rs|]; [|rewrite IH by assumption; now rewrite <- app_assoc].
      rewrite IH; [now rewrite <- app_assoc|assumption|].
      intros c' Hc'. apply elem_of_union in Hc' as [Hc'|Hc']; [|now apply Hs].
      apply elem_of_singleton in Hc'. subst c'. eapply hasMatching_in, Hin.
    + destruct (hasMatchingToolUse raw cid) eqn:Hm; simpl.
      * rewrite andb_false_r || idtac.
        destruct (negb (Js.truthy cid) || negb (connected s cid)); now rewrite IH.
      * assert (Hc : connected s cid = false).
        { destruct cid as [c|]; [|reflexivity]. simpl.
          apply bool_decide_eq_false. intros Hc. apply Hs in Hc. congruence. }
        rewrite Hc, orb_true_r. rewrite IH by assumption. now rewrite <- app_assoc.
Qed.

Lemma connect_emit raw :
  connect raw = flat_map (emit raw (indexToolResults raw)) raw.
Proof.
  unfold connect. rewrite connect_fold; [reflexivity|auto|].
  intros c Hc. now apply not_elem_of_empty in Hc.
Qed.

Lemma claude_connect raw : Claude.connectToolResultsToToolUse raw = connect raw.
Proof. reflexivity. Qed.

Lemma codex_connect raw : Codex.connectToolOutputsToToolCalls raw = connect raw.
Proof. reflexivity. Qed.

(** The index holds, under a non-empty identifier, the results that carry
    it, in input order. *)
Lemma index_fold c l :
  Js.truthyS c = true ->
  forall m : gmap string (list ParsedMessage),
    fold_left indexStep l m !! c =
    match List.filter (isResultWith c) l with
    | [] => m !! c
    | rs => Some (default [] (m !! c) ++ rs)
    end.
Proof.
  intros Hc. induction l as [|msg l IH]; intros m; simpl; [reflexivity|].
  rewrite IH. clear IH.
  destruct msg as [ts co|ts co|ts th|ts name cid inp res|ts name cid out err|ts ti su co st];
    simpl; try reflexivity.
  destruct cid as [c'|]; [|reflexivity].
  destruct (String.eqb c' c) eqn:E.
  - apply String.eqb_eq in E. subst c'. rewrite Hc.
    rewrite lookup_insert_eq. simpl.
    destruct (List.filter (isResultWith c) l); [reflexivity|].
    now rewrite <- app_assoc.
  - apply String.eqb_neq in E.
    destruct (Js.truthyS c'); [|reflexivity].
    now rewrite lookup_insert_ne.
Qed.

Lemma index_lookup c raw :
  Js.truthyS c = true ->
  indexToolResults raw !! c =
  match List.filter (isResultWith c) raw with
  | [] => None
  | rs => Some rs
  end.
Proof.
  intros Hc. unfold indexToolResults. rewrite index_fold by assumption.
  rewrite lookup_empty. reflexivity.
Qed.

(** Every message a message contributes carries that message's
    identifier. *)
Lemma emit_callId raw idx m m' : In m' (emit raw idx m) -> callIdOf m' = callIdOf m.
Proof.
  destruct m as [ts co|ts co|ts th|ts name cid inp res|ts name cid out err|ts ti su co st];
    simpl; try (intros [<-|[]]; reflexivity).
  - destruct cid as [c|]; [|intros [<-|[]]; reflexivity].
    destruct (Js.truthyS c); [|intros [<-|[]]; reflexivity].
    destruct (idx !! c); intros [<-|[]]; reflexivity.
  - destruct (hasMatchingToolUse raw cid); [intros []|intros [<-|[]]; reflexivity].
Qed.

Lemma filter_emit_none raw idx c l :
  (forall m, In m l -> callIdOf m <> Some c) ->
  List.filter (carries c) (flat_map (emit raw idx) l) = [].
Proof.
  intros H. induction l as [|m l IH]; simpl; [reflexivity|].
  rewrite List.filter_app, IH by (intros; apply H; now right).
  rewrite app_nil_r.
  assert (Hm : forall m', In m' (emit raw idx m) -> carries c m' = false).
  { intros m' Hm'. unfold carries. rewrite (emit_callId _ _ _ _ Hm').
    destruct (Js.strictEq (callIdOf m) (Some c)) eqn:E; [|reflexivity].
    apply strictEq_eq in E. exfalso. eapply H; [now left|exact E]. }
  induction (emit raw idx m) as [|x xs IHx]; simpl; [reflexivity|].
  rewrite Hm by now left. apply IHx. intros; apply Hm; now right.
Qed.

Lemma filter_result_none c l :
  (forall m, In m l -> callIdOf m <> Some c) -> List.filter (isResultWith c) l = [].
Proof.
  intros H. induction l as [|m l IH]; simpl; [reflexivity|].
  rewrite IH by (intros; apply H; now right).
  destruct m as [ts co|ts co|ts th|ts name cid inp res|ts name cid out err|ts ti su co st];
    simpl; try reflexivity.
  destruct cid as [c'|]; [|reflexivity].
  destruct (String.eqb c' c) eqn:E; [|reflexivity].
  apply String.eqb_eq in E. subst. exfalso. eapply H; [now left|reflexivity].
Qed.

Lemma emit_result raw idx c m0 m :
  In m (emit raw idx m0) -> isResultWith c m = true ->
  hasMatchingToolUse raw (Some c) = false.
Proof.
  destruct m0 as [ts co|ts co|ts th|ts name cid inp res|ts name cid out err|ts ti su co st];
    simpl; try (intros [<-|[]]; discriminate).
  - destruct cid as [c0|]; [|intros [<-|[]]; discriminate].
    destruct (Js.truthyS c0); [|intros [<-|[]]; discriminate].
    destruct (idx !! c0); intros [<-|[]]; discriminate.
  - destruct (hasMatchingToolUse raw cid) eqn:E; [intros []|].
    intros [<-|[]]. simpl. destruct cid as [c0|]; [|discriminate].
    intros Hc. apply String.eqb_eq in Hc. now subst c0.
Qed.

(** C2, amended.  A [tool_use] named Read with identifier c1 and, later in
    the list, the [tool_result] of c1 whose output is the code block "file
    contents".  Whatever else the list holds, no [tool_result] of c1 stands
    in the correlator's output, and the [tool_use] stands there with the
    results of all the [tool_result]s of c1, in the order of the list.
    When no other message of the list carries c1, the output holds exactly
    one message carrying c1: the [tool_use] with the single result
    [{output: "file contents", isError: false, toolCallId: "c1"}]. *)
Theorem correlate_read_c1 :
  forall pre mid post ts inp res ts' name lang,
    let use := tool_use ts "Read" (Some "c1") inp res in
    let result := tool_result ts' name (Some "c1") [code "file contents" lang] false in
    let raw := pre ++ use :: mid ++ result :: post in
    let out := Claude.connectToolResultsToToolUse raw in
    (forall m, In m out -> isResultWith "c1" m = false)
    /\ In (tool_use ts "Read" (Some "c1") inp
             (List.map toToolResult (List.filter (isResultWith "c1") raw))) out
    /\ ((forall m, In m (pre ++ mid ++ post) -> callIdOf m <> Some "c1") ->
        List.filter (carries "c1") out
        = [tool_use ts "Read" (Some "c1") inp
             [{| output := "file contents"; isError := false; toolCallId := Some "c1" |}]]).
Proof.
  intros pre mid post ts inp res ts' name lang use result raw out.
  assert (Huse : hasMatchingToolUse raw (Some "c1") = true).
  { eapply hasMatching_in. unfold raw. apply in_or_app. right. left. reflexivity. }
  assert (Hres : In result (List.filter (isResultWith "c1") raw)).
  { apply filter_In. split; [|reflexivity].
    unfold raw. apply in_or_app. right. right. apply in_or_app. right. now left. }
  assert (Hidx : indexToolResults raw !! "c1" = Some (List.filter (isResultWith "c1") raw)).
  { rewrite index_lookup by reflexivity.
    destruct (List.filter (isResultWith "c1") raw); [destruct Hres|reflexivity]. }
  assert (Hout : out = flat_map (emit raw (indexToolResults raw)) raw).
  { unfold out. now rewrite claude_connect, connect_emit. }
  split; [|split].
  - intros m Hin. rewrite Hout in Hin. apply in_flat_map in Hin as [m0 [_ Hin]].
    destruct (isResultWith "c1" m) eqn:E; [|reflexivity].
    pose proof (emit_result _ _ _ _ _ Hin E). congruence.
  - rewrite Hout. apply in_flat_map. exists use. split.
    + unfold raw. apply in_or_app. right. now left.
    + simpl. rewrite Hidx. now left.
  - intros H.
    assert (Hpre : forall m, In m pre -> callIdOf m <> Some "c1")
      by (intros m Hm; apply H; apply in_or_app; now left).
    assert (Hmid : forall m, In m mid -> callIdOf m <> Some "c1")
      by (intros m Hm; apply H; apply in_or_app; right; apply in_or_app; now left).
    assert (Hpost : forall m, In m post -> callIdOf m <> Some "c1")
      by (intros m Hm; apply H; apply in_or_app; right; apply in_or_app; now right).
    assert (Hone : List.filter (isResultWith "c1") raw = [result]).
    { unfold raw. rewrite List.filter_app. simpl. rewrite List.filter_app. simpl.
      now rewrite !filter_result_none by assumption. }
    rewrite Hout. unfold raw at 3.
    rewrite flat_map_app. simpl. rewrite Hidx, Hone. simpl.
    rewrite flat_map_app. simpl. rewrite Huse.
    rewrite List.filter_app. simpl. rewrite List.filter_app.
    now rewrite !filter_emit_none by assumption.
Qed.

(** The scenario of the specification: the two messages alone. *)
Lemma correlate_read_c1_witness :
  List.filter (carries "c1")
    (Claude.connectToolResultsToToolUse
       ([] ++ tool_use "t0" "Read" (Some "c1") [] []
           :: [] ++ tool_result "t1" None (Some "c1") [code "file contents" None] false :: []))
  = [tool_use "t0" "Read" (Some "c1") []
       [{| output := "file contents"; isError := false; toolCallId := Some "c1" |}]].
Proof.
  apply (correlate_read_c1 [] [] [] "t0" [] [] "t1" None None).
  simpl. intros m [].
Defined.

(** C2 as it is worded, for every list that holds the pair, fails: a
    second [tool_result] of c1 is attached as well, and the [tool_use] has
    two results. *)
Lemma second_result_attached :
  let use := tool_use "t0" "Read" (Some "c1") [] [] in
  let result := tool_result "t1" None (Some "c1") [code "file contents" None] false in
  let again := tool_result "t2" None (Some "c1") [code "again" None] true in
  Claude.connectToolResultsToToolUse [use; result; again]
  = [tool_use "t0" "Read" (Some "c1") []
       [{| output := "file contents"; isError := false; toolCallId := Some "c1" |};
        {| output := "again"; isError := true; toolCallId := Some "c1" |}]]
  /\ Codex.connectToolOutputsToToolCalls [use; result; again]
     = Claude.connectToolResultsToToolUse [use; result; again].
Proof. split; vm_compute; reflexivity. Qed.

(** C3, at the input on which the code departs from it: a [tool_use]
    without identifier and a [tool_result] without identifier.  The result
    matches no call, yet [undefined === undefined] makes the scan for a
    matching [tool_use] succeed, and the result is dropped: the output is
    the [tool_use] alone, with no results attached. *)
Theorem unidentified_result_dropped :
  Claude.connectToolResultsToToolUse
    [tool_use "t0" "Read" None [] [];
     tool_result "t1" None None [code "file contents" None] false]
  = [tool_use "t0" "Read" None [] []]
  /\ Codex.connectToolOutputsToToolCalls
       [tool_use "t0" "shell" None [] [];
        tool_result "t1" None None [code "ok" None] false]
     = [tool_use "t0" "shell" None [] []].
Proof. split; vm_compute; reflexivity. Qed.

(** X2. A [tool_result] is retained unchanged exactly when no [tool_use] of
    the input has a strictly equal identifier; this covers every result whose
    identifier no call has, and a result without identifier when every
    call has one. *)
Theorem unmatched_result_retained :
  forall raw ts name callId out err,
    In (tool_result ts name callId out err) raw ->
    (In (tool_result ts name callId out err) (Claude.connectToolResultsToToolUse raw)
     <-> Correlator.hasMatchingToolUse raw callId = false).
Proof.
  intros raw ts name callId out err Hin.
  rewrite claude_connect, connect_emit. split.
  - intros H. apply in_flat_map in H as [m [Hm H]].
    destruct m as [ts1 co|ts1 co|ts1 th|ts1 n1 cid inp res|ts1 n1 cid o1 e1|ts1 ti su co st];
      simpl in H; try (destruct H as [H|[]]; discriminate H).
    + destruct cid as [c|]; [|destruct H as [H|[]]; discriminate H].
      destruct (Js.truthyS c); [|destruct H as [H|[]]; discriminate H].
      destruct (indexToolResults raw !! c); destruct H as [H|[]]; discriminate H.
    + destruct (hasMatchingToolUse raw cid) eqn:E; [destruct H|].
      destruct H as [H|[]]. injection H as -> -> -> -> ->. exact E.
  - intros H. apply in_flat_map. eexists. split; [exact Hin|].
    simpl. rewrite H. now left.
Qed.

Lemma unmatched_result_retained_witness :
  In (tool_result "t1" None (Some "c9") [text "late"] false)
     (Claude.connectToolResultsToToolUse
        [tool_use "t0" "Read" (Some "c1") [] [];
         tool_result "t1" None (Some "c9") [text "late"] false]).
Proof.
  apply (unmatched_result_retained
           [tool_use "t0" "Read" (Some "c1") [] [];
            tool_result "t1" None (Some "c9") [text "late"] false]).
  - right. left. reflexivity.
  - reflexivity.
Defined.

End CorrelatorFacts.

(** ** The project identifier *)

Module UuidFacts.

Import Uuid.
Local Open Scope Z_scope.

Lemma digest_shape m :
  exists d0 d1 d2 d3 d4 d5 d6 d7 d8 d9 d10 d11 d12 d13 d14 d15 d16 d17 d18 d19,
    Sha1.digest m = [d0; d1; d2; d3; d4; d5; d6; d7; d8; d9; d10; d11; d12; d13; d14;
                     d15; d16; d17; d18; d19].
Proof.
  unfold Sha1.digest. destruct (fold_left _ _ _) as [[[[h0 h1] h2] h3] h4].
  unfold Sha1.wordBytes. simpl. repeat eexists.
Qed.

Lemma hexDigit_lower n : isLowerHex (Js.hexDigit n) = true.
Proof. do 16 (destruct n as [|n]; [reflexivity|]). reflexivity. Qed.

(** The low [k] bits of any integer, as a natural number below [2^k]. *)
Lemma land_ones_nat d k :
  0 <= k -> exists n, (n < Z.to_nat (2 ^ k))%nat /\ Z.land d (Z.ones k) = Z.of_nat n.
Proof.
  intros Hk. rewrite Z.land_ones by assumption.
  assert (Hp : 0 < 2 ^ k) by (apply Z.pow_pos_nonneg; lia).
  pose proof (Z.mod_pos_bound d (2 ^ k) Hp) as Hb.
  exists (Z.to_nat (d mod 2 ^ k)). split; [|now rewrite Z2Nat.id].
  apply Z2Nat.inj_lt; lia.
Qed.

(** [(b & 0x0f) | 0x50] has the high digit 5. *)
Lemma version_digit d : Js.hexDigit (Z.to_nat (Z.lor (Z.land d 15) 80 / 16)) = "5"%char.
Proof.
  destruct (land_ones_nat d 4 ltac:(lia)) as [n [Hn Hd]].
  change (Z.ones 4) with 15 in Hd. rewrite Hd.
  change (Z.to_nat (2 ^ 4)) with 16%nat in Hn.
  do 16 (destruct n as [|n]; [reflexivity|]). lia.
Qed.

(** [(b & 0x3f) | 0x80] has a high digit among 8, 9, a, b. *)
Lemma variant_digit d :
  existsb (Ascii.eqb (Js.hexDigit (Z.to_nat (Z.lor (Z.land d 63) 128 / 16))))
          ["8"%char; "9"%char; "a"%char; "b"%char] = true.
Proof.
  destruct (land_ones_nat d 6 ltac:(lia)) as [n [Hn Hd]].
  change (Z.ones 6) with 63 in Hd. rewrite Hd.
  change (Z.to_nat (2 ^ 6)) with 64%nat in Hn.
  do 64 (destruct n as [|n]; [reflexivity|]). lia.
Qed.

Section Identifier.
Context {unicode : Js.Unicode}.

(** C10. For every input string [generateProjectUuid] returns a
    well-formed RFC 4122 version-5 identifier: 36 characters, five
    hyphen-separated groups of lowercase hexadecimal digits of lengths
    8-4-4-4-12, the third group starting with 5 and the fourth with 8, 9,
    a or b; and equal inputs give equal identifiers. *)
Theorem generateProjectUuid_well_formed :
  forall projectPath : string,
    isUuidV5 (generateProjectUuid projectPath)
    /\ String.length (generateProjectUuid projectPath) = 36%nat
    /\ (forall other, other = projectPath ->
                      generateProjectUuid other = generateProjectUuid projectPath).
Proof.
  intros p.
  assert (Hshape : exists c0 c1 c2 c3 c4 c5 c6 c7 c8 c9 c10 c11 c13 c14 c15 c17 c18 c19 c20
                     c21 c22 c23 c24 c25 c26 c27 c28 c29 c30 c31 v,
             generateProjectUuid p =
               Js.join "-"
                 [String (Js.hexDigit c0) (String (Js.hexDigit c1) (String (Js.hexDigit c2)
                    (String (Js.hexDigit c3) (String (Js.hexDigit c4) (String (Js.hexDigit c5)
                    (String (Js.hexDigit c6) (String (Js.hexDigit c7) EmptyString)))))));
                  String (Js.hexDigit c8) (String (Js.hexDigit c9) (String (Js.hexDigit c10)
                    (String (Js.hexDigit c11) EmptyString)));
                  String "5"%char (String (Js.hexDigit c13) (String (Js.hexDigit c14)
                    (String (Js.hexDigit c15) EmptyString)));
                  String (Js.hexDigit v) (String (Js.hexDigit c17) (String (Js.hexDigit c18)
                    (String (Js.hexDigit c19) EmptyString)));
                  String (Js.hexDigit c20) (String (Js.hexDigit c21) (String (Js.hexDigit c22)
                    (String (Js.hexDigit c23) (String (Js.hexDigit c24) (String (Js.hexDigit c25)
                    (String (Js.hexDigit c26) (String (Js.hexDigit c27) (String (Js.hexDigit c28)
                    (String (Js.hexDigit c29) (String (Js.hexDigit c30) (String (Js.hexDigit c31)
                       EmptyString)))))))))))]
             /\ existsb (Ascii.eqb (Js.hexDigit v)) ["8"%char; "9"%char; "a"%char; "b"%char]
                = true).
  { unfold generateProjectUuid.
    destruct (digest_shape (Sha1.bytesOfString PROJECT_NAMESPACE
                              ++ Sha1.bytesOfString (normalizePath p)))
      as (d0&d1&d2&d3&d4&d5&d6&d7&d8&d9&d10&d11&d12&d13&d14&d15&d16&d17&d18&d19&H).
    rewrite H. cbn. unfold hexByte. cbn. rewrite version_digit.
    do 31 eexists. split; [reflexivity|]. apply variant_digit. }
  destruct Hshape
    as (c0&c1&c2&c3&c4&c5&c6&c7&c8&c9&c10&c11&c13&c14&c15&c17&c18&c19&c20&c21&c22&c23&c24
        &c25&c26&c27&c28&c29&c30&c31&v&Hu&Hv).
  split; [|split].
  - rewrite Hu. unfold isUuidV5. do 5 eexists. split; [reflexivity|].
    unfold hexGroup. cbn [String.length allLowerHex startsWithOneOf].
    rewrite !hexDigit_lower. rewrite Hv. cbn. repeat split; reflexivity.
  - rewrite Hu. reflexivity.
  - intros other ->. reflexivity.
Qed.

Lemma normalizePath_ascii p :
  Js.isAscii (Js.stripTrailingChar "/"%char (Js.replaceAllChar Js.backslash "/" p)) = true ->
  normalizePath p
  = Js.lowerAscii (Js.stripTrailingChar "/"%char (Js.replaceAllChar Js.backslash "/" p)).
Proof. intros H. unfold normalizePath. now apply Js.toLowerCase_ascii. Qed.

(** C5. Two raw paths that become equal after converting backslashes to
    forward slashes, removing a trailing separator and lowercasing get the
    same project identifier, whatever the case mapping of the characters
    outside ASCII is; so do the two paths the specification names, both
    normalised to the second. *)
Theorem generateProjectUuid_normalized :
  (forall p q : string,
      normalizePath p = normalizePath q -> generateProjectUuid p = generateProjectUuid q)
  /\ normalizePath "/Home/User/Proj/" = "/home/user/proj"%string
  /\ normalizePath "/home/user/proj" = "/home/user/proj"%string
  /\ generateProjectUuid "/Home/User/Proj/" = generateProjectUuid "/home/user/proj".
Proof.
  assert (H : forall p q : string,
             normalizePath p = normalizePath q -> generateProjectUuid p = generateProjectUuid q).
  { intros p q E. unfold generateProjectUuid. rewrite E. reflexivity. }
  assert (H1 : normalizePath "/Home/User/Proj/" = "/home/user/proj"%string)
    by (rewrite normalizePath_ascii; reflexivity).
  assert (H2 : normalizePath "/home/user/proj" = "/home/user/proj"%string)
    by (rewrite normalizePath_ascii; reflexivity).
  split; [exact H|]. split; [exact H1|]. split; [exact H2|].
  apply H. now rewrite H1, H2.
Qed.

End Identifier.

Import Examples.

(** Two Windows spellings of one directory. *)
Lemma generateProjectUuid_normalized_witness :
  generateProjectUuid ("C:" ++ String Js.backslash "Users" ++ String Js.backslash "Me"
                         ++ String Js.backslash EmptyString)%string
  = generateProjectUuid "c:/users/ME".
Proof.
  apply (proj1 generateProjectUuid_normalized). vm_compute. reflexivity.
Defined.

Example normalizePath_windows :
  normalizePath ("C:" ++ String Js.backslash "Users" ++ String Js.backslash "Me"
                   ++ String Js.backslash EmptyString)%string
  = "c:/users/me".
Proof. vm_compute. reflexivity. Qed.

End UuidFacts.

(** ** Epoch conversion *)

Module TimeFacts.

Import Time.
Local Open Scope Z_scope.

(** C8, at the boundary value on which the code departs from it: the
    comparison is strict, so 10^12 itself is taken for seconds and
    multiplied by 1000; the result is a date in the year 33658, not the
    date 2001-09-09 that 10^12 milliseconds stand for. *)
Theorem toDateTimeString_boundary :
  toDateTimeString 1000000000000 = toISOString (1000000000000 * 1000)
  /\ toDateTimeString 1000000000000 = Some "+033658-09-27T01:46:40.000Z"%string
  /\ toISOString 1000000000000 = Some "2001-09-09T01:46:40.000Z"%string.
Proof. repeat split; vm_compute; reflexivity. Qed.

Example stat_mtime : toDateTimeString 1700000000123 = Some "2023-11-14T22:13:20.123Z"%string.
Proof. vm_compute. reflexivity. Qed.

Example seconds_epoch : toDateTimeString 1700000000 = Some "2023-11-14T22:13:20.000Z"%string.
Proof. vm_compute. reflexivity. Qed.

Example out_of_range : toDateTimeString (-8640000000001) = None.
Proof. vm_compute. reflexivity. Qed.

End TimeFacts.

(** ** The search repository *)

Module SearchFacts.

Import Exceptions Search.
Local Open Scope Z_scope.

Lemma sqlLimit_negative {A : Type} (n : Z) (rows : list A) :
  n < 0 -> sqlLimit n rows = rows.
Proof. intros H. unfold sqlLimit. destruct (Z.ltb_spec n 0); [reflexivity|lia]. Qed.

Lemma sqlLimit_length {A : Type} (n : Z) (rows : list A) :
  0 <= n -> (length (sqlLimit n rows) <= Z.to_nat n)%nat.
Proof.
  intros H. unfold sqlLimit. destruct (Z.ltb_spec n 0); [lia|].
  rewrite length_firstn. lia.
Qed.

Lemma bindLimit_ok n : -9223372036854775808 < n -> bindLimit n = Ok n.
Proof.
  intros H. unfold bindLimit.
  destruct (Z.leb_spec n (-9223372036854775808)); [lia|reflexivity].
Qed.

(** Both methods with a limit that is not negative once capped. *)
Lemma capped_rows (engine : Fts5) table project query limit :
  0 <= Z.min (limitOrDefault limit) MAX_LIMIT ->
  (exists rows, search table query limit = Ok rows /\ (length rows <= 100)%nat)
  /\ (exists rows, searchByProject table project query limit = Ok rows
                   /\ (length rows <= 100)%nat).
Proof.
  intros H.
  assert (Hl : Z.min (limitOrDefault limit) MAX_LIMIT <= 100) by (unfold MAX_LIMIT; lia).
  unfold search, searchByProject. rewrite bindLimit_ok by lia.
  split; eexists; (split; [reflexivity|]);
    (eapply Nat.le_trans; [apply sqlLimit_length; lia|lia]).
Qed.




(** The cap rests on the callers.  [Math.min] leaves a negative limit as
    it is and SQLite reads a negative [LIMIT] as no limit: called with
    one, above -2^63, both methods return every matching row, however
    many; at or below -2^63 they throw. *)
Lemma negative_limit_direct :
  forall (engine : Fts5) (table : list SearchEntry) (project query : string) (limit : Z),
    limit < 0 ->
    (-9223372036854775808 < limit ->
     (exists rows, search table query (Some limit) = Ok rows
                   /\ length rows
                      = length (List.filter (fts5_match (escapeFts5Query query)) table))
     /\ (exists rows, searchByProject table project query (Some limit) = Ok rows
                      /\ length rows
                         = length (List.filter
                                     (fun r => fts5_match (escapeFts5Query query) r
                                               && String.eqb (projectName r) project)
                                     table)))
    /\ (limit <= -9223372036854775808 ->
        search table query (Some limit) = Throw (SqliteError "datatype mismatch")
        /\ searchByProject table project query (Some limit)
           = Throw (SqliteError "datatype mismatch")).
Proof.
  intros engine table project query limit H.
  unfold search, searchByProject, limitOrDefault, MAX_LIMIT.
  replace (Z.min limit 100) with limit by lia. split; intros H'.
  - rewrite bindLimit_ok by lia. rewrite !sqlLimit_negative by lia.
    split; eexists; (split; [reflexivity|]); apply Permutation_length, fts5_rank_perm.
  - unfold bindLimit. destruct (Z.leb_spec limit (-9223372036854775808)); [|lia].
    split; reflexivity.
Qed.

(** X4. With no limit given, or a limit that is not negative, both methods
    return, with at most [MAX_LIMIT] = 100 rows. *)
Theorem nonnegative_limit_capped :
  forall (engine : Fts5) (table : list SearchEntry) (project query : string)
         (limit : option Z),
    match limit with Some l => 0 <= l | None => True end ->
    (exists rows, search table query limit = Ok rows /\ (length rows <= 100)%nat)
    /\ (exists rows, searchByProject table project query limit = Ok rows
                     /\ (length rows <= 100)%nat).
Proof.
  intros engine table project query limit H.
  apply capped_rows. unfold MAX_LIMIT, limitOrDefault. destruct limit; lia.
Qed.

Lemma nonnegative_limit_capped_witness :
  (exists rows, search (engine := plainEngine) (findme 110) "findme" (Some 200%Z) = Ok rows
                /\ (length rows <= 100)%nat)
  /\ (exists rows, searchByProject (engine := plainEngine) (findme 110) "test-project" "findme"
                                   (Some 200%Z) = Ok rows
                   /\ (length rows <= 100)%nat).
Proof.
  apply (nonnegative_limit_capped plainEngine (findme 110) "test-project" "findme" (Some 200)).
  simpl. lia.
Defined.

Example caps_results_at_MAX_LIMIT :
  option_map (@length _)
    (match search (engine := plainEngine) (findme 110) "findme" (Some 200) with
     | Ok rows => Some rows | Throw _ => None end)
  = Some 100%nat.
Proof. vm_compute. reflexivity. Qed.

Example respects_limit_parameter :
  option_map (@length _)
    (match search (engine := plainEngine) (findme 5) "findme" (Some 3) with
     | Ok rows => Some rows | Throw _ => None end)
  = Some 3%nat.
Proof. vm_compute. reflexivity. Qed.

(** A request for 1000 rows from offset 7.5, and one whose limit is no
    number. *)
Example search_sessions_limits :
  SessionController.safeLimit (SessionController.finite (QArith_base.Qmake 1000 1))
                              (SessionController.finite (QArith_base.Qmake 15 2)) = 100
  /\ SessionController.safeLimit SessionController.notFinite
                                 (SessionController.finite (QArith_base.Qmake (-3) 1)) = 50
  /\ SessionController.safeLimit (SessionController.finite (QArith_base.Qmake (-5) 2))
                                 SessionController.notFinite = 1.
Proof. vm_compute. repeat split. Qed.

Example direct_call_uncapped :
  option_map (@length _)
    (match search (engine := plainEngine) (findme 101) "findme" (Some (-1)) with
     | Ok rows => Some rows | Throw _ => None end)
  = Some 101%nat.
Proof. vm_compute. reflexivity. Qed.

Example escapeFts5Query_path :
  escapeFts5Query "src/utils/helper.ts"
  = String Js.dquote ("src/utils/helper.ts" ++ String Js.dquote EmptyString)%string.
Proof. vm_compute. reflexivity. Qed.

End SearchFacts.

Example sha1_abc :
  Uuid.hex (Sha1.digest (Sha1.bytesOfString "abc"))
  = "a9993e364706816aba3e25717850c26c9cd0d89d".
Proof. vm_compute. reflexivity. Qed.

Example sha1_empty :
  Uuid.hex (Sha1.digest []) = "da39a3ee5e6b4b0d3255bfef95601890afd80709".
Proof. vm_compute. reflexivity. Qed.

Example sha1_two_blocks :
  Uuid.hex (Sha1.digest (Sha1.bytesOfString
     "abcdbcdecdefdefgefghfghighijhijkijkljklmklmnlmnomnopnopq"))
  = "84983e441c3bd26ebaae4aa1f95129e5e54670f1".
Proof. vm_compute. reflexivity. Qed.

Example scenario_read_c1 :
  Claude.connectToolResultsToToolUse
    [tool_use "t0" "Read" (Some "c1") [] [];
     tool_result "t1" None (Some "c1") [code "file contents" None] false]
  = [tool_use "t0" "Read" (Some "c1") []
       [{| output := "file contents"; isError := false; toolCallId := Some "c1" |}]].
Proof. vm_compute. reflexivity. Qed.

Example iso_epoch : Time.toISOString 0 = Some "1970-01-01T00:00:00.000Z".
Proof. vm_compute. reflexivity. Qed.

Example iso_1e12 : Time.toISOString 1000000000000 = Some "2001-09-09T01:46:40.000Z".
Proof. vm_compute. reflexivity. Qed.

Example iso_misc : Time.toISOString 1700000000123 = Some "2023-11-14T22:13:20.123Z".
Proof. vm_compute. reflexivity. Qed.

Example iso_neg : Time.toISOString (-1) = Some "1969-12-31T23:59:59.999Z".
Proof. vm_compute. reflexivity. Qed.

Example iso_leap : Time.toISOString 1709210096000 = Some "2024-02-29T12:34:56.000Z".
Proof. vm_compute. reflexivity. Qed.

Example iso_1e15 : Time.toISOString 1000000000000000 = Some "+033658-09-27T01:46:40.000Z".
Proof. vm_compute. reflexivity. Qed.

(** ** The importer *)

Module ImporterFacts.

Import Db Importer.
Local Open Scope Z_scope.

Section Facts.
Context {unicode : Js.Unicode} {helpers : Helpers}.

(** *** Running the monad *)

Lemma bind_ok {A B} (m : M A) (f : A -> M B) w a w' :
  m w = (Ok a, w') -> (m ≫= f) w = f a w'.
Proof. intros H. unfold mbind, M_bind. now rewrite H. Qed.

Lemma bind_throw {A B} (m : M A) (f : A -> M B) w e w' :
  m w = (Throw e, w') -> (m ≫= f) w = (Throw e, w').
Proof. intros H. unfold mbind, M_bind. now rewrite H. Qed.

Lemma exec_rest {A} (stmt : Tables -> A * Tables) D L b S C :
  onDb (exec stmt) (mkWorld (mkSqlite D L b []) S C)
  = (Ok (fst (stmt L)),
     mkWorld (mkSqlite (if b then D else snd (stmt L)) (snd (stmt L)) b []) S C).
Proof. unfold onDb, exec. simpl. destruct (stmt L). reflexivity. Qed.

Lemma begin_rest D L S C :
  onDb beginTransaction (mkWorld (mkSqlite D L false []) S C)
  = (Ok tt, mkWorld (mkSqlite D L true []) S C).
Proof. reflexivity. Qed.

Lemma commit_rest D L S C :
  onDb commitTransaction (mkWorld (mkSqlite D L true []) S C)
  = (Ok tt, mkWorld (mkSqlite L L false []) S C).
Proof. reflexivity. Qed.

Lemma upsertMessages_rest sid ca cwd msgs :
  forall index acc D L S C,
  exists D',
    upsertMessages sid ca cwd msgs index acc (mkWorld (mkSqlite D L true []) S C)
    = (Ok (fst acc ++ convertAll sid ca cwd msgs index,
           match msgs with [] => snd acc | _ => index + len msgs - 1 end),
       mkWorld (mkSqlite D' (upsertAll sid ca cwd msgs index L) true []) S C).
Proof.
  induction msgs as [|m msgs IH]; intros index acc D L S C.
  - exists D. simpl. rewrite app_nil_r. destruct acc; reflexivity.
  - cbn [upsertMessages upsertAll convertAll].
    erewrite bind_ok by apply exec_rest.
    set (L' := snd (messages_upsert (convertToMessage m sid ca index cwd) L)).
    set (acc' := (fst acc ++ [convertToMessage m sid ca index cwd], index)).
    assert (Hlast : match msgs with [] => snd acc' | _ => index + 1 + len msgs - 1 end
                    = index + len (m :: msgs) - 1).
    { unfold len. destruct msgs; simpl length; simpl snd; lia. }
    destruct ((index + 1) mod MSG_BATCH_SIZE =? 0).
    + erewrite bind_ok.
      2:{ erewrite bind_ok by apply commit_rest. apply begin_rest. }
      destruct (IH (index + 1) acc' L' L' S C) as [D' HD]. exists D'.
      rewrite HD, Hlast. unfold acc'. simpl fst. now rewrite <- app_assoc.
    + erewrite bind_ok by reflexivity.
      destruct (IH (index + 1) acc' D L' S C) as [D' HD]. exists D'.
      rewrite HD, Hlast. unfold acc'. simpl fst. now rewrite <- app_assoc.
Qed.

Lemma keepsDb_bind {A B} (m : M A) (f : A -> M B) :
  keepsDb m -> (forall a, keepsDb (f a)) -> keepsDb (m ≫= f).
Proof.
  intros Hm Hf w. unfold mbind, M_bind. specialize (Hm w).
  destruct (m w) as [[a|e] w']; simpl in *; [|assumption].
  rewrite Hf. assumption.
Qed.

Lemma keepsDb_ret {A} (a : A) : keepsDb (mret a).
Proof. intros w. reflexivity. Qed.

Lemma keepsDb_onSearchDb {A} f : keepsDb (@onSearchDb A f).
Proof. intros w. unfold onSearchDb. destruct (f (searchDb w)). reflexivity. Qed.

Lemma keepsDb_console_error l e : keepsDb (console_error l e).
Proof. intros w. reflexivity. Qed.

Lemma keepsDb_tryCatch {A} (m : M A) h :
  keepsDb m -> (forall e, keepsDb (h e)) -> keepsDb (tryCatch m h).
Proof.
  intros Hm Hh w. unfold tryCatch. specialize (Hm w).
  destruct (m w) as [[a|e] w']; simpl in *; [assumption|].
  rewrite Hh. assumption.
Qed.

Lemma keepsDb_indexMessages sid pu ti pn msgs : forall i, keepsDb (indexMessages sid pu ti pn msgs i).
Proof.
  induction msgs as [|m msgs IH]; intros i; simpl.
  - apply keepsDb_ret.
  - apply keepsDb_bind.
    + destruct (Js.truthyS _); [apply keepsDb_onSearchDb|apply keepsDb_ret].
    + intros _. apply keepsDb_bind; [|intros _; apply IH].
      destruct (_ =? _); [|apply keepsDb_ret].
      apply keepsDb_bind; [apply keepsDb_onSearchDb|intros _; apply keepsDb_onSearchDb].
Qed.

Lemma keepsDb_indexSession swp pu ti rms : keepsDb (indexSession swp pu ti rms).
Proof.
  unfold indexSession. apply keepsDb_tryCatch.
  - apply keepsDb_bind; [apply keepsDb_onSearchDb|intros _].
    apply keepsDb_bind; [apply keepsDb_onSearchDb|intros _].
    apply keepsDb_bind; [apply keepsDb_indexMessages|intros _].
    apply keepsDb_onSearchDb.
  - intros e. apply keepsDb_bind; [apply keepsDb_console_error|intros _].
    apply keepsDb_tryCatch; [apply keepsDb_onSearchDb|intros; apply keepsDb_console_error].
Qed.

Lemma tryCatch_unit_ok (m : M unit) h :
  (forall e w, fst (h e w) = Ok tt) -> forall w, fst (tryCatch m h w) = Ok tt.
Proof.
  intros Hh w. unfold tryCatch. destruct (m w) as [[[]|e] w']; [reflexivity|apply Hh].
Qed.

(** The search phase never throws. *)
Lemma indexSession_ok swp pu ti rms w :
  fst (indexSession swp pu ti rms w) = Ok tt.
Proof.
  unfold indexSession. apply tryCatch_unit_ok. intros e w0.
  unfold mbind, M_bind, console_error.
  apply tryCatch_unit_ok. reflexivity.
Qed.

(** On an idle primary connection the import is its search phase run
    from the world in which the primary writes are committed. *)
Lemma importSession_rest swp pid pu D L S C :
  exists rms,
    importSession swp pid pu (mkWorld (mkSqlite D L false []) S C)
    = indexSession swp pu (titleOf swp) rms
        (mkWorld (mkSqlite (importTables swp pid L) (importTables swp pid L) false []) S C).
Proof.
  unfold importSession.
  erewrite bind_ok by apply begin_rest.
  unfold tryCatch.
  erewrite bind_ok by apply exec_rest. cbn [snd fst sessions_getByProjectAndSessionId].
  erewrite bind_ok by apply exec_rest.
  unfold importTables.
  destruct (sessions_upsert (sessionDataOf swp pid) L) as [sid L1]. cbn [fst snd].
  destruct (upsertMessages_rest sid (SessionWithProject.created swp)
              (metadataField SessionMetadata.cwd (SessionWithProject.session swp))
              (SessionDetail.messages (SessionWithProject.session swp)) 0 ([], -1) D L1 S C)
    as [D' HD].
  erewrite bind_ok by apply HD. cbn [fst snd app].
  set (msgs := SessionDetail.messages (SessionWithProject.session swp)).
  set (L2 := upsertAll _ _ _ _ _ _).
  set (T := match msgs with [] => L2 | _ => _ end).
  assert (Hdel : exists D'',
    ((if match msgs with [] => -1 | _ => 0 + len msgs - 1 end >=? 0
      then onDb (exec (messages_deleteBySessionIdAndMinSequence sid
                         match msgs with [] => -1 | _ => 0 + len msgs - 1 end))
      else mret tt) (mkWorld (mkSqlite D' L2 true []) S C))
    = (Ok tt, mkWorld (mkSqlite D'' T true []) S C)).
  { subst T. destruct msgs as [|m0 ms] eqn:E.
    - exists D'. reflexivity.
    - assert (Hge : (0 + len (m0 :: ms) - 1 >=? 0) = true).
      { unfold len. simpl length. apply Z.geb_le. lia. }
      rewrite Hge. exists D'. rewrite exec_rest. cbn [fst snd messages_deleteBySessionIdAndMinSequence].
      replace (0 + len (m0 :: ms) - 1) with (len (m0 :: ms) - 1) by lia. reflexivity. }
  destruct Hdel as [D'' Hdel].
  erewrite bind_ok by apply Hdel.
  erewrite bind_ok by apply commit_rest.
  match goal with |- context [indexSession ?a ?b ?c ?d ?w] =>
    exists d; pose proof (indexSession_ok a b c d w) as Hok;
    destruct (indexSession a b c d w) as [[[]|e] w'];
    [reflexivity|discriminate Hok] end.
Qed.

(** *** Upserts *)

Section Upsert.
Context {R : Type} (id : R -> Z) (conflict : R -> bool).

Lemma upsert_rows update fresh t :
  rows (snd (upsert id conflict update fresh t))
  = if existsb conflict (rows t)
    then List.map (applyTo conflict update) (rows t)
    else rows t ++ [fresh (nextId id t)].
Proof.
  unfold upsert. destruct (List.find conflict (rows t)) as [r|] eqn:E.
  - apply find_some in E as [Hin Hc].
    assert (Hex : existsb conflict (rows t) = true)
      by (apply existsb_exists; eauto).
    now rewrite Hex.
  - assert (Hex : existsb conflict (rows t) = false).
    { apply not_true_is_false. intros H. apply existsb_exists in H as [r [Hin Hc]].
      eapply find_none in E; [|exact Hin]. congruence. }
    now rewrite Hex.
Qed.

(** Every upsert uses up an id, also when it meets a row. *)
Lemma upsert_autoinc update fresh t :
  autoinc (snd (upsert id conflict update fresh t)) = nextId id t.
Proof. unfold upsert. now destruct (List.find conflict (rows t)). Qed.

Lemma find_map_applyTo update l :
  (forall r, conflict r = true -> conflict (update r) = true) ->
  List.find conflict (List.map (applyTo conflict update) l)
  = option_map update (List.find conflict l).
Proof.
  intros Hk. induction l as [|r l IH]; simpl; [reflexivity|].
  assert (Ha : applyTo conflict update r = if conflict r then update r else r) by reflexivity.
  rewrite Ha. destruct (conflict r) eqn:E.
  - rewrite Hk by assumption. reflexivity.
  - rewrite E. exact IH.
Qed.

Lemma map_applyTo_fixed update l :
  (forall r, In r l -> conflict r = true -> update r = r) ->
  List.map (applyTo conflict update) l = l.
Proof.
  intros H. induction l as [|r l IH]; simpl; [reflexivity|].
  rewrite IH by (intros; apply H; [now right|assumption]).
  unfold applyTo. destruct (conflict r) eqn:E; [|reflexivity].
  rewrite H; [reflexivity|now left|assumption].
Qed.

Lemma find_app_none (l1 l2 : list R) :
  List.find conflict l1 = None -> List.find conflict (l1 ++ l2) = List.find conflict l2.
Proof.
  induction l1 as [|r l1 IH]; simpl; [reflexivity|].
  destruct (conflict r); [discriminate|exact IH].
Qed.

(** An upsert that meets its own row changes no row. *)
Lemma upsert_fixed update fresh t :
  existsb conflict (rows t) = true ->
  (forall r, In r (rows t) -> conflict r = true -> update r = r) ->
  rows (snd (upsert id conflict update fresh t)) = rows t.
Proof.
  intros Hex Hfix. rewrite upsert_rows, Hex. now apply map_applyTo_fixed.
Qed.

Lemma map_fixed_inv (f : R -> R) l : List.map f l = l -> forall r, In r l -> f r = r.
Proof.
  induction l as [|x l IH]; simpl; intros E r Hin; [contradiction|].
  injection E as Ex El. destruct Hin as [<-|Hin]; auto.
Qed.

Lemma upsert_fixed_inv update fresh t :
  rows (snd (upsert id conflict update fresh t)) = rows t ->
  existsb conflict (rows t) = true
  /\ forall r, In r (rows t) -> conflict r = true -> update r = r.
Proof.
  intros Er. rewrite upsert_rows in Er. destruct (existsb conflict (rows t)) eqn:Hex.
  - split; [reflexivity|]. intros r Hin Hc.
    pose proof (map_fixed_inv _ _ Er r Hin) as H. unfold applyTo in H. now rewrite Hc in H.
  - exfalso. apply (f_equal (@length R)) in Er. rewrite length_app in Er. simpl in Er. lia.
Qed.

Lemma fst_upsert_find update fresh (t : Table R) r :
  List.find conflict (rows t) = Some r -> fst (upsert id conflict update fresh t) = id r.
Proof. intros E. unfold upsert. now rewrite E. Qed.

(** With a row under the key, the id returned depends on the rows only. *)
Lemma upsert_fst_rows update fresh (t t' : Table R) :
  rows t' = rows t -> existsb conflict (rows t) = true ->
  fst (upsert id conflict update fresh t') = fst (upsert id conflict update fresh t).
Proof.
  intros E Hex. destruct (List.find conflict (rows t)) as [r|] eqn:Ef.
  - rewrite (fst_upsert_find update fresh t r Ef).
    apply fst_upsert_find. now rewrite E.
  - apply existsb_exists in Hex as [r [Hin Hc]].
    eapply find_none in Ef; [|exact Hin]. congruence.
Qed.

(** The id a second upsert under the same key returns is the first one's. *)
Lemma upsert_again_id update fresh update' fresh' t :
  (forall r, conflict r = true -> conflict (update r) = true /\ id (update r) = id r) ->
  (forall i, conflict (fresh i) = true /\ id (fresh i) = i) ->
  fst (upsert id conflict update' fresh' (snd (upsert id conflict update fresh t)))
  = fst (upsert id conflict update fresh t).
Proof.
  intros Hu Hf. unfold upsert at 2 3.
  destruct (List.find conflict (rows t)) as [r|] eqn:E.
  - simpl. unfold upsert. simpl.
    change (fun r0 => if conflict r0 then update r0 else r0) with (applyTo conflict update).
    rewrite find_map_applyTo by (intros; now apply Hu). rewrite E. simpl.
    apply find_some in E as [_ Hc]. now apply Hu.
  - simpl. unfold upsert. simpl. rewrite find_app_none by assumption.
    simpl. destruct (Hf (nextId id t)) as [Hc Hi]. now rewrite Hc.
Qed.

Lemma existsb_upsert update fresh t :
  (forall r, conflict r = true -> conflict (update r) = true) ->
  (forall i, conflict (fresh i) = true) ->
  existsb conflict (rows (snd (upsert id conflict update fresh t))) = true.
Proof.
  intros Hu Hf. rewrite upsert_rows. destruct (existsb conflict (rows t)) eqn:E.
  - apply existsb_exists in E as [r [Hin Hc]]. apply existsb_exists.
    exists (applyTo conflict update r). split; [now apply in_map|].
    unfold applyTo. rewrite Hc. now apply Hu.
  - rewrite existsb_app. simpl. now rewrite Hf, orb_true_r.
Qed.

End Upsert.

(** *** Message rows *)

Lemma messages_upsert_snd m t :
  snd (messages_upsert m t)
  = mkTables (projects t) (sessions t)
      (snd (upsert MessageRow.id (keyOf m) (overwriteRow m) (fun i => messageRow i m)
                   (messages t))).
Proof.
  unfold messages_upsert, keyOf.
  destruct (upsert _ _ _ _ _). reflexivity.
Qed.

Lemma messageKey_overwrite s i m r :
  messageKey s i (overwriteRow m r) = messageKey s i r.
Proof. reflexivity. Qed.

Lemma keyOf_messageRow i m : keyOf m (messageRow i m) = true.
Proof. unfold keyOf, messageKey. simpl. now rewrite !Z.eqb_refl. Qed.

Lemma overwriteRow_messageRow i m : overwriteRow m (messageRow i m) = messageRow i m.
Proof. reflexivity. Qed.

Lemma overwriteRow_idem m r : overwriteRow m (overwriteRow m r) = overwriteRow m r.
Proof. reflexivity. Qed.

Lemma convert_key msg sid ca i cwd :
  RenderableMessage.sessionId (convertToMessage msg sid ca i cwd) = sid
  /\ RenderableMessage.sequence (convertToMessage msg sid ca i cwd) = i.
Proof. destruct msg; simpl; split; reflexivity. Qed.

Lemma keyOf_convert msg sid ca i cwd :
  keyOf (convertToMessage msg sid ca i cwd) = messageKey sid i.
Proof. unfold keyOf. now destruct (convert_key msg sid ca i cwd) as [-> ->]. Qed.

Lemma messageKey_inj s i s' i' r :
  messageKey s i r = true -> messageKey s' i' r = true -> s = s' /\ i = i'.
Proof.
  unfold messageKey. intros H H'.
  apply andb_true_iff in H as [H1 H2]. apply andb_true_iff in H' as [H1' H2'].
  apply Z.eqb_eq in H1, H2, H1', H2'. lia.
Qed.

Lemma stored_upsert_same m t : stored m (snd (messages_upsert m t)).
Proof.
  rewrite messages_upsert_snd. unfold stored. simpl. split.
  - apply existsb_upsert.
    + intros r Hr. unfold keyOf in *. now rewrite messageKey_overwrite.
    + intros i. apply keyOf_messageRow.
  - intros r. rewrite upsert_rows.
    destruct (existsb (keyOf m) (rows (messages t))) eqn:E.
    + intros Hin Hk. apply in_map_iff in Hin as [r0 [<- Hin]].
      unfold applyTo in *. destruct (keyOf m r0) eqn:E0; [reflexivity|congruence].
    + intros Hin Hk. apply in_app_or in Hin as [Hin|[<-|[]]]; [|reflexivity].
      exfalso. apply not_true_iff_false in E. apply E.
      apply existsb_exists. eauto.
Qed.

Lemma stored_upsert_other m m' t :
  (forall r, keyOf m r = true -> keyOf m' r = false) ->
  stored m t -> stored m (snd (messages_upsert m' t)).
Proof.
  intros Hne [Hex Hfix]. rewrite messages_upsert_snd. unfold stored. simpl.
  rewrite upsert_rows.
  destruct (existsb (keyOf m') (rows (messages t))) eqn:E; split.
  - apply existsb_exists in Hex as [r [Hin Hk]]. apply existsb_exists.
    exists (applyTo (keyOf m') (overwriteRow m') r). split; [now apply in_map|].
    unfold applyTo. now rewrite (Hne r Hk).
  - intros r Hin Hk. apply in_map_iff in Hin as [r0 [<- Hin]].
    unfold applyTo in *. destruct (keyOf m' r0) eqn:E0.
    + unfold keyOf in Hk. rewrite messageKey_overwrite in Hk.
      apply Hne in Hk. congruence.
    + now apply Hfix.
  - rewrite existsb_app, Hex. reflexivity.
  - intros r Hin Hk. apply in_app_or in Hin as [Hin|[<-|[]]]; [now apply Hfix|].
    apply Hne in Hk. now rewrite keyOf_messageRow in Hk.
Qed.

Lemma upsert_stored m t :
  stored m t -> rows (messages (snd (messages_upsert m t))) = rows (messages t).
Proof.
  intros [Hex Hfix]. rewrite messages_upsert_snd. simpl. now apply upsert_fixed.
Qed.

(** [stored] only reads the rows of the messages. *)
Lemma stored_rows m t t' :
  rows (messages t') = rows (messages t) -> stored m t -> stored m t'.
Proof. unfold stored. now intros ->. Qed.

Lemma messageKey_diff s i j r : i <> j -> messageKey s i r = true -> messageKey s j r = false.
Proof.
  intros Hij H. destruct (messageKey s j r) eqn:E; [|reflexivity].
  destruct (messageKey_inj _ _ _ _ _ H E). contradiction.
Qed.

(** Later upserts leave the messages of earlier positions stored. *)
Lemma upsertAll_keeps sid ca cwd m msgs :
  forall index t,
    RenderableMessage.sessionId m = sid -> RenderableMessage.sequence m < index ->
    stored m t -> stored m (upsertAll sid ca cwd msgs index t).
Proof.
  induction msgs as [|msg msgs IH]; intros index t Hs Hlt H; simpl; [assumption|].
  apply IH; [assumption|lia|].
  apply stored_upsert_other; [|assumption].
  intros r Hk. rewrite keyOf_convert. unfold keyOf in Hk. rewrite Hs in Hk.
  eapply messageKey_diff; [|exact Hk]. lia.
Qed.

(** After the loop every message of the session is stored. *)
Lemma upsertAll_stored sid ca cwd msgs :
  forall index t j msg,
    nth_error msgs j = Some msg ->
    stored (convertToMessage msg sid ca (index + Z.of_nat j) cwd)
           (upsertAll sid ca cwd msgs index t).
Proof.
  induction msgs as [|m msgs IH]; intros index t j msg Hj; [now destruct j|].
  destruct j as [|j]; simpl in Hj.
  - injection Hj as ->. simpl. rewrite Z.add_0_r.
    apply upsertAll_keeps.
    + apply convert_key.
    + destruct (convert_key msg sid ca index cwd) as [_ ->]. lia.
    + apply stored_upsert_same.
  - simpl upsertAll. replace (index + Z.of_nat (S j)) with (index + 1 + Z.of_nat j) by lia.
    now apply IH.
Qed.

(** On tables that store every message the loop changes no row. *)
Lemma upsertAll_fixed sid ca cwd msgs :
  forall index t,
    (forall j msg, nth_error msgs j = Some msg ->
                   stored (convertToMessage msg sid ca (index + Z.of_nat j) cwd) t) ->
    rows (messages (upsertAll sid ca cwd msgs index t)) = rows (messages t).
Proof.
  induction msgs as [|m msgs IH]; intros index t H; simpl; [reflexivity|].
  assert (Hm : rows (messages (snd (messages_upsert (convertToMessage m sid ca index cwd) t)))
               = rows (messages t)).
  { apply upsert_stored. specialize (H 0%nat m eq_refl). now rewrite Z.add_0_r in H. }
  rewrite IH; [exact Hm|].
  intros j msg Hj. apply (stored_rows _ t); [exact Hm|].
  replace (index + 1 + Z.of_nat j) with (index + Z.of_nat (S j)) by lia.
  now apply H.
Qed.

Lemma upsertAll_frame sid ca cwd msgs :
  forall index t,
    projects (upsertAll sid ca cwd msgs index t) = projects t
    /\ sessions (upsertAll sid ca cwd msgs index t) = sessions t.
Proof.
  induction msgs as [|m msgs IH]; intros index t; simpl; [now split|].
  destruct (IH (index + 1) (snd (messages_upsert (convertToMessage m sid ca index cwd) t)))
    as [-> ->].
  rewrite messages_upsert_snd. now split.
Qed.

Lemma stored_delete m sid last t :
  RenderableMessage.sessionId m = sid -> RenderableMessage.sequence m <= last ->
  stored m t -> stored m (deleteAfter sid last t).
Proof.
  intros Hs Hle [Hex Hfix]. unfold stored, deleteAfter. simpl. split.
  - apply existsb_exists in Hex as [r [Hin Hk]]. apply existsb_exists.
    exists r. split; [|assumption]. apply filter_In. split; [assumption|].
    unfold keyOf, messageKey in Hk. apply andb_true_iff in Hk as [_ Hk].
    apply Z.eqb_eq in Hk. apply negb_true_iff, andb_false_iff. right.
    destruct (Z.gtb_spec (MessageRow.sequence r) last); [lia|reflexivity].
  - intros r Hin. apply filter_In in Hin as [Hin _]. now apply Hfix.
Qed.

Lemma deleteAfter_idem sid last t :
  deleteAfter sid last (deleteAfter sid last t) = deleteAfter sid last t.
Proof.
  unfold deleteAfter. simpl. f_equal. f_equal.
  induction (rows (messages t)) as [|r l IH]; simpl; [reflexivity|].
  destruct (negb _) eqn:E; simpl; [rewrite E|]; now rewrite IH.
Qed.

(** *** Session rows *)

Lemma sessions_upsert_snd sd t :
  snd (sessions_upsert sd t)
  = mkTables (projects t)
      (snd (upsert SessionRow.id (sessionKey (Session.projectId sd) (Session.sessionId sd))
                   (overwriteSession sd) (fun i => sessionRow i sd) (sessions t)))
      (messages t).
Proof. unfold sessions_upsert. destruct (upsert _ _ _ _ _). reflexivity. Qed.

Lemma sessions_upsert_fst sd t :
  fst (sessions_upsert sd t)
  = fst (upsert SessionRow.id (sessionKey (Session.projectId sd) (Session.sessionId sd))
                (overwriteSession sd) (fun i => sessionRow i sd) (sessions t)).
Proof. unfold sessions_upsert. destruct (upsert _ _ _ _ _). reflexivity. Qed.

Lemma sessionKey_overwrite p s sd r :
  sessionKey p s (overwriteSession sd r) = sessionKey p s r.
Proof. reflexivity. Qed.

Lemma sessionKey_sessionRow i sd :
  sessionKey (Session.projectId sd) (Session.sessionId sd) (sessionRow i sd) = true.
Proof. unfold sessionKey. simpl. now rewrite Z.eqb_refl, String.eqb_refl. Qed.

Lemma sessionKey_eq p s r :
  sessionKey p s r = true -> SessionRow.project_id r = p /\ SessionRow.session_id r = s.
Proof.
  unfold sessionKey. intros H. apply andb_true_iff in H as [H1 H2].
  apply Z.eqb_eq in H1. apply String.eqb_eq in H2. now split.
Qed.

(** A row overwritten by the session it was made from does not change. *)
Lemma overwriteSession_sessionRow i sd : overwriteSession sd (sessionRow i sd) = sessionRow i sd.
Proof. reflexivity. Qed.

(** The second upsert of a session returns the same id, whatever the data
    of either, as long as the key is the same. *)
Lemma sessions_upsert_again_id sd sd' t :
  Session.projectId sd' = Session.projectId sd ->
  Session.sessionId sd' = Session.sessionId sd ->
  fst (sessions_upsert sd' (snd (sessions_upsert sd t))) = fst (sessions_upsert sd t).
Proof.
  intros Hp Hs. rewrite !sessions_upsert_fst, sessions_upsert_snd. simpl.
  rewrite Hp, Hs. apply upsert_again_id.
  - intros r Hr. split; [now rewrite sessionKey_overwrite|reflexivity].
  - intros i. split; [apply sessionKey_sessionRow|reflexivity].
Qed.

Lemma sessions_upsert_idem sd t :
  rows (sessions (snd (sessions_upsert sd (snd (sessions_upsert sd t)))))
  = rows (sessions (snd (sessions_upsert sd t))).
Proof.
  rewrite (sessions_upsert_snd sd (snd _)). cbn [sessions].
  apply upsert_fixed.
  - rewrite sessions_upsert_snd. simpl. apply existsb_upsert.
    + intros r Hr. now rewrite sessionKey_overwrite.
    + intros i. apply sessionKey_sessionRow.
  - rewrite sessions_upsert_snd. simpl. intros r. rewrite upsert_rows.
    destruct (existsb _ (rows (sessions t))) eqn:E.
    + intros Hin Hk. apply in_map_iff in Hin as [r0 [<- Hin]].
      unfold applyTo in *.
      destruct (sessionKey _ _ r0) eqn:E0; [reflexivity|congruence].
    + intros Hin Hk. apply in_app_or in Hin as [Hin|[<-|[]]]; [|reflexivity].
      exfalso. apply not_true_iff_false in E. apply E. apply existsb_exists. eauto.
Qed.

(** The session upsert only reads and writes the sessions table. *)
Lemma sessions_upsert_messages sd t t' :
  sessions t' = sessions t -> projects t' = projects t ->
  sessions_upsert sd t'
  = (fst (sessions_upsert sd t),
     mkTables (projects t) (sessions (snd (sessions_upsert sd t))) (messages t')).
Proof.
  intros Hs Hp. unfold sessions_upsert. rewrite Hs, Hp.
  destruct (upsert _ _ _ _ _). reflexivity.
Qed.

Lemma sessions_upsert_ext sd t t' :
  sessions t' = sessions t ->
  fst (sessions_upsert sd t') = fst (sessions_upsert sd t)
  /\ sessions (snd (sessions_upsert sd t')) = sessions (snd (sessions_upsert sd t)).
Proof. intros E. rewrite !sessions_upsert_fst, !sessions_upsert_snd. simpl. now rewrite E. Qed.

(** *** Idempotence of the import on the tables *)

Lemma importTables_eq swp pid t :
  importTables swp pid t
  = let su := sessions_upsert (sessionDataOf swp pid) t in
    let sd := SessionWithProject.session swp in
    let t2 := upsertAll (fst su) (SessionWithProject.created swp)
                (metadataField SessionMetadata.cwd sd) (SessionDetail.messages sd) 0 (snd su) in
    match SessionDetail.messages sd with
    | [] => t2
    | _ => deleteAfter (fst su) (len (SessionDetail.messages sd) - 1) t2
    end.
Proof. unfold importTables. destruct (sessions_upsert _ t). reflexivity. Qed.

Lemma nth_error_stored_after swp pid t :
  let sd := SessionWithProject.session swp in
  let sid := fst (sessions_upsert (sessionDataOf swp pid) t) in
  forall j msg,
    nth_error (SessionDetail.messages sd) j = Some msg ->
    stored (convertToMessage msg sid (SessionWithProject.created swp) (Z.of_nat j)
              (metadataField SessionMetadata.cwd sd))
           (importTables swp pid t).
Proof.
  intros sd sid j msg Hj. unfold importTables. fold sd.
  destruct (sessions_upsert (sessionDataOf swp pid) t) as [sid' t1] eqn:E.
  simpl in sid. subst sid.
  pose proof (upsertAll_stored sid' (SessionWithProject.created swp)
                (metadataField SessionMetadata.cwd sd) (SessionDetail.messages sd)
                0 t1 j msg Hj) as Hst.
  rewrite Z.add_0_l in Hst.
  destruct (SessionDetail.messages sd) as [|m0 ms] eqn:Em; [assumption|].
  apply stored_delete; [apply convert_key| |assumption].
  destruct (convert_key msg sid' (SessionWithProject.created swp) (Z.of_nat j)
              (metadataField SessionMetadata.cwd sd)) as [_ ->].
  apply nth_error_Some_bound_index in Hj || idtac.
  assert (Hlt : (j < length (m0 :: ms))%nat) by (apply nth_error_Some; congruence).
  unfold len. lia.
Qed.

Lemma importTables_frame swp pid t :
  projects (importTables swp pid t) = projects t
  /\ sessions (importTables swp pid t) = sessions (snd (sessions_upsert (sessionDataOf swp pid) t)).
Proof.
  unfold importTables.
  destruct (sessions_upsert (sessionDataOf swp pid) t) as [sid t1] eqn:E. simpl snd.
  destruct (upsertAll_frame sid (SessionWithProject.created swp)
              (metadataField SessionMetadata.cwd (SessionWithProject.session swp))
              (SessionDetail.messages (SessionWithProject.session swp)) 0 t1) as [Hp Hs].
  assert (Hp1 : projects t1 = projects t).
  { replace t1 with (snd (sessions_upsert (sessionDataOf swp pid) t)) by now rewrite E.
    now rewrite sessions_upsert_snd. }
  set (t2 := upsertAll _ _ _ _ _ _) in *.
  assert (H2 : projects t2 = projects t /\ sessions t2 = sessions t1)
    by (split; congruence).
  destruct (SessionDetail.messages _); [exact H2|exact H2].
Qed.

(** A session the tables hold as its import leaves it is imported again
    without changing a row. *)
Lemma settled_fixed s pid t : settled s pid t -> contents (importTables s pid t) = contents t.
Proof.
  intros (H1 & H2 & H3). unfold contents.
  destruct (importTables_frame s pid t) as [-> ->]. rewrite H1. f_equal.
  rewrite importTables_eq. cbv zeta.
  set (sd := sessionDataOf s pid) in *. set (sid := fst (sessions_upsert sd t)) in *.
  set (t2 := upsertAll _ _ _ _ _ _).
  assert (Hm : rows (messages t2) = rows (messages t)).
  { unfold t2. rewrite upsertAll_fixed.
    - now rewrite sessions_upsert_snd.
    - intros j msg Hj. rewrite Z.add_0_l. apply (stored_rows _ t); [|now apply H2].
      now rewrite sessions_upsert_snd. }
  destruct (SessionDetail.messages (SessionWithProject.session s)) as [|m0 ms] eqn:Em;
    [exact Hm|].
  specialize (H3 ltac:(discriminate)). unfold deleteAfter in *. simpl in *.
  now rewrite Hm.
Qed.

(** The import leaves the session settled. *)
Lemma import_settled s pid t : settled s pid (importTables s pid t).
Proof.
  set (T := importTables s pid t). set (sd := sessionDataOf s pid).
  destruct (importTables_frame s pid t) as [_ Hs]. fold T sd in Hs.
  destruct (sessions_upsert_ext sd (snd (sessions_upsert sd t)) T Hs) as [Hf Hss].
  rewrite sessions_upsert_again_id in Hf by reflexivity.
  unfold settled. fold sd. rewrite Hf. split; [|split].
  - rewrite Hss, Hs. apply sessions_upsert_idem.
  - intros j msg Hj. now apply nth_error_stored_after.
  - intros Hne. unfold T. rewrite importTables_eq. cbv zeta. fold sd.
    destruct (SessionDetail.messages (SessionWithProject.session s)) as [|m0 ms] eqn:Em;
      [contradiction|].
    now rewrite deleteAfter_idem.
Qed.

Theorem importTables_idem swp pid t :
  contents (importTables swp pid (importTables swp pid t)) = contents (importTables swp pid t).
Proof. apply settled_fixed, import_settled. Qed.

(** [settled] only reads the rows of the sessions and of the messages. *)
Lemma settled_ext s pid t t' :
  rows (sessions t') = rows (sessions t) -> rows (messages t') = rows (messages t) ->
  settled s pid t -> settled s pid t'.
Proof.
  intros Es Em (H1 & H2 & H3).
  set (sd := sessionDataOf s pid) in *.
  rewrite sessions_upsert_snd in H1. cbn [sessions] in H1.
  apply upsert_fixed_inv in H1 as [Hex Hfix].
  assert (Hf : fst (sessions_upsert sd t') = fst (sessions_upsert sd t)).
  { rewrite !sessions_upsert_fst. now apply upsert_fst_rows. }
  unfold settled. fold sd. rewrite Hf. split; [|split].
  - rewrite sessions_upsert_snd. cbn [sessions]. apply upsert_fixed; rewrite Es; assumption.
  - intros j msg Hj. apply (stored_rows _ t); [exact Em|]. now apply H2.
  - intros Hne. specialize (H3 Hne). unfold deleteAfter in *. simpl in *.
    now rewrite Em.
Qed.

(** *** Unique keys *)

Section UniqueKey.
Context {R K : Type} (id : R -> Z) (conflict : R -> bool) (key : R -> K) (k0 : K).
Hypothesis conflict_key : forall r, conflict r = true <-> key r = k0.

Lemma upsert_NoDup update fresh t :
  (forall r, key (update r) = key r) ->
  (forall i, key (fresh i) = k0) ->
  NoDup (List.map key (rows t)) ->
  NoDup (List.map key (rows (snd (upsert id conflict update fresh t)))).
Proof.
  intros Hu Hf Hnd. rewrite upsert_rows.
  destruct (existsb conflict (rows t)) eqn:E.
  - rewrite map_map.
    erewrite map_ext; [exact Hnd|].
    intros r. unfold applyTo. now destruct (conflict r).
  - rewrite map_app. simpl. rewrite Hf.
    apply NoDup_app. split; [assumption|]. split; [|apply NoDup_singleton].
    intros k Hin Hk0. apply list_elem_of_In in Hin, Hk0.
    destruct Hk0 as [<-|[]].
    apply in_map_iff in Hin as [r [Hk Hin]].
    apply not_true_iff_false in E. apply E, existsb_exists.
    exists r. split; [assumption|]. now apply conflict_key.
Qed.

End UniqueKey.

Lemma NoDup_map_filter {A B} (f : A -> B) (p : A -> bool) l :
  NoDup (List.map f l) -> NoDup (List.map f (List.filter p l)).
Proof.
  induction l as [|a l IH]; simpl; intros H; [constructor|].
  apply NoDup_cons in H as [Hn Hd].
  destruct (p a); simpl; [|now apply IH].
  apply NoDup_cons. split; [|now apply IH].
  intros Hin. apply Hn. apply list_elem_of_In in Hin. apply list_elem_of_In.
  apply in_map_iff in Hin as [x [Hx Hin]].
  apply filter_In in Hin as [Hin _]. apply in_map_iff. eauto.
Qed.

Lemma messageKey_iff s i r :
  messageKey s i r = true <-> (MessageRow.session_id r, MessageRow.sequence r) = (s, i).
Proof.
  unfold messageKey. rewrite andb_true_iff, !Z.eqb_eq. split.
  - intros [-> ->]. reflexivity.
  - intros H. injection H as -> ->. now split.
Qed.

Lemma sessionKey_iff p s r :
  sessionKey p s r = true <-> (SessionRow.project_id r, SessionRow.session_id r) = (p, s).
Proof.
  unfold sessionKey. rewrite andb_true_iff, Z.eqb_eq, String.eqb_eq. split.
  - intros [-> ->]. reflexivity.
  - intros H. injection H as -> ->. now split.
Qed.

Lemma messages_upsert_unique m t :
  NoDup (messageKeys t) -> NoDup (messageKeys (snd (messages_upsert m t))).
Proof.
  intros H. rewrite messages_upsert_snd. unfold messageKeys. simpl.
  eapply upsert_NoDup; [apply messageKey_iff| | |exact H].
  - reflexivity.
  - reflexivity.
Qed.

Lemma upsertAll_unique sid ca cwd msgs :
  forall index t, NoDup (messageKeys t) -> NoDup (messageKeys (upsertAll sid ca cwd msgs index t)).
Proof.
  induction msgs as [|m msgs IH]; intros index t H; simpl; [assumption|].
  apply IH. now apply messages_upsert_unique.
Qed.

Lemma importTables_unique swp pid t :
  uniqueKeys t -> uniqueKeys (importTables swp pid t).
Proof.
  intros [Hm Hs]. split.
  - fold (messageKeys (importTables swp pid t)). rewrite importTables_eq. cbv zeta.
    set (t2 := upsertAll _ _ _ _ _ _).
    assert (H2 : NoDup (messageKeys t2)).
    { apply upsertAll_unique. rewrite sessions_upsert_snd. exact Hm. }
    destruct (SessionDetail.messages _); [exact H2|].
    unfold messageKeys, deleteAfter. simpl. now apply NoDup_map_filter.
  - destruct (importTables_frame swp pid t) as [_ ->].
    rewrite sessions_upsert_snd. simpl.
    eapply upsert_NoDup; [apply sessionKey_iff| | |exact Hs]; reflexivity.
Qed.

Lemma NoDup_sequences sid t :
  NoDup (messageKeys t) -> NoDup (List.map MessageRow.sequence (rowsOf sid t)).
Proof.
  unfold messageKeys, rowsOf. induction (rows (messages t)) as [|r l IH]; simpl; intros H;
    [constructor|].
  apply NoDup_cons in H as [Hn Hd].
  destruct (Z.eqb_spec (MessageRow.session_id r) sid) as [E|E]; simpl; [|now apply IH].
  apply NoDup_cons. split; [|now apply IH].
  intros Hin. apply Hn. apply list_elem_of_In in Hin. apply list_elem_of_In.
  apply in_map_iff in Hin as [x [Hx Hin]].
  apply filter_In in Hin as [Hin Hs]. apply Z.eqb_eq in Hs.
  apply in_map_iff. exists x. split; [|assumption]. congruence.
Qed.

(** *** The id of the stored session *)

Lemma upsert_find {R} (id : R -> Z) conflict update fresh t :
  (forall r, conflict r = true -> conflict (update r) = true /\ id (update r) = id r) ->
  (forall i, conflict (fresh i) = true /\ id (fresh i) = i) ->
  option_map id (List.find conflict (rows (snd (upsert id conflict update fresh t))))
  = Some (fst (upsert id conflict update fresh t)).
Proof.
  intros Hu Hf. unfold upsert.
  destruct (List.find conflict (rows t)) as [r|] eqn:E; simpl.
  - change (fun r0 => if conflict r0 then update r0 else r0) with (applyTo conflict update).
    rewrite find_map_applyTo by (intros; now apply Hu). rewrite E. simpl.
    apply find_some in E as [_ Hc]. f_equal. now apply Hu.
  - rewrite find_app_none by assumption. simpl.
    destruct (Hf (nextId id t)) as [Hc Hi]. rewrite Hc. simpl. now rewrite Hi.
Qed.

Lemma sessionRowId_import swp pid t :
  sessionRowId swp pid (importTables swp pid t)
  = Some (fst (sessions_upsert (sessionDataOf swp pid) t)).
Proof.
  unfold sessionRowId. destruct (importTables_frame swp pid t) as [_ ->].
  rewrite sessions_upsert_snd, sessions_upsert_fst. simpl.
  apply (upsert_find SessionRow.id).
  - intros r Hr. split; [now rewrite sessionKey_overwrite|reflexivity].
  - intros i. split; [apply sessionKey_sessionRow|reflexivity].
Qed.

Lemma rowsOf_bound swp pid t r :
  let sid := fst (sessions_upsert (sessionDataOf swp pid) t) in
  let msgs := SessionDetail.messages (SessionWithProject.session swp) in
  In r (rowsOf sid (importTables swp pid t)) -> msgs <> [] ->
  MessageRow.sequence r <= len msgs - 1.
Proof.
  intros sid msgs Hin Hne. rewrite importTables_eq in Hin. cbv zeta in Hin.
  fold sid msgs in Hin. destruct msgs as [|m0 ms]; [contradiction|].
  unfold rowsOf, deleteAfter in Hin. simpl in Hin.
  apply filter_In in Hin as [Hin Hs]. apply filter_In in Hin as [_ Hk].
  rewrite Hs in Hk. simpl in Hk. apply negb_true_iff in Hk.
  destruct (Z.gtb_spec (MessageRow.sequence r) (len (m0 :: ms) - 1)); [discriminate|lia].
Qed.

Lemma stored_row m t :
  stored m t ->
  exists r, In r (rowsOf (RenderableMessage.sessionId m) t)
            /\ MessageRow.sequence r = RenderableMessage.sequence m
            /\ overwriteRow m r = r.
Proof.
  intros [Hex Hfix]. apply existsb_exists in Hex as [r [Hin Hk]].
  exists r. pose proof Hk as Hk'. unfold keyOf in Hk'. apply messageKey_iff in Hk'.
  injection Hk' as Hs Hq. repeat split; [|assumption|now apply Hfix].
  apply filter_In. split; [assumption|]. now apply Z.eqb_eq.
Qed.

(** *** Re-import over stored rows *)

Lemma pick_nil index s : pick [] index s = None.
Proof. unfold pick. destruct (s <? index); [reflexivity|]. now destruct (Z.to_nat _). Qed.

Lemma pick_cons m msgs index s :
  pick (m :: msgs) index s = if s =? index then Some m else pick msgs (index + 1) s.
Proof.
  unfold pick. destruct (Z.eqb_spec s index) as [->|Hne].
  - rewrite Z.ltb_irrefl, Z.sub_diag. reflexivity.
  - destruct (Z.ltb_spec s index) as [Hlt|Hge].
    + destruct (Z.ltb_spec s (index + 1)); [reflexivity|lia].
    + destruct (Z.ltb_spec s (index + 1)); [lia|].
      replace (Z.to_nat (s - index)) with (S (Z.to_nat (s - (index + 1)))) by lia.
      reflexivity.
Qed.

Lemma existsb_map_key {A} (f : A -> A) (p : A -> bool) l :
  (forall a, p (f a) = p a) -> existsb p (List.map f l) = existsb p l.
Proof.
  intros H. induction l as [|a l IH]; simpl; [reflexivity|]. now rewrite H, IH.
Qed.

Lemma upsertAll_overwrites sid ca cwd msgs :
  forall index t,
    (forall j, (j < length msgs)%nat ->
               existsb (messageKey sid (index + Z.of_nat j)) (rows (messages t)) = true) ->
    rows (messages (upsertAll sid ca cwd msgs index t))
    = List.map (reconvert sid ca cwd msgs index) (rows (messages t)).
Proof.
  induction msgs as [|m msgs IH]; intros index t H.
  - simpl. rewrite <- (map_id (rows (messages t))) at 1. apply map_ext. intros r.
    unfold reconvert. rewrite pick_nil. now destruct (_ =? _).
  - simpl upsertAll.
    set (cm := convertToMessage m sid ca index cwd).
    assert (Hex : existsb (keyOf cm) (rows (messages t)) = true).
    { unfold cm. rewrite keyOf_convert. specialize (H 0%nat ltac:(simpl; lia)).
      now rewrite Z.add_0_r in H. }
    rewrite messages_upsert_snd.
    rewrite IH.
    2:{ intros j Hj. simpl. rewrite upsert_rows, Hex.
        rewrite existsb_map_key.
        - replace (index + 1 + Z.of_nat j) with (index + Z.of_nat (S j)) by lia.
          apply H. simpl. lia.
        - intros r. unfold applyTo. destruct (keyOf cm r); reflexivity. }
    simpl. rewrite upsert_rows, Hex.
    rewrite map_map. apply map_ext. intros r.
    unfold reconvert at 2. rewrite pick_cons.
    unfold applyTo. destruct (keyOf cm r) eqn:Ek.
    + unfold cm in Ek. rewrite keyOf_convert in Ek. apply messageKey_iff in Ek.
      injection Ek as Es Eq.
      unfold reconvert. simpl MessageRow.session_id. simpl MessageRow.sequence.
      rewrite Es, Eq, !Z.eqb_refl.
      unfold pick. destruct (Z.ltb_spec index (index + 1)); [|lia].
      unfold cm. reflexivity.
    + unfold reconvert. destruct (Z.eqb_spec (MessageRow.session_id r) sid) as [Es|Es];
        [|reflexivity].
      destruct (Z.eqb_spec (MessageRow.sequence r) index) as [Eq|Eq]; [|reflexivity].
      exfalso. unfold cm in Ek. rewrite keyOf_convert in Ek.
      apply not_true_iff_false in Ek. apply Ek. apply messageKey_iff. congruence.
Qed.

Lemma reconvert_keys sid ca cwd msgs index r :
  MessageRow.session_id (reconvert sid ca cwd msgs index r) = MessageRow.session_id r
  /\ MessageRow.sequence (reconvert sid ca cwd msgs index r) = MessageRow.sequence r.
Proof.
  unfold reconvert. destruct (MessageRow.session_id r =? sid); [|now split].
  destruct (pick msgs index (MessageRow.sequence r)); now split.
Qed.

Lemma filter_map_commute {A} (f : A -> A) (p : A -> bool) l :
  (forall a, p (f a) = p a) -> List.filter p (List.map f l) = List.map f (List.filter p l).
Proof.
  intros H. induction l as [|a l IH]; simpl; [reflexivity|].
  rewrite H. destruct (p a); simpl; now rewrite IH.
Qed.

Lemma reconvert_converted swp sid r :
  reconvert sid (SessionWithProject.created swp)
          (metadataField SessionMetadata.cwd (SessionWithProject.session swp))
          (SessionDetail.messages (SessionWithProject.session swp)) 0 r
  = if MessageRow.session_id r =? sid then
      match converted swp sid (MessageRow.sequence r) with
      | Some m => overwriteRow m r
      | None => r
      end
    else r.
Proof.
  unfold reconvert, converted, pick. destruct (_ =? sid); [|reflexivity].
  rewrite Z.sub_0_r. destruct (_ <? 0); [reflexivity|].
  now destruct (nth_error _ _).
Qed.

(** Re-import of a session with [M >= 1] messages over tables that hold a
    row for each of its positions. *)
Lemma importTables_over swp pid t :
  let sd := SessionWithProject.session swp in
  let msgs := SessionDetail.messages sd in
  let sid := fst (sessions_upsert (sessionDataOf swp pid) t) in
  msgs <> [] ->
  (forall j, (j < length msgs)%nat ->
             existsb (messageKey sid (Z.of_nat j)) (rows (messages t)) = true) ->
  truncatedTo swp sid (len msgs) (rows (messages t))
              (rows (messages (importTables swp pid t))).
Proof.
  intros sd msgs sid Hne Hex. rewrite importTables_eq. cbv zeta. fold sd msgs sid.
  destruct msgs as [|m0 ms] eqn:Em; [contradiction|]. rewrite <- Em in *.
  unfold truncatedTo, deleteAfter. simpl.
  rewrite upsertAll_overwrites.
  2:{ intros j Hj. rewrite Z.add_0_l. rewrite sessions_upsert_snd. simpl. now apply Hex. }
  rewrite sessions_upsert_snd. simpl.
  rewrite filter_map_commute.
  2:{ intros r.
      destruct (reconvert_keys sid (SessionWithProject.created swp)
                  (metadataField SessionMetadata.cwd sd) msgs 0 r) as [-> ->].
      reflexivity. }
  erewrite map_ext by (intros r; unfold msgs, sd; apply reconvert_converted).
  f_equal. apply filter_ext. intros r. f_equal. f_equal.
  destruct (Z.gtb_spec (MessageRow.sequence r) (len msgs - 1));
  destruct (Z.geb_spec (MessageRow.sequence r) (len msgs)); try reflexivity; lia.
Qed.

Lemma bind_inv {A B} (m : M A) (f : A -> M B) w b w' :
  (m ≫= f) w = (Ok b, w') -> exists a w1, m w = (Ok a, w1) /\ f a w1 = (Ok b, w').
Proof.
  unfold mbind, M_bind. destruct (m w) as [[a|e] w1]; [eauto|discriminate].
Qed.

Lemma commit_ok_post {T} (d d' : Sqlite T) :
  commitTransaction d = (Ok tt, d') -> inTransaction d' = false /\ live d' = durable d'.
Proof.
  unfold commitTransaction, tick.
  destruct (faults d) as [|[|] fs]; simpl; destruct (inTransaction d); simpl;
    intros H; inversion H; subst; simpl; auto.
Qed.

Lemma rollback_ok_post {T} (d d' : Sqlite T) :
  rollbackTransaction d = (Ok tt, d') -> inTransaction d' = false /\ live d' = durable d'.
Proof.
  unfold rollbackTransaction, tick.
  destruct (faults d) as [|[|] fs]; simpl; destruct (inTransaction d); simpl;
    intros H; inversion H; subst; simpl; auto.
Qed.

Lemma onSearchDb_inv {A} f w (a : Result A) w' :
  onSearchDb f w = (a, w') ->
  f (searchDb w) = (a, searchDb w') /\ db w' = db w /\ console w' = console w.
Proof.
  unfold onSearchDb. destruct (f (searchDb w)) as [r d]. intros H.
  inversion H; subst. simpl. auto.
Qed.

(** After the search phase the search connection has no transaction open
    and nothing uncommitted, unless the rollback itself failed, which is
    the last thing logged. *)
Lemma indexSession_post swp pu ti rms w :
  let w' := snd (indexSession swp pu ti rms w) in
  (inTransaction (searchDb w') = false /\ live (searchDb w') = durable (searchDb w'))
  \/ exists e, last (console w') = Some (error "Error rolling back search transaction:" e).
Proof.
  unfold indexSession, tryCatch.
  match goal with |- context [match ?b w with _ => _ end] => destruct (b w) as [[[]|e] w1] eqn:Eb end.
  - left. simpl.
    apply bind_inv in Eb as (? & w2 & _ & Eb).
    apply bind_inv in Eb as (? & w3 & _ & Eb).
    apply bind_inv in Eb as (? & w4 & _ & Eb).
    apply onSearchDb_inv in Eb as [Eb _]. now apply commit_ok_post in Eb.
  - unfold mbind, M_bind, console_error.
    match goal with |- context [onSearchDb rollbackTransaction ?w0] =>
      destruct (onSearchDb rollbackTransaction w0) as [[[]|e'] w2] eqn:Er end.
    + left. simpl. apply onSearchDb_inv in Er as [Er _]. now apply rollback_ok_post in Er.
    + right. exists e'. simpl. apply last_snoc.
Qed.

Lemma idle_inv (d : Sqlite Tables) : idle d -> d = mkSqlite (durable d) (live d) false [].
Proof. destruct d as [D L b f]. intros [Hf Hb]. simpl in *. now subst. Qed.

(** The import on an idle primary connection, whatever the search
    connection does. *)
Lemma importSession_idle swp pid pu w :
  idle (db w) ->
  exists w',
    importSession swp pid pu w = (Ok tt, w')
    /\ db w' = mkSqlite (importTables swp pid (live (db w)))
                        (importTables swp pid (live (db w))) false [].
Proof.
  intros Hidle. destruct w as [d S C]. simpl in *.
  rewrite (idle_inv d Hidle).
  destruct (importSession_rest swp pid pu (durable d) (live d) S C) as [rms ->].
  simpl live.
  set (wc := mkWorld _ S C).
  pose proof (indexSession_ok swp pu (titleOf swp) rms wc) as Hok.
  pose proof (keepsDb_indexSession swp pu (titleOf swp) rms wc) as Hdb.
  destruct (indexSession swp pu (titleOf swp) rms wc) as [r w'].
  simpl in *. subst r. exists w'. auto.
Qed.

(** C7. Whatever fails in the search phase, [importSession] returns
    normally with the primary writes committed: for every state and
    fault schedule of the search connection the call returns without an
    exception, the primary connection holds the tables of the import,
    committed, and the search connection is left with no open transaction
    and nothing uncommitted, unless the rollback itself failed, which is
    then the last line logged. *)
Theorem search_failure_isolated :
  forall swp projectId projectUuid w,
    idle (db w) ->
    exists w',
      importSession swp projectId projectUuid w = (Ok tt, w')
      /\ committed (db w') (importTables swp projectId (live (db w)))
      /\ ((inTransaction (searchDb w') = false /\ live (searchDb w') = durable (searchDb w'))
          \/ exists e, last (console w')
                       = Some (error "Error rolling back search transaction:" e)).
Proof.
  intros swp pid pu [d S C] Hidle. simpl in Hidle. unfold committed.
  rewrite (idle_inv d Hidle).
  destruct (importSession_rest swp pid pu (durable d) (live d) S C) as [rms ->].
  simpl live.
  set (wc := mkWorld _ S C).
  pose proof (indexSession_ok swp pu (titleOf swp) rms wc) as Hok.
  pose proof (keepsDb_indexSession swp pu (titleOf swp) rms wc) as Hdb.
  pose proof (indexSession_post swp pu (titleOf swp) rms wc) as Hpost.
  destruct (indexSession swp pu (titleOf swp) rms wc) as [r w'].
  simpl in *. subst r. exists w'. auto.
Qed.

(** C1, amended.  Import is idempotent on the rows.  On an idle primary
    connection whose tables satisfy the unique keys and hold the project
    row, importing a session twice returns normally both times, and the
    second import leaves every row of the three tables as the first left
    it, committed: only the counters of [sqlite_sequence] move.  The rows
    of the session have no duplicate sequence and each message is held by
    a row at its position; when the session has a message, no row lies
    beyond the last one.  A session without messages leaves every
    message row of the store as it found it, the rows stored for it
    before included. *)
Theorem import_twice_is_import_once :
  forall swp projectId projectUuid w,
    idle (db w) -> uniqueKeys (live (db w)) -> hasProject projectId (live (db w)) ->
    let msgs := SessionDetail.messages (SessionWithProject.session swp) in
    exists w1 w2 sid,
      importSession swp projectId projectUuid w = (Ok tt, w1)
      /\ importSession swp projectId projectUuid w1 = (Ok tt, w2)
      /\ contents (live (db w2)) = contents (live (db w1))
      /\ idle (db w2) /\ durable (db w2) = live (db w2)
      /\ sessionRowId swp projectId (live (db w2)) = Some sid
      /\ NoDup (List.map MessageRow.sequence (rowsOf sid (live (db w2))))
      /\ (msgs <> [] ->
          forall r, In r (rowsOf sid (live (db w2))) -> MessageRow.sequence r <= len msgs - 1)
      /\ (forall j m, converted swp sid j = Some m ->
                      exists r, In r (rowsOf sid (live (db w2)))
                                /\ MessageRow.sequence r = j /\ overwriteRow m r = r)
      /\ (msgs = [] -> rows (messages (live (db w2))) = rows (messages (live (db w)))).
Proof.
  intros swp pid pu w Hidle Huniq _ msgs.
  destruct (importSession_idle swp pid pu w Hidle) as (w1 & H1 & Hdb1).
  assert (Hidle1 : idle (db w1)) by (rewrite Hdb1; split; reflexivity).
  destruct (importSession_idle swp pid pu w1 Hidle1) as (w2 & H2 & Hdb2).
  rewrite Hdb1 in Hdb2. simpl in Hdb2.
  set (T := importTables swp pid (live (db w))) in *.
  pose proof (importTables_idem swp pid (live (db w))) as Hc. fold T in Hc.
  assert (Hs : rows (sessions (importTables swp pid T)) = rows (sessions T))
    by (unfold contents in Hc; congruence).
  assert (Hm : rows (messages (importTables swp pid T)) = rows (messages T))
    by (unfold contents in Hc; congruence).
  exists w1, w2, (fst (sessions_upsert (sessionDataOf swp pid) (live (db w)))).
  rewrite Hdb2, Hdb1. simpl live. simpl durable.
  unfold sessionRowId, rowsOf. rewrite Hs, Hm.
  fold (sessionRowId swp pid T).
  fold (rowsOf (fst (sessions_upsert (sessionDataOf swp pid) (live (db w)))) T).
  split; [exact H1|]. split; [exact H2|]. split; [exact Hc|].
  split; [split; reflexivity|]. split; [reflexivity|].
  split; [apply sessionRowId_import|].
  split; [apply NoDup_sequences; apply (importTables_unique swp pid _ Huniq)|].
  split; [|split].
  - intros Hne r Hin. eapply rowsOf_bound; eassumption.
  - intros j m Hcv. unfold converted in Hcv.
    destruct (Z.ltb_spec j 0) as [|Hj]; [discriminate|].
    destruct (nth_error _ (Z.to_nat j)) as [msg|] eqn:En; [|discriminate].
    injection Hcv as <-.
    pose proof (nth_error_stored_after swp pid (live (db w)) (Z.to_nat j) msg En) as Hst.
    rewrite Z2Nat.id in Hst by assumption.
    apply stored_row in Hst as (r & Hin & Hsq & Ho).
    destruct (convert_key msg (fst (sessions_upsert (sessionDataOf swp pid) (live (db w))))
                (SessionWithProject.created swp) j
                (metadataField SessionMetadata.cwd (SessionWithProject.session swp)))
      as [Es Eq].
    rewrite Es in Hin. rewrite Eq in Hsq. eauto.
  - intros Hnil. unfold T. rewrite importTables_eq. cbv zeta.
    fold msgs. rewrite Hnil. simpl. now rewrite sessions_upsert_snd.
Qed.

(** C4, amended.  On a store that holds the project row, a session
    stored with N messages and imported again, under the same identifier,
    with M messages, 1 <= M < N: both imports return normally, the first
    leaves a row at each of the N positions, and the second removes
    exactly the rows of the session at positions M and beyond, overwrites
    the rows at positions below M where they stand (same row id), and
    leaves every other row as it was. *)
Theorem reimport_truncates :
  forall old new projectId projectUuid projectUuid' w,
    idle (db w) -> hasProject projectId (live (db w)) ->
    SessionDetail.sessionId (SessionWithProject.session new)
    = SessionDetail.sessionId (SessionWithProject.session old) ->
    1 <= len (SessionDetail.messages (SessionWithProject.session new))
      < len (SessionDetail.messages (SessionWithProject.session old)) ->
    exists w1 w2 sid,
      importSession old projectId projectUuid w = (Ok tt, w1)
      /\ importSession new projectId projectUuid' w1 = (Ok tt, w2)
      /\ sessionRowId old projectId (live (db w1)) = Some sid
      /\ sessionRowId new projectId (live (db w2)) = Some sid
      /\ (forall j, 0 <= j < len (SessionDetail.messages (SessionWithProject.session old)) ->
                    existsb (messageKey sid j) (rows (messages (live (db w1)))) = true)
      /\ truncatedTo new sid (len (SessionDetail.messages (SessionWithProject.session new)))
                     (rows (messages (live (db w1)))) (rows (messages (live (db w2)))).
Proof.
  intros old new pid pu pu' w Hidle _ Hsid [HM HN].
  destruct (importSession_idle old pid pu w Hidle) as (w1 & H1 & Hdb1).
  assert (Hidle1 : idle (db w1)) by (rewrite Hdb1; split; reflexivity).
  destruct (importSession_idle new pid pu' w1 Hidle1) as (w2 & H2 & Hdb2).
  rewrite Hdb1 in Hdb2. simpl in Hdb2.
  set (L := live (db w)) in *.
  set (T := importTables old pid L) in *.
  set (sid := fst (sessions_upsert (sessionDataOf old pid) L)).
  assert (Hsame : fst (sessions_upsert (sessionDataOf new pid) T) = sid).
  { destruct (importTables_frame old pid L) as [Hp Hs]. fold T in Hp, Hs.
    rewrite (sessions_upsert_messages (sessionDataOf new pid)
               (snd (sessions_upsert (sessionDataOf old pid) L)) T).
    - simpl. apply sessions_upsert_again_id; [reflexivity|exact Hsid].
    - exact Hs.
    - rewrite Hp. now rewrite sessions_upsert_snd. }
  assert (Hrows : forall j, 0 <= j < len (SessionDetail.messages (SessionWithProject.session old)) ->
                  existsb (messageKey sid j) (rows (messages T)) = true).
  { intros j Hj.
    destruct (nth_error (SessionDetail.messages (SessionWithProject.session old)) (Z.to_nat j))
      as [msg|] eqn:En.
    - pose proof (nth_error_stored_after old pid L (Z.to_nat j) msg En) as [Hex _].
      rewrite keyOf_convert in Hex. now rewrite Z2Nat.id in Hex by lia.
    - apply nth_error_None in En. unfold len in Hj. lia. }
  exists w1, w2, sid. rewrite Hdb1, Hdb2. simpl live.
  repeat split; try assumption.
  - apply sessionRowId_import.
  - rewrite sessionRowId_import. now rewrite Hsame.
  - rewrite <- Hsame. apply importTables_over.
    + intros E. rewrite E in HM. unfold len in HM. simpl in HM. lia.
    + intros j Hj. rewrite Hsame. apply Hrows. unfold len in *. lia.
Qed.

(** *** Grouping by project *)

Lemma pushTo_absent (g : Grouped) k s : hasOwn g k = false -> pushTo g k s = g.
Proof.
  unfold hasOwn, pushTo. induction g as [|[k' l] g IH]; simpl; [reflexivity|].
  intros H. apply orb_false_iff in H as [Hk Hg]. rewrite Hk. now rewrite IH.
Qed.

Lemma pushTo_keys (g : Grouped) k s : List.map fst (pushTo g k s) = List.map fst g.
Proof.
  unfold pushTo. rewrite map_map. apply map_ext. intros [k' l]. simpl.
  now destruct (String.eqb k' k).
Qed.

Lemma hasOwn_keys (g : Grouped) k : hasOwn g k = true <-> In k (List.map fst g).
Proof.
  unfold hasOwn. rewrite existsb_exists. split.
  - intros [e [Hin He]]. apply String.eqb_eq in He. subst. now apply in_map.
  - intros Hin. apply in_map_iff in Hin as [e [<- Hin]]. exists e.
    split; [assumption|apply String.eqb_refl].
Qed.

Lemma pushTo_perm (g : Grouped) k s :
  NoDup (List.map fst g) -> hasOwn g k = true ->
  Permutation (flat_map snd (pushTo g k s)) (s :: flat_map snd g).
Proof.
  induction g as [|[k' l] g IH]; simpl; intros Hnd Hown; [discriminate|].
  apply NoDup_cons in Hnd as [Hn Hnd].
  destruct (String.eqb_spec k' k) as [->|Hne].
  - assert (Habs : hasOwn g k = false).
    { apply not_true_iff_false. intros H. apply hasOwn_keys in H.
      apply Hn. now apply list_elem_of_In. }
    fold (pushTo g k s). rewrite pushTo_absent by assumption. simpl.
    rewrite <- app_assoc. simpl. symmetry. apply Permutation_middle.
  - simpl in Hown. fold (pushTo g k s). simpl.
    assert (Hg : hasOwn g k = true).
    { unfold hasOwn in *. simpl in Hown.
      destruct (String.eqb_spec k' k); [contradiction|exact Hown]. }
    rewrite (IH Hnd Hg). symmetry. apply Permutation_middle.
Qed.

Lemma groupsOk_push g k s : groupsOk g -> groupsOk (pushTo g k s).
Proof.
  intros [Hnd Hne]. split; [now rewrite pushTo_keys|].
  apply List.Forall_forall. intros e Hin. unfold pushTo in Hin.
  apply in_map_iff in Hin as [[k' l] [<- Hin]].
  rewrite List.Forall_forall in Hne. specialize (Hne _ Hin). simpl in *.
  destruct (String.eqb k' k); simpl; [|assumption].
  now destruct l.
Qed.

Lemma groupsOk_add g k s : groupsOk g -> hasOwn g k = false -> groupsOk (g ++ [(k, [s])]).
Proof.
  intros [Hnd Hne] Habs. split.
  - rewrite map_app. simpl. apply NoDup_app. split; [assumption|].
    split; [|apply NoDup_singleton].
    intros x Hx Hk. apply list_elem_of_In in Hx, Hk. destruct Hk as [<-|[]].
    apply hasOwn_keys in Hx. congruence.
  - apply List.Forall_forall. intros e Hin. rewrite List.Forall_forall in Hne.
    apply in_app_or in Hin as [Hin|[<-|[]]]; [now apply Hne|discriminate].
Qed.

Lemma groupInto_perm sessions :
  forall g g', groupsOk g -> groupInto g sessions = Ok g' ->
               Permutation (flat_map snd g') (flat_map snd g ++ sessions) /\ groupsOk g'.
Proof.
  induction sessions as [|s l IH]; simpl; intros g g' Hok H.
  - injection H as <-. now rewrite app_nil_r.
  - destruct (hasOwn g (SessionWithProject.projectName s)) eqn:Hown.
    + apply IH in H as [Hp Hok']; [|now apply groupsOk_push]. split; [|assumption].
      rewrite Hp. rewrite pushTo_perm by (try apply Hok; assumption).
      simpl. apply Permutation_middle.
    + destruct (isPrototypeKey _); [discriminate|].
      apply IH in H as [Hp Hok']; [|now apply groupsOk_add]. split; [|assumption].
      rewrite Hp. rewrite flat_map_app. simpl. rewrite <- app_assoc. reflexivity.
Qed.

Lemma groupInto_ok sessions :
  forall g,
    (forall s, In s sessions -> isPrototypeKey (SessionWithProject.projectName s) = false) ->
    exists g', groupInto g sessions = Ok g'.
Proof.
  induction sessions as [|s l IH]; simpl; intros g H; [eauto|].
  destruct (hasOwn g _); [apply IH; auto|].
  rewrite H by now left. apply IH; auto.
Qed.

(** *** [Object.entries] *)

Lemma insertByIndex_perm {V} n (e : string * V) l :
  Permutation (insertByIndex n e l) ((n, e) :: l).
Proof.
  induction l as [|[m e'] l IH]; simpl; [reflexivity|].
  destruct (n <? m); [reflexivity|]. rewrite IH. apply perm_swap.
Qed.

Lemma indexed_perm {V} (o : list (string * V)) :
  Permutation (List.map snd (indexed o)) (List.filter (fun e => negb (isNamed e)) o).
Proof.
  induction o as [|e o IH]; simpl; [reflexivity|].
  unfold isNamed at 1. destruct (arrayIndex (fst e)) as [n|]; simpl; [|exact IH].
  rewrite insertByIndex_perm. simpl. now rewrite IH.
Qed.

Lemma filter_partition_perm {A} (p : A -> bool) l :
  Permutation (List.filter (fun a => negb (p a)) l ++ List.filter p l) l.
Proof.
  induction l as [|a l IH]; simpl; [reflexivity|].
  destruct (p a); simpl.
  - rewrite <- Permutation_middle. now rewrite IH.
  - now rewrite IH.
Qed.

Lemma entries_perm {V} (o : list (string * V)) : Permutation (entries o) o.
Proof.
  unfold entries. rewrite indexed_perm. apply filter_partition_perm.
Qed.

Lemma filter_length_perm {A} (p : A -> bool) l l' :
  Permutation l l' -> length (List.filter p l) = length (List.filter p l').
Proof.
  induction 1; simpl; try congruence.
  - destruct (p x); simpl; congruence.
  - destruct (p x), (p y); reflexivity.
Qed.

Lemma filter_filter {A} (p q : A -> bool) l :
  List.filter p (List.filter q l) = List.filter (fun a => q a && p a) l.
Proof.
  induction l as [|a l IH]; simpl; [reflexivity|].
  destruct (q a); simpl; [destruct (p a)|]; now rewrite IH.
Qed.

(** The groups [importAll] walks hold the named sessions, each once. *)
Lemma grouped_sessions found grouped :
  groupSessionsByProject (List.filter hasName found) = Ok grouped ->
  Permutation (flat_map snd (entries grouped)) (List.filter hasName found)
  /\ Forall (fun e => snd e <> []) (entries grouped).
Proof.
  intros H. unfold groupSessionsByProject in H.
  apply groupInto_perm in H as [Hp [Hnd Hne]].
  2:{ split; [apply NoDup_nil; reflexivity|constructor]. }
  split.
  - rewrite (Permutation_flat_map snd (entries_perm grouped)). exact Hp.
  - apply List.Forall_forall. intros e Hin. rewrite List.Forall_forall in Hne.
    apply Hne. eapply Permutation_in; [apply entries_perm|exact Hin].
Qed.

(** *** A search connection without faults *)

Lemma keepsQuiet_bind {A B} (m : M A) (f : A -> M B) :
  keepsQuiet m -> (forall a, keepsQuiet (f a)) -> keepsQuiet (m ≫= f).
Proof.
  intros Hm Hf w Hq. unfold mbind, M_bind. specialize (Hm w Hq).
  destruct (m w) as [[a|e] w']; simpl in *; [|assumption]. now apply Hf.
Qed.

Lemma keepsQuiet_ret {A} (a : A) : keepsQuiet (mret a).
Proof. intros w Hq. exact Hq. Qed.

Lemma keepsQuiet_tryCatch {A} (m : M A) h :
  keepsQuiet m -> (forall e, keepsQuiet (h e)) -> keepsQuiet (tryCatch m h).
Proof.
  intros Hm Hh w Hq. unfold tryCatch. specialize (Hm w Hq).
  destruct (m w) as [[a|e] w']; simpl in *; [assumption|]. now apply Hh.
Qed.

Lemma keepsQuiet_console_error l e : keepsQuiet (console_error l e).
Proof. intros w Hq. exact Hq. Qed.

Lemma keepsQuiet_onSearchDb {A} f : @keepsNoFaults _ A f -> keepsQuiet (onSearchDb f).
Proof.
  intros Hf w Hq. unfold onSearchDb, quiet in *. specialize (Hf (searchDb w) Hq).
  destruct (f (searchDb w)). exact Hf.
Qed.

Lemma noFaults_exec {T A} (stmt : T -> A * T) : keepsNoFaults (exec stmt).
Proof.
  intros [D L b f] Hf. simpl in Hf. subst f. unfold exec. simpl.
  destruct (stmt L). reflexivity.
Qed.

Lemma noFaults_begin {T} : keepsNoFaults (@beginTransaction T).
Proof. intros [D L b f] Hf. simpl in Hf. subst f. unfold beginTransaction. simpl. now destruct b. Qed.

Lemma noFaults_commit {T} : keepsNoFaults (@commitTransaction T).
Proof. intros [D L b f] Hf. simpl in Hf. subst f. unfold commitTransaction. simpl. now destruct b. Qed.

Lemma noFaults_rollback {T} : keepsNoFaults (@rollbackTransaction T).
Proof. intros [D L b f] Hf. simpl in Hf. subst f. unfold rollbackTransaction. simpl. now destruct b. Qed.

Lemma keepsQuiet_indexMessages sid pu ti pn msgs :
  forall i, keepsQuiet (indexMessages sid pu ti pn msgs i).
Proof.
  induction msgs as [|m msgs IH]; intros i; simpl.
  - apply keepsQuiet_ret.
  - apply keepsQuiet_bind.
    + destruct (Js.truthyS _); [apply keepsQuiet_onSearchDb, noFaults_exec|apply keepsQuiet_ret].
    + intros _. apply keepsQuiet_bind; [|intros _; apply IH].
      destruct (_ =? _); [|apply keepsQuiet_ret].
      apply keepsQuiet_bind; [apply keepsQuiet_onSearchDb, noFaults_commit|].
      intros _. apply keepsQuiet_onSearchDb, noFaults_begin.
Qed.

Lemma keepsQuiet_indexSession swp pu ti rms : keepsQuiet (indexSession swp pu ti rms).
Proof.
  unfold indexSession. apply keepsQuiet_tryCatch.
  - apply keepsQuiet_bind; [apply keepsQuiet_onSearchDb, noFaults_exec|intros _].
    apply keepsQuiet_bind; [apply keepsQuiet_onSearchDb, noFaults_begin|intros _].
    apply keepsQuiet_bind; [apply keepsQuiet_indexMessages|intros _].
    apply keepsQuiet_onSearchDb, noFaults_commit.
  - intros e. apply keepsQuiet_bind; [apply keepsQuiet_console_error|intros _].
    apply keepsQuiet_tryCatch; [apply keepsQuiet_onSearchDb, noFaults_rollback|].
    intros; apply keepsQuiet_console_error.
Qed.

(** The import on an idle primary connection and a quiet search
    connection. *)
Lemma importSession_quiet swp pid pu w :
  idle (db w) -> quiet w ->
  exists w',
    importSession swp pid pu w = (Ok tt, w')
    /\ db w' = mkSqlite (importTables swp pid (live (db w)))
                        (importTables swp pid (live (db w))) false []
    /\ quiet w'.
Proof.
  intros Hidle Hq. destruct w as [d S C]. simpl in *.
  rewrite (idle_inv d Hidle).
  destruct (importSession_rest swp pid pu (durable d) (live d) S C) as [rms ->].
  simpl live.
  set (wc := mkWorld _ S C).
  pose proof (indexSession_ok swp pu (titleOf swp) rms wc) as Hok.
  pose proof (keepsDb_indexSession swp pu (titleOf swp) rms wc) as Hdb.
  pose proof (keepsQuiet_indexSession swp pu (titleOf swp) rms wc Hq) as Hq'.
  destruct (indexSession swp pu (titleOf swp) rms wc) as [r w'].
  simpl in *. subst r. exists w'. auto.
Qed.

(** *** Rows that stay *)

(** Every session key and every project id of [t] is still in [t']. *)

Lemma extends_refl t : extends t t.
Proof. split; eauto. Qed.

Lemma extends_trans t1 t2 t3 : extends t1 t2 -> extends t2 t3 -> extends t1 t3.
Proof.
  intros [Hs1 Hp1] [Hs2 Hp2]. split.
  - intros r Hr. destruct (Hs1 r Hr) as (r' & Hr' & E1 & E2).
    destruct (Hs2 r' Hr') as (r'' & Hr'' & E3 & E4). exists r''. repeat split; congruence.
  - intros p Hp. destruct (Hp1 p Hp) as (p' & Hp' & E1 & E1').
    destruct (Hp2 p' Hp') as (p'' & Hp'' & E2 & E2'). exists p''. repeat split; congruence.
Qed.

Lemma upsert_keeps {R} (id : R -> Z) conflict update fresh t (P : R -> R -> Prop) :
  (forall r, P r r) -> (forall r, P r (update r)) ->
  forall r, In r (rows t) ->
            exists r', In r' (rows (snd (upsert id conflict update fresh t))) /\ P r r'.
Proof.
  intros Hrefl Hupd r Hin. rewrite upsert_rows.
  destruct (existsb conflict (rows t)).
  - exists (applyTo conflict update r). split; [now apply in_map|].
    unfold applyTo. destruct (conflict r); auto.
  - exists r. split; [apply in_or_app; now left|auto].
Qed.

Lemma importTables_extends swp pid t : extends t (importTables swp pid t).
Proof.
  destruct (importTables_frame swp pid t) as [Hp Hs]. split.
  - rewrite Hs, sessions_upsert_snd. simpl. intros r Hr.
    apply (upsert_keeps SessionRow.id _ _ _ _
             (fun r r' => SessionRow.project_id r' = SessionRow.project_id r
                          /\ SessionRow.session_id r' = SessionRow.session_id r));
      auto.
  - rewrite Hp. eauto.
Qed.

Lemma projects_upsert_snd project t :
  snd (projects_upsert project t)
  = mkTables (snd (upsert ProjectRow.id (projectKey (Project.projectUuid project))
                          (overwriteProject project) (fun i => projectRow i project)
                          (projects t)))
             (sessions t) (messages t).
Proof. unfold projects_upsert. destruct (upsert _ _ _ _ _). reflexivity. Qed.

Lemma projects_upsert_fst project t :
  fst (projects_upsert project t)
  = fst (upsert ProjectRow.id (projectKey (Project.projectUuid project))
                (overwriteProject project) (fun i => projectRow i project) (projects t)).
Proof. unfold projects_upsert. destruct (upsert _ _ _ _ _). reflexivity. Qed.

Lemma projects_upsert_extends project t : extends t (snd (projects_upsert project t)).
Proof.
  rewrite projects_upsert_snd. split; simpl; [eauto|].
  intros p Hp.
  apply (upsert_keeps ProjectRow.id _ _ _ _
           (fun p p' => ProjectRow.id p' = ProjectRow.id p
                        /\ ProjectRow.project_uuid p' = ProjectRow.project_uuid p));
    auto.
Qed.

(** The project upsert leaves a row of the project under the id it
    returns. *)
Lemma projects_upsert_row project t :
  exists p, In p (rows (projects (snd (projects_upsert project t))))
            /\ ProjectRow.id p = fst (projects_upsert project t)
            /\ ProjectRow.project_uuid p = Project.projectUuid project.
Proof.
  rewrite projects_upsert_snd, projects_upsert_fst. simpl.
  assert (H : option_map ProjectRow.id
                (List.find (projectKey (Project.projectUuid project))
                   (rows (snd (upsert ProjectRow.id (projectKey (Project.projectUuid project))
                                 (overwriteProject project) (fun i => projectRow i project)
                                 (projects t)))))
              = Some (fst (upsert ProjectRow.id (projectKey (Project.projectUuid project))
                             (overwriteProject project) (fun i => projectRow i project)
                             (projects t)))).
  { apply upsert_find.
    - intros r Hr. split; [exact Hr|reflexivity].
    - intros i. split; [|reflexivity]. unfold projectKey. simpl. apply String.eqb_refl. }
  destruct (List.find _ _) as [p|] eqn:E; [|discriminate H].
  exists p. apply find_some in E as [Hin Hk]. split; [assumption|].
  split; [simpl in H; now injection H|]. now apply String.eqb_eq in Hk.
Qed.

Lemma tryCatch_ok {A} (m : M A) h w a w' : m w = (Ok a, w') -> tryCatch m h w = (Ok a, w').
Proof. intros H. unfold tryCatch. now rewrite H. Qed.

Lemma len_cons {A} (a : A) l : len (a :: l) = 1 + len l.
Proof. unfold len. simpl length. lia. Qed.

Lemma len_app {A} (l l' : list A) : len (l ++ l') = len l + len l'.
Proof. unfold len. rewrite length_app. lia. Qed.

Lemma hasPath_skip s :
  negb (Js.truthyS (SessionWithProject.projectPath s))
  || String.eqb (SessionWithProject.projectPath s) "unknown" = negb (hasPath s).
Proof. unfold hasPath. now destruct (Js.truthyS _), (String.eqb _ _). Qed.

(** *** Project time stamps *)

Lemma extremum_ok (pick : Z -> Z -> Z) xs :
  (forall a b, pick a b = a \/ pick a b = b) ->
  xs <> [] ->
  (forall x, In x xs -> exists t, x = Some t /\ timeOk t) ->
  exists t, extremum pick xs = Some t /\ timeOk t.
Proof.
  intros Hpick. induction xs as [|x xs IH]; intros Hne H; [contradiction|].
  destruct (H x (or_introl eq_refl)) as (t & -> & Ht).
  destruct xs as [|y ys]; [exists t; now split|].
  destruct IH as (u & Hu & Hok); [discriminate|intros; apply H; now right|].
  change (extremum pick (Some t :: y :: ys))
    with (match extremum pick (y :: ys) with Some b => Some (pick t b) | None => None end).
  rewrite Hu. exists (pick t u). split; [reflexivity|].
  destruct (Hpick t u) as [->| ->]; assumption.
Qed.

Lemma toDateTimeString_ok t w :
  timeOk t -> exists s, toDateTimeString (Some t) w = (Ok s, w).
Proof.
  intros [Hlo Hhi]. unfold toDateTimeString, Time.toDateTimeString, Time.toISOString.
  set (ms := if t >? 1000000000000 then t else t * 1000).
  assert (Hms : (Z.abs ms >? Time.maxTimeValue) = false).
  { unfold Time.maxTimeValue.
    assert (Hle : Z.abs ms <= 8640000000000000)
      by (unfold ms; destruct (Z.gtb_spec t 1000000000000); lia).
    destruct (Z.gtb_spec (Z.abs ms) 8640000000000000); [lia|reflexivity]. }
  rewrite Hms. destruct (Time.civilFromDays _) as [[y m] d]. eexists. reflexivity.
Qed.

Lemma group_times (pick : Z -> Z -> Z) (f : SessionWithProject.t -> string) sessions w :
  (forall a b, pick a b = a \/ pick a b = b) ->
  sessions <> [] ->
  (forall s, In s sessions -> exists t, dateGetTime (f s) = Some t /\ timeOk t) ->
  exists str,
    toDateTimeString (extremum pick (List.map (fun s => dateGetTime (f s)) sessions)) w
    = (Ok str, w).
Proof.
  intros Hpick Hne H.
  destruct (extremum_ok pick (List.map (fun s => dateGetTime (f s)) sessions) Hpick)
    as (t & -> & Ht).
  - now destruct sessions.
  - intros x Hx. apply in_map_iff in Hx as (s & <- & Hs). now apply H.
  - now apply toDateTimeString_ok.
Qed.

Lemma Zmin_pick a b : Z.min a b = a \/ Z.min a b = b.
Proof. lia. Qed.

Lemma Zmax_pick a b : Z.max a b = a \/ Z.max a b = b.
Proof. lia. Qed.

(** *** The first two passes *)

Lemma scanAdapters_run adapters :
  forall acc w,
    exists lines,
      scanAdapters adapters acc w
      = (Ok (acc ++ flat_map SessionAdapter.getSessions adapters),
         mkWorld (db w) (searchDb w) (console w ++ lines)).
Proof.
  induction adapters as [|a rest IH]; intros acc w.
  - exists []. simpl. rewrite !app_nil_r. now destruct w.
  - simpl scanAdapters.
    erewrite bind_ok by reflexivity. erewrite bind_ok by reflexivity.
    set (w1 := mkWorld _ _ _).
    destruct (IH (acc ++ SessionAdapter.getSessions a) w1) as [lines ->].
    eexists. simpl. rewrite <- !app_assoc. reflexivity.
Qed.

Lemma filterValid_run allSessions :
  forall w,
    exists lines,
      filterValid allSessions w
      = (Ok (List.filter hasName allSessions),
         mkWorld (db w) (searchDb w) (console w ++ lines)).
Proof.
  induction allSessions as [|s rest IH]; intros w.
  - exists []. simpl. rewrite app_nil_r. now destruct w.
  - simpl. unfold hasName at 1. destruct (Js.truthyS _); cbn [negb]; cbv iota.
    + destruct (IH w) as [lines H]. exists lines.
      erewrite bind_ok by exact H. reflexivity.
    + erewrite bind_ok by reflexivity.
      set (w1 := mkWorld _ _ _).
      destruct (IH w1) as [lines ->]. eexists. simpl. rewrite <- app_assoc. reflexivity.
Qed.

(** *** Counting, whatever fails *)

(** The inner loop never throws, and every session with a path is counted
    once, as imported or as an error. *)
Lemma importSessions_sum sessions pid pu :
  forall counts w,
    exists i e w',
      importSessions sessions pid pu counts w = (Ok (i, e), w')
      /\ i + e = fst counts + snd counts + len (List.filter hasPath sessions)
      /\ fst counts <= i /\ snd counts <= e.
Proof.
  induction sessions as [|s rest IH]; intros counts w.
  - exists (fst counts), (snd counts), w. simpl. unfold len. simpl.
    destruct counts. simpl. repeat split; lia || reflexivity.
  - simpl importSessions. rewrite hasPath_skip. simpl List.filter.
    destruct (hasPath s) eqn:Hs; cbn [negb]; cbv iota.
    + assert (Hstep : exists c' w1,
                 tryCatch
                   (importSession s pid pu ≫= (fun _ => mret (fst counts + 1, snd counts)))
                   (fun ex =>
                      console_error
                        ("Error importing session "
                           ++ SessionDetail.sessionId (SessionWithProject.session s) ++ ":")%string
                        ex ≫= (fun _ => mret (fst counts, snd counts + 1))) w
                 = (Ok c', w1)
                 /\ (c' = (fst counts + 1, snd counts) \/ c' = (fst counts, snd counts + 1))).
      { unfold tryCatch, mbind, M_bind.
        destruct (importSession s pid pu w) as [[[]|ex] w0]; simpl; eauto. }
      destruct Hstep as (c' & w1 & Hstep & Hc').
      erewrite bind_ok by exact Hstep.
      destruct (IH c' w1) as (i & e & w' & H' & Hsum & Hi & He).
      exists i, e, w'. split; [exact H'|]. rewrite len_cons.
      destruct Hc' as [-> | ->]; simpl in *; lia.
    + erewrite bind_ok by reflexivity.
      set (w1 := mkWorld _ _ _).
      destruct (IH counts w1) as (i & e & w' & H' & Hsum & Hi & He).
      exists i, e, w'. auto.
Qed.

Lemma toDateTimeString_inv t w s w' : toDateTimeString t w = (Ok s, w') -> w' = w.
Proof.
  unfold toDateTimeString. destruct t as [t|]; [|discriminate].
  destruct (Time.toDateTimeString t); [|discriminate].
  intros H. now injection H.
Qed.

Lemma importProjects_sum groups :
  forall counts w i e w',
    importProjects groups counts w = (Ok (i, e), w') ->
    i + e = fst counts + snd counts + len (List.filter hasPath (flat_map snd groups))
    /\ fst counts <= i /\ snd counts <= e.
Proof.
  induction groups as [|[name sessions] rest IH]; intros counts w i e w' H.
  - simpl in H. injection H as H _. subst counts. simpl. unfold len. simpl. lia.
  - simpl importProjects in H.
    erewrite bind_ok in H by reflexivity.
    apply bind_inv in H as (createdAt & w1 & _ & H).
    apply bind_inv in H as (updatedAt & w2 & _ & H).
    apply bind_inv in H as (pid & w3 & _ & H).
    apply bind_inv in H as ([i1 e1] & w4 & H4 & H).
    match type of H4 with importSessions sessions pid ?pu counts w3 = _ =>
      destruct (importSessions_sum sessions pid pu counts w3)
        as (i1' & e1' & w4' & H4' & Hsum & Hi & He) end.
    rewrite H4' in H4. injection H4 as -> -> ->.
    apply IH in H as (Hsum' & Hi' & He'). simpl in *.
    rewrite List.filter_app, len_app. lia.
Qed.

Lemma onDb_exec_inv {A} (stmt : Tables -> A * Tables) w a w' :
  onDb (exec stmt) w = (Ok a, w') ->
  a = fst (stmt (live (db w))) /\ live (db w') = snd (stmt (live (db w)))
  /\ searchDb w' = searchDb w /\ console w' = console w.
Proof.
  unfold onDb, exec, tick. destruct w as [[D L b f] S C]. simpl.
  destruct f as [|[|] f]; simpl; try discriminate;
    destruct (stmt L) as [a0 t]; intros H; injection H as <- <-; simpl; auto.
Qed.

Lemma onSearchDb_exec_inv {A} (stmt : list Search.SearchEntry -> A * list Search.SearchEntry)
      w a w' :
  onSearchDb (exec stmt) w = (Ok a, w') ->
  a = fst (stmt (live (searchDb w))) /\ live (searchDb w') = snd (stmt (live (searchDb w)))
  /\ db w' = db w /\ console w' = console w.
Proof.
  unfold onSearchDb, exec, tick. destruct w as [d [D L b f] C]. simpl.
  destruct f as [|[|] f]; simpl; try discriminate;
    destruct (stmt L) as [a0 t]; intros H; injection H as <- <-; simpl; auto.
Qed.

Lemma len_filter_perm {A} (p : A -> bool) l l' :
  Permutation l l' -> len (List.filter p l) = len (List.filter p l').
Proof. intros H. unfold len. now rewrite (filter_length_perm p l l' H). Qed.

Lemma resolvable_count found :
  len (List.filter hasPath (List.filter hasName found)) = len (List.filter resolvable found).
Proof. now rewrite filter_filter. Qed.

(** X1. Whenever [importAll] returns, whatever failed on the way, the
    console ends with the summary for two counts, sessions imported and
    errors, that add up to the number of resolvable sessions found: each
    of them is tried once, and a failed import stops none of the others. *)
Theorem importAll_counts adapters w w' :
  importAll adapters w = (Ok tt, w') ->
  exists importedCount errorCount pre,
    console w' = pre ++ summary importedCount errorCount w'
    /\ importedCount + errorCount
       = len (List.filter resolvable (flat_map SessionAdapter.getSessions adapters))
    /\ 0 <= importedCount /\ 0 <= errorCount.
Proof.
  intros H. unfold importAll in H.
  erewrite bind_ok in H by reflexivity.
  apply bind_inv in H as (all & w0 & Hscan & H).
  match type of Hscan with scanAdapters _ _ ?w = _ =>
    destruct (scanAdapters_run adapters [] w) as [lines1 Hscan'] end.
  rewrite Hscan' in Hscan. injection Hscan as <- <-. simpl app in H.
  set (found := flat_map SessionAdapter.getSessions adapters) in *.
  do 3 erewrite bind_ok in H by reflexivity.
  apply bind_inv in H as (valid & w0 & Hvalid & H).
  match type of Hvalid with filterValid _ ?w = _ =>
    destruct (filterValid_run found w) as [lines2 Hvalid'] end.
  rewrite Hvalid' in Hvalid. injection Hvalid as <- <-.
  apply bind_inv in H as (grouped & w1 & Hg & H).
  unfold liftResult in Hg. injection Hg as Hg <-.
  erewrite bind_ok in H by reflexivity.
  apply bind_inv in H as ([i e] & w2 & Hp & H).
  apply importProjects_sum in Hp as (Hsum & Hi & He). simpl in Hsum, Hi, He.
  destruct (grouped_sessions found grouped Hg) as [Hperm _].
  rewrite (len_filter_perm hasPath _ _ Hperm), resolvable_count in Hsum.
  exists i, e.
  do 3 erewrite bind_ok in H by reflexivity.
  assert (Herr : exists w3,
             (if e >? 0
              then console_log ("Errors: " ++ num e ++ " sessions")%string
              else mret tt)
               (mkWorld (db w2) (searchDb w2)
                  (((console w2 ++ [log (nl ++ rule)%string]) ++ [log "Import complete!"])
                     ++ [log ("Successfully imported: " ++ num i ++ " sessions")%string]))
             = (Ok tt, w3)
             /\ db w3 = db w2 /\ searchDb w3 = searchDb w2
             /\ console w3 = console w2
                  ++ [log (nl ++ rule)%string; log "Import complete!";
                      log ("Successfully imported: " ++ num i ++ " sessions")%string]
                  ++ (if e >? 0 then [log ("Errors: " ++ num e ++ " sessions")%string] else [])).
  { destruct (e >? 0); eexists; (split; [reflexivity|]); simpl;
      rewrite <- ?app_assoc; simpl; rewrite ?app_nil_r; auto. }
  destruct Herr as (w3 & Herr & Hdb3 & Hs3 & Hc3).
  simpl in H. erewrite bind_ok in H by exact Herr.
  do 2 erewrite bind_ok in H by reflexivity.
  apply bind_inv in H as (pc & w4 & H4 & H). apply onDb_exec_inv in H4 as (-> & Hl4 & Hs4 & Hc4).
  erewrite bind_ok in H by reflexivity.
  apply bind_inv in H as (sc & w5 & H5 & H). apply onDb_exec_inv in H5 as (-> & Hl5 & Hs5 & Hc5).
  erewrite bind_ok in H by reflexivity.
  apply bind_inv in H as (mc & w6 & H6 & H). apply onDb_exec_inv in H6 as (-> & Hl6 & Hs6 & Hc6).
  erewrite bind_ok in H by reflexivity.
  apply bind_inv in H as (xc & w7 & H7 & H).
  apply onSearchDb_exec_inv in H7 as (-> & Hl7 & Hd7 & Hc7).
  injection H as <-.
  simpl in *.
  exists (console w2). split; [|auto].
  unfold summary. simpl.
  rewrite Hc7, Hc6, Hc5, Hc4, Hc3. simpl.
  rewrite Hl7, Hd7, Hl6, Hl5, Hl4. simpl.
  rewrite Hs6, Hs5, Hs4. simpl.
  unfold len. rewrite <- !app_assoc. simpl. destruct (e >? 0); reflexivity.
Qed.

End Facts.

(** *** The scenarios of the specification *)

Import Examples.

Lemma search_failure_isolated_witness :
  exists w',
    importSession twoMessages 1 projectUuid (searchFailsAt 2 emptyWorld) = (Ok tt, w')
    /\ committed (db w') (importTables twoMessages 1 emptyTables).
Proof.
  destruct (search_failure_isolated (helpers := helpers) twoMessages 1 projectUuid
              (searchFailsAt 2 emptyWorld)) as (w' & H & Hc & _).
  - split; reflexivity.
  - exists w'. split; [exact H|exact Hc].
Defined.

Lemma projectStore_hasProject : hasProject 1 projectStore.
Proof.
  exists (projectRow 1 (projectOf (sessionOf []))). split; [left; reflexivity|reflexivity].
Qed.

Lemma import_twice_is_import_once_witness :
  exists w1 w2,
    importSession twoMessages 1 projectUuid projectWorld = (Ok tt, w1)
    /\ importSession twoMessages 1 projectUuid w1 = (Ok tt, w2)
    /\ contents (live (db w2)) = contents (live (db w1)).
Proof.
  destruct (import_twice_is_import_once (helpers := helpers) twoMessages 1 projectUuid
              projectWorld) as (w1 & w2 & sid & H1 & H2 & H3 & _).
  - split; reflexivity.
  - split; constructor.
  - exact projectStore_hasProject.
  - exists w1, w2. auto.
Defined.

(** A session before and after it lost its only message, imported
    through [importSingleSession]: the empty session is imported twice,
    and the row of the message it no longer has is still there. *)
Lemma empty_import_keeps_stale_rows :
  let w0 := run (importSingleSession oneMessage) emptyWorld in
  let w1 := run (importSingleSession noMessages) w0 in
  let w2 := run (importSingleSession noMessages) w1 in
  fst (importSingleSession oneMessage emptyWorld) = Ok tt
  /\ fst (importSingleSession noMessages w0) = Ok tt
  /\ fst (importSingleSession noMessages w1) = Ok tt
  /\ SessionDetail.messages (SessionWithProject.session noMessages) = []
  /\ sessionRowId noMessages 1 (live (db w2)) = Some 1
  /\ List.map SessionRow.message_count (rows (sessions (live (db w2)))) = [0]
  /\ List.map MessageRow.sequence (rowsOf 1 (live (db w2))) = [0].
Proof. repeat split; vm_compute; reflexivity. Qed.

(** The counters of [sqlite_sequence] after one import of the two-message
    session and after the second. *)
Example reimport_moves_counters :
  let w1 := run (importSingleSession twoMessages) emptyWorld in
  let w2 := run (importSingleSession twoMessages) w1 in
  let counters (w : World) :=
    (autoinc (projects (live (db w))), autoinc (sessions (live (db w))),
     autoinc (messages (live (db w)))) in
  counters w1 = (1, 1, 2) /\ counters w2 = (2, 2, 4)
  /\ contents (live (db w2)) = contents (live (db w1)).
Proof. repeat split; vm_compute; reflexivity. Qed.

(** A session that shrinks to one message and grows back to two: the
    row that comes back gets a new id, past the ids the upserts in between
    used up. *)
Example regrown_row_id :
  let w1 := run (importSingleSession twoMessages) emptyWorld in
  let w2 := run (importSingleSession oneMessage) w1 in
  let w3 := run (importSingleSession twoMessages) w2 in
  List.map MessageRow.id (rows (messages (live (db w1)))) = [1; 2]
  /\ List.map MessageRow.id (rows (messages (live (db w2)))) = [1]
  /\ List.map MessageRow.id (rows (messages (live (db w3)))) = [1; 5].
Proof. repeat split; vm_compute; reflexivity. Qed.

Lemma reimport_truncates_witness :
  exists w1 w2,
    importSession twoMessages 1 projectUuid projectWorld = (Ok tt, w1)
    /\ importSession oneMessage 1 projectUuid w1 = (Ok tt, w2)
    /\ truncatedTo oneMessage 1 1 (messageRows w1) (messageRows w2).
Proof.
  destruct (reimport_truncates (helpers := helpers) twoMessages oneMessage 1 projectUuid
              projectUuid projectWorld) as (w1 & w2 & sid & H1 & H2 & Hs1 & _ & _ & Ht).
  - split; reflexivity.
  - exact projectStore_hasProject.
  - reflexivity.
  - unfold len. simpl. lia.
  - exists w1, w2. split; [exact H1|]. split; [exact H2|].
    assert (Hsid : sid = 1).
    { assert (Hw : w1 = snd (importSession twoMessages 1 projectUuid projectWorld))
        by now rewrite H1.
      rewrite Hw in Hs1. vm_compute in Hs1. congruence. }
    rewrite Hsid in Ht. exact Ht.
Defined.

(** The one-message session imported through [importSingleSession] and
    then again without its message: the delete is skipped and the row at
    position 0 stays. *)
Lemma reimport_empty_keeps_rows :
  let w1 := run (importSingleSession oneMessage) emptyWorld in
  let w2 := run (importSingleSession noMessages) w1 in
  fst (importSingleSession oneMessage emptyWorld) = Ok tt
  /\ fst (importSingleSession noMessages w1) = Ok tt
  /\ hasProject 1 (live (db w1))
  /\ sessionRowId noMessages 1 (live (db w2)) = Some 1
  /\ List.map MessageRow.sequence (rowsOf 1 (live (db w1))) = [0]
  /\ List.map MessageRow.sequence (rowsOf 1 (live (db w2))) = [0]
  /\ ~ truncatedTo noMessages 1 0 (messageRows w1) (messageRows w2).
Proof.
  split; [vm_compute; reflexivity|]. split; [vm_compute; reflexivity|].
  split; [eexists; split; [vm_compute; left; reflexivity|reflexivity]|].
  repeat split; try (vm_compute; reflexivity).
  unfold truncatedTo. vm_compute. discriminate.
Qed.

Lemma importAll_returns_no_counts :
  let full := importAll [claude [twoMessages; unknownPath]] emptyWorld in
  let none := importAll [] emptyWorld in
  fst full = Ok tt
  /\ fst none = Ok tt
  /\ nth_error (console (snd full)) 8 = Some (log "  Skipping session s2: no valid project path")
  /\ List.map Some (List.skipn 10 (console (snd full)))
     = List.map Some (List.tl (summary 1 0 (snd full)))
  /\ nth_error (console (snd full)) 11 = Some (log "Successfully imported: 1 sessions")
  /\ nth_error (console (snd none)) 7 = Some (log "Successfully imported: 0 sessions").
Proof. repeat split; vm_compute; reflexivity. Qed.

Lemma importAll_counts_witness :
  let w' := snd (importAll [claude [twoMessages; unknownPath]] (primaryFailsAt 2 emptyWorld)) in
  exists importedCount errorCount pre,
    console w' = pre ++ summary importedCount errorCount w'
    /\ importedCount + errorCount = 1.
Proof.
  intros w'.
  destruct (importAll_counts (helpers := helpers) [claude [twoMessages; unknownPath]]
              (primaryFailsAt 2 emptyWorld) w') as (i & e & pre & Hc & Hs & _).
  - vm_compute. reflexivity.
  - exists i, e, pre. split; [exact Hc|]. rewrite Hs. reflexivity.
Defined.

(** A failing primary store: the session is counted as an error, and
    the run goes on to its summary. *)
Example importAll_primary_fault :
  let r := importAll [claude [twoMessages; unknownPath]] (primaryFailsAt 2 emptyWorld) in
  fst r = Ok tt
  /\ nth_error (console (snd r)) 8
     = Some (error "Error importing session s1:" (SqliteError "SQLITE_ERROR"))
  /\ nth_error (console (snd r)) 12 = Some (log "Successfully imported: 0 sessions")
  /\ nth_error (console (snd r)) 13 = Some (log "Errors: 1 sessions").
Proof. repeat split; vm_compute; reflexivity. Qed.

End ImporterFacts.

(** ** Grouping by project, again *)

Module GroupingFacts.

Import Db Importer ImporterFacts.
Local Open Scope Z_scope.

Lemma hasOwn_in g k : hasOwn g k = true <-> In k (List.map fst g).
Proof.
  unfold hasOwn. rewrite existsb_exists. split.
  - intros [e [Hin He]]. apply String.eqb_eq in He. subst k. now apply in_map.
  - intros H. apply in_map_iff in H as [e [<- Hin]]. exists e. split; [assumption|].
    apply String.eqb_refl.
Qed.

Lemma hasOwn_app g e k : hasOwn (g ++ [e]) k = hasOwn g k || String.eqb (fst e) k.
Proof. unfold hasOwn. rewrite existsb_app. simpl. now rewrite orb_false_r. Qed.

Lemma hasOwn_pushTo g k s k' : hasOwn (pushTo g k s) k' = hasOwn g k'.
Proof.
  unfold hasOwn, pushTo. induction g as [|e g IH]; simpl; [reflexivity|].
  rewrite IH. now destruct (String.eqb (fst e) k).
Qed.

Lemma filter_snoc {A} (p : A -> bool) l a :
  List.filter p (l ++ [a]) = List.filter p l ++ (if p a then [a] else []).
Proof. rewrite List.filter_app. reflexivity. Qed.

Lemma groupsOf_push seen g s :
  groupsOf seen g -> hasOwn g (SessionWithProject.projectName s) = true ->
  groupsOf (seen ++ [s]) (pushTo g (SessionWithProject.projectName s) s).
Proof.
  intros (Hnd & Hg & Hs) Hown. split; [|split].
  - now rewrite pushTo_keys.
  - intros e Hin. unfold pushTo in Hin. apply in_map_iff in Hin as [e0 [<- Hin]].
    destruct (Hg e0 Hin) as [He Hne].
    destruct (String.eqb (fst e0) (SessionWithProject.projectName s)) eqn:E; simpl;
      rewrite filter_snoc; unfold named at 2; rewrite String.eqb_sym, E.
    + split; [now rewrite He|now destruct (snd e0)].
    + rewrite app_nil_r. now split.
  - intros s' Hin. rewrite hasOwn_pushTo. apply in_app_or in Hin as [Hin|[<-|[]]]; auto.
Qed.

Lemma filter_named_absent seen g k :
  (forall s, In s seen -> hasOwn g (SessionWithProject.projectName s) = true) ->
  hasOwn g k = false -> List.filter (named k) seen = [].
Proof.
  intros Hs Hk. induction seen as [|s l IH]; simpl; [reflexivity|].
  unfold named at 1. destruct (String.eqb_spec (SessionWithProject.projectName s) k) as [E|E].
  - rewrite <- E, Hs in Hk by now left. discriminate.
  - apply IH. intros; apply Hs; now right.
Qed.

Lemma groupsOf_add seen g s :
  groupsOf seen g -> hasOwn g (SessionWithProject.projectName s) = false ->
  groupsOf (seen ++ [s]) (g ++ [(SessionWithProject.projectName s, [s])]).
Proof.
  intros (Hnd & Hg & Hs) Hown. split; [|split].
  - rewrite map_app. simpl. apply NoDup_app. split; [assumption|]. split.
    + intros k Hk Hk2. apply list_elem_of_In in Hk2 as [<-|[]].
      apply list_elem_of_In, hasOwn_in in Hk. congruence.
    + apply NoDup_singleton.
  - intros e Hin. rewrite filter_snoc. apply in_app_or in Hin as [Hin|[<-|[]]].
    + destruct (Hg e Hin) as [He Hne]. unfold named at 2.
      destruct (String.eqb_spec (SessionWithProject.projectName s) (fst e)) as [E|E].
      * exfalso. rewrite E in Hown.
        assert (hasOwn g (fst e) = true) by (apply hasOwn_in; now apply in_map).
        congruence.
      * rewrite app_nil_r. now split.
    + simpl. unfold named at 2. rewrite String.eqb_refl.
      rewrite (filter_named_absent seen g _ Hs Hown). now split.
  - intros s' Hin. rewrite hasOwn_app. simpl.
    apply in_app_or in Hin as [Hin|[<-|[]]].
    + now rewrite Hs.
    + rewrite String.eqb_refl. apply orb_true_r.
Qed.

Lemma groupInto_groupsOf rest :
  forall seen g g',
    groupsOf seen g -> groupInto g rest = Ok g' -> groupsOf (seen ++ rest) g'.
Proof.
  induction rest as [|s rest IH]; simpl; intros seen g g' Hg H.
  - injection H as <-. now rewrite app_nil_r.
  - replace (seen ++ s :: rest) with ((seen ++ [s]) ++ rest) by now rewrite <- app_assoc.
    destruct (hasOwn g (SessionWithProject.projectName s)) eqn:Hown.
    + eapply IH; [|exact H]. now apply groupsOf_push.
    + destruct (isPrototypeKey _); [discriminate|].
      eapply IH; [|exact H]. now apply groupsOf_add.
Qed.

Lemma groupInto_throws rest :
  forall g,
    ownSafe g ->
    ((exists s, In s rest /\ isPrototypeKey (SessionWithProject.projectName s) = true)
     <-> groupInto g rest = Throw (TypeError "grouped[projectName].push is not a function")).
Proof.
  induction rest as [|s rest IH]; simpl; intros g Hsafe.
  - split; [intros [s [[] _]]|discriminate].
  - destruct (hasOwn g (SessionWithProject.projectName s)) eqn:Hown.
    + rewrite <- IH.
      * split.
        -- intros [s' [[<-|Hin] Hp]]; [|eauto]. rewrite (Hsafe _ Hown) in Hp. discriminate.
        -- intros [s' [Hin Hp]]. eauto.
      * intros k Hk. rewrite hasOwn_pushTo in Hk. now apply Hsafe.
    + destruct (isPrototypeKey (SessionWithProject.projectName s)) eqn:Hp.
      * split; [reflexivity|]. intros _. exists s. auto.
      * rewrite <- IH.
        -- split.
           ++ intros [s' [[<-|Hin] Hp']]; [congruence|eauto].
           ++ intros [s' [Hin Hp']]. eauto.
        -- intros k Hk. rewrite hasOwn_app in Hk. simpl in Hk.
           apply orb_true_iff in Hk as [Hk|Hk]; [now apply Hsafe|].
           apply String.eqb_eq in Hk. now subst k.
Qed.

(** X5. [groupSessionsByProject] files every session under its own project
    name: the object it returns has one entry per name, and the entry of a
    name holds exactly the sessions of that name, in the order given; no
    entry is empty. *)
Theorem groupSessionsByProject_groups :
  forall sessions grouped,
    groupSessionsByProject sessions = Ok grouped ->
    NoDup (List.map fst grouped)
    /\ (forall name group,
          In (name, group) grouped ->
          group = List.filter (named name) sessions /\ group <> [])
    /\ (forall s, In s sessions ->
                  exists group, In (SessionWithProject.projectName s, group) grouped).
Proof.
  intros sessions grouped H.
  destruct (groupInto_groupsOf sessions [] [] grouped) as (Hnd & Hg & Hs).
  - split; [constructor|]. split; intros ? [].
  - exact H.
  - split; [exact Hnd|]. split.
    + intros name group Hin. exact (Hg (name, group) Hin).
    + intros s Hin. specialize (Hs s Hin). apply hasOwn_in, in_map_iff in Hs as [[k group] [Hk He]].
      simpl in Hk. subst k. eauto.
Qed.

(** X6. [groupSessionsByProject] throws, with a [TypeError], exactly when
    a session has a project name that [Object.prototype] defines: the
    lookup [grouped[projectName]] then finds the inherited property, which
    is truthy and has no [push]. *)
Theorem groupSessionsByProject_prototype_name :
  forall sessions,
    (exists s, In s sessions /\ isPrototypeKey (SessionWithProject.projectName s) = true)
    <-> groupSessionsByProject sessions
        = Throw (TypeError "grouped[projectName].push is not a function").
Proof.
  intros sessions. apply groupInto_throws. intros k Hk. discriminate Hk.
Qed.

Section Abort.
Context {unicode : Js.Unicode} {helpers : Helpers}.

Lemma prototypeKey_truthy k : isPrototypeKey k = true -> Js.truthyS k = true.
Proof.
  unfold isPrototypeKey, prototypeKeys. simpl. rewrite !orb_true_iff.
  intros H. repeat (destruct H as [H|H]; [apply String.eqb_eq in H; subst k; reflexivity|]).
  discriminate.
Qed.

(** X7. One session whose project name is a property of
    [Object.prototype] aborts the whole run: [importAll] throws the
    [TypeError] of the grouping, before any project or session is
    written. *)
Theorem importAll_prototype_name :
  forall adapters w,
    (exists s, In s (flat_map SessionAdapter.getSessions adapters)
               /\ isPrototypeKey (SessionWithProject.projectName s) = true) ->
    exists w',
      importAll adapters w
      = (Throw (TypeError "grouped[projectName].push is not a function"), w')
      /\ db w' = db w /\ searchDb w' = searchDb w.
Proof.
  intros adapters w [s [Hin Hp]]. unfold importAll.
  erewrite bind_ok by reflexivity.
  set (w0 := mkWorld _ _ _).
  destruct (scanAdapters_run adapters [] w0) as [lines1 H1].
  erewrite bind_ok by exact H1. simpl app.
  set (found := flat_map SessionAdapter.getSessions adapters) in *.
  do 3 erewrite bind_ok by reflexivity.
  set (w1 := mkWorld _ _ _).
  destruct (filterValid_run found w1) as [lines2 H2].
  erewrite bind_ok by exact H2.
  assert (Hg : groupSessionsByProject (List.filter hasName found)
               = Throw (TypeError "grouped[projectName].push is not a function")).
  { apply (groupInto_throws _ []); [intros k Hk; discriminate Hk|].
    exists s. split; [|exact Hp].
    apply filter_In. split; [exact Hin|]. now apply prototypeKey_truthy. }
  eexists. split.
  - erewrite bind_throw; [reflexivity|]. unfold liftResult. rewrite Hg. reflexivity.
  - split; reflexivity.
Qed.

End Abort.

Import Examples.

Lemma groupSessionsByProject_groups_witness :
  exists grouped,
    groupSessionsByProject [twoMessages; unknownPath] = Ok grouped
    /\ NoDup (List.map fst grouped).
Proof.
  eexists. split; [reflexivity|].
  apply (groupSessionsByProject_groups [twoMessages; unknownPath] _ eq_refl).
Defined.

Lemma importAll_prototype_name_witness :
  exists w',
    importAll [claude [twoMessages; constructorSession]] emptyWorld
    = (Throw (TypeError "grouped[projectName].push is not a function"), w')
    /\ db w' = db emptyWorld.
Proof.
  destruct (importAll_prototype_name (helpers := helpers)
              [claude [twoMessages; constructorSession]] emptyWorld) as (w' & H & Hdb & _).
  - exists constructorSession. split; [right; left; reflexivity|reflexivity].
  - exists w'. split; assumption.
Defined.

End GroupingFacts.

(** ** A failing primary connection *)

Module AtomicityFacts.

Import Db Importer ImporterFacts.
Local Open Scope Z_scope.

Section Atomic.
Context {unicode : Js.Unicode} {helpers : Helpers}.

Lemma inTx_trans w1 w2 w3 : inTx w1 w2 -> inTx w2 w3 -> inTx w1 w3.
Proof. unfold inTx. intros (?&?&?&?) (?&?&?&?). repeat split; congruence. Qed.

Lemma txStep_bind {A B} (m : M A) (f : A -> M B) Q R :
  txStep m Q -> (forall a, txStep (f a) (R a)) ->
  txStep (m ≫= f) (fun b L L'' => exists a L', Q a L L' /\ R a b L' L'').
Proof.
  intros Hm Hf w Hw. specialize (Hm w Hw). unfold mbind, M_bind.
  destruct (m w) as [[a|e] w1]; [|exact Hm].
  destruct Hm as [Ht HQ]. specialize (Hf a w1 (proj1 (proj2 Ht))).
  destruct (f a w1) as [[b|e] w2].
  - destruct Hf as [Ht' HR]. split; [eapply inTx_trans; eassumption|eauto].
  - eapply inTx_trans; eassumption.
Qed.

Lemma txStep_ret {A} (a : A) : txStep (mret a) (fun b L L' => b = a /\ L' = L).
Proof.
  intros w Hw. simpl. unfold mret, M_ret. split; [|auto]. unfold inTx. auto.
Qed.

Lemma txStep_exec {A} (stmt : Tables -> A * Tables) :
  txStep (onDb (exec stmt)) (fun a L L' => a = fst (stmt L) /\ L' = snd (stmt L)).
Proof.
  intros [[D L b f] S C] Hw. simpl in Hw. subst b. unfold onDb, exec, tick. simpl.
  destruct f as [|[|] f]; simpl; try (unfold inTx; simpl; auto; fail);
    destruct (stmt L) as [a t]; simpl; unfold inTx; simpl; auto.
Qed.

Lemma txStep_weaken {A} (m : M A) (Q Q' : A -> Tables -> Tables -> Prop) :
  txStep m Q -> (forall a L L', Q a L L' -> Q' a L L') -> txStep m Q'.
Proof.
  intros Hm HQ w Hw. specialize (Hm w Hw). destruct (m w) as [[a|e] w']; [|exact Hm].
  destruct Hm. split; auto.
Qed.

(** The message loop below the first batch boundary. *)
Lemma txStep_upsertMessages sid ca cwd msgs :
  forall index acc,
    0 <= index -> index + len msgs < MSG_BATCH_SIZE ->
    txStep (upsertMessages sid ca cwd msgs index acc)
           (fun r L L' =>
              r = (fst acc ++ convertAll sid ca cwd msgs index,
                   match msgs with [] => snd acc | _ => index + len msgs - 1 end)
              /\ L' = upsertAll sid ca cwd msgs index L).
Proof.
  induction msgs as [|m msgs IH]; intros index acc H0 Hlt.
  - simpl. eapply txStep_weaken; [apply txStep_ret|].
    intros a L L' [-> ->]. rewrite app_nil_r. now destruct acc.
  - cbn [upsertMessages upsertAll convertAll].
    rewrite len_cons in Hlt.
    assert (Hb : ((index + 1) mod MSG_BATCH_SIZE =? 0) = false).
    { apply Z.eqb_neq. unfold MSG_BATCH_SIZE, len in *. rewrite Z.mod_small; lia. }
    rewrite Hb.
    eapply txStep_weaken.
    + eapply txStep_bind; [apply txStep_exec|]. intros ?.
      eapply txStep_bind; [apply txStep_ret|]. intros ?.
      apply IH; unfold len in *; lia.
    + intros r L L'' (a & L1 & [_ ->] & u & L2 & [_ ->] & -> & ->). split; [|reflexivity].
      cbn [fst snd]. rewrite <- app_assoc. simpl. f_equal.
      unfold len. destruct msgs; simpl length; lia.
Qed.

Lemma txStep_delete (rl : list RenderableMessage.t * Z) sid :
  txStep (let '(renderableMessages, lastSequence) := rl in
          _ ← (if lastSequence >=? 0
               then onDb (exec (messages_deleteBySessionIdAndMinSequence sid lastSequence))
               else mret tt);
          mret renderableMessages)
         (fun r L L' =>
            r = fst rl
            /\ L' = if snd rl >=? 0
                    then snd (messages_deleteBySessionIdAndMinSequence sid (snd rl) L)
                    else L).
Proof.
  destruct rl as [rms last]. cbn [fst snd].
  eapply txStep_weaken.
  - eapply txStep_bind; [|intros ?; apply txStep_ret].
    instantiate (1 := fun _ L L' =>
                        L' = if last >=? 0
                             then snd (messages_deleteBySessionIdAndMinSequence sid last L)
                             else L).
    destruct (last >=? 0).
    + eapply txStep_weaken; [apply txStep_exec|]. now intros ? ? ? [_ ->].
    + eapply txStep_weaken; [apply txStep_ret|]. now intros ? ? ? [_ ->].
  - intros r L L' (u & L1 & -> & -> & ->). auto.
Qed.

(** The statements of [importSession] between [BEGIN] and [COMMIT]. *)
Lemma txStep_statements swp pid :
  len (SessionDetail.messages (SessionWithProject.session swp)) < MSG_BATCH_SIZE ->
  let sessionDetail := SessionWithProject.session swp in
  txStep
    (existingSession ← onDb (exec (sessions_getByProjectAndSessionId pid
                                     (SessionDetail.sessionId sessionDetail)));
     sessionId ← onDb (exec (sessions_upsert (sessionDataOf swp pid)));
     '(renderableMessages, lastSequence) ←
       upsertMessages sessionId (SessionWithProject.created swp)
         (metadataField SessionMetadata.cwd sessionDetail)
         (SessionDetail.messages sessionDetail) 0 ([], -1);
     _ ← (if lastSequence >=? 0
          then onDb (exec (messages_deleteBySessionIdAndMinSequence sessionId lastSequence))
          else mret tt);
     mret renderableMessages)
    (fun _ L L' => L' = importTables swp pid L).
Proof.
  intros Hlt sd.
  eapply txStep_weaken.
  - eapply txStep_bind; [apply txStep_exec|]. intros ?.
    eapply txStep_bind; [apply txStep_exec|]. intros sid.
    eapply txStep_bind; [apply txStep_upsertMessages; [lia|exact Hlt]|]. intros rl.
    apply (txStep_delete rl sid).
  - intros r L L' (a & L1 & [_ HL1] & sid & L2 & [Hsid HL2] & rl & L3 & [Hr HL3] & _ & HL4).
    cbn [sessions_getByProjectAndSessionId snd] in HL1. subst L1 rl.
    cbn [fst snd] in HL4. subst L' L3 L2 sid.
    unfold importTables. fold sd.
    destruct (sessions_upsert (sessionDataOf swp pid) L) as [sid L1]. cbn [fst snd].
    destruct (SessionDetail.messages sd) as [|m0 ms] eqn:E.
    + reflexivity.
    + assert (Hge : (0 + len (m0 :: ms) - 1 >=? 0) = true).
      { unfold len. simpl length. apply Z.geb_le. lia. }
      rewrite Hge. now replace (0 + len (m0 :: ms) - 1) with (len (m0 :: ms) - 1) by lia.
Qed.

Lemma rollback_rethrow e w :
  inTransaction (db w) = true ->
  match (_ ← onDb rollbackTransaction; throw (A := unit) e) w with
  | (Ok _, _) => False
  | (Throw _, w') =>
      durable (db w') = durable (db w) /\ searchDb w' = searchDb w /\ console w' = console w
  end.
Proof.
  destruct w as [[D L b f] S C]. simpl. intros ->.
  unfold mbind, M_bind, onDb, rollbackTransaction, tick, throw. simpl.
  destruct f as [|[|] f]; simpl; auto.
Qed.

Lemma commit_tx w :
  inTransaction (db w) = true ->
  match onDb commitTransaction w with
  | (Ok _, w') =>
      durable (db w') = live (db w) /\ live (db w') = live (db w)
      /\ inTransaction (db w') = false
  | (Throw _, w') => inTx w w'
  end.
Proof.
  destruct w as [[D L b f] S C]. simpl. intros ->.
  unfold onDb, commitTransaction, tick, inTx. simpl.
  destruct f as [|[|] f]; simpl; auto.
Qed.

Lemma begin_tx w :
  inTransaction (db w) = false ->
  match onDb beginTransaction w with
  | (Ok _, w') =>
      durable (db w') = durable (db w) /\ live (db w') = live (db w)
      /\ inTransaction (db w') = true /\ searchDb w' = searchDb w /\ console w' = console w
  | (Throw _, w') =>
      durable (db w') = durable (db w) /\ searchDb w' = searchDb w /\ console w' = console w
  end.
Proof.
  destruct w as [[D L b f] S C]. simpl. intros ->.
  unfold onDb, beginTransaction, tick. simpl.
  destruct f as [|[|] f]; simpl; auto.
Qed.

(** The [try] block of [importSession]: its statements, then the commit
    and the search phase. *)
Lemma importSession_try swp pid pu w :
  let sessionDetail := SessionWithProject.session swp in
  importSession swp pid pu w
  = (_ ← onDb beginTransaction;
     tryCatch
       (renderableMessages ←
          (existingSession ← onDb (exec (sessions_getByProjectAndSessionId pid
                                           (SessionDetail.sessionId sessionDetail)));
           sessionId ← onDb (exec (sessions_upsert (sessionDataOf swp pid)));
           '(renderableMessages, lastSequence) ←
             upsertMessages sessionId (SessionWithProject.created swp)
               (metadataField SessionMetadata.cwd sessionDetail)
               (SessionDetail.messages sessionDetail) 0 ([], -1);
           _ ← (if lastSequence >=? 0
                then onDb (exec (messages_deleteBySessionIdAndMinSequence sessionId
                                   lastSequence))
                else mret tt);
           mret renderableMessages);
        _ ← onDb commitTransaction;
        indexSession swp pu (titleOf swp) renderableMessages)
       (fun e => _ ← onDb rollbackTransaction; throw e)) w.
Proof.
  intros sd. unfold importSession. fold sd. unfold mbind, M_bind, tryCatch, mret, M_ret.
  destruct (onDb beginTransaction w) as [[[]|e] w1]; [|reflexivity].
  destruct (onDb (exec (sessions_getByProjectAndSessionId pid (SessionDetail.sessionId sd))) w1)
    as [[a|e] w2]; [|reflexivity].
  destruct (onDb (exec (sessions_upsert (sessionDataOf swp pid))) w2) as [[sid|e] w3];
    [|reflexivity].
  destruct (upsertMessages sid _ _ _ 0 ([], -1) w3) as [[[rms last]|e] w4]; [|reflexivity].
  destruct (last >=? 0); [|reflexivity].
  destruct (onDb (exec (messages_deleteBySessionIdAndMinSequence sid last)) w4)
    as [[[]|e] w5]; reflexivity.
Qed.

(** X9. [importSession] on a session of fewer than fifty messages is all
    or nothing on the primary store, whichever calls into the connection
    fail.  Started outside a transaction, it either returns, and then the
    store holds the import, committed; or it throws, and then nothing of
    it is durable and neither the search index nor the console has been
    touched. *)
Theorem importSession_all_or_nothing :
  forall swp projectId projectUuid w,
    inTransaction (db w) = false ->
    len (SessionDetail.messages (SessionWithProject.session swp)) < MSG_BATCH_SIZE ->
    match importSession swp projectId projectUuid w with
    | (Ok _, w') =>
        durable (db w') = importTables swp projectId (live (db w))
        /\ live (db w') = durable (db w') /\ inTransaction (db w') = false
    | (Throw _, w') =>
        durable (db w') = durable (db w) /\ searchDb w' = searchDb w
        /\ console w' = console w
    end.
Proof.
  intros swp pid pu w Hout Hlt. rewrite importSession_try.
  pose proof (begin_tx w Hout) as Hb. unfold mbind at 1, M_bind at 1.
  destruct (onDb beginTransaction w) as [[[]|e] w1]; [|exact Hb].
  destruct Hb as (HD1 & HL1 & Ht1 & HS1 & HC1).
  pose proof (txStep_statements swp pid Hlt w1 Ht1) as Hs.
  unfold tryCatch. unfold mbind at 1, M_bind at 1.
  match type of Hs with match ?m w1 with _ => _ end => destruct (m w1) as [[rms|e] w2] end.
  - destruct Hs as [(HD2 & Ht2 & HS2 & HC2) HL2].
    pose proof (commit_tx w2 Ht2) as Hc. unfold mbind at 1, M_bind at 1.
    destruct (onDb commitTransaction w2) as [[[]|e] w3].
    + destruct Hc as (HD3 & HL3 & Ht3).
      pose proof (indexSession_ok swp pu (titleOf swp) rms w3) as Hok.
      pose proof (keepsDb_indexSession swp pu (titleOf swp) rms w3) as Hdb.
      destruct (indexSession swp pu (titleOf swp) rms w3) as [[[]|e] w4]; [|discriminate Hok].
      simpl in Hdb. rewrite Hdb. repeat split; congruence.
    + destruct Hc as (HD3 & Ht3 & HS3 & HC3).
      pose proof (rollback_rethrow e w3 Ht3) as Hr.
      destruct ((_ ← onDb rollbackTransaction; throw e) w3) as [[[]|e'] w4]; [contradiction|].
      destruct Hr as (? & ? & ?). repeat split; congruence.
  - destruct Hs as (HD2 & Ht2 & HS2 & HC2).
    pose proof (rollback_rethrow e w2 Ht2) as Hr.
    destruct ((_ ← onDb rollbackTransaction; throw e) w2) as [[[]|e'] w3]; [contradiction|].
    destruct Hr as (? & ? & ?). repeat split; congruence.
Qed.

End Atomic.

Import Examples.

Lemma importSession_all_or_nothing_witness :
  match importSession twoMessages 1 projectUuid (primaryFailsAt 3 emptyWorld) with
  | (Ok _, w') =>
      durable (db w') = importTables twoMessages 1 emptyTables
      /\ live (db w') = durable (db w') /\ inTransaction (db w') = false
  | (Throw _, w') =>
      durable (db w') = emptyTables /\ searchDb w' = searchDb emptyWorld /\ console w' = []
  end.
Proof.
  apply (importSession_all_or_nothing (helpers := helpers) twoMessages 1 projectUuid
           (primaryFailsAt 3 emptyWorld)).
  - reflexivity.
  - unfold len, MSG_BATCH_SIZE. simpl. lia.
Defined.

End AtomicityFacts.

(** ** The search index after an import *)

Module SearchIndexFacts.

Import Db Importer ImporterFacts.
Local Open Scope Z_scope.

Section SearchIndex.
Context {unicode : Js.Unicode} {helpers : Helpers}.

Lemma search_exec_rest {A} (stmt : list Search.SearchEntry -> A * list Search.SearchEntry)
      d D L b C :
  onSearchDb (exec stmt) (mkWorld d (mkSqlite D L b []) C)
  = (Ok (fst (stmt L)),
     mkWorld d (mkSqlite (if b then D else snd (stmt L)) (snd (stmt L)) b []) C).
Proof. unfold onSearchDb, exec. simpl. destruct (stmt L). reflexivity. Qed.

Lemma search_begin_rest d D L C :
  onSearchDb beginTransaction (mkWorld d (mkSqlite D L false []) C)
  = (Ok tt, mkWorld d (mkSqlite D L true []) C).
Proof. reflexivity. Qed.

Lemma search_commit_rest d D L C :
  onSearchDb commitTransaction (mkWorld d (mkSqlite D L true []) C)
  = (Ok tt, mkWorld d (mkSqlite L L false []) C).
Proof. reflexivity. Qed.

Lemma indexMessages_rest swp pu msgs :
  forall i d D L C,
  exists D',
    indexMessages (SessionDetail.sessionId (SessionWithProject.session swp)) pu (titleOf swp)
      (SessionWithProject.projectName swp) msgs i (mkWorld d (mkSqlite D L true []) C)
    = (Ok tt, mkWorld d (mkSqlite D' (L ++ searchEntries swp pu msgs) true []) C).
Proof.
  induction msgs as [|m msgs IH]; intros i d D L C.
  - exists D. simpl. unfold searchEntries. simpl. now rewrite app_nil_r.
  - cbn [indexMessages]. unfold searchEntries. cbn [List.filter].
    destruct (Js.truthyS (extractText (RenderableMessage.content m))) eqn:Ht.
    + erewrite bind_ok by apply search_exec_rest. cbn [fst snd search_insert List.map].
      change (Search.mkSearchEntry _ _ _ _ _ _ _) with (searchEntryOf swp pu m).
      destruct ((i + 1) mod SEARCH_BATCH_SIZE =? 0).
      * erewrite bind_ok.
        2:{ erewrite bind_ok by apply search_commit_rest. apply search_begin_rest. }
        destruct (IH (i + 1) d (L ++ [searchEntryOf swp pu m]) (L ++ [searchEntryOf swp pu m]) C)
          as [D' HD].
        exists D'. rewrite HD. unfold searchEntries. now rewrite <- app_assoc.
      * erewrite bind_ok by reflexivity.
        destruct (IH (i + 1) d D (L ++ [searchEntryOf swp pu m]) C) as [D' HD].
        exists D'. rewrite HD. unfold searchEntries. now rewrite <- app_assoc.
    + erewrite bind_ok by reflexivity.
      destruct ((i + 1) mod SEARCH_BATCH_SIZE =? 0).
      * erewrite bind_ok.
        2:{ erewrite bind_ok by apply search_commit_rest. apply search_begin_rest. }
        destruct (IH (i + 1) d L L C) as [D' HD]. exists D'. now rewrite HD.
      * erewrite bind_ok by reflexivity.
        destruct (IH (i + 1) d D L C) as [D' HD]. exists D'. now rewrite HD.
Qed.

(** The search phase on an idle search connection. *)
Lemma indexSession_rest swp pu rms d D L C :
  indexSession swp pu (titleOf swp) rms (mkWorld d (mkSqlite D L false []) C)
  = (Ok tt,
     mkWorld d (mkSqlite (otherSessions swp L ++ searchEntries swp pu rms)
                         (otherSessions swp L ++ searchEntries swp pu rms) false []) C).
Proof.
  unfold indexSession, tryCatch.
  erewrite bind_ok by apply search_exec_rest. cbn [fst].
  fold (otherSessions swp L).
  erewrite bind_ok by apply search_begin_rest.
  destruct (indexMessages_rest swp pu rms 0 d (otherSessions swp L) (otherSessions swp L) C)
    as [D' H].
  erewrite bind_ok by exact H. reflexivity.
Qed.

(** [importSession] on an idle primary connection, with the messages it
    hands on. *)
Lemma importSession_hands_on swp pid pu D L S C :
  importSession swp pid pu (mkWorld (mkSqlite D L false []) S C)
  = indexSession swp pu (titleOf swp) (renderableMessagesOf swp pid L)
      (mkWorld (mkSqlite (importTables swp pid L) (importTables swp pid L) false []) S C).
Proof.
  unfold importSession.
  erewrite bind_ok by apply begin_rest.
  unfold tryCatch.
  erewrite bind_ok by apply exec_rest. cbn [snd fst sessions_getByProjectAndSessionId].
  erewrite bind_ok by apply exec_rest.
  unfold importTables, renderableMessagesOf.
  destruct (sessions_upsert (sessionDataOf swp pid) L) as [sid L1]. cbn [fst snd].
  destruct (upsertMessages_rest sid (SessionWithProject.created swp)
              (metadataField SessionMetadata.cwd (SessionWithProject.session swp))
              (SessionDetail.messages (SessionWithProject.session swp)) 0 ([], -1) D L1 S C)
    as [D' HD].
  erewrite bind_ok by apply HD. cbn [fst snd app].
  set (msgs := SessionDetail.messages (SessionWithProject.session swp)).
  set (L2 := upsertAll _ _ _ _ _ _).
  set (T := match msgs with [] => L2 | _ => _ end).
  assert (Hdel : exists D'',
    ((if match msgs with [] => -1 | _ => 0 + len msgs - 1 end >=? 0
      then onDb (exec (messages_deleteBySessionIdAndMinSequence sid
                         match msgs with [] => -1 | _ => 0 + len msgs - 1 end))
      else mret tt) (mkWorld (mkSqlite D' L2 true []) S C))
    = (Ok tt, mkWorld (mkSqlite D'' T true []) S C)).
  { subst T. destruct msgs as [|m0 ms] eqn:E.
    - exists D'. reflexivity.
    - assert (Hge : (0 + len (m0 :: ms) - 1 >=? 0) = true).
      { unfold len. simpl length. apply Z.geb_le. lia. }
      rewrite Hge. exists D'. rewrite exec_rest. cbn [fst snd messages_deleteBySessionIdAndMinSequence].
      replace (0 + len (m0 :: ms) - 1) with (len (m0 :: ms) - 1) by lia. reflexivity. }
  destruct Hdel as [D'' Hdel].
  erewrite bind_ok by apply Hdel.
  erewrite bind_ok by apply commit_rest.
  pose proof (indexSession_ok swp pu (titleOf swp)
                (convertAll sid (SessionWithProject.created swp)
                   (metadataField SessionMetadata.cwd (SessionWithProject.session swp)) msgs 0)
                (mkWorld (mkSqlite T T false []) S C)) as Hok.
  destruct (indexSession _ _ _ _ _) as [[[]|e] w']; [reflexivity|discriminate Hok].
Qed.

(** X10. After [importSession] on idle connections the search index
    mirrors the session: the rows of other sessions are kept, the rows the
    index held for this session are gone, and in their place stands one
    row per message whose extracted text is not empty, in message order,
    all committed. *)
Theorem importSession_search_index :
  forall swp projectId projectUuid w,
    idle (db w) -> idle (searchDb w) ->
    exists w',
      importSession swp projectId projectUuid w = (Ok tt, w')
      /\ committed (searchDb w')
           (otherSessions swp (live (searchDb w))
            ++ searchEntries swp projectUuid
                 (renderableMessagesOf swp projectId (live (db w))))
      /\ console w' = console w.
Proof.
  intros swp pid pu [d S C] Hd HS. simpl in *.
  rewrite (idle_inv d Hd). destruct S as [SD SL sb sf]. destruct HS as [Hf Hb].
  simpl in Hf, Hb. subst sf sb.
  rewrite importSession_hands_on, indexSession_rest.
  eexists. split; [reflexivity|]. split; reflexivity.
Qed.

Lemma otherSessions_entries swp pu rms :
  otherSessions swp (searchEntries swp pu rms) = [].
Proof.
  unfold otherSessions, search_deleteBySessionId, searchEntries. cbn [snd].
  induction (List.filter _ rms) as [|m l IH]; simpl; [reflexivity|].
  now rewrite String.eqb_refl.
Qed.

Lemma otherSessions_idem swp L : otherSessions swp (otherSessions swp L) = otherSessions swp L.
Proof.
  unfold otherSessions, search_deleteBySessionId. cbn [snd].
  induction L as [|e L IH]; simpl; [reflexivity|].
  destruct (negb _) eqn:E; simpl; [rewrite E|]; now rewrite IH.
Qed.

Lemma otherSessions_app swp L L' :
  otherSessions swp (L ++ L') = otherSessions swp L ++ otherSessions swp L'.
Proof. unfold otherSessions, search_deleteBySessionId. cbn [snd]. apply List.filter_app. Qed.

Lemma convertAll_content sid sid' ca cwd msgs :
  forall index,
    List.map (fun m => (RenderableMessage.content m, RenderableMessage.cardType m,
                        RenderableMessage.timestamp m))
             (convertAll sid ca cwd msgs index)
    = List.map (fun m => (RenderableMessage.content m, RenderableMessage.cardType m,
                          RenderableMessage.timestamp m))
               (convertAll sid' ca cwd msgs index).
Proof.
  induction msgs as [|m msgs IH]; intros index; simpl; [reflexivity|].
  rewrite IH. f_equal. now destruct m.
Qed.

Lemma searchEntries_content swp pu l l' :
  List.map (fun m => (RenderableMessage.content m, RenderableMessage.cardType m,
                      RenderableMessage.timestamp m)) l
  = List.map (fun m => (RenderableMessage.content m, RenderableMessage.cardType m,
                        RenderableMessage.timestamp m)) l' ->
  searchEntries swp pu l = searchEntries swp pu l'.
Proof.
  revert l'. induction l as [|m l IH]; intros [|m' l'] H; try discriminate; [reflexivity|].
  simpl in H. injection H as Hc Hk Ht Hl. unfold searchEntries in *. simpl.
  rewrite Hc. destruct (Js.truthyS _); simpl; [|now apply IH].
  f_equal; [|now apply IH]. unfold searchEntryOf. now rewrite Hc, Hk, Ht.
Qed.

(** X11. Importing a session twice leaves the search index as one
    import leaves it: the second import removes the rows of the first and
    inserts them again, so no row is duplicated. *)
Theorem importSession_search_idempotent :
  forall swp projectId projectUuid w,
    idle (db w) -> idle (searchDb w) ->
    exists w1 w2,
      importSession swp projectId projectUuid w = (Ok tt, w1)
      /\ importSession swp projectId projectUuid w1 = (Ok tt, w2)
      /\ searchDb w2 = searchDb w1.
Proof.
  intros swp pid pu [d S C] Hd HS. simpl in *.
  rewrite (idle_inv d Hd). destruct S as [SD SL sb sf]. destruct HS as [Hf Hb].
  simpl in Hf, Hb. subst sf sb.
  rewrite importSession_hands_on, indexSession_rest.
  eexists. eexists. split; [reflexivity|].
  rewrite importSession_hands_on, indexSession_rest.
  split; [reflexivity|]. simpl.
  rewrite otherSessions_app, otherSessions_idem, otherSessions_entries, app_nil_r.
  assert (E : searchEntries swp pu (renderableMessagesOf swp pid (importTables swp pid (live d)))
              = searchEntries swp pu (renderableMessagesOf swp pid (live d))).
  { apply searchEntries_content. apply convertAll_content. }
  now rewrite E.
Qed.

End SearchIndex.

Import Examples.

Lemma importSession_search_index_witness :
  exists w',
    importSession twoMessages 1 projectUuid emptyWorld = (Ok tt, w')
    /\ List.map Search.content (live (searchDb w')) = ["fix bug"; "done"]%string.
Proof.
  destruct (importSession_search_index (helpers := helpers) twoMessages 1 projectUuid
              emptyWorld) as (w' & H & Hc & _).
  - split; reflexivity.
  - split; reflexivity.
  - exists w'. split; [exact H|]. unfold committed in Hc. rewrite Hc. reflexivity.
Defined.

Lemma importSession_search_idempotent_witness :
  exists w1 w2,
    importSession twoMessages 1 projectUuid emptyWorld = (Ok tt, w1)
    /\ importSession twoMessages 1 projectUuid w1 = (Ok tt, w2)
    /\ searchDb w2 = searchDb w1.
Proof.
  apply (importSession_search_idempotent (helpers := helpers) twoMessages 1 projectUuid
           emptyWorld); split; reflexivity.
Defined.

End SearchIndexFacts.

(** ** [importSingleSession] *)

Module SingleSessionFacts.

Import Db Importer ImporterFacts SearchIndexFacts.
Local Open Scope Z_scope.

Section Single.
Context {unicode : Js.Unicode} {helpers : Helpers}.

(** The row an upsert returns the id of: the updated row, or the new one. *)
Lemma upsert_returns {R} (id : R -> Z) conflict update fresh t (P : R -> Prop) :
  (forall r, conflict r = true -> P (update r) /\ id (update r) = id r) ->
  (forall i, P (fresh i) /\ id (fresh i) = i) ->
  exists r, In r (rows (snd (upsert id conflict update fresh t)))
            /\ id r = fst (upsert id conflict update fresh t) /\ P r.
Proof.
  intros Hu Hf. unfold upsert.
  destruct (List.find conflict (rows t)) as [r|] eqn:E; simpl.
  - apply find_some in E as [Hin Hc]. exists (update r).
    destruct (Hu r Hc) as [HP Hid]. split; [|auto].
    apply in_map_iff. exists r. now rewrite Hc.
  - exists (fresh (nextId id t)). destruct (Hf (nextId id t)) as [HP Hid].
    split; [apply in_or_app; right; now left|auto].
Qed.

Lemma hasPath_true s :
  hasPath s = true ->
  negb (Js.truthyS (SessionWithProject.projectPath s))
  || String.eqb (SessionWithProject.projectPath s) "unknown" = false.
Proof. rewrite hasPath_skip. now intros ->. Qed.

(** X8. [importSingleSession] on an idle primary connection.  A session
    without a project name, or without a project path other than the
    placeholder, is refused with an [Error] and nothing is touched.  Any
    other session is imported: the call returns normally whatever the
    search connection does, the writes are committed, and the session is
    stored under a project row that carries its project name and the
    identifier generated from its project path. *)
Theorem importSingleSession_imports_or_refuses :
  forall s w,
    idle (db w) ->
    (resolvable s = true ->
     exists w' p r,
       importSingleSession s w = (Ok tt, w')
       /\ idle (db w') /\ live (db w') = durable (db w')
       /\ In p (rows (projects (live (db w'))))
       /\ ProjectRow.project_uuid p
          = Uuid.generateProjectUuid (SessionWithProject.projectPath s)
       /\ ProjectRow.name p = SessionWithProject.projectName s
       /\ In r (rows (sessions (live (db w'))))
       /\ SessionRow.session_id r = SessionDetail.sessionId (SessionWithProject.session s)
       /\ SessionRow.project_id r = ProjectRow.id p)
    /\ (resolvable s = false ->
        exists message, importSingleSession s w = (Throw (Error message), w)).
Proof.
  intros s w Hidle. unfold resolvable, importSingleSession. split.
  - intros Hr. apply andb_true_iff in Hr as [Hn Hp].
    unfold hasName in Hn. rewrite Hn. cbn [negb]. cbv iota.
    rewrite (hasPath_true s Hp).
    assert (Hpath : Js.truthyS (SessionWithProject.projectPath s) = true).
    { unfold hasPath in Hp. now apply andb_true_iff in Hp as [Hp _]. }
    assert (Ho : Js.orElse (Some (SessionWithProject.projectPath s))
                   (SessionWithProject.projectName s) = SessionWithProject.projectPath s).
    { unfold Js.orElse. now rewrite Hpath. }
    rewrite Ho.
    set (project := Project.mk _ _ _ _ _).
    set (pu := Uuid.generateProjectUuid _).
    destruct w as [d S C]. simpl in Hidle. rewrite (idle_inv d Hidle).
    erewrite bind_ok by apply exec_rest. cbv iota.
    set (pid := fst (projects_upsert project (live d))).
    set (T1 := snd (projects_upsert project (live d))).
    set (w1 := mkWorld (mkSqlite T1 T1 false []) S C).
    destruct (importSession_idle s pid pu w1) as (w' & H' & Hdb'); [split; reflexivity|].
    simpl in Hdb'.
    destruct (upsert_returns ProjectRow.id (projectKey (Project.projectUuid project))
                (overwriteProject project) (fun i => projectRow i project) (projects (live d))
                (fun p => ProjectRow.project_uuid p = pu
                          /\ ProjectRow.name p = SessionWithProject.projectName s))
      as (p & Hin & Hid & Hu & Hname).
    { intros r Hc. split; [|reflexivity]. split; [|reflexivity].
      simpl. unfold projectKey in Hc. now apply String.eqb_eq in Hc. }
    { intros i. split; [|reflexivity]. split; reflexivity. }
    rewrite <- projects_upsert_fst in Hid. fold pid in Hid.
    assert (Hin1 : In p (rows (projects T1)))
      by (unfold T1; rewrite projects_upsert_snd; exact Hin).
    destruct (importTables_frame s pid T1) as [Hpr Hs].
    assert (Hex : existsb (sessionKey pid (SessionDetail.sessionId (SessionWithProject.session s)))
                          (rows (sessions (importTables s pid T1))) = true).
    { rewrite Hs, sessions_upsert_snd. simpl. apply existsb_upsert.
      - intros r Hr. now rewrite sessionKey_overwrite.
      - intros i. apply (sessionKey_sessionRow i (sessionDataOf s pid)). }
    apply existsb_exists in Hex as (r & Hr & Hk). apply sessionKey_eq in Hk as [Hk1 Hk2].
    exists w', p, r. rewrite Hdb'. simpl.
    split; [exact H'|]. split; [split; reflexivity|]. split; [reflexivity|].
    rewrite Hpr. repeat split; try assumption. congruence.
  - intros Hr. apply andb_false_iff in Hr as [Hn|Hp].
    + unfold hasName in Hn. rewrite Hn. simpl. eexists. reflexivity.
    + destruct (negb (Js.truthyS (SessionWithProject.projectName s))); [eexists; reflexivity|].
      rewrite hasPath_skip, Hp. simpl. eexists. reflexivity.
Qed.

Lemma projectKey_overwrite u p r : projectKey u (overwriteProject p r) = projectKey u r.
Proof. reflexivity. Qed.

Lemma projectKey_projectRow i p : projectKey (Project.projectUuid p) (projectRow i p) = true.
Proof. unfold projectKey. simpl. apply String.eqb_refl. Qed.

(** The project upsert on tables that hold what it wrote: the same id,
    and no row changed. *)
Lemma projects_upsert_settled p t t' :
  projects t' = projects (snd (projects_upsert p t)) ->
  fst (projects_upsert p t') = fst (projects_upsert p t)
  /\ rows (projects (snd (projects_upsert p t'))) = rows (projects t').
Proof.
  intros E. rewrite projects_upsert_snd in E. simpl in E.
  rewrite (projects_upsert_fst p t'), (projects_upsert_snd p t'), E. cbn [projects]. split.
  - rewrite projects_upsert_fst. apply upsert_again_id.
    + intros r Hr. split; [now rewrite projectKey_overwrite|reflexivity].
    + intros i. split; [apply projectKey_projectRow|reflexivity].
  - apply upsert_fixed.
    + apply existsb_upsert.
      * intros r Hr. now rewrite projectKey_overwrite.
      * intros i. apply projectKey_projectRow.
    + intros r. rewrite upsert_rows.
      destruct (existsb _ (rows (projects t))) eqn:Ex.
      * intros Hin Hk. apply in_map_iff in Hin as [r0 [<- Hin]].
        unfold applyTo in *.
        destruct (projectKey _ r0) eqn:E0; [reflexivity|congruence].
      * intros Hin Hk. apply in_app_or in Hin as [Hin|[<-|[]]]; [|reflexivity].
        exfalso. apply not_true_iff_false in Ex. apply Ex. apply existsb_exists. eauto.
Qed.

(** [importSingleSession] of a resolvable session on idle connections. *)
Lemma importSingleSession_rest s D L SD SL C :
  resolvable s = true ->
  let pu := Uuid.generateProjectUuid (SessionWithProject.projectPath s) in
  let pid := fst (projects_upsert (projectOf s) L) in
  let T := importTables s pid (snd (projects_upsert (projectOf s) L)) in
  let X := otherSessions s SL
           ++ searchEntries s pu (renderableMessagesOf s pid (snd (projects_upsert (projectOf s) L))) in
  importSingleSession s (mkWorld (mkSqlite D L false []) (mkSqlite SD SL false []) C)
  = (Ok tt, mkWorld (mkSqlite T T false []) (mkSqlite X X false []) C).
Proof.
  intros Hr pu pid T X. unfold importSingleSession.
  unfold resolvable in Hr. apply andb_true_iff in Hr as [Hn Hp].
  unfold hasName in Hn. rewrite Hn. cbn [negb]. cbv iota.
  rewrite (hasPath_true s Hp).
  assert (Hpath : Js.truthyS (SessionWithProject.projectPath s) = true).
  { unfold hasPath in Hp. now apply andb_true_iff in Hp as [Hp _]. }
  assert (Ho : Js.orElse (Some (SessionWithProject.projectPath s))
                 (SessionWithProject.projectName s) = SessionWithProject.projectPath s).
  { unfold Js.orElse. now rewrite Hpath. }
  rewrite Ho. fold pu. fold (projectOf s).
  erewrite bind_ok by apply exec_rest. cbv iota. fold pid.
  rewrite importSession_hands_on, indexSession_rest. reflexivity.
Qed.

(** X22. [importSingleSession] is idempotent on the rows: on idle
    connections a second call for the same session returns normally and
    leaves every row of the primary store and the search index exactly as
    the first call left them, committed; no project, session, message or
    search row is added.  Only the counters of [sqlite_sequence] move. *)
Theorem importSingleSession_idempotent :
  forall s w,
    idle (db w) -> idle (searchDb w) -> resolvable s = true ->
    exists w1 w2,
      importSingleSession s w = (Ok tt, w1)
      /\ importSingleSession s w1 = (Ok tt, w2)
      /\ contents (live (db w2)) = contents (live (db w1))
      /\ idle (db w2) /\ durable (db w2) = live (db w2)
      /\ searchDb w2 = searchDb w1.
Proof.
  intros s [d S C] Hd HS Hr. simpl in Hd, HS.
  rewrite (idle_inv d Hd). destruct S as [SD SL sb sf]. destruct HS as [Hf Hb].
  simpl in Hf, Hb. subst sf sb.
  rewrite (importSingleSession_rest s _ _ _ _ _ Hr).
  eexists. eexists. split; [reflexivity|].
  rewrite (importSingleSession_rest s _ _ _ _ _ Hr).
  set (P := projects_upsert (projectOf s) (live d)).
  set (T := importTables s (fst P) (snd P)).
  destruct (projects_upsert_settled (projectOf s) (live d) T) as [HPf HPr].
  { unfold T. now destruct (importTables_frame s (fst P) (snd P)). }
  fold P in HPf. rewrite HPf.
  set (T' := snd (projects_upsert (projectOf s) T)) in *.
  assert (HT : contents (importTables s (fst P) T') = contents T).
  { transitivity (contents T').
    - apply settled_fixed. apply (settled_ext s (fst P) T).
      + unfold T'. now rewrite projects_upsert_snd.
      + unfold T'. now rewrite projects_upsert_snd.
      + apply import_settled.
    - unfold contents. rewrite HPr. unfold T'. now rewrite projects_upsert_snd. }
  split; [reflexivity|]. cbn [db searchDb live durable].
  split; [exact HT|]. split; [split; reflexivity|]. split; [reflexivity|].
  set (pu := Uuid.generateProjectUuid (SessionWithProject.projectPath s)).
  set (X := otherSessions s SL ++ searchEntries s pu (renderableMessagesOf s (fst P) (snd P))).
  assert (HX : otherSessions s X ++ searchEntries s pu (renderableMessagesOf s (fst P) T') = X).
  { unfold X. rewrite otherSessions_app, otherSessions_idem, otherSessions_entries, app_nil_r.
    f_equal. apply searchEntries_content, convertAll_content. }
  exact (f_equal (fun x => mkSqlite x x false []) HX).
Qed.

End Single.

Import Examples.

Lemma importSingleSession_imports_or_refuses_witness :
  (exists w', importSingleSession twoMessages emptyWorld = (Ok tt, w'))
  /\ (exists message, importSingleSession unknownPath emptyWorld
                      = (Throw (Error message), emptyWorld)).
Proof.
  split.
  - destruct (proj1 (importSingleSession_imports_or_refuses (helpers := helpers)
                       twoMessages emptyWorld (conj eq_refl eq_refl)) eq_refl)
      as (w' & _ & _ & H & _).
    exists w'. exact H.
  - exact (proj2 (importSingleSession_imports_or_refuses (helpers := helpers)
                    unknownPath emptyWorld (conj eq_refl eq_refl)) eq_refl).
Defined.

Lemma importSingleSession_idempotent_witness :
  exists w1 w2,
    importSingleSession twoMessages emptyWorld = (Ok tt, w1)
    /\ importSingleSession twoMessages w1 = (Ok tt, w2)
    /\ contents (live (db w2)) = contents (live (db w1))
    /\ idle (db w2) /\ durable (db w2) = live (db w2)
    /\ searchDb w2 = searchDb w1.
Proof.
  apply (importSingleSession_idempotent (helpers := helpers) twoMessages emptyWorld);
    [split; reflexivity|split; reflexivity|reflexivity].
Defined.

End SingleSessionFacts.

(** ** Reading a session back *)

Module ReadBackFacts.

Import Db Importer ImporterFacts Queries.
Local Open Scope Z_scope.

Section ReadBack.
Context {unicode : Js.Unicode} {helpers : Helpers}.

#[local] Instance bySequence_total : Total bySequence.
Proof. intros r r'. unfold bySequence. lia. Qed.

#[local] Instance bySequence_trans : Transitive bySequence.
Proof. intros a b c. unfold bySequence. lia. Qed.

Lemma Sorted_map_sequence l :
  Sorted bySequence l -> Sorted Z.le (List.map MessageRow.sequence l).
Proof.
  induction 1 as [|r l Hs IH Hh]; simpl; constructor; [assumption|].
  destruct Hh; simpl; constructor. assumption.
Qed.

Lemma Sorted_positions n : Sorted Z.le (positions n).
Proof.
  unfold positions. generalize 0%nat as a.
  induction n as [|n IH]; intros a; simpl; constructor; [apply IH|].
  destruct n; simpl; constructor. lia.
Qed.

Lemma in_positions n z : In z (positions n) <-> 0 <= z < Z.of_nat n.
Proof.
  unfold positions. rewrite in_map_iff. split.
  - intros [k [<- Hk]]. apply in_seq in Hk. lia.
  - intros H. exists (Z.to_nat z). split; [lia|]. apply in_seq. lia.
Qed.

Lemma NoDup_positions n : NoDup (positions n).
Proof.
  unfold positions. apply NoDup_fmap_2; [intros a b; lia|]. apply NoDup_ListNoDup, seq_NoDup.
Qed.

Lemma messages_upsert_nonNegative m t :
  0 <= RenderableMessage.sequence m -> nonNegative t ->
  nonNegative (snd (messages_upsert m t)).
Proof.
  intros Hm Ht r. rewrite messages_upsert_snd. simpl. rewrite upsert_rows.
  destruct (existsb _ _).
  - intros Hin. apply in_map_iff in Hin as [r0 [<- Hin]]. unfold applyTo.
    destruct (keyOf m r0); [simpl|]; now apply Ht.
  - intros Hin. apply in_app_or in Hin as [Hin|[<-|[]]]; [now apply Ht|exact Hm].
Qed.

Lemma upsertAll_nonNegative sid ca cwd msgs :
  forall index t, 0 <= index -> nonNegative t -> nonNegative (upsertAll sid ca cwd msgs index t).
Proof.
  induction msgs as [|m msgs IH]; intros index t Hi Ht; simpl; [assumption|].
  apply IH; [lia|]. apply messages_upsert_nonNegative; [|assumption].
  now destruct (convert_key m sid ca index cwd) as [_ ->].
Qed.

Lemma importTables_nonNegative swp pid t :
  nonNegative t -> nonNegative (importTables swp pid t).
Proof.
  intros Ht. rewrite importTables_eq. cbv zeta.
  assert (H2 : nonNegative
                 (upsertAll (fst (sessions_upsert (sessionDataOf swp pid) t))
                    (SessionWithProject.created swp)
                    (metadataField SessionMetadata.cwd (SessionWithProject.session swp))
                    (SessionDetail.messages (SessionWithProject.session swp)) 0
                    (snd (sessions_upsert (sessionDataOf swp pid) t)))).
  { apply upsertAll_nonNegative; [lia|]. rewrite sessions_upsert_snd. exact Ht. }
  destruct (SessionDetail.messages _); [exact H2|].
  intros r Hin. unfold deleteAfter in Hin. simpl in Hin. apply filter_In in Hin as [Hin _].
  now apply H2.
Qed.

(** X12. Reading a session back after its import.  On an idle primary
    connection whose tables satisfy the unique keys and hold no negative
    sequence, after [importSession] of a session with at least one
    message, the rows [getBySessionId] selects for it are at the positions
    [0 .. n-1], in this order, one per message, and each holds the columns
    of the message at its position. *)
Theorem importSession_read_back :
  forall swp projectId projectUuid w,
    idle (db w) -> uniqueKeys (live (db w)) -> nonNegative (live (db w)) ->
    SessionDetail.messages (SessionWithProject.session swp) <> [] ->
    exists w' sid,
      importSession swp projectId projectUuid w = (Ok tt, w')
      /\ sessionRowId swp projectId (live (db w')) = Some sid
      /\ List.map MessageRow.sequence (messages_getBySessionId sid (live (db w')))
         = positions (length (SessionDetail.messages (SessionWithProject.session swp)))
      /\ (forall r, In r (messages_getBySessionId sid (live (db w'))) ->
                    exists m, converted swp sid (MessageRow.sequence r) = Some m
                              /\ overwriteRow m r = r).
Proof.
  intros swp pid pu w Hidle Huniq Hnn Hne.
  destruct (importSession_idle swp pid pu w Hidle) as (w' & H' & Hdb').
  set (T := importTables swp pid (live (db w))) in *.
  set (sid := fst (sessions_upsert (sessionDataOf swp pid) (live (db w)))).
  set (msgs := SessionDetail.messages (SessionWithProject.session swp)) in *.
  exists w', sid. rewrite Hdb'. simpl live. fold T.
  split; [exact H'|]. split; [apply sessionRowId_import|].
  assert (Hperm : messages_getBySessionId sid T ≡ₚ rowsOf sid T)
    by apply merge_sort_Permutation.
  assert (Hstored : forall j, (j < length msgs)%nat ->
            exists r m, In r (rowsOf sid T) /\ MessageRow.sequence r = Z.of_nat j
                        /\ converted swp sid (Z.of_nat j) = Some m /\ overwriteRow m r = r).
  { intros j Hj. destruct (nth_error msgs j) as [msg|] eqn:En;
      [|apply nth_error_None in En; lia].
    pose proof (nth_error_stored_after swp pid (live (db w)) j msg En) as Hst.
    apply stored_row in Hst as (r & Hin & Hs & Ho).
    destruct (convert_key msg sid (SessionWithProject.created swp) (Z.of_nat j)
                (metadataField SessionMetadata.cwd (SessionWithProject.session swp)))
      as [Es Eq].
    fold sid in Hin, Hs, Ho. rewrite Es in Hin. rewrite Eq in Hs.
    exists r. eexists. split; [exact Hin|]. split; [exact Hs|]. split; [|exact Ho].
    unfold converted. destruct (Z.ltb_spec (Z.of_nat j) 0); [lia|].
    rewrite Nat2Z.id. fold msgs. now rewrite En. }
  assert (Hrange : forall r, In r (rowsOf sid T) ->
                             0 <= MessageRow.sequence r < Z.of_nat (length msgs)).
  { intros r Hin. split.
    - apply (importTables_nonNegative swp pid _ Hnn). unfold rowsOf in Hin.
      now apply filter_In in Hin as [Hin _].
    - pose proof (rowsOf_bound swp pid (live (db w)) r Hin Hne) as Hb. unfold len in Hb.
      fold msgs in Hb. lia. }
  assert (Hnd : NoDup (List.map MessageRow.sequence (rowsOf sid T))).
  { apply NoDup_sequences. apply (importTables_unique swp pid _ Huniq). }
  split.
  - apply (Sorted_unique Z.le).
    + apply Sorted_map_sequence, Sorted_merge_sort; apply _.
    + apply Sorted_positions.
    + rewrite Hperm. apply NoDup_Permutation; [exact Hnd|apply NoDup_positions|].
      intros z. rewrite !list_elem_of_In, in_positions, in_map_iff. split.
      * intros [r [<- Hin]]. now apply Hrange.
      * intros Hz. destruct (Hstored (Z.to_nat z)) as (r & m & Hin & Hs & _); [lia|].
        exists r. split; [lia|exact Hin].
  - intros r Hin.
    assert (Hin' : In r (rowsOf sid T)).
    { apply list_elem_of_In. rewrite <- Hperm. now apply list_elem_of_In. }
    destruct (Hrange r Hin') as [H0 Hlt].
    destruct (Hstored (Z.to_nat (MessageRow.sequence r))) as (r' & m & Hin2 & Hs & Hc & Ho);
      [lia|].
    rewrite Z2Nat.id in Hs, Hc by lia.
    assert (r' = r).
    { assert (Hinj : forall a b, In a (rowsOf sid T) -> In b (rowsOf sid T) ->
                                 MessageRow.sequence a = MessageRow.sequence b -> a = b).
      { clear -Hnd. induction (rowsOf sid T) as [|x l IH]; [intros ? ? []|].
        simpl in Hnd. apply NoDup_cons in Hnd as [Hx Hl].
        intros a b [<-|Ha] [<-|Hb] E; try reflexivity.
        - exfalso. apply Hx. apply list_elem_of_In. rewrite E. now apply in_map.
        - exfalso. apply Hx. apply list_elem_of_In. rewrite <- E. now apply in_map.
        - now apply IH. }
      now apply Hinj. }
    subst r'. eauto.
Qed.

End ReadBack.

Import Examples.

Lemma importSession_read_back_witness :
  exists w' sid,
    importSession twoMessages 1 projectUuid emptyWorld = (Ok tt, w')
    /\ List.map MessageRow.sequence (messages_getBySessionId sid (live (db w'))) = [0; 1].
Proof.
  destruct (importSession_read_back (helpers := helpers) twoMessages 1 projectUuid emptyWorld)
    as (w' & sid & H & _ & Hs & _).
  - split; reflexivity.
  - split; constructor.
  - intros r [].
  - discriminate.
  - exists w', sid. split; [exact H|exact Hs].
Defined.

End ReadBackFacts.

(** ** Strings *)

Module TextFacts.

Local Open Scope string_scope.

Import Text.

Lemma app_cons_inv a c b x r :
  String x r = a ++ String c b ->
  (a = EmptyString /\ x = c /\ r = b) \/ exists a', a = String x a' /\ r = a' ++ String c b.
Proof.
  destruct a as [|y a']; simpl; intros H; injection H as -> ->; [left|right]; eauto.
Qed.

Lemma separated_between sep s :
  forall after, separated sep after s = true ->
    forall a c b, s = a ++ String c b -> sep c = true ->
                  (a = EmptyString -> after = false)
                  /\ exists c' b', b = String c' b' /\ sep c' = false.
Proof.
  induction s as [|x r IH]; intros after H a c b E Hc.
  - destruct a; discriminate E.
  - simpl in H. apply app_cons_inv in E as [(-> & -> & ->)|(a' & -> & E)].
    + rewrite Hc in H. apply andb_true_iff in H as [Ha H]. split.
      * intros _. now destruct after.
      * destruct b as [|c' b']; [discriminate H|]. exists c', b'. split; [reflexivity|].
        simpl in H. destruct (sep c'); [discriminate H|reflexivity].
    + split; [discriminate|].
      destruct (sep x).
      * apply andb_true_iff in H as [_ H]. exact (proj2 (IH _ H _ _ _ E Hc)).
      * exact (proj2 (IH _ H _ _ _ E Hc)).
Qed.

(** A string that is empty or passes [separated] from a class character
    has its class characters between others. *)
Lemma separated_is_between sep s :
  s = EmptyString \/ separated sep true s = true -> between sep s.
Proof.
  intros [->|H] a c b E Hc.
  - destruct a; discriminate E.
  - destruct (separated_between sep s true H a c b E Hc) as [Ha Hb]. split; [|exact Hb].
    intros ->. now specialize (Ha eq_refl).
Qed.

Lemma every_allChars P s : every P s = true -> allChars P s.
Proof.
  induction s as [|x r IH]; intros H a c b E.
  - destruct a; discriminate E.
  - simpl in H. apply andb_true_iff in H as [Hx Hr].
    apply app_cons_inv in E as [(-> & -> & ->)|(a' & -> & E)]; [exact Hx|].
    exact (IH Hr _ _ _ E).
Qed.

Lemma loose_nonsep sep p q c r : sep c = false -> loose sep p (String c r) = loose sep q (String c r).
Proof. intros H. simpl. now rewrite H. Qed.

Lemma separated_weaken sep s : separated sep true s = true -> separated sep false s = true.
Proof. destruct s as [|c r]; [discriminate|]. simpl. destruct (sep c); [discriminate|auto]. Qed.

End TextFacts.

(** ** Characters and white space *)

Module CharFacts.

Import Js Text ContentCleaner.
Local Open Scope string_scope.
Local Open Scope list_scope.

Lemma text_chars s : joinChars (chars s) = s.
Proof.
  induction s as [|c r IH]; [reflexivity|]. simpl.
  destruct (chars r) as [|t l]; simpl in *.
  - now rewrite <- IH.
  - destruct (startsContinued t); simpl; now rewrite <- IH.
Qed.

Lemma chars_head c r :
  exists t l, chars (String c r) = String c t :: l.
Proof.
  simpl. destruct (chars r) as [|t l]; [eauto|].
  destruct (startsContinued t); eauto.
Qed.

Lemma chars_wellFormed s : wellFormed (chars s).
Proof.
  induction s as [|c r IH]; [exact I|]. simpl.
  destruct (chars r) as [|t l]; simpl in *.
  - split; [reflexivity|constructor].
  - destruct IH as [Ht Hl]. destruct (startsContinued t) eqn:E.
    + split; [|exact Hl]. simpl. destruct t as [|d t']; [discriminate|].
      simpl in *. now rewrite E, Ht.
    + split; [reflexivity|]. constructor; [|exact Hl].
      unfold starts. now rewrite Ht, E.
Qed.

(** A character put before a text that does not start with a continuing
    byte stays a character of its own. *)
Lemma chars_cons c r :
  chars (String c r)
  = match chars r with
    | t :: l => if startsContinued t then String c t :: l
                else String c EmptyString :: t :: l
    | [] => [String c EmptyString]
    end.
Proof. reflexivity. Qed.

Lemma chars_app t s :
  continued t = true -> startsContinued s = false -> chars (t ++ s) = t :: chars s.
Proof.
  destruct t as [|c r]; [discriminate|]. revert c.
  induction r as [|d r IH]; intros c Hr Hs.
  - change (String c "" ++ s)%string with (String c s). rewrite chars_cons.
    destruct s as [|e s']; [reflexivity|].
    destruct (chars_head e s') as (t' & l & E). rewrite E.
    change (startsContinued (String e t')) with (isContinuation e).
    change (startsContinued (String e s')) with (isContinuation e) in Hs.
    now rewrite Hs.
  - change (String c (String d r) ++ s)%string with (String c (String d r ++ s)%string).
    rewrite chars_cons. simpl in Hr. apply andb_true_iff in Hr as [Hd Hr].
    rewrite (IH d Hr Hs).
    change (startsContinued (String d r)) with (isContinuation d). now rewrite Hd.
Qed.

Lemma starts_text t l : starts t = true -> startsContinued (joinChars (t :: l)) = false.
Proof.
  unfold starts. intros H. apply andb_true_iff in H as [Hc Hs].
  destruct t as [|c r]; [discriminate|].
  change (joinChars (String c r :: l)) with (String c (r ++ joinChars l)%string).
  now apply negb_true_iff in Hs.
Qed.

Lemma chars_text l : wellFormed l -> chars (joinChars l) = l.
Proof.
  destruct l as [|t l]; [reflexivity|]. intros [Ht Hl]. revert t Ht.
  induction Hl as [|t' l Ht' Hl IH]; intros t Ht.
  - simpl. rewrite chars_app; [reflexivity|assumption|reflexivity].
  - change (joinChars (t :: t' :: l)) with (t ++ joinChars (t' :: l))%string.
    rewrite chars_app; [|assumption|now apply starts_text].
    rewrite IH; [reflexivity|]. unfold starts in Ht'. now apply andb_true_iff in Ht' as [? _].
Qed.

Lemma strict_wellFormed l : strict l -> wellFormed l.
Proof.
  destruct 1 as [|t l Ht Hl]; [exact I|]. split; [|exact Hl].
  unfold starts in Ht. now apply andb_true_iff in Ht as [? _].
Qed.

Lemma wellFormed_tail t l : wellFormed (t :: l) -> wellFormed l.
Proof. intros [_ H]. now apply strict_wellFormed. Qed.

Lemma collapse_strict l : forall inRun, strict l -> strict (collapseFrom inRun l).
Proof.
  induction l as [|ch r IH]; intros inRun H; [constructor|].
  apply List.Forall_cons_iff in H as [Hc Hr]. simpl.
  destruct (isWhiteSpace ch).
  - destruct inRun; [now apply IH|]. constructor; [reflexivity|now apply IH].
  - constructor; [exact Hc|now apply IH].
Qed.

Lemma collapse_wellFormed l inRun : wellFormed l -> wellFormed (collapseFrom inRun l).
Proof.
  destruct l as [|ch r]; [intros; exact I|]. intros [Hc Hr]. simpl.
  destruct (isWhiteSpace ch).
  - apply strict_wellFormed. destruct inRun; [now apply collapse_strict|].
    constructor; [reflexivity|now apply collapse_strict].
  - split; [exact Hc|now apply collapse_strict].
Qed.

Lemma trimStart_wellFormed l : wellFormed l -> wellFormed (trimStart l).
Proof.
  induction l as [|ch r IH]; intros H; [exact I|]. simpl.
  destruct (isWhiteSpace ch); [|exact H]. apply IH. now apply wellFormed_tail in H.
Qed.

Lemma trimEnd_cons ch r :
  trimEnd (ch :: r)
  = match trimEnd r with
    | [] => if isWhiteSpace ch then [] else [ch]
    | r' => ch :: r'
    end.
Proof. reflexivity. Qed.

Lemma trimEnd_strict l : strict l -> strict (trimEnd l).
Proof.
  induction l as [|ch r IH]; intros H; [constructor|].
  apply List.Forall_cons_iff in H as [Hc Hr]. rewrite trimEnd_cons.
  specialize (IH Hr). destruct (trimEnd r) as [|c' r'].
  - destruct (isWhiteSpace ch); [constructor|]. constructor; [exact Hc|constructor].
  - constructor; [exact Hc|exact IH].
Qed.

Lemma trimEnd_wellFormed l : wellFormed l -> wellFormed (trimEnd l).
Proof.
  destruct l as [|ch r]; [intros; exact I|]. intros [Hc Hr]. rewrite trimEnd_cons.
  pose proof (trimEnd_strict r Hr) as Hs. destruct (trimEnd r) as [|c' r'].
  - destruct (isWhiteSpace ch); [exact I|]. split; [exact Hc|constructor].
  - split; [exact Hc|exact Hs].
Qed.

Lemma normalizeWhitespace_chars s :
  normalizeWhitespace s = joinChars (normalized s) /\ chars (normalizeWhitespace s) = normalized s.
Proof.
  assert (E : normalizeWhitespace s = joinChars (normalized s)).
  { unfold normalizeWhitespace, Js.trim, collapseWhiteSpace, normalized.
    rewrite chars_text; [reflexivity|]. apply collapse_wellFormed, chars_wellFormed. }
  split; [exact E|]. rewrite E. apply chars_text.
  apply trimEnd_wellFormed, trimStart_wellFormed, collapse_wellFormed, chars_wellFormed.
Qed.

(** *** The shape of the result *)

Lemma space_white : isWhiteSpace " " = true.
Proof. reflexivity. Qed.

Lemma collapse_loose l : forall inRun, looseChars inRun (collapseFrom inRun l) = true.
Proof.
  induction l as [|ch r IH]; intros inRun; [reflexivity|]. simpl.
  destruct (isWhiteSpace ch) eqn:Hc.
  - destruct inRun; [apply IH|].
    change (looseChars false (" " :: collapseFrom true r))
      with (if isWhiteSpace " " then negb false && String.eqb " " " "
                                     && looseChars true (collapseFrom true r)
            else looseChars false (collapseFrom true r)).
    rewrite space_white. simpl. apply IH.
  - simpl. rewrite Hc. apply IH.
Qed.

Lemma trimStart_loose l :
  forall p, looseChars p l = true -> looseChars true (trimStart l) = true.
Proof.
  induction l as [|ch r IH]; intros p H; [reflexivity|]. simpl in *.
  destruct (isWhiteSpace ch) eqn:Hc.
  - apply andb_true_iff in H as [_ H]. now apply (IH true).
  - simpl. now rewrite Hc.
Qed.

Lemma trimEnd_separated l :
  forall p, looseChars p l = true ->
            trimEnd l = [] \/ separatedChars p (trimEnd l) = true.
Proof.
  induction l as [|ch r IH]; intros p H; [now left|].
  rewrite trimEnd_cons. simpl in H.
  destruct (isWhiteSpace ch) eqn:Hc.
  - apply andb_true_iff in H as [Hp H]. destruct (IH true H) as [E|E].
    + rewrite E. now left.
    + destruct (trimEnd r) as [|c' r'] eqn:Er; [now left|]. right.
      simpl separatedChars at 1. rewrite Hc, Hp. exact E.
  - destruct (IH false H) as [E|E].
    + rewrite E. right. simpl. now rewrite Hc.
    + destruct (trimEnd r) as [|c' r'] eqn:Er; right.
      * simpl. now rewrite Hc.
      * simpl separatedChars at 1. rewrite Hc. exact E.
Qed.

Lemma normalized_separated s :
  normalized s = [] \/ separatedChars true (normalized s) = true.
Proof.
  unfold normalized. apply trimEnd_separated.
  eapply trimStart_loose. apply collapse_loose.
Qed.

Lemma list_app_cons_inv {A} (a : list A) c b x r :
  x :: r = a ++ c :: b ->
  (a = [] /\ x = c /\ r = b) \/ exists a', a = x :: a' /\ r = a' ++ c :: b.
Proof.
  destruct a as [|y a']; simpl; intros H; injection H as -> ->; [left|right]; eauto.
Qed.

Lemma separated_spaced l :
  forall after, separatedChars after l = true ->
    forall a ch b, l = a ++ ch :: b -> isWhiteSpace ch = true ->
                   ch = " " /\ (a = [] -> after = false)
                   /\ exists ch' b', b = ch' :: b' /\ isWhiteSpace ch' = false.
Proof.
  induction l as [|x r IH]; intros after H a ch b E Hc.
  - destruct a; discriminate E.
  - simpl in H. apply list_app_cons_inv in E as [(-> & -> & ->)|(a' & -> & E)].
    + rewrite Hc in H. apply andb_true_iff in H as [Ha H].
      apply andb_true_iff in Ha as [Ha Hsp]. apply String.eqb_eq in Hsp.
      split; [exact Hsp|]. split.
      * intros _. now destruct after.
      * destruct b as [|c' b']; [discriminate H|]. exists c', b'. split; [reflexivity|].
        simpl in H. destruct (isWhiteSpace c'); [discriminate H|reflexivity].
    + destruct (isWhiteSpace x).
      * apply andb_true_iff in H as [_ H].
        destruct (IH _ H _ _ _ E Hc) as (H1 & _ & H3). split; [exact H1|].
        split; [discriminate|exact H3].
      * destruct (IH _ H _ _ _ E Hc) as (H1 & _ & H3). split; [exact H1|].
        split; [discriminate|exact H3].
Qed.

Lemma collapse_fixed l :
  forall p, separatedChars p l = true -> collapseFrom p l = l.
Proof.
  induction l as [|ch r IH]; intros p H; [reflexivity|]. simpl in *.
  destruct (isWhiteSpace ch) eqn:Hs.
  - apply andb_true_iff in H as [Hp H]. apply andb_true_iff in Hp as [Hp Hsp].
    destruct p; [discriminate|]. apply String.eqb_eq in Hsp. subst ch. now rewrite IH.
  - now rewrite IH.
Qed.

Lemma trimEnd_fixed l :
  forall p, separatedChars p l = true -> trimEnd l = l.
Proof.
  induction l as [|ch r IH]; intros p H; [reflexivity|].
  rewrite trimEnd_cons. simpl in H. destruct (isWhiteSpace ch) eqn:Hs.
  - apply andb_true_iff in H as [_ H]. rewrite (IH true H).
    destruct r; [discriminate H|reflexivity].
  - rewrite (IH false H). destruct r; reflexivity.
Qed.

Lemma trimStart_fixed l : separatedChars true l = true -> trimStart l = l.
Proof.
  destruct l as [|ch r]; [reflexivity|]. simpl.
  destruct (isWhiteSpace ch); [discriminate|reflexivity].
Qed.

Lemma separatedChars_weaken l : separatedChars true l = true -> separatedChars false l = true.
Proof.
  destruct l as [|ch r]; [discriminate|]. simpl.
  destruct (isWhiteSpace ch); [discriminate|auto].
Qed.

End CharFacts.

(** ** [ContentCleaner] *)

Module ContentCleanerFacts.

Local Open Scope string_scope.

Import Text TextFacts ContentCleaner CharFacts.

(** X13. [normalizeWhitespace], and with it [extractText], returns text
    whose only white space is single spaces between other characters:
    every character left that [\s] matches is a space, none stands first
    or last, and no two stand side by side.  White space is all of it,
    the characters outside ASCII included (U+00A0, U+2028, U+FEFF, ...). *)
Theorem normalizeWhitespace_tidy :
  forall text content,
    spaced (normalizeWhitespace text) /\ spaced (extractText content).
Proof.
  assert (H : forall s, spaced (normalizeWhitespace s)).
  { intros s a ch b E Hc. destruct (normalizeWhitespace_chars s) as [_ Hn].
    rewrite Hn in E. destruct (normalized_separated s) as [E0|Hs].
    - rewrite E0 in E. destruct a; discriminate E.
    - destruct (separated_spaced _ true Hs a ch b E Hc) as (H1 & H2 & H3).
      split; [exact H1|]. split; [|exact H3]. intros ->. now specialize (H2 eq_refl). }
  intros text content. split; [apply H|]. unfold extractText. apply H.
Qed.

(** X14. [normalizeWhitespace] is idempotent, and so is text extraction:
    the text extracted from a block that holds extracted text is that
    text. *)
Theorem normalizeWhitespace_idempotent :
  forall t content,
    normalizeWhitespace (normalizeWhitespace t) = normalizeWhitespace t
    /\ extractText [text (extractText content)] = extractText content.
Proof.
  assert (H : forall t, normalizeWhitespace (normalizeWhitespace t) = normalizeWhitespace t).
  { intros t. destruct (normalizeWhitespace_chars t) as [Et Ec].
    destruct (normalizeWhitespace_chars (normalizeWhitespace t)) as [E _].
    rewrite E, Et. f_equal. unfold normalized at 1. rewrite <- Et, Ec.
    destruct (normalized_separated t) as [E0|Hs]; [now rewrite E0|].
    rewrite (collapse_fixed _ false (separatedChars_weaken _ Hs)).
    rewrite (trimStart_fixed _ Hs). exact (trimEnd_fixed _ true Hs). }
  intros t content. split; [apply H|].
  unfold extractText at 1. simpl. unfold extractText. apply H.
Qed.

Lemma stripTags_none s : hasGt s = false -> stripTagsFrom false s = s.
Proof.
  induction s as [|c r IH]; intros H; [reflexivity|]. simpl in *.
  apply orb_false_iff in H as [_ H]. rewrite H, andb_false_r. now rewrite IH.
Qed.

(** X15. The [html] case of [extractText] leaves no tag: in the text the
    replacement returns ([stripTags] is the scan started outside a match),
    no [<] is followed, anywhere after it, by a [>]. *)
Theorem stripTags_no_tag :
  forall h inTag a b, stripTagsFrom inTag h = a ++ String "<" b -> hasGt b = false.
Proof.
  induction h as [|c r IH]; intros inTag a b E.
  - destruct a; discriminate E.
  - simpl in E. destruct inTag.
    + destruct (Ascii.eqb c ">"); [|exact (IH _ _ _ E)].
      apply TextFacts.app_cons_inv in E as [(_ & Hc & _)|(a' & _ & E)]; [discriminate Hc|].
      exact (IH _ _ _ E).
    + destruct (Ascii.eqb c "<" && hasGt r) eqn:Ht; [exact (IH _ _ _ E)|].
      apply TextFacts.app_cons_inv in E as [(_ & -> & <-)|(a' & _ & E)]; [|exact (IH _ _ _ E)].
      simpl in Ht. rewrite (stripTags_none r Ht). exact Ht.
Qed.

Lemma stripTags_no_tag_witness :
  stripTags "a<b>c<d" = "a c<d" /\ hasGt "d" = false.
Proof.
  split; [reflexivity|].
  apply (stripTags_no_tag "a<b>c<d" false "a c" "d"). reflexivity.
Defined.

Example extracts_text_blocks : extractText [text "Hello world"] = "Hello world".
Proof. reflexivity. Qed.

Example extracts_markdown_blocks :
  extractText [markdown ("# Title" ++ String "010" "Some text")] = "# Title Some text".
Proof. reflexivity. Qed.

Example strips_html_tags : extractText [html "<p>Hello <b>world</b></p>"] = "Hello world".
Proof. reflexivity. Qed.

Example combines_blocks : extractText [text "Hello"; code "world" None] = "Hello world".
Proof. reflexivity. Qed.

Example combines_diff :
  extractText [diff "old content" "new content" None] = "old content new content".
Proof. reflexivity. Qed.

Example strips_json :
  extractText [json (String "{" (String Js.dquote ("key" ++ String Js.dquote
                       (": " ++ String Js.dquote ("value" ++ String Js.dquote "}")))))]
  = "key value".
Proof. reflexivity. Qed.

Example empty_content : extractText [] = "".
Proof. reflexivity. Qed.

(** No-break spaces, a line separator and a byte order mark. *)
Example collapses_unicode_white_space :
  normalizeWhitespace (Js.utf8 [194; 160; 97; 226; 128; 168; 239; 187; 191; 98; 32; 9])
  = "a b".
Proof. vm_compute. reflexivity. Qed.

Example keeps_other_characters :
  normalizeWhitespace (Js.utf8 [195; 169; 32; 32; 226; 130; 172])
  = Js.utf8 [195; 169; 32; 226; 130; 172].
Proof. vm_compute. reflexivity. Qed.

Example collapses_newlines_and_tabs :
  normalizeWhitespace ("hello" ++ String "010" (String "010" (String "009" "world")))
  = "hello world".
Proof. reflexivity. Qed.

End ContentCleanerFacts.

(** ** [extractProjectName] *)

Module ProjectPathFacts.

Local Open Scope string_scope.

Import Text TextFacts ProjectPath.

Lemma dashOthers_every s : every isNameChar (dashOthers s) = true.
Proof.
  induction s as [|c r IH]; simpl; [reflexivity|]. rewrite IH, andb_true_r.
  destruct (isNameChar c) eqn:E; [exact E|reflexivity].
Qed.

Lemma collapseDashes_cons c r :
  collapseDashes (String c r)
  = if Ascii.eqb c "-"
    then match r with
         | String c' _ => if Ascii.eqb c' "-" then collapseDashes r
                          else String c (collapseDashes r)
         | EmptyString => String c EmptyString
         end
    else String c (collapseDashes r).
Proof. reflexivity. Qed.

Lemma collapseDashes_every P s : every P s = true -> every P (collapseDashes s) = true.
Proof.
  induction s as [|c r IH]; intros H; [reflexivity|].
  rewrite collapseDashes_cons. simpl in H. apply andb_true_iff in H as [Hc Hr].
  specialize (IH Hr).
  destruct (Ascii.eqb c "-"); [destruct r as [|c' r']|].
  - simpl. now rewrite Hc.
  - destruct (Ascii.eqb c' "-"); [exact IH|].
    change (P c && every P (collapseDashes (String c' r')) = true). now rewrite Hc, IH.
  - change (P c && every P (collapseDashes r) = true). now rewrite Hc, IH.
Qed.

Lemma collapseDashes_loose s : loose isDash false (collapseDashes s) = true.
Proof.
  induction s as [|c r IH]; [reflexivity|].
  rewrite collapseDashes_cons. destruct (Ascii.eqb c "-") eqn:Hc.
  - destruct r as [|c' r']; [simpl; unfold isDash; now rewrite Hc|].
    destruct (Ascii.eqb c' "-") eqn:Hc'; [exact IH|].
    change (loose isDash false (String c (collapseDashes (String c' r'))))
      with (if isDash c then negb false && loose isDash true (collapseDashes (String c' r'))
            else loose isDash false (collapseDashes (String c' r'))).
    unfold isDash at 1. rewrite Hc. simpl negb. rewrite andb_true_l.
    rewrite collapseDashes_cons in *. rewrite Hc' in *.
    rewrite (loose_nonsep isDash true false); [exact IH|]. unfold isDash. exact Hc'.
  - change (loose isDash false (String c (collapseDashes r)))
      with (if isDash c then negb false && loose isDash true (collapseDashes r)
            else loose isDash false (collapseDashes r)).
    unfold isDash at 1. now rewrite Hc.
Qed.

Lemma stripLeadingDash_loose s :
  loose isDash false s = true -> loose isDash true (stripLeadingDash s) = true.
Proof.
  destruct s as [|c r]; [reflexivity|]. simpl. unfold isDash at 1.
  destruct (Ascii.eqb c "-") eqn:Hc; [auto|].
  intros H. simpl. unfold isDash at 1. now rewrite Hc.
Qed.

Lemma stripLeadingDash_every P s : every P s = true -> every P (stripLeadingDash s) = true.
Proof.
  destruct s as [|c r]; [reflexivity|]. simpl. intros H. apply andb_true_iff in H as [Hc Hr].
  destruct (Ascii.eqb c "-"); [exact Hr|]. simpl. now rewrite Hc, Hr.
Qed.

Lemma stripTrailing_cons x r :
  Js.stripTrailingChar "-" (String x r)
  = match r with
    | EmptyString => if Ascii.eqb x "-" then EmptyString else String x EmptyString
    | _ => String x (Js.stripTrailingChar "-" r)
    end.
Proof. destruct r; reflexivity. Qed.

Lemma stripTrailing_empty s :
  Js.stripTrailingChar "-" s = EmptyString -> s = EmptyString \/ s = "-".
Proof.
  destruct s as [|x r]; [now left|]. rewrite stripTrailing_cons.
  destruct r; [|discriminate]. destruct (Ascii.eqb_spec x "-"); [subst; now right|discriminate].
Qed.

Lemma stripTrailing_separated s :
  forall p, loose isDash p s = true ->
            Js.stripTrailingChar "-" s = EmptyString
            \/ separated isDash p (Js.stripTrailingChar "-" s) = true.
Proof.
  induction s as [|x r IH]; intros p H; [now left|].
  rewrite stripTrailing_cons. simpl in H. unfold isDash at 1 in H.
  destruct r as [|y r'].
  - destruct (Ascii.eqb x "-") eqn:Hx; [now left|]. right. simpl. unfold isDash. now rewrite Hx.
  - right. set (r := String y r') in *.
    change (separated isDash p (String x (Js.stripTrailingChar "-" r)))
      with (if isDash x then negb p && separated isDash true (Js.stripTrailingChar "-" r)
            else separated isDash false (Js.stripTrailingChar "-" r)).
    unfold isDash at 1. destruct (Ascii.eqb x "-") eqn:Hx.
    + apply andb_true_iff in H as [Hp H]. rewrite Hp. simpl.
      destruct (IH true H) as [E|E]; [|exact E].
      apply stripTrailing_empty in E as [E|E]; [discriminate E|].
      rewrite E in H. discriminate H.
    + destruct (IH false H) as [E|E]; [|exact E]. rewrite E. reflexivity.
Qed.

Lemma stripTrailing_every P s : every P s = true -> every P (Js.stripTrailingChar "-" s) = true.
Proof.
  induction s as [|x r IH]; intros H; [reflexivity|].
  rewrite stripTrailing_cons. simpl in H. apply andb_true_iff in H as [Hx Hr].
  destruct r as [|y r'].
  - destruct (Ascii.eqb x "-"); [reflexivity|]. simpl. now rewrite Hx.
  - change (P x && every P (Js.stripTrailingChar "-" (String y r')) = true).
    now rewrite Hx, (IH Hr).
Qed.

Lemma lowerChar_slug c : isNameChar c = true -> isSlugChar (Js.lowerChar c) = true.
Proof.
  destruct c as [[|] [|] [|] [|] [|] [|] [|] [|]]; intros H;
    first [discriminate H|reflexivity].
Qed.

Lemma lowerChar_dash c : isDash (Js.lowerChar c) = isDash c.
Proof. destruct c as [[|] [|] [|] [|] [|] [|] [|] [|]]; reflexivity. Qed.

Lemma lowerAscii_every s :
  every isNameChar s = true -> every isSlugChar (Js.lowerAscii s) = true.
Proof.
  induction s as [|c r IH]; intros H; [reflexivity|]. simpl in *.
  apply andb_true_iff in H as [Hc Hr]. now rewrite (lowerChar_slug c Hc), (IH Hr).
Qed.

Lemma lowerAscii_separated s :
  forall p, separated isDash p (Js.lowerAscii s) = separated isDash p s.
Proof.
  induction s as [|c r IH]; intros p; [reflexivity|]. simpl. rewrite lowerChar_dash.
  now rewrite !IH.
Qed.

Lemma nameChars_ascii s : every isNameChar s = true -> Js.isAscii s = true.
Proof.
  induction s as [|c r IH]; intros H; [reflexivity|]. simpl in *.
  apply andb_true_iff in H as [Hc Hr]. rewrite (IH Hr), andb_true_r.
  destruct c as [[|] [|] [|] [|] [|] [|] [|] [|]];
    first [discriminate Hc|reflexivity].
Qed.

Section Name.
Context {unicode : Js.Unicode}.

(** X16. A project name that [extractProjectName] returns is a slug: it
    is not empty, it is made of lower-case letters, digits, underscores
    and dashes only, and every dash stands between two characters that are
    no dashes. *)
Theorem extractProjectName_slug :
  forall projectPath name,
    extractProjectName projectPath = Some name ->
    name <> EmptyString /\ allChars isSlugChar name /\ between isDash name.
Proof.
  intros projectPath name. unfold extractProjectName.
  destruct (_ || _); [discriminate|].
  destruct (last _) as [lastPart|]; [|discriminate].
  destruct (negb (Js.truthyS lastPart)); [discriminate|].
  set (d := collapseDashes (dashOthers lastPart)).
  assert (Hd : every isNameChar d = true) by apply collapseDashes_every, dashOthers_every.
  assert (Hl : loose isDash false d = true) by apply collapseDashes_loose.
  assert (Ht' : every isNameChar (trimDashes d) = true)
    by (unfold trimDashes; now apply stripTrailing_every, stripLeadingDash_every).
  rewrite (Js.toLowerCase_ascii _ (nameChars_ascii _ Ht')).
  destruct (Js.truthyS _) eqn:Ht; [|discriminate]. intros H. injection H as <-.
  split; [|split].
  - intros E. rewrite E in Ht. discriminate Ht.
  - now apply every_allChars, lowerAscii_every.
  - apply separated_is_between. rewrite lowerAscii_separated. unfold trimDashes.
    destruct (stripTrailing_separated (stripLeadingDash d) true (stripLeadingDash_loose d Hl))
      as [E|E]; [|now right].
    left. now rewrite E.
Qed.

End Name.

Import Examples.

Lemma extractProjectName_slug_witness :
  extractProjectName "/home/user/My Project (v2)/" = Some "my-project-v2"
  /\ between isDash "my-project-v2".
Proof.
  split; [reflexivity|].
  apply (extractProjectName_slug "/home/user/My Project (v2)/" "my-project-v2").
  reflexivity.
Defined.

(** A directory called [constructor] gives a project name that
    [groupSessionsByProject] cannot file. *)
Example name_constructor :
  extractProjectName "/home/user/constructor" = Some "constructor"
  /\ Importer.isPrototypeKey "constructor" = true.
Proof. split; reflexivity. Qed.

Example name_of_path : extractProjectName "/home/user/My Project (v2)/" = Some "my-project-v2".
Proof. reflexivity. Qed.

Example name_of_windows_path :
  extractProjectName ("C:" ++ String Js.backslash ("Users" ++ String Js.backslash "App_1"))
  = Some "app_1".
Proof. reflexivity. Qed.

Example name_unknown : extractProjectName "unknown" = None.
Proof. reflexivity. Qed.

Example name_of_symbols : extractProjectName "/tmp/+++" = None.
Proof. reflexivity. Qed.

End ProjectPathFacts.

(** ** Claude directory names *)

Module ClaudeFinderFacts.

Local Open Scope string_scope.

Import Text ClaudeFinder.

Lemma replaceAllChar_cons c d x r :
  Js.replaceAllChar c d (String x r)
  = if Ascii.eqb x c then d ++ Js.replaceAllChar c d r
    else String x (Js.replaceAllChar c d r).
Proof. simpl. now destruct (Ascii.eqb x c). Qed.

Lemma append_single c s : String c EmptyString ++ s = String c s.
Proof. reflexivity. Qed.

Lemma append_empty s : EmptyString ++ s = s.
Proof. reflexivity. Qed.

Lemma replaceAllChar_none c d s : contains c s = false -> Js.replaceAllChar c d s = s.
Proof.
  induction s as [|x r IH]; intros H; [reflexivity|].
  simpl in H. apply orb_false_iff in H as [Hx Hr].
  now rewrite replaceAllChar_cons, Hx, IH.
Qed.

Lemma contains_replaced c d s :
  c <> d -> contains c (Js.replaceAllChar c (String d EmptyString) s) = false.
Proof.
  intros Hcd. induction s as [|x r IH]; [reflexivity|].
  rewrite replaceAllChar_cons. destruct (Ascii.eqb_spec x c) as [->|Hx];
    rewrite ?append_single; cbn [contains]; rewrite IH, orb_false_r.
  - apply Ascii.eqb_neq. congruence.
  - now apply Ascii.eqb_neq.
Qed.

Lemma contains_removed c s : contains c (Js.replaceAllChar c EmptyString s) = false.
Proof.
  induction s as [|x r IH]; [reflexivity|].
  rewrite replaceAllChar_cons. destruct (Ascii.eqb_spec x c) as [->|Hx];
    rewrite ?append_empty; cbn [contains]; [exact IH|].
  rewrite IH, orb_false_r. now apply Ascii.eqb_neq.
Qed.

Lemma contains_replaceAllChar c x d s :
  contains c s = false -> c <> d ->
  contains c (Js.replaceAllChar x (String d EmptyString) s) = false.
Proof.
  intros H Hcd. induction s as [|y r IH]; [reflexivity|].
  simpl in H. apply orb_false_iff in H as [Hy Hr].
  rewrite replaceAllChar_cons. destruct (Ascii.eqb y x);
    rewrite ?append_single; cbn [contains]; rewrite (IH Hr), orb_false_r; [|exact Hy].
  apply Ascii.eqb_neq. congruence.
Qed.

Lemma roundtrip_slashes s :
  contains "-" s = false ->
  Js.replaceAllChar "-" "/" (Js.replaceAllChar "/" "-" s) = s.
Proof.
  induction s as [|x r IH]; intros H; [reflexivity|].
  simpl in H. apply orb_false_iff in H as [Hx Hr].
  rewrite replaceAllChar_cons. destruct (Ascii.eqb_spec x "/") as [->|Hs];
    rewrite ?append_single, replaceAllChar_cons.
  - change (Ascii.eqb "-" "-") with true. cbv iota. now rewrite append_single, IH.
  - now rewrite Hx, IH.
Qed.

(** X17. The directory name Claude keeps for a project path names that
    path again exactly when the path holds no dash and no colon:
    [claudeDirToProjectName] turns every dash into a slash, those of the
    path as well, and the colons are not written at all. *)
Theorem claude_dir_roundtrip :
  forall projectPath,
    claudeDirToProjectName (projectPathToClaudeDir projectPath) = projectPath
    <-> contains "-" projectPath = false /\ contains ":" projectPath = false.
Proof.
  intros p. unfold claudeDirToProjectName, projectPathToClaudeDir. split.
  - intros E. split.
    + rewrite <- E. apply contains_replaced. discriminate.
    + rewrite <- E. apply contains_replaceAllChar; [apply contains_removed|discriminate].
  - intros [Hd Hc].
    rewrite (replaceAllChar_none ":" EmptyString).
    + now apply roundtrip_slashes.
    + apply contains_replaceAllChar; [exact Hc|discriminate].
Qed.

Example claude_dir_plain :
  claudeDirToProjectName (projectPathToClaudeDir "/home/user/projects/myapp")
  = "/home/user/projects/myapp".
Proof. reflexivity. Qed.

Example claude_dir_dashed :
  claudeDirToProjectName (projectPathToClaudeDir "/home/user/my-app") = "/home/user/my/app".
Proof. reflexivity. Qed.

End ClaudeFinderFacts.

(** ** The correlation, said without the loops *)

Module CorrelationFacts.

Import Correlator Correlation CorrelatorFacts.

Lemma emit_correlated raw msg : emit raw (indexToolResults raw) msg = correlated raw msg.
Proof.
  destruct msg as [ts co|ts co|ts th|ts name [c|] inp res|ts name cid out err|ts ti su co st];
    try reflexivity.
  simpl. destruct (Js.truthyS c) eqn:Hc; [|reflexivity].
  rewrite (index_lookup c raw Hc). now destruct (List.filter _ raw).
Qed.

Lemma connect_correlated raw : connect raw = flat_map (correlated raw) raw.
Proof. rewrite connect_emit. apply flat_map_ext. intros m. apply emit_correlated. Qed.

(** X19. Both correlators compute, with their map and their set, what
    can be read off the input message by message: the output is the input
    in order, where a [tool_use] with a non-empty identifier carries the
    results that bear it, in input order, in place of its own; a
    [tool_result] is gone when some [tool_use] has a strictly equal
    identifier; and every other message is unchanged. *)
Theorem correlators_declarative :
  forall rawMessages,
    Claude.connectToolResultsToToolUse rawMessages
    = flat_map (correlated rawMessages) rawMessages
    /\ Codex.connectToolOutputsToToolCalls rawMessages
       = flat_map (correlated rawMessages) rawMessages.
Proof.
  intros raw. split.
  - change (connect raw = flat_map (correlated raw) raw). apply connect_correlated.
  - change (connect raw = flat_map (correlated raw) raw). apply connect_correlated.
Qed.

Lemma toolUse_correlated raw cid m :
  existsb (isToolUseWith cid) (correlated raw m) = isToolUseWith cid m.
Proof.
  destruct m as [ts co|ts co|ts th|ts name [c|] inp res|ts name c out err|ts ti su co st];
    simpl; try reflexivity.
  - destruct (Js.truthyS c); [|simpl; now rewrite orb_false_r].
    destruct (List.filter _ raw); simpl; now rewrite orb_false_r.
  - now rewrite orb_false_r.
  - now destruct (hasMatchingToolUse raw c).
Qed.

(** The output has a [tool_use] under an identifier exactly when the
    input has one. *)
Lemma hasMatching_connect raw cid :
  hasMatchingToolUse (connect raw) cid = hasMatchingToolUse raw cid.
Proof.
  rewrite connect_correlated. unfold hasMatchingToolUse.
  assert (H : forall l, existsb (isToolUseWith cid) (flat_map (correlated raw) l)
                        = existsb (isToolUseWith cid) l); [|apply H].
  induction l as [|m l IH]; simpl; [reflexivity|].
  now rewrite existsb_app, toolUse_correlated, IH.
Qed.

(** A [tool_result] of the output was unmatched in the input. *)
Lemma result_of_connect raw ts name cid out err :
  In (tool_result ts name cid out err) (connect raw) -> hasMatchingToolUse raw cid = false.
Proof.
  rewrite connect_correlated. intros H. apply in_flat_map in H as [m [_ H]].
  destruct m as [ts1 co|ts1 co|ts1 th|ts1 n1 [c|] inp res|ts1 n1 c o1 e1|ts1 ti su co st];
    simpl in H; try (destruct H as [H|[]]; discriminate H).
  - destruct (Js.truthyS c); [destruct (List.filter _ raw)|];
      destruct H as [H|[]]; discriminate H.
  - destruct (hasMatchingToolUse raw c) eqn:E; [destruct H|].
    destruct H as [H|[]]. injection H as -> -> -> -> ->. exact E.
Qed.

Lemma filter_none {A} (p : A -> bool) l : (forall a, In a l -> p a = false) -> List.filter p l = [].
Proof.
  induction l as [|a l IH]; intros H; simpl; [reflexivity|].
  rewrite (H a) by now left. apply IH. intros; apply H; now right.
Qed.

(** X20. Correlating is idempotent: run on its own output, either
    correlator changes nothing, because no result that is left has a call
    left to go to. *)
Theorem correlators_idempotent :
  forall rawMessages,
    Claude.connectToolResultsToToolUse (Claude.connectToolResultsToToolUse rawMessages)
    = Claude.connectToolResultsToToolUse rawMessages
    /\ Codex.connectToolOutputsToToolCalls (Codex.connectToolOutputsToToolCalls rawMessages)
       = Codex.connectToolOutputsToToolCalls rawMessages.
Proof.
  intros raw.
  change (connect (connect raw) = connect raw /\ connect (connect raw) = connect raw).
  assert (H : connect (connect raw) = connect raw); [|now split].
  rewrite (connect_correlated (connect raw)).
  assert (Hfix : forall m, In m (connect raw) -> correlated (connect raw) m = [m]).
  { intros m Hin.
    destruct m as [ts co|ts co|ts th|ts name [c|] inp res|ts name cid out err|ts ti su co st];
      try reflexivity.
    - simpl. destruct (Js.truthyS c); [|reflexivity].
      rewrite filter_none; [reflexivity|].
      intros r Hr. destruct (isResultWith c r) eqn:E; [|reflexivity]. exfalso.
      destruct r as [| | | |ts1 n1 [c1|] o1 e1|]; try discriminate E.
      simpl in E. apply String.eqb_eq in E. subst c1.
      apply result_of_connect in Hr. rewrite <- hasMatching_connect in Hr.
      rewrite (hasMatching_in _ _ _ _ _ _ Hin) in Hr. discriminate Hr.
    - simpl. rewrite hasMatching_connect. now rewrite (result_of_connect _ _ _ _ _ _ Hin). }
  assert (Hall : forall l, (forall m, In m l -> In m (connect raw)) ->
                           flat_map (correlated (connect raw)) l = l); [|now apply Hall].
  induction l as [|m l IH]; intros Hl; [reflexivity|].
  simpl. rewrite Hfix by (apply Hl; now left). simpl. f_equal. apply IH.
  intros m' Hm'. apply Hl. now right.
Qed.

End CorrelationFacts.

(** ** [DiffBuilder] *)

Module DiffBuilderFacts.

Import Text DiffBuilder.
Local Open Scope string_scope.

Lemma contains_append x a b : contains x (a ++ b) = contains x a || contains x b.
Proof.
  induction a as [|c r IH]; [reflexivity|].
  change (contains x (String c (r ++ b)) = contains x (String c r) || contains x b).
  simpl. now rewrite IH, orb_assoc.
Qed.

Lemma replace_cons c d x r :
  Js.replaceAllChar c d (String x r)
  = (if Ascii.eqb x c then d else String x EmptyString) ++ Js.replaceAllChar c d r.
Proof. reflexivity. Qed.

Lemma contains_replace_other x c d s :
  contains x s = false -> contains x d = false ->
  contains x (Js.replaceAllChar c d s) = false.
Proof.
  intros Hs Hd. induction s as [|y r IH]; [reflexivity|].
  simpl in Hs. apply orb_false_iff in Hs as [Hy Hr].
  rewrite replace_cons, contains_append, (IH Hr), orb_false_r.
  destruct (Ascii.eqb y c); [exact Hd|]. simpl. now rewrite Hy.
Qed.

Lemma contains_replace_self c d s :
  contains c d = false -> contains c (Js.replaceAllChar c d s) = false.
Proof.
  intros Hd. induction s as [|y r IH]; [reflexivity|].
  rewrite replace_cons, contains_append, IH, orb_false_r.
  destruct (Ascii.eqb y c) eqn:E; [exact Hd|]. simpl. now rewrite E.
Qed.

(** X23. Text escaped by [escapeHtml] holds none of the characters that
    open or close a tag or an attribute value: no [<], no [>], no double
    quote and no apostrophe. *)
Theorem escapeHtml_safe :
  forall t,
    contains "<" (escapeHtml t) = false
    /\ contains ">" (escapeHtml t) = false
    /\ contains Js.dquote (escapeHtml t) = false
    /\ contains apostrophe (escapeHtml t) = false.
Proof.
  intros t. unfold escapeHtml.
  set (a := Js.replaceAllChar "&" "&amp;" t).
  assert (Hlt : contains "<" (Js.replaceAllChar "<" "&lt;" a) = false)
    by now apply contains_replace_self.
  set (b := Js.replaceAllChar "<" "&lt;" a) in *.
  assert (Hgt : contains ">" (Js.replaceAllChar ">" "&gt;" b) = false)
    by now apply contains_replace_self.
  assert (Hlt' : contains "<" (Js.replaceAllChar ">" "&gt;" b) = false)
    by now apply contains_replace_other.
  set (c := Js.replaceAllChar ">" "&gt;" b) in *.
  assert (Hq : contains Js.dquote (Js.replaceAllChar Js.dquote "&quot;" c) = false)
    by now apply contains_replace_self.
  assert (Hlt'' : contains "<" (Js.replaceAllChar Js.dquote "&quot;" c) = false)
    by now apply contains_replace_other.
  assert (Hgt' : contains ">" (Js.replaceAllChar Js.dquote "&quot;" c) = false)
    by now apply contains_replace_other.
  set (d := Js.replaceAllChar Js.dquote "&quot;" c) in *.
  repeat split.
  - now apply contains_replace_other.
  - now apply contains_replace_other.
  - now apply contains_replace_other.
  - now apply contains_replace_self.
Qed.

Lemma isPrefix_append p s : Search.isPrefix p (p ++ s) = true.
Proof.
  induction p as [|c r IH]; [now destruct s|].
  change (Search.isPrefix (String c r) (String c (r ++ s)) = true). simpl.
  now rewrite Ascii.eqb_refl, IH.
Qed.

Lemma drop_append p s : Js.drop (String.length p) (p ++ s) = s.
Proof.
  induction p as [|c r IH]; [reflexivity|].
  change (Js.drop (S (String.length r)) (String c (r ++ s)) = s). simpl. exact IH.
Qed.

(** X24. [stripWorkingDirectory] gives back the path below the working
    directory: for a working directory written with or without its final
    slash, the path made of it, a slash and a relative path is reduced to
    that relative path. *)
Theorem stripWorkingDirectory_relative :
  forall workingDir relative,
    Js.truthyS workingDir = true ->
    stripWorkingDirectory (Js.stripTrailingChar "/" workingDir ++ "/" ++ relative)
                          (Some workingDir)
    = relative.
Proof.
  intros wd rel Hwd. unfold stripWorkingDirectory. rewrite Hwd. cbn [negb]. cbv iota.
  rewrite isPrefix_append, drop_append. reflexivity.
Qed.

Lemma stripWorkingDirectory_relative_witness :
  stripWorkingDirectory "/home/user/proj/src/index.ts" (Some "/home/user/proj/")
  = "src/index.ts".
Proof.
  apply (stripWorkingDirectory_relative "/home/user/proj/" "src/index.ts"). reflexivity.
Defined.

(** The prefix is compared character by character, not directory by
    directory. *)
Example strip_sibling_directory :
  stripWorkingDirectory "/home/user2/x" (Some "/home/user") = "2/x".
Proof. reflexivity. Qed.

Example strip_outside : stripWorkingDirectory "/etc/hosts" (Some "/home/user") = "/etc/hosts".
Proof. reflexivity. Qed.

Example escapeHtml_tag :
  escapeHtml "<a href='x'>&</a>" = "&lt;a href=&#039;x&#039;&gt;&amp;&lt;/a&gt;".
Proof. reflexivity. Qed.

End DiffBuilderFacts.

(** ** Running [importAll] again *)

Module RerunFacts.

Import Db Importer ImporterFacts SingleSessionFacts.
Local Open Scope Z_scope.

(** *** Upserts under another key *)

Section OtherKey.
Context {R : Type} (id : R -> Z) (conflict conflict' : R -> bool)
        (update' : R -> R) (fresh' : Z -> R).
Hypothesis disjoint : forall r, conflict r = true -> conflict' r = false.
Hypothesis update_keeps : forall r, conflict (update' r) = conflict r.
Hypothesis fresh_other : forall i, conflict (fresh' i) = false.

Lemma find_map_other (l : list R) :
  List.find conflict (List.map (applyTo conflict' update') l) = List.find conflict l.
Proof.
  induction l as [|r l IH]; simpl; [reflexivity|]. unfold applyTo at 1 2.
  destruct (conflict r) eqn:E.
  - rewrite (disjoint r E). now rewrite E.
  - destruct (conflict' r); [rewrite update_keeps|]; now rewrite E.
Qed.

Lemma find_upsert_other t :
  List.find conflict (rows (snd (upsert id conflict' update' fresh' t)))
  = List.find conflict (rows t).
Proof.
  rewrite upsert_rows. destruct (existsb conflict' (rows t)).
  - apply find_map_other.
  - induction (rows t) as [|r l IH]; simpl; [now rewrite fresh_other|].
    destruct (conflict r); [reflexivity|exact IH].
Qed.

Lemma upsert_fst_other update fresh t :
  existsb conflict (rows t) = true ->
  fst (upsert id conflict update fresh (snd (upsert id conflict' update' fresh' t)))
  = fst (upsert id conflict update fresh t).
Proof.
  intros Hex. destruct (List.find conflict (rows t)) as [r|] eqn:E.
  - rewrite (fst_upsert_find id conflict update fresh t r E).
    apply fst_upsert_find. now rewrite find_upsert_other.
  - apply existsb_exists in Hex as [r [Hin Hc]].
    eapply find_none in E; [|exact Hin]. congruence.
Qed.

Lemma existsb_upsert_other t :
  existsb conflict (rows t) = true ->
  existsb conflict (rows (snd (upsert id conflict' update' fresh' t))) = true.
Proof.
  intros Hex. destruct (List.find conflict (rows t)) as [r|] eqn:E.
  - rewrite <- find_upsert_other in E. apply find_some in E as [Hin Hc].
    apply existsb_exists. eauto.
  - apply existsb_exists in Hex as [r [Hin Hc]].
    eapply find_none in E; [|exact Hin]. congruence.
Qed.

Lemma fixed_upsert_other (update : R -> R) t :
  (forall r, In r (rows t) -> conflict r = true -> update r = r) ->
  forall r, In r (rows (snd (upsert id conflict' update' fresh' t))) ->
            conflict r = true -> update r = r.
Proof.
  intros Hfix r. rewrite upsert_rows. destruct (existsb conflict' (rows t)).
  - intros Hin Hc. apply in_map_iff in Hin as [r0 [<- Hin]]. unfold applyTo in *.
    destruct (conflict' r0) eqn:E'.
    + rewrite update_keeps in Hc. rewrite (disjoint r0 Hc) in E'. discriminate.
    + now apply Hfix.
  - intros Hin Hc. apply in_app_or in Hin as [Hin|[<-|[]]]; [now apply Hfix|].
    rewrite fresh_other in Hc. discriminate.
Qed.

(** An upsert that changes no row stays so after an upsert under
    another key. *)
Lemma upsert_fixed_other update fresh t :
  existsb conflict (rows t) = true ->
  (forall r, In r (rows t) -> conflict r = true -> update r = r) ->
  rows (snd (upsert id conflict update fresh (snd (upsert id conflict' update' fresh' t))))
  = rows (snd (upsert id conflict' update' fresh' t)).
Proof.
  intros Hex Hfix. apply upsert_fixed.
  - now apply existsb_upsert_other.
  - now apply fixed_upsert_other.
Qed.

End OtherKey.

Section Ids.
Context {R : Type} (id : R -> Z) (conflict : R -> bool).

Lemma nextId_above (t : Table R) r : In r (rows t) -> id r < nextId id t.
Proof.
  unfold nextId. generalize (autoinc t). induction (rows t) as [|x l IH]; intros a Hin;
    [contradiction|].
  simpl. destruct Hin as [<-|Hin]; [lia|]. specialize (IH a Hin). lia.
Qed.

(** The upsert keeps the row ids apart. *)
Lemma upsert_ids update fresh t :
  (forall r, id (update r) = id r) -> (forall i, id (fresh i) = i) ->
  NoDup (List.map id (rows t)) ->
  NoDup (List.map id (rows (snd (upsert id conflict update fresh t)))).
Proof.
  intros Hu Hf Hnd. rewrite upsert_rows. destruct (existsb conflict (rows t)).
  - rewrite map_map. erewrite map_ext; [exact Hnd|].
    intros r. unfold applyTo. now destruct (conflict r).
  - rewrite map_app. simpl. rewrite Hf. apply NoDup_app. split; [assumption|].
    split; [|apply NoDup_singleton].
    intros k Hin Hk. apply list_elem_of_In in Hin, Hk. destruct Hk as [<-|[]].
    apply in_map_iff in Hin as [r [Hk Hin]]. pose proof (nextId_above t r Hin). lia.
Qed.

Lemma NoDup_map_inj (l : list R) a b :
  NoDup (List.map id l) -> In a l -> In b l -> id a = id b -> a = b.
Proof.
  induction l as [|x l IH]; [intros _ []|].
  simpl. intros Hnd. apply NoDup_cons in Hnd as [Hx Hl].
  intros [<-|Ha] [<-|Hb] E; try reflexivity.
  - exfalso. apply Hx. apply list_elem_of_In. rewrite E. now apply in_map.
  - exfalso. apply Hx. apply list_elem_of_In. rewrite <- E. now apply in_map.
  - now apply IH.
Qed.

(** The id an upsert returns is not the id of a row under another key. *)
Lemma upsert_id_differs (conflict' : R -> bool) update' fresh' t r :
  (forall r, conflict r = true -> conflict' r = false) ->
  NoDup (List.map id (rows t)) ->
  In r (rows t) -> conflict r = true ->
  fst (upsert id conflict' update' fresh' t) <> id r.
Proof.
  intros Hd Hnd Hin Hc. unfold upsert.
  destruct (List.find conflict' (rows t)) as [r'|] eqn:E; simpl.
  - apply find_some in E as [Hin' Hc']. intros Eid.
    assert (r' = r) by (eapply NoDup_map_inj; eassumption). subst r'.
    rewrite (Hd r Hc) in Hc'. discriminate.
  - pose proof (nextId_above t r Hin). lia.
Qed.

End Ids.

Section Rerun.
Context {unicode : Js.Unicode} {helpers : Helpers}.

(** *** Settled sessions *)

(** *** Messages of another session *)

Lemma keyOf_other m sid i r :
  RenderableMessage.sessionId m <> sid -> keyOf m r = true -> messageKey sid i r = false.
Proof.
  intros Hne Hk. destruct (messageKey sid i r) eqn:E; [|reflexivity].
  unfold keyOf in Hk. destruct (messageKey_inj _ _ _ _ _ Hk E). contradiction.
Qed.

Lemma upsertAll_keeps_other sid ca cwd m msgs :
  forall index t,
    RenderableMessage.sessionId m <> sid ->
    stored m t -> stored m (upsertAll sid ca cwd msgs index t).
Proof.
  induction msgs as [|msg msgs IH]; intros index t Hne H; simpl; [assumption|].
  apply IH; [assumption|].
  apply stored_upsert_other; [|assumption].
  intros r Hk. rewrite keyOf_convert. now apply keyOf_other with (m := m).
Qed.

Lemma stored_delete_other m sid last t :
  RenderableMessage.sessionId m <> sid -> stored m t -> stored m (deleteAfter sid last t).
Proof.
  intros Hne [Hex Hfix]. unfold stored, deleteAfter. simpl. split.
  - apply existsb_exists in Hex as [r [Hin Hk]]. apply existsb_exists.
    exists r. split; [|assumption]. apply filter_In. split; [assumption|].
    unfold keyOf, messageKey in Hk. apply andb_true_iff in Hk as [Hk _].
    apply Z.eqb_eq in Hk. apply negb_true_iff, andb_false_iff. left.
    apply Z.eqb_neq. congruence.
  - intros r Hin. apply filter_In in Hin as [Hin _]. now apply Hfix.
Qed.

(** The rows after the upserts of session [sid] are rows of [sid] or
    rows that were there. *)
Lemma messages_upsert_rows_in m t r :
  In r (rows (messages (snd (messages_upsert m t)))) ->
  MessageRow.session_id r = RenderableMessage.sessionId m \/ In r (rows (messages t)).
Proof.
  rewrite messages_upsert_snd. simpl. rewrite upsert_rows.
  destruct (existsb _ _).
  - intros Hin. apply in_map_iff in Hin as [r0 [<- Hin]]. unfold applyTo.
    destruct (keyOf m r0) eqn:E; [left|now right].
    unfold keyOf, messageKey in E. apply andb_true_iff in E as [E _].
    apply Z.eqb_eq in E. exact E.
  - intros Hin. apply in_app_or in Hin as [Hin|[<-|[]]]; [now right|now left].
Qed.

Lemma upsertAll_rows_in sid ca cwd msgs r :
  forall index t,
    In r (rows (messages (upsertAll sid ca cwd msgs index t))) ->
    MessageRow.session_id r = sid \/ In r (rows (messages t)).
Proof.
  induction msgs as [|msg msgs IH]; intros index t Hin; simpl in Hin; [now right|].
  apply IH in Hin as [Hin|Hin]; [now left|].
  apply messages_upsert_rows_in in Hin as [Hin|Hin]; [left|now right].
  now destruct (convert_key msg sid ca index cwd) as [<- _].
Qed.

Lemma filter_fixed_inv {A} (p : A -> bool) l : List.filter p l = l -> forall a, In a l -> p a = true.
Proof.
  induction l as [|x l IH]; simpl; intros E a Hin; [contradiction|].
  destruct (p x) eqn:Ex.
  - injection E as E. destruct Hin as [<-|Hin]; auto.
  - exfalso. pose proof (List.filter_length_le p l) as Hle.
    rewrite E in Hle. simpl in Hle. lia.
Qed.

Lemma filter_all {A} (p : A -> bool) l : (forall a, In a l -> p a = true) -> List.filter p l = l.
Proof.
  induction l as [|x l IH]; simpl; intros H; [reflexivity|].
  rewrite (H x) by now left. f_equal. apply IH. intros a Ha. apply H. now right.
Qed.

Lemma importTables_rows_in s pid t r :
  In r (rows (messages (importTables s pid t))) ->
  MessageRow.session_id r = fst (sessions_upsert (sessionDataOf s pid) t)
  \/ In r (rows (messages t)).
Proof.
  rewrite importTables_eq. cbv zeta.
  set (sid := fst (sessions_upsert (sessionDataOf s pid) t)).
  assert (H : forall r, In r (rows (messages
                (upsertAll sid (SessionWithProject.created s)
                   (metadataField SessionMetadata.cwd (SessionWithProject.session s))
                   (SessionDetail.messages (SessionWithProject.session s)) 0
                   (snd (sessions_upsert (sessionDataOf s pid) t))))) ->
              MessageRow.session_id r = sid \/ In r (rows (messages t))).
  { intros r0 Hin. apply upsertAll_rows_in in Hin as [Hin|Hin]; [now left|right].
    now rewrite sessions_upsert_snd in Hin. }
  destruct (SessionDetail.messages (SessionWithProject.session s)); [apply H|].
  unfold deleteAfter. simpl. intros Hin. apply filter_In in Hin as [Hin _]. now apply H.
Qed.

Lemma importTables_stored_other s pid t m :
  RenderableMessage.sessionId m <> fst (sessions_upsert (sessionDataOf s pid) t) ->
  stored m t -> stored m (importTables s pid t).
Proof.
  intros Hne Hst. rewrite importTables_eq. cbv zeta.
  set (sid := fst (sessions_upsert (sessionDataOf s pid) t)) in *.
  assert (H : stored m (upsertAll sid (SessionWithProject.created s)
                   (metadataField SessionMetadata.cwd (SessionWithProject.session s))
                   (SessionDetail.messages (SessionWithProject.session s)) 0
                   (snd (sessions_upsert (sessionDataOf s pid) t)))).
  { apply upsertAll_keeps_other; [assumption|].
    eapply stored_rows; [|exact Hst]. now rewrite sessions_upsert_snd. }
  destruct (SessionDetail.messages (SessionWithProject.session s)); [exact H|].
  now apply stored_delete_other.
Qed.

(** *** Sessions under another key *)

Lemma sessionKey_apart p s p' s' r :
  s <> s' -> sessionKey p s r = true -> sessionKey p' s' r = false.
Proof.
  intros Hne H. apply sessionKey_eq in H as [_ H]. unfold sessionKey.
  apply andb_false_iff. right. apply String.eqb_neq. congruence.
Qed.

Lemma importTables_uniqueIds s pid t : uniqueIds t -> uniqueIds (importTables s pid t).
Proof.
  unfold uniqueIds. intros H. destruct (importTables_frame s pid t) as [_ ->].
  rewrite sessions_upsert_snd. simpl. apply upsert_ids; auto.
Qed.

(** A session stays settled when a session of another identifier is
    imported. *)
Lemma settled_other s pid s' pid' t :
  SessionDetail.sessionId (SessionWithProject.session s)
  <> SessionDetail.sessionId (SessionWithProject.session s') ->
  uniqueIds t ->
  settled s pid t -> settled s pid (importTables s' pid' t).
Proof.
  intros Hne Hu (H1 & H2 & H3).
  set (t' := importTables s' pid' t).
  set (sd := sessionDataOf s pid) in *. set (sd' := sessionDataOf s' pid').
  set (key := sessionKey (Session.projectId sd) (Session.sessionId sd)).
  set (key' := sessionKey (Session.projectId sd') (Session.sessionId sd')).
  assert (Hd : forall r, key r = true -> key' r = false).
  { intros r. apply sessionKey_apart. exact Hne. }
  assert (Hfo : forall i, key (sessionRow i sd') = false).
  { intros i. unfold key, sessionKey. simpl. apply andb_false_iff. right.
    apply String.eqb_neq. intros E. apply Hne. now symmetry. }
  assert (Hs' : sessions t'
                = snd (upsert SessionRow.id key' (overwriteSession sd')
                              (fun i => sessionRow i sd') (sessions t))).
  { unfold t'. destruct (importTables_frame s' pid' t) as [_ ->].
    now rewrite sessions_upsert_snd. }
  rewrite sessions_upsert_snd in H1. simpl in H1. fold key in H1.
  apply upsert_fixed_inv in H1 as [Hex Hfix].
  assert (Hsid : fst (sessions_upsert sd t') = fst (sessions_upsert sd t)).
  { rewrite !sessions_upsert_fst. fold key. rewrite Hs'.
    apply upsert_fst_other; auto. }
  assert (Hdiff : fst (sessions_upsert sd' t) <> fst (sessions_upsert sd t)).
  { rewrite !sessions_upsert_fst. fold key key'.
    apply existsb_exists in Hex as [r [Hin Hk]].
    destruct (List.find key (rows (sessions t))) as [r0|] eqn:E.
    - rewrite (fst_upsert_find SessionRow.id key _ _ _ r0 E).
      apply find_some in E as [Hin0 Hk0].
      eapply (upsert_id_differs SessionRow.id key); eauto.
    - eapply find_none in E; [|exact Hin]. change (key r = true) in Hk. congruence. }
  unfold settled. fold sd. rewrite Hsid. split; [|split].
  - rewrite sessions_upsert_snd. simpl. fold key. rewrite Hs'.
    apply upsert_fixed_other; auto.
  - intros j msg Hj. apply importTables_stored_other; [|now apply H2].
    fold sd'. destruct (convert_key msg (fst (sessions_upsert sd t))
                          (SessionWithProject.created s) (Z.of_nat j)
                          (metadataField SessionMetadata.cwd (SessionWithProject.session s)))
      as [-> _].
    congruence.
  - intros Hm. specialize (H3 Hm). unfold deleteAfter in *. simpl in *.
    apply filter_all. intros r Hin.
    apply importTables_rows_in in Hin as [Hin|Hin].
    + fold sd' in Hin. apply negb_true_iff, andb_false_iff. left.
      apply Z.eqb_neq. congruence.
    + now apply (filter_fixed_inv _ _ H3).
Qed.

(** *** The loops on the tables *)

Lemma contents_rows t t' :
  contents t' = contents t ->
  rows (projects t') = rows (projects t) /\ rows (sessions t') = rows (sessions t)
  /\ rows (messages t') = rows (messages t).
Proof. unfold contents. intros E. injection E as -> -> ->. auto. Qed.

Lemma sessionsTables_fixed sessions pid :
  forall T,
    (forall s, In s sessions -> hasPath s = true -> settled s pid T) ->
    contents (sessionsTables sessions pid T) = contents T.
Proof.
  induction sessions as [|s rest IH]; intros T H; simpl; [reflexivity|].
  destruct (hasPath s) eqn:Hs.
  - pose proof (settled_fixed s pid T (H s (or_introl eq_refl) Hs)) as E.
    rewrite <- E. apply IH. intros s' Hin Hs'.
    apply contents_rows in E as (_ & Es & Em).
    apply (settled_ext s' pid T); [assumption|assumption|]. apply H; [now right|assumption].
  - apply IH. intros s' Hin. apply H. now right.
Qed.

(** [projectSettled] only reads the rows. *)
Lemma projectSettled_ext job t t' :
  contents t' = contents t -> projectSettled job t -> projectSettled job t'.
Proof.
  intros E (pid & Hf & Hr & Hs). apply contents_rows in E as (Ep & Es & Em).
  rewrite projects_upsert_snd in Hr. cbn [projects] in Hr.
  apply upsert_fixed_inv in Hr as [Hex Hfix].
  exists pid. split; [|split].
  - rewrite <- Hf, !projects_upsert_fst. now apply upsert_fst_rows.
  - rewrite projects_upsert_snd. cbn [projects]. apply upsert_fixed; rewrite Ep; assumption.
  - intros s Hin Hp. apply (settled_ext s pid t); auto.
Qed.

Lemma projectTables_fixed job T :
  projectSettled job T -> contents (projectTables job T) = contents T.
Proof.
  intros (pid & Hp & Hr & Hs). unfold projectTables. rewrite Hp.
  rewrite sessionsTables_fixed.
  - unfold contents. rewrite Hr. now rewrite projects_upsert_snd.
  - intros s Hin Hpath. apply (settled_ext s pid T); [| |now apply Hs];
      now rewrite projects_upsert_snd.
Qed.

Lemma projectsTables_fixed jobs :
  forall T, Forall (fun job => projectSettled job T) jobs ->
            contents (projectsTables jobs T) = contents T.
Proof.
  induction jobs as [|job rest IH]; intros T H; [reflexivity|].
  apply List.Forall_cons_iff in H as [Hj Hr].
  change (projectsTables (job :: rest) T) with (projectsTables rest (projectTables job T)).
  pose proof (projectTables_fixed job T Hj) as E. rewrite <- E. apply IH.
  eapply List.Forall_impl; [|exact Hr]. intros job0. now apply projectSettled_ext.
Qed.

(** The inner loop settles its sessions and keeps settled what it does
    not import. *)
Lemma sessionsTables_settles sessions pid :
  forall t,
    uniqueIds t -> NoDup (imported sessions) ->
    uniqueIds (sessionsTables sessions pid t)
    /\ projects (sessionsTables sessions pid t) = projects t
    /\ (forall s, In s sessions -> hasPath s = true ->
                  settled s pid (sessionsTables sessions pid t))
    /\ (forall s0 pid0,
           settled s0 pid0 t -> ~ In (sessionIdOf s0) (imported sessions) ->
           settled s0 pid0 (sessionsTables sessions pid t)).
Proof.
  induction sessions as [|s rest IH]; intros t Hu Hnd.
  - simpl. split; [assumption|]. split; [reflexivity|]. split; [intros s0 []|auto].
  - simpl sessionsTables. unfold imported in Hnd. simpl in Hnd.
    destruct (hasPath s) eqn:Hs.
    + simpl in Hnd. apply NoDup_cons in Hnd as [Hnot Hnd].
      rewrite list_elem_of_In in Hnot.
      destruct (IH (importTables s pid t) (importTables_uniqueIds s pid t Hu) Hnd)
        as (Hu' & Hp' & Hin' & Hout').
      split; [assumption|]. split.
      { rewrite Hp'. now destruct (importTables_frame s pid t). }
      split.
      * intros s' [<-|Hin] Hs'; [|now apply Hin'].
        apply Hout'; [|exact Hnot].
        apply import_settled.
      * intros s0 pid0 H0 Hn0. apply Hout'.
        -- apply settled_other; [|assumption|assumption].
           intros E. apply Hn0. unfold imported. simpl. rewrite Hs. left.
           unfold sessionIdOf. now symmetry.
        -- intros Hin. apply Hn0. unfold imported. simpl. rewrite Hs. now right.
    + destruct (IH t Hu Hnd) as (Hu' & Hp' & Hin' & Hout').
      split; [assumption|]. split; [assumption|]. split.
      * intros s' [<-|Hin] Hs'; [congruence|now apply Hin'].
      * intros s0 pid0 H0 Hn0. apply Hout'; [assumption|].
        intros Hin. apply Hn0. unfold imported. simpl. now rewrite Hs.
Qed.

(** *** Projects under another identifier *)

Lemma projectKey_apart u u' r : u <> u' -> projectKey u r = true -> projectKey u' r = false.
Proof.
  unfold projectKey. intros Hne H. apply String.eqb_eq in H. apply String.eqb_neq. congruence.
Qed.

(** A project row that its upsert leaves alone is left alone after the
    upsert of a project under another identifier. *)
Lemma projects_upsert_other p p' t t' :
  Project.projectUuid p <> Project.projectUuid p' ->
  rows (projects (snd (projects_upsert p t))) = rows (projects t) ->
  projects t' = projects (snd (projects_upsert p' t)) ->
  fst (projects_upsert p t') = fst (projects_upsert p t)
  /\ rows (projects (snd (projects_upsert p t'))) = rows (projects t').
Proof.
  intros Hne Hs E.
  rewrite projects_upsert_snd in Hs. cbn [projects] in Hs.
  apply upsert_fixed_inv in Hs as [Hex Hfix].
  set (key := projectKey (Project.projectUuid p)) in *.
  set (key' := projectKey (Project.projectUuid p')).
  assert (Hd : forall r, key r = true -> key' r = false)
    by (intros r; now apply projectKey_apart).
  assert (Hfo : forall i, key (projectRow i p') = false).
  { intros i. unfold key, projectKey. simpl. apply String.eqb_neq. congruence. }
  rewrite !projects_upsert_fst, (projects_upsert_snd p t'), E, (projects_upsert_snd p' t).
  cbn [projects]. fold key key'. split.
  - apply upsert_fst_other; auto.
  - apply upsert_fixed_other; auto.
Qed.

Lemma settled_project s pid p t : settled s pid t -> settled s pid (snd (projects_upsert p t)).
Proof. apply settled_ext; now rewrite projects_upsert_snd. Qed.

Lemma projects_upsert_uniqueIds p t : uniqueIds t -> uniqueIds (snd (projects_upsert p t)).
Proof. unfold uniqueIds. now rewrite projects_upsert_snd. Qed.

(** One turn settles its project and keeps the others settled. *)
Lemma projectTables_settles job t :
  uniqueIds t -> NoDup (imported (snd job)) ->
  uniqueIds (projectTables job t)
  /\ projectSettled job (projectTables job t)
  /\ (forall job0,
         projectSettled job0 t ->
         Project.projectUuid (fst job0) <> Project.projectUuid (fst job) ->
         (forall x, In x (imported (snd job0)) -> ~ In x (imported (snd job))) ->
         projectSettled job0 (projectTables job t)).
Proof.
  intros Hu Hnd. unfold projectTables.
  set (pid := fst (projects_upsert (fst job) t)).
  set (t1 := snd (projects_upsert (fst job) t)).
  destruct (sessionsTables_settles (snd job) pid t1 (projects_upsert_uniqueIds _ t Hu) Hnd)
    as (Hu' & Hp' & Hin' & Hout').
  split; [assumption|]. split.
  - destruct (projects_upsert_settled (fst job) t _ Hp') as [Hf Hr].
    exists pid. split; [exact Hf|]. split; [exact Hr|assumption].
  - intros job0 (pid0 & Hp0 & Hr0 & Hs0) Hne Hdis.
    destruct (projects_upsert_other (fst job0) (fst job) t _ Hne Hr0 Hp') as [Hf Hr].
    exists pid0. split; [congruence|]. split; [exact Hr|].
    intros s Hin Hs. apply Hout'.
    + apply settled_project. now apply Hs0.
    + apply Hdis. unfold imported. apply in_map. apply filter_In. now split.
Qed.

Lemma projectsTables_settles jobs :
  forall t,
    uniqueIds t ->
    NoDup (List.map (fun job => Project.projectUuid (fst job)) jobs) ->
    NoDup (flat_map (fun job => imported (snd job)) jobs) ->
    uniqueIds (projectsTables jobs t)
    /\ Forall (fun job => projectSettled job (projectsTables jobs t)) jobs
    /\ (forall job0,
           projectSettled job0 t ->
           ~ In (Project.projectUuid (fst job0))
                (List.map (fun job => Project.projectUuid (fst job)) jobs) ->
           (forall x, In x (imported (snd job0)) ->
                      ~ In x (flat_map (fun job => imported (snd job)) jobs)) ->
           projectSettled job0 (projectsTables jobs t)).
Proof.
  induction jobs as [|job rest IH]; intros t Hu Hpu Hsid.
  - simpl. split; [assumption|]. split; [constructor|auto].
  - simpl in Hpu, Hsid. apply NoDup_cons in Hpu as [Hpn Hpu].
    rewrite list_elem_of_In in Hpn.
    apply NoDup_app in Hsid as (Hs1 & Hdis & Hs2).
    destruct (projectTables_settles job t Hu Hs1) as (Hu1 & Hset1 & Hout1).
    destruct (IH (projectTables job t) Hu1 Hpu Hs2) as (Hu' & Hall & Hout').
    change (projectsTables (job :: rest) t) with (projectsTables rest (projectTables job t)).
    split; [assumption|]. split.
    + constructor; [|assumption]. apply Hout'; [assumption|assumption|].
      intros x Hx Hin. apply (Hdis x); now apply list_elem_of_In.
    + intros job0 H0 Hn0 Hd0. apply Hout'.
      * apply Hout1; [assumption| |].
        -- intros E. apply Hn0. simpl. left. now symmetry.
        -- intros x Hx Hin. apply (Hd0 x Hx). simpl. apply in_or_app. now left.
      * intros Hin. apply Hn0. simpl. now right.
      * intros x Hx Hin. apply (Hd0 x Hx). simpl. apply in_or_app. now right.
Qed.

(** The loops of [importAll] run a second time change no row, when no
    two projects share an identifier and no two imported sessions do. *)
Lemma projectsTables_idem jobs t :
  uniqueIds t ->
  NoDup (List.map (fun job => Project.projectUuid (fst job)) jobs) ->
  NoDup (flat_map (fun job => imported (snd job)) jobs) ->
  contents (projectsTables jobs (projectsTables jobs t)) = contents (projectsTables jobs t).
Proof.
  intros Hu Hpu Hsid. apply projectsTables_fixed.
  now destruct (projectsTables_settles jobs t Hu Hpu Hsid) as (_ & H & _).
Qed.

(** *** The loops on the connection *)

Lemma toDateTimeString_some x s w : dateTimeOf x = Some s -> toDateTimeString x w = (Ok s, w).
Proof.
  unfold dateTimeOf, toDateTimeString. destruct x as [t|]; [|discriminate].
  now intros ->.
Qed.

Lemma dateTimeOf_ok (pick : Z -> Z -> Z) (f : SessionWithProject.t -> string) sessions :
  (forall a b, pick a b = a \/ pick a b = b) ->
  sessions <> [] ->
  (forall s, In s sessions -> exists t, dateGetTime (f s) = Some t /\ timeOk t) ->
  exists str, dateTimeOf (extremum pick (List.map (fun s => dateGetTime (f s)) sessions))
              = Some str.
Proof.
  intros Hpick Hne H.
  destruct (extremum_ok pick (List.map (fun s => dateGetTime (f s)) sessions) Hpick)
    as (t & -> & Ht).
  - now destruct sessions.
  - intros x Hx. apply in_map_iff in Hx as (s & <- & Hs). now apply H.
  - simpl. set (w := mkWorld (mkSqlite (mkTables (mkTable [] 0) (mkTable [] 0) (mkTable [] 0))
                                       (mkTables (mkTable [] 0) (mkTable [] 0) (mkTable [] 0))
                                       false [])
                             (mkSqlite [] [] false []) []).
    destruct (toDateTimeString_ok t w Ht) as [s Hs].
    unfold toDateTimeString in Hs.
    destruct (Time.toDateTimeString t) as [s'|]; [eauto|discriminate].
Qed.

Lemma turns_exist groups :
  Forall groupOk groups -> exists jobs, Forall2 turnOf groups jobs.
Proof.
  induction 1 as [|e rest [Hne Htimes] _ [jobs IH]]; [exists []; constructor|].
  destruct (dateTimeOf_ok Z.min SessionWithProject.created (snd e) Zmin_pick Hne) as [c Hc].
  { intros s Hs. destruct (Htimes s Hs) as (a & b & Ha & Hok & _). eauto. }
  destruct (dateTimeOf_ok Z.max SessionWithProject.updated (snd e) Zmax_pick Hne) as [u Hu].
  { intros s Hs. destruct (Htimes s Hs) as (a & b & _ & _ & Hb & Hok). eauto. }
  eexists ((_, snd e) :: jobs). constructor; [|exact IH].
  split; [|reflexivity]. unfold groupProject. rewrite Hc, Hu. reflexivity.
Qed.

Lemma turns_uuids groups jobs :
  Forall2 turnOf groups jobs ->
  List.map (fun job => Project.projectUuid (fst job)) jobs = List.map groupUuid groups
  /\ flat_map (fun job => imported (snd job)) jobs
     = List.map sessionIdOf (List.filter hasPath (flat_map snd groups)).
Proof.
  induction 1 as [|e job groups jobs [Hp Hs] _ [IH1 IH2]]; [now split|].
  simpl. rewrite IH1, IH2, Hs. split.
  - f_equal. unfold groupProject in Hp.
    destruct (dateTimeOf _); [|discriminate]. destruct (dateTimeOf _); [|discriminate].
    injection Hp as <-. reflexivity.
  - unfold imported. now rewrite List.filter_app, map_app.
Qed.

(** The inner loop on an idle primary connection and a quiet search
    connection leaves the tables of [sessionsTables]. *)
Lemma importSessions_tables sessions pid pu :
  forall counts w,
    idle (db w) -> quiet w ->
    exists c w',
      importSessions sessions pid pu counts w = (Ok c, w')
      /\ idle (db w') /\ quiet w'
      /\ live (db w') = sessionsTables sessions pid (live (db w)).
Proof.
  induction sessions as [|s rest IH]; intros counts w Hidle Hq.
  - exists counts, w. split; [reflexivity|]. split; [assumption|]. split; [assumption|reflexivity].
  - simpl importSessions. rewrite hasPath_skip. simpl sessionsTables.
    destruct (hasPath s) eqn:Hs; cbn [negb]; cbv iota.
    + destruct (importSession_quiet s pid pu w Hidle Hq) as (w1 & H1 & Hdb1 & Hq1).
      assert (Hidle1 : idle (db w1)) by (rewrite Hdb1; split; reflexivity).
      destruct (IH (fst counts + 1, snd counts) w1 Hidle1 Hq1)
        as (c & w' & H' & Hidle' & Hq' & Hl).
      exists c, w'. split; [|split; [assumption|split; [assumption|]]].
      * erewrite bind_ok.
        2:{ apply tryCatch_ok. erewrite bind_ok by exact H1. reflexivity. }
        exact H'.
      * rewrite Hl, Hdb1. reflexivity.
    + erewrite bind_ok by reflexivity.
      set (w1 := mkWorld _ _ _).
      destruct (IH counts w1 Hidle Hq) as (c & w' & H' & Hidle' & Hq' & Hl).
      exists c, w'. auto.
Qed.

(** The outer loop leaves the tables of [projectsTables]. *)
Lemma importProjects_tables groups :
  forall jobs counts w,
    idle (db w) -> quiet w -> Forall2 turnOf groups jobs ->
    exists c w',
      importProjects groups counts w = (Ok c, w')
      /\ idle (db w') /\ quiet w'
      /\ live (db w') = projectsTables jobs (live (db w)).
Proof.
  induction groups as [|[name sessions] rest IH]; intros jobs counts w Hidle Hq Hturns.
  - inversion Hturns; subst. exists counts, w.
    split; [reflexivity|]. split; [assumption|]. split; [assumption|reflexivity].
  - inversion Hturns as [|e job groups' jobs' [Hp Hs] Hrest]; subst.
    simpl importProjects.
    erewrite bind_ok by reflexivity.
    set (w0 := mkWorld (db w) (searchDb w) _).
    unfold groupProject in Hp. simpl snd in Hp. simpl fst in Hp.
    destruct (dateTimeOf (extremum Z.min _)) as [createdAt|] eqn:Hc; [|discriminate].
    destruct (dateTimeOf (extremum Z.max _)) as [updatedAt|] eqn:Hu; [|discriminate].
    erewrite bind_ok by (apply toDateTimeString_some; exact Hc).
    erewrite bind_ok by (apply toDateTimeString_some; exact Hu).
    injection Hp as Hp. unfold groupUuid in Hp. simpl in Hp.
    set (project := Project.mk _ name _ createdAt updatedAt) in *.
    set (pu := Uuid.generateProjectUuid _) in *.
    assert (Hw0 : w0 = mkWorld (mkSqlite (durable (db w)) (live (db w)) false [])
                               (searchDb w) (console w0)).
    { unfold w0. simpl. now rewrite <- (idle_inv (db w) Hidle). }
    rewrite Hw0. erewrite bind_ok by apply exec_rest.
    cbv iota. clear Hw0.
    set (pid := fst (projects_upsert project (live (db w)))).
    set (T1 := snd (projects_upsert project (live (db w)))).
    set (w1 := mkWorld (mkSqlite T1 T1 false []) (searchDb w) (console w0)).
    assert (Hidle1 : idle (db w1)) by (split; reflexivity).
    destruct (importSessions_tables sessions pid pu counts w1 Hidle1 Hq)
      as (c1 & w2 & H2 & Hidle2 & Hq2 & Hl2).
    erewrite bind_ok by exact H2.
    destruct (IH jobs' c1 w2 Hidle2 Hq2 Hrest) as (c & w' & H' & Hidle' & Hq' & Hl').
    exists c, w'. split; [exact H'|]. split; [assumption|]. split; [assumption|].
    rewrite Hl', Hl2. unfold projectsTables. simpl fold_left. unfold projectTables.
    destruct job as [p ss]. simpl in Hp, Hs. subst p ss. reflexivity.
Qed.

Lemma Permutation_filter_list {A} (p : A -> bool) l l' :
  Permutation l l' -> Permutation (List.filter p l) (List.filter p l').
Proof.
  induction 1; simpl.
  - constructor.
  - destruct (p x); [now constructor|assumption].
  - destruct (p x), (p y); try reflexivity. apply perm_swap.
  - etransitivity; eassumption.
Qed.

(** [importAll] on an idle primary connection and a quiet search
    connection commits the tables of [projectsTables]. *)
Lemma importAll_tables adapters w grouped jobs :
  idle (db w) -> quiet w ->
  groupSessionsByProject
    (List.filter hasName (flat_map SessionAdapter.getSessions adapters)) = Ok grouped ->
  Forall2 turnOf (entries grouped) jobs ->
  exists w',
    importAll adapters w = (Ok tt, w')
    /\ quiet w'
    /\ db w' = mkSqlite (projectsTables jobs (live (db w)))
                        (projectsTables jobs (live (db w))) false [].
Proof.
  intros Hidle Hq Hg Hturns. unfold importAll.
  erewrite bind_ok by reflexivity.
  set (w0 := mkWorld _ _ _).
  destruct (scanAdapters_run adapters [] w0) as [lines1 H1].
  erewrite bind_ok by exact H1. simpl app.
  set (found := flat_map SessionAdapter.getSessions adapters) in *.
  do 3 erewrite bind_ok by reflexivity.
  set (w1 := mkWorld _ _ _).
  destruct (filterValid_run found w1) as [lines2 H2].
  erewrite bind_ok by exact H2.
  erewrite bind_ok by (unfold liftResult; rewrite Hg; reflexivity).
  erewrite bind_ok by reflexivity.
  set (w2 := mkWorld _ _ _).
  destruct (importProjects_tables (entries grouped) jobs (0, 0) w2)
    as ([i e] & w3 & Hp & Hidle3 & Hq3 & Hl3); [exact Hidle|exact Hq|exact Hturns|].
  erewrite bind_ok by exact Hp.
  change (live (db w2)) with (live (db w)) in Hl3.
  destruct w3 as [[D L b f] [SD SL sb sf] C]. destruct Hidle3 as [Hf Hb].
  unfold quiet in Hq3. simpl in Hf, Hb, Hq3, Hl3. subst f b sf L.
  do 3 erewrite bind_ok by reflexivity.
  assert (Herr : exists C',
             (if e >? 0
              then console_log ("Errors: " ++ num e ++ " sessions")%string
              else mret tt)
               (mkWorld (mkSqlite D (projectsTables jobs (live (db w))) false [])
                  (mkSqlite SD SL sb [])
                  (((C ++ [log (nl ++ rule)%string]) ++ [log "Import complete!"])
                     ++ [log ("Successfully imported: " ++ num i ++ " sessions")%string]))
             = (Ok tt, mkWorld (mkSqlite D (projectsTables jobs (live (db w))) false [])
                         (mkSqlite SD SL sb []) C')).
  { destruct (e >? 0); eexists; reflexivity. }
  destruct Herr as [C' Herr].
  cbn [db searchDb console]. erewrite bind_ok by exact Herr.
  do 2 erewrite bind_ok by reflexivity.
  cbn [db searchDb console].
  erewrite bind_ok by apply exec_rest. erewrite bind_ok by reflexivity.
  cbn [db searchDb console].
  erewrite bind_ok by apply exec_rest. erewrite bind_ok by reflexivity.
  cbn [db searchDb console].
  erewrite bind_ok by apply exec_rest. erewrite bind_ok by reflexivity.
  cbn [db searchDb console].
  erewrite bind_ok by reflexivity.
  eexists. split; [reflexivity|]. split; reflexivity.
Qed.

(** X25. Running [importAll] a second time over the same sessions leaves
    every row of the primary store as the first run left it, committed:
    only the id counters of the three tables move on.  This holds on an
    idle primary connection and a search connection with no fault
    scheduled, for sessions with valid dates that group without error,
    when the session rows have distinct ids, no two groups get the same
    project identifier and no two sessions that are imported share a
    session identifier. *)
Theorem importAll_idempotent adapters w grouped :
  let found := flat_map SessionAdapter.getSessions adapters in
  idle (db w) -> quiet w ->
  uniqueIds (live (db w)) ->
  (forall s, In s found -> hasName s = true -> validTimes s) ->
  groupSessionsByProject (List.filter hasName found) = Ok grouped ->
  NoDup (List.map groupUuid grouped) ->
  NoDup (List.map sessionIdOf (List.filter resolvable found)) ->
  exists w1 w2,
    importAll adapters w = (Ok tt, w1)
    /\ importAll adapters w1 = (Ok tt, w2)
    /\ contents (live (db w2)) = contents (live (db w1))
    /\ idle (db w2) /\ durable (db w2) = live (db w2).
Proof.
  intros found Hidle Hq Hu Htimes Hg Hpu Hsid.
  destruct (grouped_sessions found grouped Hg) as [Hperm Hne].
  destruct (turns_exist (entries grouped)) as [jobs Hturns].
  { apply List.Forall_forall. intros e Hin. split.
    - rewrite List.Forall_forall in Hne. now apply Hne.
    - intros s Hin'.
      assert (Hf : In s (List.filter hasName found)).
      { eapply Permutation_in; [exact Hperm|]. apply in_flat_map. eauto. }
      apply filter_In in Hf as [Hf Hn]. now apply Htimes. }
  destruct (turns_uuids _ _ Hturns) as [Hj1 Hj2].
  destruct (importAll_tables adapters w grouped jobs Hidle Hq Hg Hturns)
    as (w1 & H1 & Hq1 & Hdb1).
  assert (Hidle1 : idle (db w1)) by (rewrite Hdb1; split; reflexivity).
  destruct (importAll_tables adapters w1 grouped jobs Hidle1 Hq1 Hg Hturns)
    as (w2 & H2 & _ & Hdb2).
  exists w1, w2. split; [exact H1|]. split; [exact H2|].
  rewrite Hdb2, Hdb1. cbn [live durable].
  split; [|split; [split; reflexivity|reflexivity]].
  apply projectsTables_idem; [exact Hu| |].
  - rewrite Hj1.
    assert (P : List.map groupUuid (entries grouped) ≡ₚ List.map groupUuid grouped)
      by apply Permutation_map, entries_perm.
    rewrite P. exact Hpu.
  - rewrite Hj2.
    assert (P : List.map sessionIdOf (List.filter hasPath (flat_map snd (entries grouped)))
                ≡ₚ List.map sessionIdOf (List.filter resolvable found)).
    { apply Permutation_map. unfold resolvable.
      rewrite <- (filter_filter hasPath hasName found).
      now apply Permutation_filter_list. }
    rewrite P. exact Hsid.
Qed.

End Rerun.

Import Examples.
Local Open Scope string_scope.

Lemma importAll_idempotent_witness :
  exists w1 w2,
    importAll [claude [twoMessages; unknownPath; otherProject]] emptyWorld = (Ok tt, w1)
    /\ importAll [claude [twoMessages; unknownPath; otherProject]] w1 = (Ok tt, w2)
    /\ contents (live (db w2)) = contents (live (db w1))
    /\ idle (db w2) /\ durable (db w2) = live (db w2).
Proof.
  apply (importAll_idempotent (helpers := helpers)
           [claude [twoMessages; unknownPath; otherProject]] emptyWorld
           [("proj", [twoMessages; unknownPath]); ("other", [otherProject])]).
  - split; reflexivity.
  - reflexivity.
  - constructor.
  - intros s [<-|[<-|[<-|[]]]] _;
      exists 1735689600000, 1735689600000; unfold timeOk;
      (split; [reflexivity|split; [lia|split; [reflexivity|lia]]]).
  - reflexivity.
  - apply (bool_decide_unpack _). vm_compute. exact I.
  - apply (bool_decide_unpack _). vm_compute. exact I.
Defined.

Example rerun_runs :
  let w1 := run (importAll [claude [twoMessages; unknownPath; otherProject]]) emptyWorld in
  let w2 := run (importAll [claude [twoMessages; unknownPath; otherProject]]) w1 in
  contents (live (db w2)) = contents (live (db w1))
  /\ List.map SessionRow.session_id (rows (sessions (live (db w1)))) = ["s1"; "s4"]
  /\ len (rows (messages (live (db w1)))) = 3
  /\ autoinc (sessions (live (db w1))) = 2 /\ autoinc (sessions (live (db w2))) = 4.
Proof. vm_compute. repeat split. Qed.

(** The same session found twice, in two lengths: the second run inserts
    a message row again, under a new id, and deletes it again. *)
Example rerun_duplicate_session :
  let w1 := run (importAll [claude [twoMessages; oneMessage]]) emptyWorld in
  let w2 := run (importAll [claude [twoMessages; oneMessage]]) w1 in
  List.map MessageRow.id (rows (messages (live (db w1)))) = [1]
  /\ List.map MessageRow.id (rows (messages (live (db w2)))) = [1]
  /\ autoinc (messages (live (db w1))) = 3 /\ autoinc (messages (live (db w2))) = 6.
Proof. vm_compute. repeat split. Qed.

End RerunFacts.

(** ** Imports of several batches *)

Module BatchFacts.

Import Db Importer ImporterFacts AtomicityFacts.
Local Open Scope Z_scope.

Section Batches.
Context {unicode : Js.Unicode} {helpers : Helpers}.

Lemma upsertAll_app sid ca cwd l1 :
  forall l2 i t,
    upsertAll sid ca cwd (l1 ++ l2) i t
    = upsertAll sid ca cwd l2 (i + len l1) (upsertAll sid ca cwd l1 i t).
Proof.
  induction l1 as [|m l1 IH]; intros l2 i t; simpl.
  - unfold len. simpl. now rewrite Z.add_0_r.
  - rewrite IH. rewrite len_cons. now replace (i + 1 + len l1) with (i + (1 + len l1)) by lia.
Qed.

Lemma wholeBatches_app sid ca cwd done rest D t1 d :
  wholeBatches sid ca cwd done D t1 d -> wholeBatches sid ca cwd (done ++ rest) D t1 d.
Proof.
  intros [->|(k & Hk & Hle & ->)]; [now left|right].
  exists k. split; [assumption|]. split; [rewrite length_app; lia|].
  rewrite firstn_app. replace (50 * k - length done)%nat with 0%nat by lia.
  simpl. now rewrite app_nil_r.
Qed.

(** On an exception the handler of [importSession] rolls back and throws
    again, whatever the connection does. *)
Lemma rollback_rethrow_any e w :
  match (_ ← onDb rollbackTransaction; throw (A := unit) e) w with
  | (Ok _, _) => False
  | (Throw _, w') =>
      durable (db w') = durable (db w) /\ searchDb w' = searchDb w /\ console w' = console w
  end.
Proof.
  destruct w as [[D L b f] S C].
  unfold mbind, M_bind, onDb, rollbackTransaction, tick, throw. simpl.
  destruct f as [|[|] f]; simpl; destruct b; simpl; auto.
Qed.

Lemma exec_tx {A} (stmt : Tables -> A * Tables) w :
  inTransaction (db w) = true ->
  match onDb (exec stmt) w with
  | (Ok a, w') =>
      a = fst (stmt (live (db w))) /\ live (db w') = snd (stmt (live (db w)))
      /\ durable (db w') = durable (db w) /\ inTransaction (db w') = true
      /\ searchDb w' = searchDb w /\ console w' = console w
  | (Throw _, w') =>
      durable (db w') = durable (db w) /\ searchDb w' = searchDb w /\ console w' = console w
  end.
Proof.
  destruct w as [[D L b f] S C]. simpl. intros ->. unfold onDb, exec, tick. simpl.
  destruct f as [|[|] f]; simpl; auto; destruct (stmt L) as [a t]; simpl; auto 10.
Qed.

Lemma commit_any w :
  inTransaction (db w) = true ->
  match onDb commitTransaction w with
  | (Ok _, w') =>
      durable (db w') = live (db w) /\ live (db w') = live (db w)
      /\ inTransaction (db w') = false
      /\ searchDb w' = searchDb w /\ console w' = console w
  | (Throw _, w') =>
      durable (db w') = durable (db w) /\ searchDb w' = searchDb w /\ console w' = console w
  end.
Proof.
  destruct w as [[D L b f] S C]. simpl. intros ->.
  unfold onDb, commitTransaction, tick. simpl.
  destruct f as [|[|] f]; simpl; auto 10.
Qed.

(** The message loop: what is durable is always a whole number of
    batches. *)
Lemma upsertMessages_batches sid ca cwd D t1 :
  forall rest done index acc w,
    index = len done ->
    inTransaction (db w) = true ->
    live (db w) = upsertAll sid ca cwd done 0 t1 ->
    wholeBatches sid ca cwd done D t1 (durable (db w)) ->
    match upsertMessages sid ca cwd rest index acc w with
    | (Ok r, w') =>
        snd r = match rest with [] => snd acc | _ => index + len rest - 1 end
        /\ inTransaction (db w') = true
        /\ live (db w') = upsertAll sid ca cwd (done ++ rest) 0 t1
        /\ wholeBatches sid ca cwd (done ++ rest) D t1 (durable (db w'))
        /\ searchDb w' = searchDb w /\ console w' = console w
    | (Throw _, w') =>
        wholeBatches sid ca cwd (done ++ rest) D t1 (durable (db w'))
        /\ searchDb w' = searchDb w /\ console w' = console w
    end.
Proof.
  induction rest as [|m rest IH]; intros done index acc w Hi Ht Hl Hd.
  - simpl. rewrite app_nil_r. auto 10.
  - cbn [upsertMessages].
    set (md := convertToMessage m sid ca index cwd).
    pose proof (exec_tx (messages_upsert md) w Ht) as He.
    unfold mbind at 1, M_bind at 1.
    destruct (onDb (exec (messages_upsert md)) w) as [[a|e] w1].
    2:{ destruct He as (HD & HS & HC). rewrite HD. split; [now apply wholeBatches_app|auto]. }
    destruct He as (_ & HL1 & HD1 & Ht1 & HS1 & HC1).
    assert (Hl1 : live (db w1) = upsertAll sid ca cwd (done ++ [m]) 0 t1).
    { rewrite HL1, Hl, upsertAll_app. simpl. rewrite Z.add_0_l, <- Hi. reflexivity. }
    assert (Hi1 : index + 1 = len (done ++ [m])).
    { rewrite len_app, Hi. unfold len. simpl. lia. }
    assert (Hd1 : wholeBatches sid ca cwd (done ++ [m]) D t1 (durable (db w1))).
    { rewrite HD1. now apply wholeBatches_app. }
    assert (Hrest : (done ++ [m]) ++ rest = done ++ m :: rest)
      by (rewrite <- app_assoc; reflexivity).
    assert (Hlast : match rest with [] => index | _ => index + 1 + len rest - 1 end
                    = index + len (m :: rest) - 1).
    { rewrite len_cons. destruct rest; [unfold len; simpl; lia|lia]. }
    unfold mbind at 1, M_bind at 1.
    destruct ((index + 1) mod MSG_BATCH_SIZE =? 0) eqn:Hb.
    + pose proof (commit_any w1 Ht1) as Hc. unfold mbind at 1, M_bind at 1.
      destruct (onDb commitTransaction w1) as [[[]|e] w2].
      2:{ destruct Hc as (HD & HS & HC). rewrite HD. split; [|split; congruence].
          rewrite <- Hrest. now apply wholeBatches_app. }
      destruct Hc as (HD2 & HL2 & Ht2 & HS2 & HC2).
      assert (Hd2 : wholeBatches sid ca cwd (done ++ [m]) D t1 (durable (db w2))).
      { right. apply Z.eqb_eq in Hb. unfold MSG_BATCH_SIZE in Hb.
        exists (Z.to_nat ((index + 1) / 50)).
        assert (Hk : index + 1 = 50 * ((index + 1) / 50))
          by (rewrite (Z.div_mod (index + 1) 50) at 1 by lia; lia).
        assert (Hpos : 0 < index + 1) by (rewrite Hi; unfold len; lia).
        assert (Hlen : (50 * Z.to_nat ((index + 1) / 50))%nat = length (done ++ [m])).
        { unfold len in Hi1. lia. }
        split; [lia|]. split; [lia|].
        rewrite Hlen, firstn_all. congruence. }
      pose proof (begin_tx w2 Ht2) as Hbg.
      destruct (onDb beginTransaction w2) as [[[]|e] w3].
      2:{ destruct Hbg as (HD & HS & HC). rewrite HD. split; [|split; congruence].
          rewrite <- Hrest. now apply wholeBatches_app. }
      destruct Hbg as (HD3 & HL3 & Ht3 & HS3 & HC3).
      specialize (IH (done ++ [m]) (index + 1) (fst acc ++ [md], index) w3 Hi1 Ht3).
      rewrite HL3, HL2, HD3 in IH. specialize (IH Hl1 Hd2).
      destruct (upsertMessages sid ca cwd rest (index + 1) _ w3) as [[r|e] w4].
      * destruct IH as (Hr & Ht4 & HL4 & HD4 & HS4 & HC4). rewrite Hrest in *.
        cbn [snd] in Hr. rewrite Hlast in Hr.
        split; [exact Hr|]. repeat split; try assumption; congruence.
      * destruct IH as (HD4 & HS4 & HC4). rewrite Hrest in *.
        repeat split; try assumption; congruence.
    + unfold mret at 1, M_ret at 1.
      specialize (IH (done ++ [m]) (index + 1) (fst acc ++ [md], index) w1 Hi1 Ht1 Hl1 Hd1).
      destruct (upsertMessages sid ca cwd rest (index + 1) _ w1) as [[r|e] w4].
      * destruct IH as (Hr & Ht4 & HL4 & HD4 & HS4 & HC4). rewrite Hrest in *.
        cbn [snd] in Hr. rewrite Hlast in Hr.
        split; [exact Hr|]. repeat split; try assumption; congruence.
      * destruct IH as (HD4 & HS4 & HC4). rewrite Hrest in *.
        repeat split; try assumption; congruence.
Qed.

(** The statements of [importSession] between [BEGIN] and the last
    [COMMIT], for a session of any length. *)
Lemma statements_batches swp pid w :
  let sessionDetail := SessionWithProject.session swp in
  let msgs := SessionDetail.messages sessionDetail in
  let sid := fst (sessions_upsert (sessionDataOf swp pid) (live (db w))) in
  let t1 := snd (sessions_upsert (sessionDataOf swp pid) (live (db w))) in
  let ok := wholeBatches sid (SessionWithProject.created swp)
              (metadataField SessionMetadata.cwd sessionDetail) msgs (durable (db w)) t1 in
  inTransaction (db w) = true ->
  match (existingSession ← onDb (exec (sessions_getByProjectAndSessionId pid
                                         (SessionDetail.sessionId sessionDetail)));
         sessionId ← onDb (exec (sessions_upsert (sessionDataOf swp pid)));
         '(renderableMessages, lastSequence) ←
           upsertMessages sessionId (SessionWithProject.created swp)
             (metadataField SessionMetadata.cwd sessionDetail) msgs 0 ([], -1);
         _ ← (if lastSequence >=? 0
              then onDb (exec (messages_deleteBySessionIdAndMinSequence sessionId
                                 lastSequence))
              else mret tt);
         mret renderableMessages) w with
  | (Ok _, w') =>
      inTransaction (db w') = true
      /\ live (db w') = importTables swp pid (live (db w))
      /\ ok (durable (db w'))
      /\ searchDb w' = searchDb w /\ console w' = console w
  | (Throw _, w') =>
      ok (durable (db w')) /\ searchDb w' = searchDb w /\ console w' = console w
  end.
Proof.
  intros sd msgs sid t1 ok Ht. subst ok msgs.
  pose proof (exec_tx (sessions_getByProjectAndSessionId pid (SessionDetail.sessionId sd))
                w Ht) as H1.
  unfold mbind at 1, M_bind at 1.
  destruct (onDb (exec (sessions_getByProjectAndSessionId _ _)) w) as [[a|e] w1].
  2:{ destruct H1 as (HD & HS & HC). split; [left; exact HD|auto]. }
  destruct H1 as (_ & HL1 & HD1 & Ht1 & HS1 & HC1). cbn [sessions_getByProjectAndSessionId snd] in HL1.
  pose proof (exec_tx (sessions_upsert (sessionDataOf swp pid)) w1 Ht1) as H2.
  unfold mbind at 1, M_bind at 1.
  destruct (onDb (exec (sessions_upsert (sessionDataOf swp pid))) w1) as [[sid'|e] w2].
  2:{ destruct H2 as (HD & HS & HC). split; [left; congruence|split; congruence]. }
  destruct H2 as (Hsid & HL2 & HD2 & Ht2 & HS2 & HC2). rewrite HL1 in Hsid, HL2.
  fold sid in Hsid. fold t1 in HL2. subst sid'.
  pose proof (upsertMessages_batches sid (SessionWithProject.created swp)
                (metadataField SessionMetadata.cwd sd) (durable (db w)) t1
                (SessionDetail.messages sd) [] 0 ([], -1) w2 eq_refl Ht2 HL2) as H3.
  simpl app in H3.
  unfold mbind at 1, M_bind at 1.
  destruct (upsertMessages sid _ _ (SessionDetail.messages sd) 0 ([], -1) w2)
    as [[[rms last]|e] w3].
  2:{ destruct H3 as (HD & HS & HC); [left; congruence|].
      split; [exact HD|split; congruence]. }
  destruct H3 as (Hlast & Ht3 & HL3 & HD3 & HS3 & HC3); [left; congruence|].
  cbn [snd] in Hlast.
  assert (Himp : importTables swp pid (live (db w))
                 = match SessionDetail.messages sd with
                   | [] => live (db w3)
                   | _ => deleteAfter sid (len (SessionDetail.messages sd) - 1) (live (db w3))
                   end).
  { rewrite importTables_eq. cbv zeta. fold sd sid t1. now rewrite HL3. }
  destruct (SessionDetail.messages sd) as [|m0 ms] eqn:Em.
  - subst last. change (-1 >=? 0) with false. cbv iota.
    unfold mbind, M_bind, mret, M_ret.
    repeat split; try assumption; congruence.
  - assert (Hge : (last >=? 0) = true).
    { subst last. apply Z.geb_le. unfold len. simpl length. lia. }
    rewrite Hge.
    pose proof (exec_tx (messages_deleteBySessionIdAndMinSequence sid last) w3 Ht3) as H4.
    unfold mbind at 1, M_bind at 1.
    destruct (onDb (exec (messages_deleteBySessionIdAndMinSequence sid last)) w3)
      as [[[]|e] w4].
    2:{ destruct H4 as (HD & HS & HC). split; [congruence|split; congruence]. }
    destruct H4 as (_ & HL4 & HD4 & Ht4 & HS4 & HC4).
    unfold mret, M_ret. split; [assumption|]. split.
    + rewrite Himp, HL4. subst last.
      now replace (0 + len (m0 :: ms) - 1) with (len (m0 :: ms) - 1) by lia.
    + split; [congruence|split; congruence].
Qed.

(** X26. [importSession] on a session of any length, whichever calls
    into the connection fail.  Started outside a transaction, it either
    returns, and then the store holds the import, committed; or it
    throws, and then the search index and the console are untouched and
    what is durable is either what was durable before or the session row
    with a whole number of batches of fifty messages: a failure past the
    first batch leaves a partial import behind. *)
Theorem importSession_whole_batches :
  forall swp projectId projectUuid w,
    inTransaction (db w) = false ->
    match importSession swp projectId projectUuid w with
    | (Ok _, w') =>
        durable (db w') = importTables swp projectId (live (db w))
        /\ live (db w') = durable (db w') /\ inTransaction (db w') = false
    | (Throw _, w') =>
        (durable (db w') = durable (db w)
         \/ exists k : nat,
              (0 < k)%nat
              /\ (50 * k <= length (SessionDetail.messages (SessionWithProject.session swp)))%nat
              /\ durable (db w') = batchTables swp projectId (50 * k) (live (db w)))
        /\ searchDb w' = searchDb w /\ console w' = console w
    end.
Proof.
  intros swp pid pu w Hout. rewrite importSession_try.
  pose proof (begin_tx w Hout) as Hb. unfold mbind at 1, M_bind at 1.
  destruct (onDb beginTransaction w) as [[[]|e] w1];
    [|destruct Hb as (? & ? & ?); split; [now left|auto]].
  destruct Hb as (HD1 & HL1 & Ht1 & HS1 & HC1).
  pose proof (statements_batches swp pid w1 Ht1) as Hs. cbv zeta in Hs.
  rewrite HL1, HD1 in Hs.
  assert (Hok : forall d,
             wholeBatches (fst (sessions_upsert (sessionDataOf swp pid) (live (db w))))
               (SessionWithProject.created swp)
               (metadataField SessionMetadata.cwd (SessionWithProject.session swp))
               (SessionDetail.messages (SessionWithProject.session swp))
               (durable (db w))
               (snd (sessions_upsert (sessionDataOf swp pid) (live (db w)))) d ->
             d = durable (db w)
             \/ exists k : nat,
                  (0 < k)%nat
                  /\ (50 * k <= length (SessionDetail.messages (SessionWithProject.session swp)))%nat
                  /\ d = batchTables swp pid (50 * k) (live (db w))).
  { intros d [->|(k & Hk & Hle & ->)]; [now left|right].
    exists k. split; [assumption|]. split; [assumption|].
    unfold batchTables. now destruct (sessions_upsert _ _). }
  unfold tryCatch. unfold mbind at 1, M_bind at 1.
  match type of Hs with match ?m w1 with _ => _ end => destruct (m w1) as [[rms|e] w2] end.
  - destruct Hs as (Ht2 & HL2 & HD2 & HS2 & HC2).
    pose proof (commit_any w2 Ht2) as Hc. unfold mbind at 1, M_bind at 1.
    destruct (onDb commitTransaction w2) as [[[]|e] w3].
    + destruct Hc as (HD3 & HL3 & Ht3 & _).
      pose proof (indexSession_ok swp pu (titleOf swp) rms w3) as Hi.
      pose proof (keepsDb_indexSession swp pu (titleOf swp) rms w3) as Hdb.
      destruct (indexSession swp pu (titleOf swp) rms w3) as [[[]|e] w4]; [|discriminate Hi].
      simpl in Hdb. rewrite Hdb. repeat split; congruence.
    + destruct Hc as (HD3 & HS3 & HC3).
      pose proof (rollback_rethrow_any e w3) as Hr.
      destruct ((_ ← onDb rollbackTransaction; throw e) w3) as [[[]|e'] w4]; [contradiction|].
      destruct Hr as (HD4 & HS4 & HC4). split; [|split; congruence].
      apply Hok. congruence.
  - destruct Hs as (HD2 & HS2 & HC2).
    pose proof (rollback_rethrow_any e w2) as Hr.
    destruct ((_ ← onDb rollbackTransaction; throw e) w2) as [[[]|e'] w3]; [contradiction|].
    destruct Hr as (HD3 & HS3 & HC3). split; [|split; congruence].
    apply Hok. congruence.
Qed.

End Batches.

Import Examples.
Local Open Scope string_scope.

Lemma importSession_whole_batches_witness :
  match importSession fiftyOne 1 projectUuid (primaryFailsAt 55 emptyWorld) with
  | (Ok _, w') =>
      durable (db w') = importTables fiftyOne 1 emptyTables
      /\ live (db w') = durable (db w') /\ inTransaction (db w') = false
  | (Throw _, w') =>
      (durable (db w') = emptyTables
       \/ exists k : nat,
            (0 < k)%nat
            /\ (50 * k <= length (SessionDetail.messages (SessionWithProject.session fiftyOne)))%nat
            /\ durable (db w') = batchTables fiftyOne 1 (50 * k) emptyTables)
      /\ searchDb w' = searchDb emptyWorld /\ console w' = []
  end.
Proof.
  apply (importSession_whole_batches (helpers := helpers) fiftyOne 1 projectUuid
           (primaryFailsAt 55 emptyWorld)).
  reflexivity.
Defined.

(** The fifty-first upsert fails: the import throws, and the session row
    and the first fifty messages stay. *)
Example first_batch_stays :
  let r := importSession fiftyOne 1 projectUuid (primaryFailsAt 55 emptyWorld) in
  fst r = Throw injected
  /\ durable (db (snd r)) = batchTables fiftyOne 1 50 emptyTables
  /\ len (rows (messages (durable (db (snd r))))) = 50
  /\ len (rows (sessions (durable (db (snd r))))) = 1.
Proof. vm_compute. repeat split. Qed.

End BatchFacts.

(** ** The search index when [importAll] runs again *)

Module SearchRerunFacts.

Import Db Importer ImporterFacts SearchIndexFacts RerunFacts.
Local Open Scope Z_scope.

Section SearchRerun.
Context {unicode : Js.Unicode} {helpers : Helpers}.

(** *** The loops on the search rows *)

Lemma sessionIndex_nil s pu :
  sessionIndex s pu []
  = searchEntries s pu
      (convertAll 0 (SessionWithProject.created s)
         (metadataField SessionMetadata.cwd (SessionWithProject.session s))
         (SessionDetail.messages (SessionWithProject.session s)) 0).
Proof. reflexivity. Qed.

Lemma sessionIndex_eq s pu t : sessionIndex s pu t = otherSessions s t ++ sessionIndex s pu [].
Proof. reflexivity. Qed.

(** Every row of a session carries its identifier. *)
Lemma sessionIndex_ids s pu r :
  In r (sessionIndex s pu []) -> Search.sessionId r = sessionIdOf s.
Proof.
  rewrite sessionIndex_nil. unfold searchEntries. intros Hin.
  apply in_map_iff in Hin as (m & <- & _). reflexivity.
Qed.

Lemma otherSessions_without s t :
  otherSessions s t = withoutSessions [sessionIdOf s] t.
Proof.
  unfold otherSessions, search_deleteBySessionId, withoutSessions. cbn [snd].
  apply filter_ext. intros r. simpl. now rewrite orb_false_r.
Qed.

Lemma withoutSessions_app ids t t' :
  withoutSessions ids (t ++ t') = withoutSessions ids t ++ withoutSessions ids t'.
Proof. apply List.filter_app. Qed.

Lemma withoutSessions_twice ids ids' t :
  withoutSessions ids (withoutSessions ids' t) = withoutSessions (ids' ++ ids) t.
Proof.
  unfold withoutSessions. rewrite filter_filter. apply filter_ext. intros r.
  now rewrite existsb_app, negb_orb.
Qed.

Lemma withoutSessions_keeps ids t :
  (forall r, In r t -> ~ In (Search.sessionId r) ids) -> withoutSessions ids t = t.
Proof.
  intros H. apply filter_all. intros r Hr. apply negb_true_iff.
  destruct (existsb _ ids) eqn:E; [|reflexivity].
  apply existsb_exists in E as (x & Hx & Heq). apply String.eqb_eq in Heq.
  exfalso. apply (H r Hr). now rewrite Heq.
Qed.

Lemma withoutSessions_drops ids t :
  (forall r, In r t -> In (Search.sessionId r) ids) -> withoutSessions ids t = [].
Proof.
  intros H. unfold withoutSessions. induction t as [|r t IH]; [reflexivity|]. simpl.
  assert (E : existsb (String.eqb (Search.sessionId r)) ids = true).
  { apply existsb_exists. exists (Search.sessionId r).
    split; [apply H; now left|apply String.eqb_refl]. }
  rewrite E. simpl. apply IH. intros r' Hr'. apply H. now right.
Qed.

Lemma sessionsEntries_ids sessions pu r :
  In r (sessionsEntries sessions pu) -> In (Search.sessionId r) (imported sessions).
Proof.
  unfold sessionsEntries, imported. intros Hin.
  apply in_flat_map in Hin as (s & Hs & Hr).
  rewrite (sessionIndex_ids s pu r Hr). now apply in_map.
Qed.

(** The inner loop moves the rows of its sessions to the end. *)
Lemma sessionsIndex_eq sessions pu :
  forall t,
    NoDup (imported sessions) ->
    sessionsIndex sessions pu t
    = withoutSessions (imported sessions) t ++ sessionsEntries sessions pu.
Proof.
  induction sessions as [|s rest IH]; intros t Hnd.
  - simpl. unfold sessionsEntries. simpl. rewrite app_nil_r.
    symmetry. apply withoutSessions_keeps. auto.
  - simpl sessionsIndex. unfold imported, sessionsEntries in *. simpl in *.
    destruct (hasPath s) eqn:Hs; [|now apply IH].
    simpl in Hnd. apply NoDup_cons in Hnd as [Hnot Hnd]. rewrite list_elem_of_In in Hnot.
    rewrite (IH _ Hnd). simpl. rewrite sessionIndex_eq at 1.
    rewrite withoutSessions_app, otherSessions_without, withoutSessions_twice.
    rewrite (withoutSessions_keeps _ (sessionIndex s pu [])).
    + simpl. now rewrite <- app_assoc.
    + intros r Hr. now rewrite (sessionIndex_ids s pu r Hr).
Qed.

Lemma projectsEntries_ids groups r :
  In r (projectsEntries groups) ->
  In (Search.sessionId r) (flat_map (fun e => imported (snd e)) groups).
Proof.
  unfold projectsEntries. intros Hin. apply in_flat_map in Hin as (e & He & Hr).
  apply in_flat_map. exists e. split; [assumption|]. now apply sessionsEntries_ids in Hr.
Qed.

Lemma projectsIndex_eq groups :
  forall t,
    NoDup (flat_map (fun e => imported (snd e)) groups) ->
    projectsIndex groups t
    = withoutSessions (flat_map (fun e => imported (snd e)) groups) t
      ++ projectsEntries groups.
Proof.
  induction groups as [|e rest IH]; intros t Hnd.
  - simpl. unfold projectsEntries. simpl. rewrite app_nil_r.
    symmetry. apply withoutSessions_keeps. auto.
  - simpl in Hnd. apply NoDup_app in Hnd as (Hn1 & Hdis & Hn2).
    simpl projectsIndex. rewrite (IH _ Hn2), (sessionsIndex_eq _ _ _ Hn1).
    rewrite withoutSessions_app, withoutSessions_twice.
    rewrite (withoutSessions_keeps _ (sessionsEntries (snd e) (groupUuid e))).
    + unfold projectsEntries. simpl. now rewrite <- app_assoc.
    + intros r Hr Hin. apply sessionsEntries_ids in Hr.
      apply (Hdis (Search.sessionId r)); now apply list_elem_of_In.
Qed.

(** The loops of [importAll] run a second time leave the search rows as
    they are, when no two imported sessions share an identifier. *)
Lemma projectsIndex_idem groups t :
  NoDup (flat_map (fun e => imported (snd e)) groups) ->
  projectsIndex groups (projectsIndex groups t) = projectsIndex groups t.
Proof.
  intros Hnd. rewrite (projectsIndex_eq groups (projectsIndex groups t) Hnd).
  rewrite (projectsIndex_eq groups t Hnd).
  rewrite withoutSessions_app, withoutSessions_twice.
  rewrite (withoutSessions_drops _ (projectsEntries groups))
    by (intros r Hr; now apply projectsEntries_ids).
  rewrite app_nil_r. f_equal.
  unfold withoutSessions. apply filter_ext. intros r.
  rewrite existsb_app. now destruct (existsb _ _).
Qed.

(** *** The loops on the connections *)

(** [importSession] on idle connections. *)
Lemma importSession_both s pid pu D L SD SL C :
  importSession s pid pu (mkWorld (mkSqlite D L false []) (mkSqlite SD SL false []) C)
  = (Ok tt,
     mkWorld (mkSqlite (importTables s pid L) (importTables s pid L) false [])
             (mkSqlite (sessionIndex s pu SL) (sessionIndex s pu SL) false []) C).
Proof.
  rewrite importSession_hands_on, indexSession_rest. unfold sessionIndex.
  assert (E : searchEntries s pu (renderableMessagesOf s pid L)
              = searchEntries s pu
                  (convertAll 0 (SessionWithProject.created s)
                     (metadataField SessionMetadata.cwd (SessionWithProject.session s))
                     (SessionDetail.messages (SessionWithProject.session s)) 0)).
  { apply searchEntries_content. apply convertAll_content. }
  now rewrite E.
Qed.

Lemma idle_search_inv (d : Sqlite (list Search.SearchEntry)) :
  idle d -> d = mkSqlite (durable d) (live d) false [].
Proof. destruct d as [D L b f]. intros [Hf Hb]. simpl in *. now subst. Qed.

(** The inner loop on idle connections leaves the search rows of
    [sessionsIndex]. *)
Lemma importSessions_index sessions pid pu :
  forall counts w,
    idle (db w) -> idle (searchDb w) ->
    exists c w',
      importSessions sessions pid pu counts w = (Ok c, w')
      /\ idle (db w') /\ idle (searchDb w')
      /\ live (searchDb w') = sessionsIndex sessions pu (live (searchDb w)).
Proof.
  induction sessions as [|s rest IH]; intros counts w Hidle Hs.
  - exists counts, w. split; [reflexivity|]. split; [assumption|]. split; [assumption|reflexivity].
  - simpl importSessions. rewrite hasPath_skip. simpl sessionsIndex.
    destruct (hasPath s) eqn:Hp; cbn [negb]; cbv iota.
    + destruct w as [d S C]. simpl in Hidle, Hs.
      rewrite (idle_inv d Hidle), (idle_search_inv S Hs).
      erewrite bind_ok.
      2:{ apply tryCatch_ok. erewrite bind_ok by apply importSession_both. reflexivity. }
      set (w1 := mkWorld _ _ _).
      destruct (IH (fst counts + 1, snd counts) w1) as (c & w' & H' & Hi' & Hs' & Hl');
        [split; reflexivity|split; reflexivity|].
      exists c, w'. split; [exact H'|]. split; [assumption|]. split; [assumption|].
      rewrite Hl'. reflexivity.
    + erewrite bind_ok by reflexivity.
      set (w1 := mkWorld _ _ _).
      destruct (IH counts w1 Hidle Hs) as (c & w' & H' & Hi' & Hs' & Hl').
      exists c, w'. auto.
Qed.

(** The outer loop leaves the search rows of [projectsIndex]. *)
Lemma importProjects_index groups :
  forall jobs counts w,
    idle (db w) -> idle (searchDb w) -> Forall2 turnOf groups jobs ->
    exists c w',
      importProjects groups counts w = (Ok c, w')
      /\ idle (db w') /\ idle (searchDb w')
      /\ live (searchDb w') = projectsIndex groups (live (searchDb w)).
Proof.
  induction groups as [|[name sessions] rest IH]; intros jobs counts w Hidle Hs Hturns.
  - exists counts, w.
    split; [reflexivity|]. split; [assumption|]. split; [assumption|reflexivity].
  - inversion Hturns as [|e job groups' jobs' [Hp _] Hrest]; subst.
    simpl importProjects.
    erewrite bind_ok by reflexivity.
    set (w0 := mkWorld (db w) (searchDb w) _).
    unfold groupProject in Hp. simpl snd in Hp. simpl fst in Hp.
    destruct (dateTimeOf (extremum Z.min _)) as [createdAt|] eqn:Hc; [|discriminate].
    destruct (dateTimeOf (extremum Z.max _)) as [updatedAt|] eqn:Hu; [|discriminate].
    erewrite bind_ok by (apply toDateTimeString_some; exact Hc).
    erewrite bind_ok by (apply toDateTimeString_some; exact Hu).
    clear Hp.
    set (project := Project.mk _ name _ createdAt updatedAt) in *.
    change (Uuid.generateProjectUuid
              (Js.orElse (option_map SessionWithProject.projectPath (head sessions)) name))
      with (groupUuid (name, sessions)).
    assert (Hw0 : w0 = mkWorld (mkSqlite (durable (db w)) (live (db w)) false [])
                               (searchDb w) (console w0)).
    { unfold w0. simpl. now rewrite <- (idle_inv (db w) Hidle). }
    rewrite Hw0. erewrite bind_ok by apply exec_rest.
    cbv iota. clear Hw0.
    set (pid := fst (projects_upsert project (live (db w)))).
    set (T1 := snd (projects_upsert project (live (db w)))).
    set (w1 := mkWorld (mkSqlite T1 T1 false []) (searchDb w) (console w0)).
    assert (Hidle1 : idle (db w1)) by (split; reflexivity).
    destruct (importSessions_index sessions pid (groupUuid (name, sessions)) counts w1 Hidle1 Hs)
      as (c1 & w2 & H2 & Hidle2 & Hs2 & Hl2).
    erewrite bind_ok by exact H2.
    destruct (IH jobs' c1 w2 Hidle2 Hs2 Hrest) as (c & w' & H' & Hidle' & Hs' & Hl').
    exists c, w'. split; [exact H'|]. split; [assumption|]. split; [assumption|].
    rewrite Hl', Hl2. reflexivity.
Qed.

(** [importAll] on idle connections commits the search rows of
    [projectsIndex]. *)
Lemma importAll_index adapters w grouped jobs :
  idle (db w) -> idle (searchDb w) ->
  groupSessionsByProject
    (List.filter hasName (flat_map SessionAdapter.getSessions adapters)) = Ok grouped ->
  Forall2 turnOf (entries grouped) jobs ->
  exists w',
    importAll adapters w = (Ok tt, w')
    /\ idle (db w')
    /\ searchDb w' = mkSqlite (projectsIndex (entries grouped) (live (searchDb w)))
                              (projectsIndex (entries grouped) (live (searchDb w))) false [].
Proof.
  intros Hidle Hs Hg Hturns. unfold importAll.
  erewrite bind_ok by reflexivity.
  set (w0 := mkWorld _ _ _).
  destruct (scanAdapters_run adapters [] w0) as [lines1 H1].
  erewrite bind_ok by exact H1. simpl app.
  set (found := flat_map SessionAdapter.getSessions adapters) in *.
  do 3 erewrite bind_ok by reflexivity.
  set (w1 := mkWorld _ _ _).
  destruct (filterValid_run found w1) as [lines2 H2].
  erewrite bind_ok by exact H2.
  erewrite bind_ok by (unfold liftResult; rewrite Hg; reflexivity).
  erewrite bind_ok by reflexivity.
  set (w2 := mkWorld _ _ _).
  destruct (importProjects_index (entries grouped) jobs (0, 0) w2)
    as ([i e] & w3 & Hp & Hidle3 & Hs3 & Hl3); [exact Hidle|exact Hs|exact Hturns|].
  erewrite bind_ok by exact Hp.
  change (live (searchDb w2)) with (live (searchDb w)) in Hl3.
  destruct w3 as [[D L b f] [SD SL sb sf] C]. destruct Hidle3 as [Hf Hb].
  destruct Hs3 as [Hsf Hsb]. simpl in Hf, Hb, Hsf, Hsb, Hl3. subst f b sf sb SL.
  do 3 erewrite bind_ok by reflexivity.
  assert (Herr : exists C',
             (if e >? 0
              then console_log ("Errors: " ++ num e ++ " sessions")%string
              else mret tt)
               (mkWorld (mkSqlite D L false [])
                  (mkSqlite SD (projectsIndex (entries grouped) (live (searchDb w))) false [])
                  (((C ++ [log (nl ++ rule)%string]) ++ [log "Import complete!"])
                     ++ [log ("Successfully imported: " ++ num i ++ " sessions")%string]))
             = (Ok tt, mkWorld (mkSqlite D L false [])
                         (mkSqlite SD (projectsIndex (entries grouped) (live (searchDb w)))
                                   false []) C')).
  { destruct (e >? 0); eexists; reflexivity. }
  destruct Herr as [C' Herr].
  cbn [db searchDb console]. erewrite bind_ok by exact Herr.
  do 2 erewrite bind_ok by reflexivity.
  cbn [db searchDb console].
  erewrite bind_ok by apply exec_rest. erewrite bind_ok by reflexivity.
  cbn [db searchDb console].
  erewrite bind_ok by apply exec_rest. erewrite bind_ok by reflexivity.
  cbn [db searchDb console].
  erewrite bind_ok by apply exec_rest. erewrite bind_ok by reflexivity.
  cbn [db searchDb console].
  erewrite bind_ok by apply search_exec_rest.
  eexists. split; [reflexivity|]. split; [split; reflexivity|]. reflexivity.
Qed.

Lemma imported_groups (groups : list (string * list SessionWithProject.t)) :
  flat_map (fun e => imported (snd e)) groups
  = List.map sessionIdOf (List.filter hasPath (flat_map snd groups)).
Proof.
  induction groups as [|e l IH]; [reflexivity|].
  simpl. rewrite IH. unfold imported. now rewrite List.filter_app, map_app.
Qed.

(** X27. Running [importAll] a second time over the same sessions leaves
    the search index as the first run left it, rows and order: each
    import removes the rows of its session and appends them again.  This
    holds on idle connections, for sessions with valid dates and no
    project name that [Object.prototype] defines, when no two sessions
    that are imported share a session identifier. *)
Theorem importAll_search_idempotent adapters w :
  let found := flat_map SessionAdapter.getSessions adapters in
  idle (db w) -> idle (searchDb w) ->
  (forall s, In s found -> hasName s = true ->
             validTimes s /\ isPrototypeKey (SessionWithProject.projectName s) = false) ->
  NoDup (List.map sessionIdOf (List.filter resolvable found)) ->
  exists w1 w2,
    importAll adapters w = (Ok tt, w1)
    /\ importAll adapters w1 = (Ok tt, w2)
    /\ searchDb w2 = searchDb w1.
Proof.
  intros found Hidle Hs Hok Hsid.
  destruct (groupInto_ok (List.filter hasName found) []) as [grouped Hg].
  { intros s Hin. apply filter_In in Hin as [Hin Hn]. now apply Hok. }
  fold (groupSessionsByProject (List.filter hasName found)) in Hg.
  destruct (grouped_sessions found grouped Hg) as [Hperm Hne].
  destruct (turns_exist (entries grouped)) as [jobs Hturns].
  { apply List.Forall_forall. intros e Hin. split.
    - rewrite List.Forall_forall in Hne. now apply Hne.
    - intros s Hin'.
      assert (Hf : In s (List.filter hasName found)).
      { eapply Permutation_in; [exact Hperm|]. apply in_flat_map. eauto. }
      apply filter_In in Hf as [Hf Hn]. now apply Hok. }
  destruct (importAll_index adapters w grouped jobs Hidle Hs Hg Hturns)
    as (w1 & H1 & Hidle1 & Hs1).
  assert (Hsi1 : idle (searchDb w1)) by (rewrite Hs1; split; reflexivity).
  destruct (importAll_index adapters w1 grouped jobs Hidle1 Hsi1 Hg Hturns)
    as (w2 & H2 & _ & Hs2).
  exists w1, w2. split; [exact H1|]. split; [exact H2|].
  rewrite Hs2, Hs1. simpl live.
  rewrite projectsIndex_idem; [reflexivity|].
  rewrite imported_groups.
  assert (P : List.map sessionIdOf (List.filter hasPath (flat_map snd (entries grouped)))
              ≡ₚ List.map sessionIdOf (List.filter resolvable found)).
  { apply Permutation_map. unfold resolvable.
    rewrite <- (filter_filter hasPath hasName found).
    now apply Permutation_filter_list. }
  rewrite P. exact Hsid.
Qed.

End SearchRerun.

Import Examples.
Local Open Scope string_scope.

Lemma importAll_search_idempotent_witness :
  exists w1 w2,
    importAll [claude [twoMessages; unknownPath; otherProject]] emptyWorld = (Ok tt, w1)
    /\ importAll [claude [twoMessages; unknownPath; otherProject]] w1 = (Ok tt, w2)
    /\ searchDb w2 = searchDb w1.
Proof.
  apply (importAll_search_idempotent (helpers := helpers)
           [claude [twoMessages; unknownPath; otherProject]] emptyWorld).
  - split; reflexivity.
  - split; reflexivity.
  - intros s [<-|[<-|[<-|[]]]] _; (split; [|reflexivity]);
      exists 1735689600000, 1735689600000; unfold timeOk;
      (split; [reflexivity|split; [lia|split; [reflexivity|lia]]]).
  - apply (bool_decide_unpack _). vm_compute. exact I.
Defined.

Example rerun_search_rows :
  let w1 := run (importAll [claude [twoMessages; unknownPath; otherProject]]) emptyWorld in
  let w2 := run (importAll [claude [twoMessages; unknownPath; otherProject]]) w1 in
  List.map Search.content (live (searchDb w1)) = ["fix bug"; "done"; "add tests"]
  /\ live (searchDb w2) = live (searchDb w1).
Proof. vm_compute. split; reflexivity. Qed.

End SearchRerunFacts.

(** ** A run of [importAll] *)

Module ImportAllFacts.

Import Db Importer ImporterFacts GroupingFacts SearchIndexFacts RerunFacts SearchRerunFacts.
Local Open Scope Z_scope.

Section ImportAll.
Context {unicode : Js.Unicode} {helpers : Helpers}.

(** *** Sessions filed under their project *)

Lemma filed_extends u s t t' : filed u s t -> extends t t' -> filed u s t'.
Proof.
  intros (p & r & Hp & Hu & Hr & Hpid & Hsid) [Hse Hpe].
  destruct (Hse r Hr) as (r' & Hr' & E1 & E2).
  destruct (Hpe p Hp) as (p' & Hp' & E3 & E4).
  exists p', r'. repeat split; congruence.
Qed.

Lemma importTables_filed s pid u t :
  (exists p, In p (rows (projects t)) /\ ProjectRow.id p = pid
             /\ ProjectRow.project_uuid p = u) ->
  filed u s (importTables s pid t).
Proof.
  intros (p & Hp & Hid & Hu).
  destruct (importTables_frame s pid t) as [Hpr Hs].
  assert (Hex : existsb (sessionKey pid (SessionDetail.sessionId (SessionWithProject.session s)))
                        (rows (sessions (importTables s pid t))) = true).
  { rewrite Hs, sessions_upsert_snd. simpl. apply existsb_upsert.
    - intros r Hr. now rewrite sessionKey_overwrite.
    - intros i. apply (sessionKey_sessionRow i (sessionDataOf s pid)). }
  apply existsb_exists in Hex as (r & Hr & Hk). apply sessionKey_eq in Hk as [Hk1 Hk2].
  exists p, r. rewrite Hpr. unfold sessionIdOf. repeat split; congruence.
Qed.

Lemma sessionsTables_filed sessions pid u :
  forall t,
    (exists p, In p (rows (projects t)) /\ ProjectRow.id p = pid
               /\ ProjectRow.project_uuid p = u) ->
    extends t (sessionsTables sessions pid t)
    /\ (forall s, In s sessions -> hasPath s = true ->
                  filed u s (sessionsTables sessions pid t)).
Proof.
  induction sessions as [|s rest IH]; intros t Hp; simpl.
  - split; [apply extends_refl|intros s []].
  - destruct (hasPath s) eqn:Hs.
    + destruct (IH (importTables s pid t)) as [Hext Hf].
      { now destruct (importTables_frame s pid t) as [-> _]. }
      split.
      * eapply extends_trans; [apply importTables_extends|exact Hext].
      * intros s' [<-|Hin] Hs'; [|now apply Hf].
        eapply filed_extends; [|exact Hext]. now apply importTables_filed.
    + destruct (IH t Hp) as [Hext Hf]. split; [exact Hext|].
      intros s' [<-|Hin] Hs'; [congruence|now apply Hf].
Qed.

Lemma projectTables_filed job t :
  extends t (projectTables job t)
  /\ (forall s, In s (snd job) -> hasPath s = true ->
                filed (Project.projectUuid (fst job)) s (projectTables job t)).
Proof.
  unfold projectTables.
  destruct (sessionsTables_filed (snd job) (fst (projects_upsert (fst job) t))
              (Project.projectUuid (fst job)) (snd (projects_upsert (fst job) t)))
    as [Hext Hf]; [apply projects_upsert_row|].
  split; [|exact Hf].
  eapply extends_trans; [apply projects_upsert_extends|exact Hext].
Qed.

Lemma projectsTables_filed jobs :
  forall t,
    extends t (projectsTables jobs t)
    /\ (forall job s, In job jobs -> In s (snd job) -> hasPath s = true ->
                      filed (Project.projectUuid (fst job)) s (projectsTables jobs t)).
Proof.
  induction jobs as [|job rest IH]; intros t.
  - split; [apply extends_refl|intros job s []].
  - change (projectsTables (job :: rest) t) with (projectsTables rest (projectTables job t)).
    destruct (projectTables_filed job t) as [Hext1 Hf1].
    destruct (IH (projectTables job t)) as [Hext Hf]. split.
    + eapply extends_trans; eassumption.
    + intros job' s [<-|Hin] Hs Hp; [|now apply Hf].
      eapply filed_extends; [|exact Hext]. now apply Hf1.
Qed.

(** *** Sessions held whole *)

Lemma find_existsb {R} (f : R -> bool) l :
  existsb f l = true -> exists r, List.find f l = Some r /\ In r l /\ f r = true.
Proof.
  intros H. destruct (List.find f l) as [r|] eqn:E.
  - exists r. apply find_some in E. tauto.
  - apply existsb_exists in H as [r [Hin Hf]].
    eapply find_none in E; [|exact Hin]. congruence.
Qed.

Lemma settled_held job t :
  projectSettled job t ->
  forall s, In s (snd job) -> hasPath s = true -> held (fst job) s t.
Proof.
  intros (pid & Hf & Hr & Hs) s Hin Hp.
  rewrite projects_upsert_snd in Hr. cbn [projects] in Hr.
  apply upsert_fixed_inv in Hr as [Hex Hfix].
  destruct (find_existsb _ _ Hex) as (p & Efind & Hpin & Hpk).
  rewrite projects_upsert_fst, (fst_upsert_find _ _ _ _ _ p Efind) in Hf.
  destruct (Hs s Hin Hp) as (H1 & H2 & H3). subst pid.
  set (sd := sessionDataOf s (ProjectRow.id p)) in *.
  rewrite sessions_upsert_snd in H1. cbn [sessions] in H1.
  apply upsert_fixed_inv in H1 as [Hex' Hfix'].
  destruct (find_existsb _ _ Hex') as (r & Efind' & Hrin & Hrk).
  assert (Hsid : fst (sessions_upsert sd t) = SessionRow.id r).
  { rewrite sessions_upsert_fst. now apply fst_upsert_find. }
  rewrite Hsid in H2, H3.
  apply sessionKey_eq in Hrk as [Hk1 Hk2].
  exists p, r. split; [exact Hpin|]. split; [now apply String.eqb_eq in Hpk|].
  split; [now apply Hfix|]. split; [exact Hrin|]. split; [exact Hk1|].
  split; [exact Hk2|]. split; [apply Hfix'; [exact Hrin|]|split; [exact H2|]].
  - unfold sessionKey. simpl. now rewrite Hk1, Hk2, Z.eqb_refl, String.eqb_refl.
  - intros Hne m Hm Hms. specialize (H3 Hne). unfold deleteAfter in H3. simpl in H3.
    pose proof (filter_fixed_inv _ _ H3 m Hm) as Hk. simpl in Hk.
    apply negb_true_iff, andb_false_iff in Hk as [Hk|Hk].
    + apply Z.eqb_neq in Hk. contradiction.
    + destruct (Z.gtb_spec (MessageRow.sequence m)
                  (len (SessionDetail.messages (SessionWithProject.session s)) - 1)); [discriminate|lia].
Qed.

(** *** The console of a run without failures *)

Lemma scanAdapters_lines adapters :
  forall acc w,
    scanAdapters adapters acc w
    = (Ok (acc ++ flat_map SessionAdapter.getSessions adapters),
       mkWorld (db w) (searchDb w) (console w ++ flat_map scanLines adapters)).
Proof.
  induction adapters as [|a rest IH]; intros acc w.
  - simpl. rewrite !app_nil_r. now destruct w.
  - simpl scanAdapters.
    erewrite bind_ok by reflexivity. erewrite bind_ok by reflexivity.
    rewrite IH. cbn [db searchDb console flat_map]. unfold scanLines at 2.
    rewrite <- !app_assoc. reflexivity.
Qed.

Lemma filterValid_lines allSessions :
  forall w,
    filterValid allSessions w
    = (Ok (List.filter hasName allSessions),
       mkWorld (db w) (searchDb w) (console w ++ namelessLines allSessions)).
Proof.
  induction allSessions as [|s rest IH]; intros w.
  - simpl. rewrite app_nil_r. now destruct w.
  - simpl filterValid.
    change (Js.truthyS (SessionWithProject.projectName s)) with (hasName s).
    change (namelessLines (s :: rest))
      with ((if hasName s then []
             else [log ("Skipping session " ++ sessionIdOf s
                          ++ ": no valid project name")%string])
              ++ namelessLines rest).
    simpl List.filter.
    destruct (hasName s); cbn [negb]; cbv iota.
    + erewrite bind_ok by apply IH. reflexivity.
    + erewrite bind_ok by reflexivity. rewrite IH. cbn [db searchDb console].
      unfold sessionIdOf. rewrite <- app_assoc. reflexivity.
Qed.

(** The inner loop on idle connections. *)
Lemma importSessions_world sessions pid pu :
  forall counts w,
    idle (db w) -> idle (searchDb w) ->
    exists w',
      importSessions sessions pid pu counts w
      = (Ok (fst counts + len (List.filter hasPath sessions), snd counts), w')
      /\ idle (db w') /\ idle (searchDb w')
      /\ live (db w') = sessionsTables sessions pid (live (db w))
      /\ console w' = console w ++ pathlessLines sessions.
Proof.
  induction sessions as [|s rest IH]; intros counts w Hidle Hs.
  - exists w. split; [|split; [assumption|split; [assumption|split; [reflexivity|]]]].
    + simpl. unfold len. simpl. rewrite Z.add_0_r. now destruct counts.
    + simpl. now rewrite app_nil_r.
  - simpl importSessions. rewrite hasPath_skip. simpl sessionsTables.
    change (pathlessLines (s :: rest))
      with ((if hasPath s then []
             else [log ("  Skipping session " ++ sessionIdOf s
                          ++ ": no valid project path")%string])
              ++ pathlessLines rest).
    simpl List.filter.
    destruct (hasPath s) eqn:Hp; cbn [negb]; cbv iota.
    + destruct w as [d S C]. simpl in Hidle, Hs.
      rewrite (idle_inv d Hidle), (idle_search_inv S Hs).
      erewrite bind_ok.
      2:{ apply tryCatch_ok. erewrite bind_ok by apply importSession_both. reflexivity. }
      set (w1 := mkWorld _ _ _).
      destruct (IH (fst counts + 1, snd counts) w1) as (w' & H' & Hi' & Hs' & Hl' & Hc');
        [split; reflexivity|split; reflexivity|].
      exists w'. split; [|split; [assumption|split; [assumption|split]]].
      * rewrite H'. simpl fst. simpl snd. rewrite len_cons, Z.add_assoc. reflexivity.
      * rewrite Hl'. reflexivity.
      * rewrite Hc'. reflexivity.
    + erewrite bind_ok by reflexivity.
      set (w1 := mkWorld _ _ _).
      destruct (IH counts w1 Hidle Hs) as (w' & H' & Hi' & Hs' & Hl' & Hc').
      exists w'. split; [exact H'|]. split; [assumption|]. split; [assumption|].
      split; [exact Hl'|].
      rewrite Hc'. cbn [console w1]. unfold sessionIdOf. rewrite <- app_assoc. reflexivity.
Qed.

(** The outer loop on idle connections. *)
Lemma importProjects_world groups :
  forall jobs counts w,
    idle (db w) -> idle (searchDb w) -> Forall2 turnOf groups jobs ->
    exists w',
      importProjects groups counts w
      = (Ok (fst counts + len (List.filter hasPath (flat_map snd groups)), snd counts), w')
      /\ idle (db w') /\ idle (searchDb w')
      /\ live (db w') = projectsTables jobs (live (db w))
      /\ console w' = console w ++ flat_map projectLines groups.
Proof.
  induction groups as [|[name sessions] rest IH]; intros jobs counts w Hidle Hs Hturns.
  - inversion Hturns; subst. exists w.
    split; [|split; [assumption|split; [assumption|split; [reflexivity|]]]].
    + simpl. unfold len. simpl. rewrite Z.add_0_r. now destruct counts.
    + simpl. now rewrite app_nil_r.
  - inversion Hturns as [|e job groups' jobs' [Hp Hss] Hrest]; subst.
    simpl importProjects.
    erewrite bind_ok by reflexivity.
    set (w0 := mkWorld (db w) (searchDb w) _).
    unfold groupProject in Hp. simpl snd in Hp. simpl fst in Hp.
    destruct (dateTimeOf (extremum Z.min _)) as [createdAt|] eqn:Hc; [|discriminate].
    destruct (dateTimeOf (extremum Z.max _)) as [updatedAt|] eqn:Hu; [|discriminate].
    erewrite bind_ok by (apply toDateTimeString_some; exact Hc).
    erewrite bind_ok by (apply toDateTimeString_some; exact Hu).
    injection Hp as Hp. unfold groupUuid in Hp. simpl in Hp.
    set (project := Project.mk _ name _ createdAt updatedAt) in *.
    set (pu := Uuid.generateProjectUuid _) in *.
    assert (Hw0 : w0 = mkWorld (mkSqlite (durable (db w)) (live (db w)) false [])
                               (searchDb w) (console w0)).
    { unfold w0. simpl. now rewrite <- (idle_inv (db w) Hidle). }
    rewrite Hw0. erewrite bind_ok by apply exec_rest.
    cbv iota. clear Hw0.
    set (pid := fst (projects_upsert project (live (db w)))).
    set (T1 := snd (projects_upsert project (live (db w)))).
    set (w1 := mkWorld (mkSqlite T1 T1 false []) (searchDb w) (console w0)).
    assert (Hidle1 : idle (db w1)) by (split; reflexivity).
    destruct (importSessions_world sessions pid pu counts w1 Hidle1 Hs)
      as (w2 & H2 & Hidle2 & Hs2 & Hl2 & Hc2).
    erewrite bind_ok by exact H2.
    destruct (IH jobs' (fst counts + len (List.filter hasPath sessions), snd counts)
                w2 Hidle2 Hs2 Hrest)
      as (w' & H' & Hidle' & Hs' & Hl' & Hc').
    exists w'. split; [|split; [assumption|split; [assumption|split]]].
    + rewrite H'. simpl fst. simpl snd. simpl flat_map.
      rewrite List.filter_app, len_app, Z.add_assoc. reflexivity.
    + rewrite Hl', Hl2. unfold projectsTables. simpl fold_left. unfold projectTables.
      destruct job as [p ss]. simpl in Hp, Hss. subst p ss. reflexivity.
    + rewrite Hc', Hc2. cbn [console w1 w0 flat_map]. unfold projectLines at 2.
      cbn [fst snd]. rewrite <- !app_assoc. reflexivity.
Qed.

(** [importAll] on idle connections: the world it leaves. *)
Lemma importAll_world adapters w grouped jobs :
  let found := flat_map SessionAdapter.getSessions adapters in
  idle (db w) -> idle (searchDb w) ->
  groupSessionsByProject (List.filter hasName found) = Ok grouped ->
  Forall2 turnOf (entries grouped) jobs ->
  exists w',
    importAll adapters w = (Ok tt, w')
    /\ db w' = mkSqlite (projectsTables jobs (live (db w)))
                        (projectsTables jobs (live (db w))) false []
    /\ idle (searchDb w')
    /\ console w'
       = console w ++ report adapters grouped
           ++ summary (len (List.filter resolvable found)) 0 w'.
Proof.
  intros found Hidle Hs Hg Hturns. unfold importAll.
  erewrite bind_ok by reflexivity.
  erewrite bind_ok by apply scanAdapters_lines. simpl app. fold found.
  do 3 erewrite bind_ok by reflexivity.
  erewrite bind_ok by apply filterValid_lines.
  erewrite bind_ok by (unfold liftResult; rewrite Hg; reflexivity).
  erewrite bind_ok by reflexivity.
  destruct (grouped_sessions found grouped Hg) as [Hperm _].
  set (w2 := mkWorld _ _ _).
  destruct (importProjects_world (entries grouped) jobs (0, 0) w2)
    as (w3 & Hp & Hidle3 & Hs3 & Hl3 & Hc3); [exact Hidle|exact Hs|exact Hturns|].
  erewrite bind_ok by exact Hp. simpl fst. simpl snd.
  rewrite (len_filter_perm hasPath _ _ Hperm), resolvable_count, Z.add_0_l.
  set (n := len (List.filter resolvable found)).
  change (live (db w2)) with (live (db w)) in Hl3.
  destruct w3 as [[D L b f] [SD SL sb sf] C]. destruct Hidle3 as [Hf Hb].
  destruct Hs3 as [Hsf Hsb]. simpl in Hf, Hb, Hsf, Hsb, Hl3, Hc3. subst f b sf sb L C.
  do 3 erewrite bind_ok by reflexivity.
  change (0 >? 0) with false. cbv iota.
  do 3 erewrite bind_ok by reflexivity.
  cbn [db searchDb console].
  erewrite bind_ok by apply exec_rest. erewrite bind_ok by reflexivity.
  cbn [db searchDb console].
  erewrite bind_ok by apply exec_rest. erewrite bind_ok by reflexivity.
  cbn [db searchDb console].
  erewrite bind_ok by apply exec_rest. erewrite bind_ok by reflexivity.
  cbn [db searchDb console].
  erewrite bind_ok by apply search_exec_rest.
  eexists. split; [reflexivity|]. split; [reflexivity|]. split; [split; reflexivity|].
  unfold summary, report. cbn [db searchDb console live w2]. cbv iota.
  change (0 >? 0) with false. cbv iota.
  unfold getCount, search_getCount, len. cbn [fst snd]. fold found.
  rewrite <- !app_assoc. cbn [app]. rewrite <- ?app_assoc. cbn [app].
  rewrite <- ?app_assoc. reflexivity.
Qed.

Lemma turn_of_group groups jobs e :
  Forall2 turnOf groups jobs -> In e groups -> exists job, In job jobs /\ turnOf e job.
Proof.
  induction 1 as [|e0 job groups jobs Ht _ IH]; intros Hin; [destruct Hin|].
  destruct Hin as [<-|Hin].
  - exists job. split; [now left|exact Ht].
  - destruct (IH Hin) as (job' & Hj & Ht'). exists job'. split; [now right|exact Ht'].
Qed.

Lemma turn_name e job : turnOf e job -> Project.name (fst job) = fst e.
Proof.
  intros [Hp _]. unfold groupProject in Hp.
  destruct (dateTimeOf _); [|discriminate]. destruct (dateTimeOf _); [|discriminate].
  injection Hp as <-. reflexivity.
Qed.

(** C9, amended.  On idle connections, when the sessions found that have
    a project name have valid dates and no name that [Object.prototype]
    defines, [importAll] returns, with no value, and leaves the primary
    store committed.  It logs the scan of every adapter, one line for each
    session without a project name, the number of groups, for each group
    its line and one line for each of its sessions without a project path,
    and the summary with the number of sessions imported and no error
    line.  The sessions with a name are grouped by project name, each
    group with its project.  Every session found that has a project name
    and a project path other than the placeholder is filed under the
    project of its group: the store has the project's row and under it a
    row with the session's identifier.  When the session rows had distinct
    ids, no two groups get the same project identifier and no two of the
    sessions imported share an identifier, the store holds each of them
    whole: the columns of the project and of the session, every message
    at its position, and no message row past the last. *)
Theorem importAll_persists_and_logs adapters w :
  let found := flat_map SessionAdapter.getSessions adapters in
  idle (db w) -> idle (searchDb w) ->
  (forall s, In s found -> hasName s = true ->
             validTimes s /\ isPrototypeKey (SessionWithProject.projectName s) = false) ->
  exists grouped jobs w',
    importAll adapters w = (Ok tt, w')
    /\ idle (db w') /\ durable (db w') = live (db w')
    /\ console w'
       = console w ++ report adapters grouped
           ++ summary (len (List.filter resolvable found)) 0 w'
    /\ groupSessionsByProject (List.filter hasName found) = Ok grouped
    /\ groupsOf (List.filter hasName found) grouped
    /\ Forall2 turnOf (entries grouped) jobs
    /\ (forall s, In s found -> resolvable s = true ->
          exists job,
            In job jobs /\ In s (snd job)
            /\ Project.name (fst job) = SessionWithProject.projectName s
            /\ filed (Project.projectUuid (fst job)) s (live (db w'))
            /\ (uniqueIds (live (db w)) ->
                NoDup (List.map groupUuid grouped) ->
                NoDup (List.map sessionIdOf (List.filter resolvable found)) ->
                held (fst job) s (live (db w')))).
Proof.
  intros found Hidle Hs Hok.
  destruct (groupInto_ok (List.filter hasName found) []) as [grouped Hg].
  { intros s Hin. apply filter_In in Hin as [Hin Hn]. now apply Hok. }
  change (groupSessionsByProject (List.filter hasName found) = Ok grouped) in Hg.
  destruct (grouped_sessions found grouped Hg) as [Hperm Hne].
  destruct (turns_exist (entries grouped)) as [jobs Hturns].
  { apply List.Forall_forall. intros e Hin. split.
    - rewrite List.Forall_forall in Hne. now apply Hne.
    - intros s Hin'.
      assert (Hf : In s (List.filter hasName found)).
      { eapply Permutation_in; [exact Hperm|]. apply in_flat_map. eauto. }
      apply filter_In in Hf as [Hf Hn]. now apply Hok. }
  destruct (turns_uuids _ _ Hturns) as [Hj1 Hj2].
  destruct (importAll_world adapters w grouped jobs Hidle Hs Hg Hturns)
    as (w' & Hrun & Hdb & _ & Hcon).
  assert (Hgo : groupsOf (List.filter hasName found) grouped).
  { apply (groupInto_groupsOf (List.filter hasName found) [] [] grouped); [|exact Hg].
    split; [constructor|]. split; intros ? []. }
  exists grouped, jobs, w'. split; [exact Hrun|].
  split; [rewrite Hdb; split; reflexivity|]. split; [now rewrite Hdb|].
  split; [exact Hcon|]. split; [exact Hg|]. split; [exact Hgo|]. split; [exact Hturns|].
  intros s Hin Hr. unfold resolvable in Hr. apply andb_true_iff in Hr as [Hn Hp].
  assert (Hf : In s (flat_map snd (entries grouped))).
  { eapply Permutation_in; [symmetry; exact Hperm|]. apply filter_In. now split. }
  apply in_flat_map in Hf as (e & He & Hse).
  destruct (turn_of_group _ _ e Hturns He) as (job & Hjob & Ht).
  assert (Hsj : In s (snd job)) by (destruct Ht as [_ ->]; exact Hse).
  exists job. split; [exact Hjob|]. split; [exact Hsj|]. split; [|split].
  - rewrite (turn_name e job Ht).
    destruct Hgo as (_ & Hgr & _).
    destruct (Hgr e) as [Hfil _].
    { eapply Permutation_in; [apply entries_perm|exact He]. }
    rewrite Hfil in Hse. apply filter_In in Hse as [_ Hnm].
    unfold named in Hnm. apply String.eqb_eq in Hnm. now symmetry.
  - rewrite Hdb. cbn [live].
    now apply (proj2 (projectsTables_filed jobs (live (db w)))).
  - intros Hu Hpu Hsid. rewrite Hdb. cbn [live].
    destruct (projectsTables_settles jobs (live (db w)) Hu) as (_ & Hall & _).
    + rewrite Hj1.
      assert (P : List.map groupUuid (entries grouped) ≡ₚ List.map groupUuid grouped)
        by apply Permutation_map, entries_perm.
      rewrite P. exact Hpu.
    + rewrite Hj2.
      assert (P : List.map sessionIdOf (List.filter hasPath (flat_map snd (entries grouped)))
                  ≡ₚ List.map sessionIdOf (List.filter resolvable found)).
      { apply Permutation_map. unfold resolvable.
        rewrite <- (filter_filter hasPath hasName found).
        now apply Permutation_filter_list. }
      rewrite P. exact Hsid.
    + rewrite List.Forall_forall in Hall.
      exact (settled_held job _ (Hall job Hjob) s Hsj Hp).
Qed.

End ImportAll.

Import Examples.
Local Open Scope string_scope.

Lemma importAll_persists_and_logs_witness :
  exists job w',
    importAll [claude [twoMessages; unknownPath; otherProject]] emptyWorld = (Ok tt, w')
    /\ In twoMessages (snd job)
    /\ held (fst job) twoMessages (live (db w')).
Proof.
  destruct (importAll_persists_and_logs (helpers := helpers)
              [claude [twoMessages; unknownPath; otherProject]] emptyWorld)
    as (grouped & jobs & w' & Hrun & _ & _ & _ & Hg & _ & _ & Hper).
  - split; reflexivity.
  - split; reflexivity.
  - intros s [<-|[<-|[<-|[]]]] _; (split; [|reflexivity]);
      exists 1735689600000, 1735689600000; unfold timeOk;
      (split; [reflexivity|split; [lia|split; [reflexivity|lia]]]).
  - destruct (Hper twoMessages) as (job & _ & Hin & _ & _ & Hheld);
      [now left|reflexivity|].
    exists job, w'. split; [exact Hrun|]. split; [exact Hin|].
    vm_compute in Hg. injection Hg as <-.
    apply Hheld.
    + constructor.
    + apply (bool_decide_unpack _). vm_compute. exact I.
    + apply (bool_decide_unpack _). vm_compute. exact I.
Defined.

Example importAll_report_lines :
  let w' := snd (importAll [claude [twoMessages; unknownPath; otherProject]] emptyWorld) in
  firstn 10 (console w')
  = [log ("Starting import from all providers..." ++ nl);
     log "Scanning Claude Code sessions...";
     log "Found 3 Claude Code sessions";
     log (nl ++ rule);
     log "Total sessions found: 3";
     log (rule ++ nl);
     log ("Projects detected: 2" ++ nl);
     log "Importing project: proj (2 sessions)";
     log "  Skipping session s2: no valid project path";
     log "Importing project: other (1 sessions)"].
Proof. vm_compute. reflexivity. Qed.

End ImportAllFacts.
